(** * Three-way alignment as a highest-weight path: Blosum62, WDAGraphFileBuilder, WDAGraph

    A shallow embedding of the scoring matrix ([Blosum62]), of the edit-graph
    builder ([WDAGraphFileBuilder]) and of the graph engine ([WDAGraph]),
    together with the properties their description states about them.

    Conventions of the embedding.
    - A [char] is an [ascii]; a [std::string] is a [string] or, for the
      sequences that are indexed with [at], a [list ascii].
    - An exception ([map::at], [string::at]) and the dereference of a
      pointer that designates no object are the [None] of the option monad.
    - A [Vertex*] is the position of the vertex in the [vertices] vector
      (every vertex is pushed there when it is allocated); an [Edge*] is the
      position of the edge in the order of allocation.
    - Sequence positions are [nat]: the [int] counters of the builder range
      over [0 .. length] of a string held in memory.
    - Weights are [Z]. The engine stores them as [double]; every weight the
      builder writes is an integer and the sums of a path stay far below
      2^53, where [double] arithmetic on integers is exact. For the files
      of another origin, a property that states the value of a sum holds
      for weights that are whole numbers and within [Paths.exactSums], which
      keeps every sum of the search in that range; the properties that only
      compare weights, or store them, do not depend on it.
    - The [int] counters of [FastaFile::countBases] are 32 bits wide
      ([FastaFile.increment]). *)

From stdpp Require Import base option list gmap strings pretty.
From Stdlib Require Import ZArith Lia Ascii.

Local Open Scope Z_scope.

(** ** Blosum62 *)

Module Blosum62.

(** [Blosum62::gapChar] *)
Definition gapChar : ascii := "-"%char.

(** [Blosum62::matrix] *)
Definition matrix : list (list Z) :=
  [ [ 4; -1; -2; -2;  0; -1; -1;  0; -2; -1; -1; -1; -1; -2; -1;  1;  0; -3; -2;  0];
    [-1;  5;  0; -2; -3;  1;  0; -2;  0; -3; -2;  2; -1; -3; -2; -1; -1; -3; -2; -3];
    [-2;  0;  6;  1; -3;  0;  0;  0;  1; -3; -3;  0; -2; -3; -2;  1;  0; -4; -2; -3];
    [-2; -2;  1;  6; -3;  0;  2; -1; -1; -3; -4; -1; -3; -3; -1;  0; -1; -4; -3; -3];
    [ 0; -3; -3; -3;  9; -3; -4; -3; -3; -1; -1; -3; -1; -2; -3; -1; -1; -2; -2; -1];
    [-1;  1;  0;  0; -3;  5;  2; -2;  0; -3; -2;  1;  0; -3; -1;  0; -1; -2; -1; -2];
    [-1;  0;  0;  2; -4;  2;  5; -2;  0; -3; -3;  1; -2; -3; -1;  0; -1; -3; -2; -2];
    [ 0; -2;  0; -1; -3; -2; -2;  6; -2; -4; -4; -2; -3; -3; -2;  0; -2; -2; -3; -3];
    [-2;  0;  1; -1; -3;  0;  0; -2;  8; -3; -3; -1; -2; -1; -2; -1; -2; -2;  2; -3];
    [-1; -3; -3; -3; -1; -3; -3; -4; -3;  4;  2; -3;  1;  0; -3; -2; -1; -3; -1;  3];
    [-1; -2; -3; -4; -1; -2; -3; -4; -3;  2;  4; -2;  2;  0; -3; -2; -1; -2; -1;  1];
    [-1;  2;  0; -1; -3;  1;  1; -2; -1; -3; -2;  5; -1; -3; -1;  0; -1; -3; -2; -2];
    [-1; -1; -2; -3; -1;  0; -2; -3; -2;  1;  2; -1;  5;  0; -2; -1; -1; -1; -1;  1];
    [-2; -3; -3; -3; -2; -3; -3; -3; -1;  0;  0; -3;  0;  6; -4; -2; -2;  1;  3; -1];
    [-1; -2; -2; -1; -3; -1; -1; -2; -2; -3; -3; -1; -2; -4;  7; -1; -1; -4; -3; -2];
    [ 1; -1;  1;  0; -1;  0;  0;  0; -1; -2; -2;  0; -1; -2; -1;  4;  1; -3; -2; -2];
    [ 0; -1;  0; -1; -1; -1; -1; -2; -2; -1; -1; -1; -1; -2; -1;  1;  5; -2; -2;  0];
    [-3; -3; -4; -4; -2; -2; -3; -2; -2; -3; -2; -3; -1;  1; -4; -3; -2; 11;  2; -3];
    [-2; -2; -2; -3; -2; -1; -2; -3;  2; -1; -1; -2; -1;  3; -3; -2; -2;  2;  7; -1];
    [ 0; -3; -3; -3; -1; -2; -2; -3; -3;  3;  1; -2;  1; -1; -2; -2;  0; -3; -1;  4] ].

(** [Blosum62::createResidueMap]: the assignments, in the order of the
    source. *)
Definition createResidueMap : gmap ascii nat :=
  <["V"%char := 19%nat]> (<["Y"%char := 18%nat]> (<["W"%char := 17%nat]>
  (<["T"%char := 16%nat]> (<["S"%char := 15%nat]> (<["P"%char := 14%nat]>
  (<["F"%char := 13%nat]> (<["M"%char := 12%nat]> (<["K"%char := 11%nat]>
  (<["L"%char := 10%nat]> (<["I"%char := 9%nat]> (<["H"%char := 8%nat]>
  (<["G"%char := 7%nat]> (<["E"%char := 6%nat]> (<["Q"%char := 5%nat]>
  (<["C"%char := 4%nat]> (<["D"%char := 3%nat]> (<["N"%char := 2%nat]>
  (<["R"%char := 1%nat]> (<["A"%char := 0%nat]> ∅))))))))))))))))))).

(** [Blosum62::residueMap] *)
Definition residueMap : gmap ascii nat := createResidueMap.

(** [Blosum62::getIndex]: [residueMap.at(residue)] throws for a character
    that is no key of the map. *)
Definition getIndex (residue : ascii) : option nat := residueMap !! residue.

(** [Blosum62::gapCost] *)
Definition gapCost : Z := -6.

(** [Blosum62::getScore] *)
Definition getScore (residue1 residue2 : ascii) : option Z :=
  if bool_decide (residue1 ≠ gapChar) && bool_decide (residue2 ≠ gapChar) then
    i1 ← getIndex residue1;
    i2 ← getIndex residue2;
    row ← matrix !! i1;
    row !! i2
  else if bool_decide (residue1 ≠ gapChar) || bool_decide (residue2 ≠ gapChar) then
    Some gapCost
  else Some 0.

(** [Blosum62::sumOfPairsWeight] *)
Definition sumOfPairsWeight (residue1 residue2 residue3 : ascii) : option Z :=
  let score := 0 in
  s12 ← getScore residue1 residue2;
  let score := score + s12 in
  s23 ← getScore residue2 residue3;
  let score := score + s23 in
  s13 ← getScore residue1 residue3;
  let score := score + s13 in
  Some score.

(** The 20 residue characters, in the order of the rows of the matrix. *)
Definition alphabet : list ascii :=
  [ "A"; "R"; "N"; "D"; "C"; "Q"; "E"; "G"; "H"; "I";
    "L"; "K"; "M"; "F"; "P"; "S"; "T"; "W"; "Y"; "V" ]%char.

End Blosum62.

(** A [for] loop over the positions in [l] whose body may throw: the state
    is threaded through the iterations and the first exception ends the
    loop. *)
Fixpoint forEach {S : Type} (l : list nat) (body : nat → S → option S) (s : S)
  : option S :=
  match l with
  | [] => Some s
  | x :: l' => s' ← body x s; forEach l' body s'
  end.

(** ** WDAGraphFileBuilder *)

Module WDAGraphFileBuilder.

(** [gapChar], as the constructor sets it. *)
Definition gapChar : ascii := "-"%char.

(** A vertex of the edit graph: the offsets reached in the three sequences. *)
Definition Loc : Type := nat * nat * nat.

(** One line of the [edges] stream: the label (three characters), the start
    vertex, the end vertex and the weight. *)
Record EdgeLine : Type := mkEdgeLine {
  label : ascii * ascii * ascii;
  startVertex : Loc;
  endVertex : Loc;
  weight : Z
}.

(** One line of the graph file. *)
Inductive Line : Type :=
| V (v : Loc)
| E (e : EdgeLine).

(** [WDAGraphFileBuilder::addEdge]: one line appended to the [edges]
    stream. [sumOfPairsWeight] throws when a residue is unknown. *)
Definition addEdge (edges : list EdgeLine) (residue1 residue2 residue3 : ascii)
    (residue1StartLoc residue2StartLoc residue3StartLoc : nat)
  : option (list EdgeLine) :=
  w ← Blosum62.sumOfPairsWeight residue1 residue2 residue3;
  Some (edges ++
    [ {| label := (residue1, residue2, residue3);
         startVertex := (residue1StartLoc, residue2StartLoc, residue3StartLoc);
         endVertex :=
           ((if bool_decide (residue1 = gapChar)
             then residue1StartLoc else residue1StartLoc + 1)%nat,
            (if bool_decide (residue2 = gapChar)
             then residue2StartLoc else residue2StartLoc + 1)%nat,
            (if bool_decide (residue3 = gapChar)
             then residue3StartLoc else residue3StartLoc + 1)%nat);
         weight := w |} ]).

(** The edge part of the body of the innermost loop of [buildGraphFile].
    [residue1], [residue2] and [residue3] are [None] where the source leaves
    the variable without a value (the sequence is at its end). *)
Definition addEdges (seq1Length seq2Length seq3Length : nat)
    (residue1 residue2 residue3 : option ascii)
    (seq1Loc seq2Loc seq3Loc : nat) (edges : list EdgeLine)
  : option (list EdgeLine) :=
  if bool_decide (seq1Loc < seq1Length)%nat && bool_decide (seq2Loc < seq2Length)%nat
     && bool_decide (seq3Loc < seq3Length)%nat then
    residue1 ← residue1; residue2 ← residue2; residue3 ← residue3;
    (* Edges for single residue change *)
    edges ← addEdge edges residue1 gapChar gapChar seq1Loc seq2Loc seq3Loc;
    edges ← addEdge edges gapChar residue2 gapChar seq1Loc seq2Loc seq3Loc;
    edges ← addEdge edges gapChar gapChar residue3 seq1Loc seq2Loc seq3Loc;
    (* Edges for two residue change *)
    edges ← addEdge edges residue1 residue2 gapChar seq1Loc seq2Loc seq3Loc;
    edges ← addEdge edges gapChar residue2 residue3 seq1Loc seq2Loc seq3Loc;
    edges ← addEdge edges residue1 gapChar residue3 seq1Loc seq2Loc seq3Loc;
    (* Edges for three residue change *)
    addEdge edges residue1 residue2 residue3 seq1Loc seq2Loc seq3Loc
  else if bool_decide (seq1Loc = seq1Length) then
    (* End of first sequence *)
    edges ← (if bool_decide (seq2Loc < seq2Length)%nat
             then residue2 ← residue2;
                  addEdge edges gapChar residue2 gapChar seq1Loc seq2Loc seq3Loc
             else Some edges);
    edges ← (if bool_decide (seq3Loc < seq3Length)%nat
             then residue3 ← residue3;
                  addEdge edges gapChar gapChar residue3 seq1Loc seq2Loc seq3Loc
             else Some edges);
    if bool_decide (seq2Loc < seq2Length)%nat && bool_decide (seq3Loc < seq3Length)%nat
    then residue2 ← residue2; residue3 ← residue3;
         addEdge edges gapChar residue2 residue3 seq1Loc seq2Loc seq3Loc
    else Some edges
  else if bool_decide (seq2Loc = seq2Length) then
    (* End of second sequence *)
    edges ← (if bool_decide (seq1Loc < seq1Length)%nat
             then residue1 ← residue1;
                  addEdge edges residue1 gapChar gapChar seq1Loc seq2Loc seq3Loc
             else Some edges);
    edges ← (if bool_decide (seq3Loc < seq3Length)%nat
             then residue3 ← residue3;
                  addEdge edges gapChar gapChar residue3 seq1Loc seq2Loc seq3Loc
             else Some edges);
    if bool_decide (seq1Loc < seq1Length)%nat && bool_decide (seq3Loc < seq3Length)%nat
    then residue1 ← residue1; residue3 ← residue3;
         addEdge edges residue1 gapChar residue3 seq1Loc seq2Loc seq3Loc
    else Some edges
  else if bool_decide (seq3Loc = seq3Length) then
    (* End of third sequence *)
    edges ← (if bool_decide (seq1Loc < seq1Length)%nat
             then residue1 ← residue1;
                  addEdge edges residue1 gapChar gapChar seq1Loc seq2Loc seq3Loc
             else Some edges);
    edges ← (if bool_decide (seq2Loc < seq2Length)%nat
             then residue2 ← residue2;
                  addEdge edges gapChar residue2 gapChar seq1Loc seq2Loc seq3Loc
             else Some edges);
    if bool_decide (seq1Loc < seq1Length)%nat && bool_decide (seq2Loc < seq2Length)%nat
    then residue1 ← residue1; residue2 ← residue2;
         addEdge edges residue1 residue2 gapChar seq1Loc seq2Loc seq3Loc
    else Some edges
  else Some edges.

(** The two string streams of [buildGraphFile], as lists of lines. *)
Record Streams : Type := mkStreams {
  vertices : list Loc;
  edges : list EdgeLine
}.

(** The residue read at [loc], when the sequence has one there. *)
Definition residueAt (seq : list ascii) (loc : nat) : option ascii :=
  if bool_decide (loc < length seq)%nat then seq !! loc else None.

(** The body of the innermost loop: the vertex line, then the edge lines. *)
Definition vertexBody (seq1 seq2 seq3 : list ascii)
    (residue1 residue2 : option ascii)
    (seq1Loc seq2Loc seq3Loc : nat) (st : Streams) : option Streams :=
  let residue3 := residueAt seq3 seq3Loc in
  let vertices' := vertices st ++ [(seq1Loc, seq2Loc, seq3Loc)] in
  edges' ← addEdges (length seq1) (length seq2) (length seq3)
             residue1 residue2 residue3 seq1Loc seq2Loc seq3Loc (edges st);
  Some {| vertices := vertices'; edges := edges' |}.

(** The three nested loops of [buildGraphFile]. *)
Definition buildStreams (seq1 seq2 seq3 : list ascii) : option Streams :=
  forEach (seq 0 (length seq1 + 1)) (λ seq1Loc st,
    let residue1 := residueAt seq1 seq1Loc in
    forEach (seq 0 (length seq2 + 1)) (λ seq2Loc st,
      let residue2 := residueAt seq2 seq2Loc in
      forEach (seq 0 (length seq3 + 1)) (λ seq3Loc st,
        vertexBody seq1 seq2 seq3 residue1 residue2 seq1Loc seq2Loc seq3Loc st)
      st)
    st)
  {| vertices := []; edges := [] |}.

(** [WDAGraphFileBuilder::buildGraphFile]: the lines of the graph file, the
    [vertices] stream followed by the [edges] stream. Nothing is written
    when an exception leaves the loops. *)
Definition buildGraphFile (seq1 seq2 seq3 : list ascii) : option (list Line) :=
  st ← buildStreams seq1 seq2 seq3;
  Some ((V <$> vertices st) ++ (E <$> edges st)).

(** The text of a vertex id, [i << "," << j << "," << k]. *)
Definition vertexId (v : Loc) : string :=
  pretty (fst (fst v)) +:+ "," +:+ pretty (snd (fst v)) +:+ "," +:+ pretty (snd v).

(** The text of an edge label, [residue1 << residue2 << residue3]. *)
Definition labelText (l : ascii * ascii * ascii) : string :=
  String (fst (fst l)) (String (snd (fst l)) (String (snd l) EmptyString)).

(** The fields of a line, which single spaces separate in the file. *)
Definition lineTokens (l : Line) : list string :=
  match l with
  | V v => ["V"; vertexId v]
  | E e => ["E"; labelText (label e); vertexId (startVertex e);
            vertexId (endVertex e); pretty (weight e)]
  end.

(** The text of a line, without the newline that ends it. *)
Definition renderLine (l : Line) : string :=
  match l with
  | V v => "V " +:+ vertexId v
  | E e => "E " +:+ labelText (label e) +:+ " " +:+ vertexId (startVertex e)
           +:+ " " +:+ vertexId (endVertex e) +:+ " " +:+ pretty (weight e)
  end.

(** The edge lines of a file. *)
Definition edgeLines (lines : list Line) : list EdgeLine :=
  omap (λ l, match l with E e => Some e | V _ => None end) lines.

(** The vertex lines of a file. *)
Definition vertexLines (lines : list Line) : list Loc :=
  omap (λ l, match l with V v => Some v | E _ => None end) lines.

(** The edges of a file that leave the vertex [v], in the order of the
    file. *)
Definition outgoing (v : Loc) (lines : list Line) : list EdgeLine :=
  filter (λ e, startVertex e = v) (edgeLines lines).

(** The edges the loop body writes for the vertex [v], read off the body
    itself, run on an empty stream. *)
Definition edgesAt (seq1 seq2 seq3 : list ascii) (v : Loc) : option (list EdgeLine) :=
  addEdges (length seq1) (length seq2) (length seq3)
    (residueAt seq1 (fst (fst v))) (residueAt seq2 (snd (fst v)))
    (residueAt seq3 (snd v)) (fst (fst v)) (snd (fst v)) (snd v) [].

(** *** The edit graph as the description gives it

    The vertex enumeration and the edge columns per vertex, written after
    the description of the builder; they are compared with the loops above
    in [BuilderFacts]. *)

(** Every [(i, j, k)] with [i] in [0 .. n1], [j] in [0 .. n2] and [k] in
    [0 .. n3], [i] outermost and [k] innermost. *)
Definition allVertices (n1 n2 n3 : nat) : list Loc :=
  i ← seq 0 (n1 + 1); j ← seq 0 (n2 + 1); k ← seq 0 (n3 + 1); [(i, j, k)].

(** The alignment columns of the edges that leave a vertex, from the next
    residue of each sequence ([None]: the sequence is exhausted): every
    non-empty set of the sequences that have a residue left advances; a
    vertex with one sequence left has the single advance of that one. *)
Definition columnsAt (residue1 residue2 residue3 : option ascii)
  : list (ascii * ascii * ascii) :=
  match residue1, residue2, residue3 with
  | Some a, Some b, Some c =>
      [ (a, gapChar, gapChar); (gapChar, b, gapChar); (gapChar, gapChar, c);
        (a, b, gapChar); (gapChar, b, c); (a, gapChar, c); (a, b, c) ]
  | None, Some b, Some c =>
      [ (gapChar, b, gapChar); (gapChar, gapChar, c); (gapChar, b, c) ]
  | Some a, None, Some c =>
      [ (a, gapChar, gapChar); (gapChar, gapChar, c); (a, gapChar, c) ]
  | Some a, Some b, None =>
      [ (a, gapChar, gapChar); (gapChar, b, gapChar); (a, b, gapChar) ]
  | Some a, None, None => [ (a, gapChar, gapChar) ]
  | None, Some b, None => [ (gapChar, b, gapChar) ]
  | None, None, Some c => [ (gapChar, gapChar, c) ]
  | None, None, None => []
  end.

(** The edge of a column at a vertex: a sequence advances by one where the
    column holds a residue; the weight is the sum of pairs of the column. *)
Definition columnEdge (v : Loc) (col : ascii * ascii * ascii) : option EdgeLine :=
  w ← Blosum62.sumOfPairsWeight (fst (fst col)) (snd (fst col)) (snd col);
  Some {| label := col;
          startVertex := v;
          endVertex :=
            ((if bool_decide (fst (fst col) = gapChar)
              then fst (fst v) else fst (fst v) + 1)%nat,
             (if bool_decide (snd (fst col) = gapChar)
              then snd (fst v) else snd (fst v) + 1)%nat,
             (if bool_decide (snd col = gapChar)
              then snd v else snd v + 1)%nat);
          weight := w |}.

End WDAGraphFileBuilder.

(** ** WDAGraph *)

(** [struct Vertex]. [edgeForHWPath] is an [Edge*]: [None] is [NULL]. *)
Module Vertex.
Record t : Type := mk {
  label : string;
  weight : Z;
  edgeForHWPath : option nat
}.
End Vertex.

(** [struct Edge]. [start] and [end_] are [Vertex*]. *)
Module Edge.
Record t : Type := mk {
  label : string;
  weight : Z;
  start : nat;
  end_ : nat
}.
End Edge.

(** A loop whose body may also [break]: the body returns the new state and
    whether the loop ends there. A [continue] is a body that returns early
    with [false]. *)
Fixpoint forEachBreak {S : Type} (l : list nat)
    (body : nat → S → option (S * bool)) (s : S) : option S :=
  match l with
  | [] => Some s
  | x :: l' =>
      match body x s with
      | None => None
      | Some (s', true) => Some s'
      | Some (s', false) => forEachBreak l' body s'
      end
  end.

Module WDAGraph.

Definition INT_MIN : Z := -2147483648.

(** The attributes of [class WDAGraph]. [edgeHeap] holds the [Edge] objects
    in the order [new Edge()] made them, so that an [Edge*] is a position in
    it; [vertices] plays that part for [Vertex*]. *)
Record t : Type := mk {
  vertices : list Vertex.t;
  verticeMap : gmap string nat;
  edges : gmap string (list nat);
  edgeHeap : list Edge.t;
  startNode : option nat;
  endNode : option nat;
  highestWeightNode : option nat;
  edgeWeights : gmap string Z;
  edgeFrequencies : gmap string Z
}.

(** The state the constructor leaves before [buildGraph] runs. *)
Definition empty : t :=
  {| vertices := []; verticeMap := ∅; edges := ∅; edgeHeap := [];
     startNode := None; endNode := None; highestWeightNode := None;
     edgeWeights := ∅; edgeFrequencies := ∅ |}.

Definition with_vertices (g : t) (vs : list Vertex.t) : t :=
  {| vertices := vs; verticeMap := verticeMap g; edges := edges g;
     edgeHeap := edgeHeap g; startNode := startNode g; endNode := endNode g;
     highestWeightNode := highestWeightNode g;
     edgeWeights := edgeWeights g; edgeFrequencies := edgeFrequencies g |}.

Definition with_highestWeightNode (g : t) (h : option nat) : t :=
  {| vertices := vertices g; verticeMap := verticeMap g; edges := edges g;
     edgeHeap := edgeHeap g; startNode := startNode g; endNode := endNode g;
     highestWeightNode := h;
     edgeWeights := edgeWeights g; edgeFrequencies := edgeFrequencies g |}.

(** [vertex->weight = w] for the vertex at [p]. *)
Definition setWeight (g : t) (p : nat) (w : Z) : option t :=
  vertex ← vertices g !! p;
  Some (with_vertices g
    (<[p := {| Vertex.label := Vertex.label vertex; Vertex.weight := w;
               Vertex.edgeForHWPath := Vertex.edgeForHWPath vertex |}]>
       (vertices g))).

Section Loading.

(** The conversion of the weight field, [atof] of the C library. *)
Variable atof : string → Z.

(** [WDAGraph::addVertex] *)
Definition addVertex (tokens : list string) (g : t) : option t :=
  label ← tokens !! 1%nat;
  let vertex := length (vertices g) in
  let g :=
    match tokens !! 2%nat with
    | Some tag =>
        if bool_decide (tag = "START") then
          {| vertices := vertices g; verticeMap := verticeMap g;
             edges := edges g; edgeHeap := edgeHeap g;
             startNode := Some vertex; endNode := endNode g;
             highestWeightNode := highestWeightNode g;
             edgeWeights := edgeWeights g;
             edgeFrequencies := edgeFrequencies g |}
        else if bool_decide (tag = "END") then
          {| vertices := vertices g; verticeMap := verticeMap g;
             edges := edges g; edgeHeap := edgeHeap g;
             startNode := startNode g; endNode := Some vertex;
             highestWeightNode := highestWeightNode g;
             edgeWeights := edgeWeights g;
             edgeFrequencies := edgeFrequencies g |}
        else g
    | None => g
    end in
  Some {| vertices := vertices g ++
            [ {| Vertex.label := label; Vertex.weight := INT_MIN;
                 Vertex.edgeForHWPath := None |} ];
          verticeMap := <[label := vertex]> (verticeMap g);
          edges := <[label := []]> (edges g);
          edgeHeap := edgeHeap g;
          startNode := startNode g; endNode := endNode g;
          highestWeightNode := highestWeightNode g;
          edgeWeights := edgeWeights g;
          edgeFrequencies := edgeFrequencies g |}.

(** [WDAGraph::addEdge]. A label that is no key of [verticeMap] is a
    dereference of [end()], here [None]. The statement that counts a label
    met before is [edgeFrequencies[label] = freqIter->second++]: the right
    operand is evaluated first (C++17, [expr.ass]; the order was unspecified
    before), its value is the count before the increment, and the
    assignment then stores that value in the entry the increment has just
    changed. *)
Definition addEdge (tokens : list string) (g : t) : option t :=
  label ← tokens !! 1%nat;
  startLabel ← tokens !! 2%nat;
  start ← verticeMap g !! startLabel;
  endLabel ← tokens !! 3%nat;
  end_ ← verticeMap g !! endLabel;
  weightToken ← tokens !! 4%nat;
  let weight := atof weightToken in
  let edge := length (edgeHeap g) in
  let edgeHeap' :=
    edgeHeap g ++ [ {| Edge.label := label; Edge.weight := weight;
                       Edge.start := start; Edge.end_ := end_ |} ] in
  (* Add to edges collection *)
  startVertex ← vertices g !! start;
  startEdges ← edges g !! Vertex.label startVertex;
  let edges1 := <[Vertex.label startVertex := startEdges ++ [edge]]> (edges g) in
  endVertex ← vertices g !! end_;
  endEdges ← edges1 !! Vertex.label endVertex;
  let edges2 := <[Vertex.label endVertex := endEdges ++ [edge]]> edges1 in
  (* Add to edgeWeights if not already in map *)
  let edgeWeights' :=
    match edgeWeights g !! label with
    | None => <[label := weight]> (edgeWeights g)
    | Some _ => edgeWeights g
    end in
  (* Increment edgeFrequencies *)
  let edgeFrequencies' :=
    match edgeFrequencies g !! label with
    | Some second =>
        let value := second in
        let incremented := <[label := second + 1]> (edgeFrequencies g) in
        <[label := value]> incremented
    | None => <[label := 1]> (edgeFrequencies g)
    end in
  Some {| vertices := vertices g; verticeMap := verticeMap g;
          edges := edges2; edgeHeap := edgeHeap';
          startNode := startNode g; endNode := endNode g;
          highestWeightNode := highestWeightNode g;
          edgeWeights := edgeWeights';
          edgeFrequencies := edgeFrequencies' |}.

(** One iteration of the loop of [WDAGraph::buildGraph], on the tokens of
    one line. *)
Definition buildLine (g : t) (tokens : list string) : option t :=
  kind ← tokens !! 0%nat;
  if bool_decide (kind = "V") then addVertex tokens g
  else if bool_decide (kind = "E") then addEdge tokens g
  else Some g.

(** [WDAGraph::buildGraph], on the lines of the file, each split into its
    tokens. *)
Fixpoint buildGraphFrom (g : t) (lines : list (list string)) : option t :=
  match lines with
  | [] => Some g
  | tokens :: lines' => g' ← buildLine g tokens; buildGraphFrom g' lines'
  end.

(** The constructor [WDAGraph(aGraphFileName)]. *)
Definition buildGraph (lines : list (list string)) : option t :=
  buildGraphFrom empty lines.

End Loading.

(** [WDAGraph::isStartConstrained] *)
Definition isStartConstrained (g : t) : bool :=
  bool_decide (startNode g ≠ None).

(** [WDAGraph::isEndConstrained] *)
Definition isEndConstrained (g : t) : bool :=
  bool_decide (endNode g ≠ None).

(** The body of the loop over [vertexEdges] in [findHighestWeightPath],
    for the vertex at [vertex]. *)
Definition relaxEdge (vertex : nat) (edge : nat) (g : t) : option t :=
  e ← edgeHeap g !! edge;
  v ← vertices g !! vertex;
  endVertex ← vertices g !! Edge.end_ e;
  (* Find edges where this vertex is the end node *)
  if bool_decide (Vertex.label endVertex = Vertex.label v) then
    startVertex ← vertices g !! Edge.start e;
    (* If start constrained make sure edge start is from a valid path *)
    if isStartConstrained g && bool_decide (Vertex.weight startVertex = INT_MIN)
    then Some g
    else
      let pathWeight := Vertex.weight startVertex + Edge.weight e in
      if bool_decide (pathWeight > Vertex.weight v) then
        Some (with_vertices g
          (<[vertex := {| Vertex.label := Vertex.label v;
                          Vertex.weight := pathWeight;
                          Vertex.edgeForHWPath := Some edge |}]> (vertices g)))
      else Some g
  else Some g.

(** The check for start constraints that opens the loop body. The result
    is [None] where the source says [continue]. *)
Definition checkStart (vertex : nat) (st : t * bool) : option (option (t * bool)) :=
  let '(g, startFound) := st in
  if isStartConstrained g then
    if negb startFound then
      v ← vertices g !! vertex;
      sn ← startNode g;
      s ← vertices g !! sn;
      if bool_decide (Vertex.label v = Vertex.label s) then
        g ← setWeight g vertex 0;
        Some (Some (with_highestWeightNode g (Some vertex), true))
      else Some None
    else Some (Some (g, startFound))
  else
    g ← setWeight g vertex 0;
    Some (Some (g, startFound)).

(** The end of the loop body: the end constraint, or the comparison with
    the best vertex so far. The boolean is [true] for [break]. *)
Definition selectHighest (vertex : nat) (g : t) : option (t * bool) :=
  v ← vertices g !! vertex;
  if isEndConstrained g then
    en ← endNode g;
    e ← vertices g !! en;
    if bool_decide (Vertex.label v = Vertex.label e) then
      Some (with_highestWeightNode g (Some vertex), true)
    else Some (g, false)
  else
    match highestWeightNode g with
    | None => Some (with_highestWeightNode g (Some vertex), false)
    | Some h =>
        hv ← vertices g !! h;
        if bool_decide (Vertex.weight v > Vertex.weight hv) then
          Some (with_highestWeightNode g (Some vertex), false)
        else Some (g, false)
    end.

(** The body of the loop of [findHighestWeightPath] for the vertex at
    position [vertex]; the state is the graph and [startFound]. *)
Definition visit (vertex : nat) (st : t * bool) : option ((t * bool) * bool) :=
  r ← checkStart vertex st;
  match r with
  | None => Some (st, false)
  | Some (g, startFound) =>
      v ← vertices g !! vertex;
      vertexEdges ← edges g !! Vertex.label v;
      g ← forEach vertexEdges (relaxEdge vertex) g;
      '(g, stop) ← selectHighest vertex g;
      Some ((g, startFound), stop)
  end.

(** [WDAGraph::findHighestWeightPath] *)
Definition findHighestWeightPath (g : t) : option t :=
  '(g, _) ← forEachBreak (seq 0 (length (vertices g))) visit (g, false);
  Some g.

(** [std::string(s.rbegin(), s.rend())] *)
Definition reverseString (s : string) : string :=
  String.string_of_list_ascii (rev (String.list_ascii_of_string s)).

(** The loop of [getPath]: the walk from [aNode] back along
    [edgeForHWPath], the labels written to [ss]. The source loops while it
    finds an edge; [fuel] bounds the number of iterations and the result is
    [None] when it runs out. *)
Fixpoint walkPath (fuel : nat) (g : t) (aNode : nat) (ss : string)
  : option string :=
  match fuel with
  | O => None
  | S fuel' =>
      v ← vertices g !! aNode;
      match Vertex.edgeForHWPath v with
      | None => Some ss
      | Some edge =>
          anEdge ← edgeHeap g !! edge;
          walkPath fuel' g (Edge.start anEdge)
            (ss +:+ Edge.label anEdge +:+ String "010"%char EmptyString)
      end
  end.

(** [WDAGraph::getPath] *)
Definition getPath (fuel : nat) (g : t) : option string :=
  match highestWeightNode g with
  | None => Some EmptyString
  | Some h =>
      reversePath ← walkPath fuel g h EmptyString;
      Some (reverseString reversePath)
  end.

(** The loop of [getPathStartNodeLabel]. *)
Fixpoint walkStart (fuel : nat) (g : t) (aNode : nat) : option string :=
  match fuel with
  | O => None
  | S fuel' =>
      v ← vertices g !! aNode;
      match Vertex.edgeForHWPath v with
      | None => Some (Vertex.label v)
      | Some edge =>
          anEdge ← edgeHeap g !! edge;
          walkStart fuel' g (Edge.start anEdge)
      end
  end.

(** [WDAGraph::getPathStartNodeLabel] *)
Definition getPathStartNodeLabel (fuel : nat) (g : t) : option string :=
  match highestWeightNode g with
  | None => Some EmptyString
  | Some h => walkStart fuel g h
  end.

(** The path part of the report of [resultString]. *)
Inductive PathInfo : Type :=
| NoPathFound
| PathFound (score : Z) (beginning_vertex end_vertex path : string).

(** [WDAGraph::resultString], as the values it formats: the two tables and
    the path information. *)
Record Results : Type := mkResults {
  edge_weights : gmap string Z;
  edge_histogram : gmap string Z;
  pathInfo : PathInfo
}.

Definition resultString (fuel : nat) (g : t) : option Results :=
  info ← match highestWeightNode g with
         | None => Some NoPathFound
         | Some h =>
             hv ← vertices g !! h;
             beginning ← getPathStartNodeLabel fuel g;
             path ← getPath fuel g;
             Some (PathFound (Vertex.weight hv) beginning (Vertex.label hv) path)
         end;
  Some {| edge_weights := edgeWeights g;
          edge_histogram := edgeFrequencies g;
          pathInfo := info |}.

End WDAGraph.

(** ** Sample conversion and sample files *)

Module Samples.

(** The value of a decimal digit. *)
Definition digitValue (c : ascii) : option Z :=
  let n := nat_of_ascii c in
  if bool_decide (48 ≤ n ≤ 57)%nat then Some (Z.of_nat (n - 48)) else None.

(** The number the leading digits of [s] spell, after [acc]. *)
Fixpoint readDigits (s : string) (acc : Z) : Z :=
  match s with
  | EmptyString => acc
  | String c s' =>
      match digitValue c with
      | Some d => readDigits s' (10 * acc + d)
      | None => acc
      end
  end.

(** What [atof] returns for a token that is a decimal integer, as the
    builder writes the weights: an optional sign, then digits. *)
Definition atofInteger (s : string) : Z :=
  match s with
  | String "-" s' => - readDigits s' 0
  | _ => readDigits s 0
  end.

(** Two vertices and one edge between them. *)
Definition oneEdge : list (list string) :=
  [ ["V"; "0,0,0"]; ["V"; "1,1,1"]; ["E"; "ACC"; "0,0,0"; "1,1,1"; "9"] ].

(** Two vertices and two edges that share a label. *)
Definition sharedLabel : list (list string) :=
  [ ["V"; "a"]; ["V"; "b"]; ["E"; "x"; "a"; "b"; "1"]; ["E"; "x"; "a"; "b"; "2"] ].

(** A start vertex and an end vertex that no edge joins. *)
Definition unreachedEnd : list (list string) :=
  [ ["V"; "a"; "START"]; ["V"; "b"; "END"] ].

(** A path of two edges, from a start vertex to an end vertex. *)
Definition constrainedPath : list (list string) :=
  [ ["V"; "a"; "START"]; ["V"; "b"]; ["V"; "c"; "END"];
    ["E"; "x"; "a"; "b"; "3"]; ["E"; "y"; "b"; "c"; "-1"];
    ["E"; "z"; "a"; "c"; "1"] ].

(** The driver, [main]: the graph file is built from the three sequences,
    loaded, searched, and the results are reported. [fuel] bounds the walks
    of the report. *)
Definition align (seq1 seq2 seq3 : list ascii) (fuel : nat)
  : option WDAGraph.Results :=
  lines ← WDAGraphFileBuilder.buildGraphFile seq1 seq2 seq3;
  aGraph ← WDAGraph.buildGraph atofInteger (WDAGraphFileBuilder.lineTokens <$> lines);
  aGraph ← WDAGraph.findHighestWeightPath aGraph;
  WDAGraph.resultString fuel aGraph.

End Samples.

(** ** Notions used to reason about the builder *)

Module BuilderStreams.
Import WDAGraphFileBuilder.

(** The streams after the lines of the vertices [vs] and the edge lines
    [es] were appended. *)
Definition extend (st : Streams) (vs : list Loc) (es : list EdgeLine) : Streams :=
  {| vertices := vertices st ++ vs; edges := edges st ++ es |}.

(** A loop body that, at each position [x] of [l], appends the lines of the
    vertices [L x], the edge lines being those [emit] gives for them. *)
Definition writes (emit : Loc → option (list EdgeLine)) (l : list nat)
    (L : nat → list Loc) (body : nat → Streams → option Streams) : Prop :=
  ∀ x st, x ∈ l →
    body x st = ess ← mapM emit (L x); Some (extend st (L x) (concat ess)).

End BuilderStreams.

(** ** Notions used to reason about the graph engine *)

Module GraphState.
Import WDAGraph.

(** The part of a graph that [findHighestWeightPath] never writes: the
    graph with the weight and the best edge of every vertex and the best
    vertex blanked. *)
Definition erase (g : t) : t :=
  {| vertices := (λ v, Vertex.mk (Vertex.label v) 0 None) <$> vertices g;
     verticeMap := verticeMap g; edges := edges g; edgeHeap := edgeHeap g;
     startNode := startNode g; endNode := endNode g;
     highestWeightNode := None;
     edgeWeights := edgeWeights g; edgeFrequencies := edgeFrequencies g |}.

(** The graph after a write to the vertex at [p]. *)
Definition putVertex (g : t) (p : nat) (x : Vertex.t) : t :=
  with_vertices g (<[p := x]> (vertices g)).

(** The labels of the vertices, in the order of the [vertices] vector. *)
Definition labels (g : t) : list string := Vertex.label <$> vertices g.

(** Every pointer and every key the engine follows designates an object. *)
Record wellFormed (g : t) : Prop := mkWellFormed {
  wf_start : ∀ p, startNode g = Some p → (p < length (vertices g))%nat;
  wf_end : ∀ p, endNode g = Some p → (p < length (vertices g))%nat;
  wf_map : ∀ l p, verticeMap g !! l = Some p → (p < length (vertices g))%nat;
  wf_edges : ∀ l, l ∈ labels g → is_Some (edges g !! l);
  wf_adjacent : ∀ l es e, edges g !! l = Some es → e ∈ es →
                          (e < length (edgeHeap g))%nat;
  wf_heap : ∀ e, e ∈ edgeHeap g →
                 (Edge.start e < length (vertices g))%nat
                 ∧ (Edge.end_ e < length (vertices g))%nat
}.

(** The best vertex, when there is one, is a vertex of the graph. *)
Definition highestValid (g : t) : Prop :=
  ∀ h, highestWeightNode g = Some h → (h < length (vertices g))%nat.

(** What one edge offers to the vertex at [vertex]: nothing ([Some None])
    when the edge does not end there or starts at a vertex no path reaches,
    else the weight of the path through it. [None] is a pointer that
    designates nothing. *)
Definition candidate (g : t) (vertex : nat) (edge : nat) : option (option Z) :=
  e ← edgeHeap g !! edge;
  v ← vertices g !! vertex;
  endVertex ← vertices g !! Edge.end_ e;
  if bool_decide (Vertex.label endVertex = Vertex.label v) then
    startVertex ← vertices g !! Edge.start e;
    if isStartConstrained g && bool_decide (Vertex.weight startVertex = INT_MIN)
    then Some None
    else Some (Some (Vertex.weight startVertex + Edge.weight e))
  else Some None.

(** The vertex after it was offered a path of weight [pathWeight] through
    [edge]. *)
Definition offer (x : Vertex.t) (edge : nat) (c : option Z) : Vertex.t :=
  match c with
  | Some pathWeight =>
      if bool_decide (pathWeight > Vertex.weight x)
      then {| Vertex.label := Vertex.label x; Vertex.weight := pathWeight;
              Vertex.edgeForHWPath := Some edge |}
      else x
  | None => x
  end.

(** The vertex after the offers of a list of edges, in turn. *)
Fixpoint offers (x : Vertex.t) (cs : list (nat * option Z)) : Vertex.t :=
  match cs with
  | [] => x
  | (edge, c) :: cs' => offers (offer x edge c) cs'
  end.

(** The vertex with its weight set. *)
Definition resetWeight (x : Vertex.t) (w : Z) : Vertex.t :=
  {| Vertex.label := Vertex.label x; Vertex.weight := w;
     Vertex.edgeForHWPath := Vertex.edgeForHWPath x |}.

(** The order the file format asks for: labels are unique and every edge
    starts at a vertex listed before the vertex it ends at. *)
Definition topological (g : t) : Prop :=
  NoDup (labels g)
  ∧ Forall (λ e, (Edge.start e < Edge.end_ e)%nat) (edgeHeap g).

(** What the check for start constraints leaves for the vertex [x] at
    [vertex]: the graph [g1] the edges are then scanned in, and
    [startFound]. *)
Definition started (g : t) (startFound : bool) (vertex : nat) (x : Vertex.t)
    (g1 : t) (startFound' : bool) : Prop :=
  (isStartConstrained g = true ∧ startFound = true ∧ startFound' = true ∧ g1 = g)
  ∨ (isStartConstrained g = true ∧ startFound = false ∧ startFound' = true
     ∧ (∃ sn s, startNode g = Some sn ∧ vertices g !! sn = Some s
                ∧ Vertex.label x = Vertex.label s)
     ∧ g1 = with_highestWeightNode (putVertex g vertex (resetWeight x 0)) (Some vertex))
  ∨ (isStartConstrained g = false ∧ startFound' = startFound
     ∧ g1 = putVertex g vertex (resetWeight x 0)).

(** The vertex at [vertex] is passed over: the start vertex is still to be
    found and this is not it. *)
Definition skipped (g : t) (startFound : bool) (vertex : nat) : Prop :=
  isStartConstrained g = true ∧ startFound = false
  ∧ ∃ x sn s, vertices g !! vertex = Some x ∧ startNode g = Some sn
              ∧ vertices g !! sn = Some s ∧ Vertex.label x ≠ Vertex.label s.

(** The best vertex recorded so far is one of the vertices before
    [i], and the path to it weighs 0 or more; once the start vertex is found
    there is a best vertex. *)
Definition bestReached (i : nat) (st : t * bool) : Prop :=
  (∀ h, highestWeightNode (fst st) = Some h →
        (h < i)%nat ∧ ∃ v, vertices (fst st) !! h = Some v ∧ 0 ≤ Vertex.weight v)
  ∧ (isStartConstrained (fst st) = true → snd st = true →
     highestWeightNode (fst st) ≠ None).

(** The label of the designated start vertex, and of the end vertex. *)
Definition startLabel (g : t) : option string :=
  sn ← startNode g; labels g !! sn.

Definition endLabel (g : t) : option string :=
  en ← endNode g; labels g !! en.

(** The best vertex, when there is one, carries the label of the end vertex
    or of the start vertex. *)
Definition recordedAtConstraint (g : t) : Prop :=
  ∀ h, highestWeightNode g = Some h →
       ∃ l, labels g !! h = Some l ∧ (endLabel g = Some l ∨ startLabel g = Some l).

(** While no best vertex is recorded under an end constraint, the scan has
    not met the vertex it waits for among the vertices before [i]: the start
    vertex under a start constraint, else the end vertex. *)
Definition awaiting (i : nat) (st : t * bool) : Prop :=
  highestWeightNode (fst st) = None →
  (isStartConstrained (fst st) = true →
     snd st = false
     ∧ ∀ j l, (j < i)%nat → labels (fst st) !! j = Some l →
              startLabel (fst st) ≠ Some l)
  ∧ (isStartConstrained (fst st) = false →
     ∀ j l, (j < i)%nat → labels (fst st) !! j = Some l →
            endLabel (fst st) ≠ Some l).

(** The offers of the edges [es] to the vertex at [vertex], read in [g]. *)
Definition candidates (g : t) (vertex : nat) (es : list nat)
  : option (list (nat * option Z)) :=
  mapM (λ e, c ← candidate g vertex e; Some (e, c)) es.

(** With no constraint, the best vertex of [g] weighs at least as much as
    the vertices at the positions from [i] up to [i + k]. *)
Definition bestAbove (g : t) (i k : nat) : Prop :=
  ∀ j, (i ≤ j < i + k)%nat →
       ∃ h hv vj, highestWeightNode g = Some h ∧ vertices g !! h = Some hv
                  ∧ vertices g !! j = Some vj
                  ∧ Vertex.weight vj ≤ Vertex.weight hv.

(** How the best vertex of a second run, in [t2], relates to the one of the
    first run, in [s], at the same point of the loop, [final] being the
    graph the first run ends with. *)
Definition bestAgrees (s : t) (startFound : bool) (t2 final : t) (i k : nat) : Prop :=
  if isStartConstrained s then
    if startFound then highestWeightNode t2 = highestWeightNode s
    else highestWeightNode t2 = highestWeightNode final
  else if isEndConstrained s then highestWeightNode t2 = highestWeightNode final
  else highestWeightNode t2 = highestWeightNode final ∧ bestAbove final i k.

End GraphState.

(** ** Notions used to reason about the loading of a graph file *)

Module GraphFile.

(** The labels the [V] lines declare, in the order of the file. *)
Definition declared (lines : list (list string)) : list string :=
  omap (λ tokens : list string,
          if bool_decide (tokens !! 0%nat = Some "V") then tokens !! 1%nat else None)
       lines.

(** The [V] lines and the [E] lines of a file, in its order. *)
Definition vertexLinesOf (lines : list (list string)) : list (list string) :=
  filter (λ tokens : list string, tokens !! 0%nat = Some "V") lines.

Definition edgeLinesOf (lines : list (list string)) : list (list string) :=
  filter (λ tokens : list string, tokens !! 0%nat = Some "E") lines.

(** A line the loader stops at, after the lines [before]: a line with no
    token, a [V] line with no label, an [E] line with fewer than five
    tokens or with an end point that no [V] line before it declares. *)
Definition rejected (before : list (list string)) (tokens : list string) : Prop :=
  tokens = []
  ∨ (tokens !! 0%nat = Some "V" ∧ tokens !! 1%nat = None)
  ∨ (tokens !! 0%nat = Some "E"
     ∧ ((length tokens < 5)%nat
        ∨ ∃ l, (tokens !! 2%nat = Some l ∨ tokens !! 3%nat = Some l)
               ∧ l ∉ declared before)).

(** The positions, in [heap], of the edges that start or end at the vertex
    at [p]; an edge from [p] to [p] is there twice. *)
Definition incident (p : nat) (heap : list Edge.t) : list nat :=
  mjoin (imap (λ n e, (if bool_decide (Edge.start e = p) then [n] else [])
                      ++ (if bool_decide (Edge.end_ e = p) then [n] else []))
              heap).

End GraphFile.

(** ** Notions used to reason about paths *)

Module Paths.
Import WDAGraph.

(** The walk of [getPath] and of [getPathStartNodeLabel], as the edges it
    follows from [aNode] back, in the order it meets them, and the vertex it
    stops at. [None] when [fuel] runs out or a pointer designates
    nothing. *)
Fixpoint walkEdges (fuel : nat) (g : t) (aNode : nat) : option (list Edge.t * nat) :=
  match fuel with
  | O => None
  | S fuel' =>
      v ← vertices g !! aNode;
      match Vertex.edgeForHWPath v with
      | None => Some ([], aNode)
      | Some edge =>
          anEdge ← edgeHeap g !! edge;
          '(es, root) ← walkEdges fuel' g (Edge.start anEdge);
          Some (anEdge :: es, root)
      end
  end.

(** What [ss << anEdge->label << "\n"] writes for the edges [es], in
    turn. *)
Fixpoint written (es : list Edge.t) : string :=
  match es with
  | [] => EmptyString
  | e :: es' => Edge.label e +:+ String "010"%char EmptyString +:+ written es'
  end.

(** For the edges [es], in turn, a newline and the label of the edge read
    from its last character to its first. *)
Fixpoint reversedLabels (es : list Edge.t) : string :=
  match es with
  | [] => EmptyString
  | e :: es' =>
      String "010"%char (reverseString (Edge.label e)) +:+ reversedLabels es'
  end.

(** The edges [es], in turn, lead from the vertex at [p] to the vertex at
    [q]. *)
Fixpoint chain (p : nat) (es : list Edge.t) (q : nat) : Prop :=
  match es with
  | [] => p = q
  | e :: es' => Edge.start e = p ∧ chain (Edge.end_ e) es' q
  end.

(** The weight of a path: the sum of the weights of its edges. *)
Definition weightOf (es : list Edge.t) : Z :=
  foldr (λ e s, Edge.weight e + s) 0 es.

(** The best incoming edges recorded so far, the loop being at the
    position [i]: a vertex has one only if it is before [i]; the edge ends
    at the vertex and starts before it; the weight of the vertex is the
    weight of the start of the edge plus the weight of the edge. *)
Definition tracked (i : nat) (g : t) : Prop :=
  ∀ q v n, vertices g !! q = Some v → Vertex.edgeForHWPath v = Some n →
    (q < i)%nat
    ∧ ∃ e s, edgeHeap g !! n = Some e ∧ Edge.end_ e = q
             ∧ (Edge.start e < q)%nat
             ∧ vertices g !! Edge.start e = Some s
             ∧ Vertex.weight v = Vertex.weight s + Edge.weight e.

(** With no constraint, the vertices before [i] are settled: the weight of
    each is 0 at least, 0 when it has no best incoming edge, and at least
    what any edge that ends at it offers. *)
Definition settled (i : nat) (g : t) : Prop :=
  ∀ q v, (q < i)%nat → vertices g !! q = Some v →
    0 ≤ Vertex.weight v
    ∧ (Vertex.edgeForHWPath v = None → Vertex.weight v = 0)
    ∧ ∀ e s, e ∈ edgeHeap g → Edge.end_ e = q →
             vertices g !! Edge.start e = Some s →
             Vertex.weight s + Edge.weight e ≤ Vertex.weight v.

(** The weights are [double]s in the source, and [pathWeight] is a sum of
    [double]s. The embedding holds the weights of a file whose weight
    fields [atof] reads as whole numbers, and adds them as whole numbers.
    A [double] holds every whole number from [-2^53] to [2^53], and the
    sum of two of them is the exact one as long as it stays in that range.
    [weightBound] is the largest magnitude of the weight of an edge. *)
Definition weightBound (g : t) : Z :=
  foldr (λ e m, Z.max (Z.abs (Edge.weight e)) m) 0 (edgeHeap g).

(** The condition under which the sums of the search stay in that range:
    [INT_MIN], the weight a vertex is made with, and as many edges as there
    are vertices do not add up to more than [2^53]. *)
Definition exactSums (g : t) : Prop :=
  2 ^ 31 + weightBound g * Z.of_nat (length (vertices g)) ≤ 2 ^ 53.

(** The weight of the vertex at position [q] is, in magnitude, at most
    [2^31] and [q] times [b]. *)
Definition ranged (b : Z) (g : t) : Prop :=
  ∀ q v, vertices g !! q = Some v →
    Z.abs (Vertex.weight v) ≤ 2 ^ 31 + b * Z.of_nat q.

End Paths.

(** ** StringUtilities *)

Module StringUtilities.

(** The characters [std::getline(ss, item, delim)] takes from a stream
    that holds [ss]: the item, up to the first delimiter or to the end of
    the stream, and what is left of the stream after the delimiter. *)
Fixpoint readItem (delim : ascii) (ss : string) : string * string :=
  match ss with
  | EmptyString => (EmptyString, EmptyString)
  | String c ss' =>
      if bool_decide (c = delim) then (EmptyString, ss')
      else let '(item, rest) := readItem delim ss' in (String c item, rest)
  end.

(** [std::getline(ss, item, delim)], with its result read as the loop
    condition reads it: [None] when no character could be extracted (the
    stream is at its end), else the item and the rest of the stream. *)
Definition getline (ss : string) (delim : ascii) : option (string * string) :=
  match ss with
  | EmptyString => None
  | String _ _ => Some (readItem delim ss)
  end.

(** The loop of [StringUtilities::split]. [fuel] bounds the number of
    iterations; the result is [None] when it runs out. *)
Fixpoint splitLoop (fuel : nat) (ss : string) (delim : ascii) (elems : list string)
  : option (list string) :=
  match getline ss delim with
  | None => Some elems
  | Some (item, ss') =>
      match fuel with
      | O => None
      | S fuel' => splitLoop fuel' ss' delim (elems ++ [item])
      end
  end.

(** [StringUtilities::split]: the tokens are appended to [elems]. *)
Definition split (fuel : nat) (s : string) (delim : ascii) (elems : list string)
  : option (list string) :=
  splitLoop fuel s delim elems.

End StringUtilities.

(** ** Notions used to reason about text *)

Module Text.

(** The characters of a string. *)
Definition chars (s : string) : list ascii := String.list_ascii_of_string s.

(** The tokens [ts] with [delim] between them. *)
Fixpoint joinWith (delim : ascii) (ts : list string) : string :=
  match ts with
  | [] => EmptyString
  | [t] => t
  | t :: ts' => t +:+ String delim (joinWith delim ts')
  end.

(** The tokens [ts], each followed by [delim]. *)
Fixpoint endWith (delim : ascii) (ts : list string) : string :=
  match ts with
  | [] => EmptyString
  | t :: ts' => t +:+ String delim (endWith delim ts')
  end.

(** The decimal digits. *)
Definition isDigit (c : ascii) : Prop :=
  c ∈ ["0"; "1"; "2"; "3"; "4"; "5"; "6"; "7"; "8"; "9"]%char.

(** The text of a graph file line by line, and the tokens the loader reads
    from it with [split], [fuel] bounding each call. *)
Definition tokensOf (fuel : nat) (text : list string) : option (list (list string)) :=
  mapM (λ line, StringUtilities.split fuel line " "%char []) text.

End Text.

(** ** Notions used to reason about the edit graph as a graph *)

Module Alignment.
Import WDAGraphFileBuilder.

(** The edge lines [p], in turn, lead from the vertex [v] to the vertex
    [w]: a path of the edit graph, that is an alignment of the residues
    between the two vertices, one column for each edge. *)
Fixpoint linked (v : Loc) (p : list EdgeLine) (w : Loc) : Prop :=
  match p with
  | [] => v = w
  | e :: p' => startVertex e = v ∧ linked (endVertex e) p' w
  end.

(** The sum of the weights of the columns. *)
Definition columnsWeight (p : list EdgeLine) : Z :=
  foldr (λ e s, weight e + s) 0 p.

(** The position of the line of a vertex among the vertex lines of the
    file of sequences of the lengths [n1], [n2] and [n3]. *)
Definition position (n2 n3 : nat) (v : Loc) : nat :=
  (fst (fst v) * ((n2 + 1) * (n3 + 1)) + (snd (fst v) * (n3 + 1) + snd v))%nat.

(** The edge the loader makes, with [atof], of an edge line of that
    file. *)
Definition loadedEdge (atof : string → Z) (n2 n3 : nat) (e : EdgeLine) : Edge.t :=
  {| Edge.label := labelText (label e);
     Edge.weight := atof (pretty (weight e));
     Edge.start := position n2 n3 (startVertex e);
     Edge.end_ := position n2 n3 (endVertex e) |}.

(** Two sequences hold residues that cannot be scored against each other:
    neither is the gap character and one of them is outside the alphabet
    of the matrix. *)
Definition clash (s t : list ascii) : Prop :=
  ∃ a b, a ∈ s ∧ b ∈ t ∧ a ≠ gapChar ∧ b ≠ gapChar
         ∧ (a ∉ Blosum62.alphabet ∨ b ∉ Blosum62.alphabet).

End Alignment.

(** ** FastaFile *)

Module FastaFile.

(** The attributes of [class FastaFile] that the code of this program
    reads: the first line of the file, the sequence, its reverse
    complement, and [dna]. *)
Record t : Type := mk {
  firstLine : string;
  sequence : list ascii;
  reverseComplement : list ascii;
  dna : bool
}.

(** [FastaFile::complement] *)
Definition complement (aChar : ascii) : ascii :=
  if bool_decide (aChar = "A"%char) then "T"%char
  else if bool_decide (aChar = "T"%char) then "A"%char
  else if bool_decide (aChar = "G"%char) then "C"%char
  else if bool_decide (aChar = "C"%char) then "G"%char
  else aChar.

(** [FastaFile::createReverseComplement]: the complements are appended in
    order, then the string is reversed. *)
Definition createReverseComplement (sequence : list ascii) : list ascii :=
  let ss := foldl (λ ss c, ss ++ [complement c]) [] sequence in
  rev ss.

(** The largest [int]. *)
Definition INT_MAX : Z := 2147483647.

(** [n++] on an [int]. The counters are 32 bits wide; one more than
    [INT_MAX] is what the addition of the machine gives, [- INT_MAX - 1]
    (the language leaves that case undefined). *)
Definition increment (n : Z) : Z := (n + 1 + 2 ^ 31) mod 2 ^ 32 - 2 ^ 31.

(** [FastaFile::countBases]: [counts] is the array of five counters the
    caller passes. *)
Definition countBases (sequence : list ascii) (counts : list Z) : list Z :=
  foldl (λ counts currentChar,
           if bool_decide (currentChar = "A"%char) then alter increment 0%nat counts
           else if bool_decide (currentChar = "C"%char) then alter increment 1%nat counts
           else if bool_decide (currentChar = "G"%char) then alter increment 2%nat counts
           else if bool_decide (currentChar = "T"%char) then alter increment 3%nat counts
           else alter increment 4%nat counts)
        counts sequence.

(** [FastaFile::populate], on the lines of the file as [getline] gives
    them: the first line, when there is one, goes to [firstLine]; the
    others are appended to the sequence. *)
Definition populate (isDna : bool) (fileLines : list string) : t :=
  let firstLine := match fileLines with
                   | [] => EmptyString
                   | line :: _ => line
                   end in
  let sequence :=
    foldl (λ ss line, ss ++ String.list_ascii_of_string line) [] (tail fileLines) in
  {| firstLine := firstLine;
     sequence := sequence;
     reverseComplement := if isDna then createReverseComplement sequence else [];
     dna := isDna |}.

(** [FastaFile::getSequenceLength] *)
Definition getSequenceLength (f : t) : nat := length (sequence f).

End FastaFile.
(** * Properties *)

(** ** The scoring matrix *)

Module Blosum62Facts.
Import Blosum62.

Lemma alphabet_table :
  Forall (λ a, Forall (λ b, ∃ s, getScore a b = Some s ∧ getScore b a = Some s)
                 alphabet) alphabet.
Proof. repeat constructor; eexists; split; vm_compute; reflexivity. Qed.

Lemma alphabet_not_gap (a : ascii) : a ∈ alphabet → a ≠ gapChar.
Proof.
  intros Ha ->. revert Ha. unfold alphabet, gapChar.
  rewrite !elem_of_cons, elem_of_nil. intros H.
  repeat (destruct H as [H|H]; [discriminate H|]). exact H.
Qed.

Lemma getScore_alphabet (a b : ascii) :
  a ∈ alphabet → b ∈ alphabet →
  ∃ s, getScore a b = Some s ∧ getScore b a = Some s.
Proof.
  intros Ha Hb.
  pose proof alphabet_table as T.
  rewrite Forall_forall in T. specialize (T a Ha).
  rewrite Forall_forall in T. exact (T b Hb).
Qed.

Lemma getScore_gap_r (a : ascii) : a ≠ gapChar → getScore a gapChar = Some gapCost.
Proof.
  intros Ha. unfold getScore.
  rewrite (bool_decide_eq_true_2 _ Ha).
  rewrite (bool_decide_eq_false_2 (gapChar ≠ gapChar)) by (intros H; by apply H).
  reflexivity.
Qed.

Lemma getScore_gap_l (a : ascii) : a ≠ gapChar → getScore gapChar a = Some gapCost.
Proof.
  intros Ha. unfold getScore.
  rewrite (bool_decide_eq_true_2 _ Ha).
  rewrite (bool_decide_eq_false_2 (gapChar ≠ gapChar)) by (intros H; by apply H).
  reflexivity.
Qed.

Lemma getScore_gap_gap : getScore gapChar gapChar = Some 0.
Proof. reflexivity. Qed.

(** A score is defined as soon as both characters are residues of the
    alphabet or the gap character. *)
Lemma getScore_defined (a b : ascii) :
  a ∈ alphabet ∨ a = gapChar → b ∈ alphabet ∨ b = gapChar →
  is_Some (getScore a b).
Proof.
  intros [Ha| ->] [Hb| ->].
  - destruct (getScore_alphabet a b Ha Hb) as (s & -> & _). eauto.
  - rewrite getScore_gap_r by by apply alphabet_not_gap. eauto.
  - rewrite getScore_gap_l by by apply alphabet_not_gap. eauto.
  - rewrite getScore_gap_gap. eauto.
Qed.

Lemma sumOfPairsWeight_defined (a b c : ascii) :
  a ∈ alphabet ∨ a = gapChar → b ∈ alphabet ∨ b = gapChar →
  c ∈ alphabet ∨ c = gapChar →
  is_Some (sumOfPairsWeight a b c).
Proof.
  intros Ha Hb Hc. unfold sumOfPairsWeight.
  destruct (getScore_defined a b Ha Hb) as [x ->].
  destruct (getScore_defined b c Hb Hc) as [y ->].
  destruct (getScore_defined a c Ha Hc) as [z ->].
  simpl. eauto.
Qed.

(** The column of a single advance: one residue against two gaps. *)
Lemma sumOfPairsWeight_single_1 (a : ascii) :
  a ≠ gapChar → sumOfPairsWeight a gapChar gapChar = Some (2 * gapCost).
Proof.
  intros Ha. unfold sumOfPairsWeight.
  rewrite (getScore_gap_r a), getScore_gap_gap by done. reflexivity.
Qed.

Lemma sumOfPairsWeight_single_2 (a : ascii) :
  a ≠ gapChar → sumOfPairsWeight gapChar a gapChar = Some (2 * gapCost).
Proof.
  intros Ha. unfold sumOfPairsWeight.
  rewrite (getScore_gap_l a), (getScore_gap_r a), getScore_gap_gap by done. reflexivity.
Qed.

Lemma sumOfPairsWeight_single_3 (a : ascii) :
  a ≠ gapChar → sumOfPairsWeight gapChar gapChar a = Some (2 * gapCost).
Proof.
  intros Ha. unfold sumOfPairsWeight.
  rewrite (getScore_gap_l a), getScore_gap_gap by done. reflexivity.
Qed.

(** C8. For residues [a] and [b] of the 20-symbol alphabet the score is
    defined and symmetric, [getScore a b = getScore b a]; the score of a
    residue against the gap character, on either side, is [gapCost], and
    the score of the gap character against itself is 0. *)
Theorem getScore_symmetric_and_gap (a b : ascii) :
  a ∈ alphabet → b ∈ alphabet →
  is_Some (getScore a b)
  ∧ getScore a b = getScore b a
  ∧ getScore a gapChar = Some gapCost
  ∧ getScore gapChar a = Some gapCost
  ∧ getScore gapChar gapChar = Some 0.
Proof.
  intros Ha Hb.
  destruct (getScore_alphabet a b Ha Hb) as (s & Hab & Hba).
  pose proof (alphabet_not_gap a Ha) as Hg.
  repeat split.
  - rewrite Hab. eauto.
  - congruence.
  - by apply getScore_gap_r.
  - by apply getScore_gap_l.
Qed.

Lemma getScore_symmetric_and_gap_witness :
  is_Some (getScore "A" "R")
  ∧ getScore "A" "R" = getScore "R" "A"
  ∧ getScore "A" gapChar = Some gapCost
  ∧ getScore gapChar "A" = Some gapCost
  ∧ getScore gapChar gapChar = Some 0.
Proof.
  apply (getScore_symmetric_and_gap "A" "R");
    unfold alphabet; repeat constructor.
Defined.

End Blosum62Facts.

(** ** The graph builder *)

Module BuilderFacts.
Import WDAGraphFileBuilder BuilderStreams.

(** *** Loops that only append *)

Lemma mapM_app_option {A B : Type} (f : A → option B) (l1 l2 : list A) :
  mapM f (l1 ++ l2) = xs ← mapM f l1; ys ← mapM f l2; Some (xs ++ ys).
Proof.
  induction l1 as [|x l1 IH]; simpl.
  - destruct (mapM f l2); reflexivity.
  - destruct (f x); simpl; [|reflexivity].
    rewrite IH. destruct (mapM f l1); simpl; [|reflexivity].
    destruct (mapM f l2); reflexivity.
Qed.

Lemma forEach_writes (emit : Loc → option (list EdgeLine)) (L : nat → list Loc)
    (body : nat → Streams → option Streams) (l : list nat) (st : Streams) :
  writes emit l L body →
  forEach l body st
  = ess ← mapM emit (l ≫= L); Some (extend st (l ≫= L) (concat ess)).
Proof.
  intros Hb. revert st. induction l as [|x l IH]; intros st.
  - simpl. unfold extend. rewrite !app_nil_r. by destruct st.
  - cbn [forEach]. rewrite Hb by left. rewrite bind_cons, mapM_app_option.
    destruct (mapM emit (L x)) as [ess1|]; simpl; [|reflexivity].
    rewrite IH by (intros y st' Hy; apply Hb; by right).
    destruct (mapM emit (l ≫= L)) as [ess2|]; simpl; [|reflexivity].
    unfold extend; simpl. by rewrite concat_app, !app_assoc.
Qed.

(** *** The loop body and the columns of a vertex *)

Lemma residueAt_lt (s : list ascii) (i : nat) :
  (i < length s)%nat → ∃ r, residueAt s i = Some r ∧ s !! i = Some r.
Proof.
  intros Hi. unfold residueAt. rewrite bool_decide_eq_true_2 by done.
  destruct (lookup_lt_is_Some_2 s i Hi) as [r Hr]. eauto.
Qed.

Lemma residueAt_ge (s : list ascii) (i : nat) :
  (length s ≤ i)%nat → residueAt s i = None.
Proof.
  intros Hi. unfold residueAt. rewrite bool_decide_eq_false_2 by lia. done.
Qed.

Lemma addEdge_columnEdge pre r1 r2 r3 i j k :
  addEdge pre r1 r2 r3 i j k
  = e ← columnEdge (i, j, k) (r1, r2, r3); Some (pre ++ [e]).
Proof.
  unfold addEdge, columnEdge; simpl.
  destruct (Blosum62.sumOfPairsWeight r1 r2 r3); reflexivity.
Qed.

Ltac split_location i n :=
  let H := fresh "H" in
  destruct (decide (i < n)%nat) as [H|H];
  [ let r := fresh "r" in let Hr := fresh "Hr" in let Hl := fresh "Hl" in
    destruct (residueAt_lt _ i H) as (r & Hr & Hl); rewrite Hr;
    rewrite (bool_decide_eq_true_2 (i < n)%nat) by exact H;
    try rewrite (bool_decide_eq_false_2 (i = n)) by lia
  | rewrite (residueAt_ge _ i) by lia;
    rewrite (bool_decide_eq_false_2 (i < n)%nat) by exact H;
    try rewrite (bool_decide_eq_true_2 (i = n)) by lia ].

(** The edges the loop body appends at a vertex in range are the edges of
    the columns of that vertex, in their order. *)
Lemma addEdges_columns (seq1 seq2 seq3 : list ascii) (i j k : nat) pre :
  (i ≤ length seq1)%nat → (j ≤ length seq2)%nat → (k ≤ length seq3)%nat →
  addEdges (length seq1) (length seq2) (length seq3)
    (residueAt seq1 i) (residueAt seq2 j) (residueAt seq3 k) i j k pre
  = es ← mapM (columnEdge (i, j, k))
            (columnsAt (residueAt seq1 i) (residueAt seq2 j) (residueAt seq3 k));
    Some (pre ++ es).
Proof.
  intros Hi Hj Hk. unfold addEdges.
  split_location i (length seq1); split_location j (length seq2);
    split_location k (length seq3);
    cbn [andb columnsAt mbind option_bind mapM];
    rewrite ?addEdge_columnEdge;
    repeat (match goal with
            | |- context [columnEdge ?v ?c] =>
                destruct (columnEdge v c); cbn; [|reflexivity]
            end; rewrite ?addEdge_columnEdge);
    rewrite <- ?app_assoc; try reflexivity; cbn; by rewrite ?app_nil_r.
Qed.

Lemma edgesAt_columns (seq1 seq2 seq3 : list ascii) (v : Loc) :
  v ∈ allVertices (length seq1) (length seq2) (length seq3) →
  edgesAt seq1 seq2 seq3 v
  = mapM (columnEdge v)
      (columnsAt (residueAt seq1 (fst (fst v))) (residueAt seq2 (snd (fst v)))
         (residueAt seq3 (snd v))).
Proof.
  intros Hv. destruct v as [[i j] k]. unfold allVertices in Hv.
  apply list_elem_of_bind in Hv as (i' & Hv & Hi).
  apply list_elem_of_bind in Hv as (j' & Hv & Hj).
  apply list_elem_of_bind in Hv as (k' & Hv & Hk).
  apply list_elem_of_singleton in Hv. injection Hv as -> -> ->.
  apply elem_of_seq in Hi, Hj, Hk.
  unfold edgesAt; simpl. rewrite addEdges_columns by lia.
  destruct (mapM _ _); reflexivity.
Qed.

Lemma vertexBody_edgesAt (seq1 seq2 seq3 : list ascii) (i j k : nat) st :
  (i ≤ length seq1)%nat → (j ≤ length seq2)%nat → (k ≤ length seq3)%nat →
  vertexBody seq1 seq2 seq3 (residueAt seq1 i) (residueAt seq2 j) i j k st
  = ess ← mapM (edgesAt seq1 seq2 seq3) [(i, j, k)];
    Some (extend st [(i, j, k)] (concat ess)).
Proof.
  intros Hi Hj Hk. unfold vertexBody, edgesAt; simpl.
  rewrite !addEdges_columns by lia.
  destruct (mapM _ _); simpl; [|reflexivity].
  by rewrite app_nil_r.
Qed.

(** *** The file as a whole *)

(** The loops write the vertices in the order of [allVertices] and, for
    each of them in turn, the edges of the loop body. *)
Lemma buildStreams_edgesAt (seq1 seq2 seq3 : list ascii) :
  let vs := allVertices (length seq1) (length seq2) (length seq3) in
  buildStreams seq1 seq2 seq3
  = ess ← mapM (edgesAt seq1 seq2 seq3) vs;
    Some {| vertices := vs; edges := concat ess |}.
Proof.
  intros vs. unfold buildStreams.
  rewrite (forEach_writes (edgesAt seq1 seq2 seq3)
    (λ i, j ← seq 0 (length seq2 + 1); k ← seq 0 (length seq3 + 1); [(i, j, k)])).
  { reflexivity. }
  intros i st Hi. apply elem_of_seq in Hi.
  apply forEach_writes. intros j st' Hj. apply elem_of_seq in Hj.
  apply (forEach_writes (edgesAt seq1 seq2 seq3) (λ k, [(i, j, k)])).
  intros k st'' Hk. apply elem_of_seq in Hk.
  apply vertexBody_edgesAt; lia.
Qed.

Lemma length_bind_const {A B : Type} (f : A → list B) (l : list A) (n : nat) :
  (∀ x, length (f x) = n) → length (l ≫= f) = (length l * n)%nat.
Proof.
  intros Hf. induction l as [|x l IH]; [reflexivity|].
  rewrite bind_cons, length_app, IH, Hf. simpl. lia.
Qed.

Lemma allVertices_length (n1 n2 n3 : nat) :
  length (allVertices n1 n2 n3) = ((n1 + 1) * (n2 + 1) * (n3 + 1))%nat.
Proof.
  unfold allVertices.
  rewrite (length_bind_const _ _ ((n2 + 1) * (n3 + 1))).
  { rewrite length_seq. lia. }
  intros i. rewrite (length_bind_const _ _ (n3 + 1)).
  { by rewrite length_seq. }
  intros j. rewrite (length_bind_const _ _ 1).
  { rewrite length_seq. lia. }
  reflexivity.
Qed.

Lemma elem_of_allVertices (n1 n2 n3 i j k : nat) :
  (i, j, k) ∈ allVertices n1 n2 n3 ↔ (i ≤ n1 ∧ j ≤ n2 ∧ k ≤ n3)%nat.
Proof.
  unfold allVertices. split.
  - intros Hv.
    apply list_elem_of_bind in Hv as (i' & Hv & Hi).
    apply list_elem_of_bind in Hv as (j' & Hv & Hj).
    apply list_elem_of_bind in Hv as (k' & Hv & Hk).
    apply list_elem_of_singleton in Hv. injection Hv as -> -> ->.
    apply elem_of_seq in Hi, Hj, Hk. lia.
  - intros (Hi & Hj & Hk).
    apply list_elem_of_bind. exists i. split; [|apply elem_of_seq; lia].
    apply list_elem_of_bind. exists j. split; [|apply elem_of_seq; lia].
    apply list_elem_of_bind. exists k. split; [|apply elem_of_seq; lia].
    by apply list_elem_of_singleton.
Qed.

Lemma allVertices_NoDup (n1 n2 n3 : nat) : NoDup (allVertices n1 n2 n3).
Proof.
  unfold allVertices.
  apply NoDup_bind; [| |apply NoDup_seq].
  { intros i1 i2 v _ _ H1 H2.
    apply list_elem_of_bind in H1 as (j1 & H1 & _).
    apply list_elem_of_bind in H1 as (k1 & H1 & _).
    apply list_elem_of_bind in H2 as (j2 & H2 & _).
    apply list_elem_of_bind in H2 as (k2 & H2 & _).
    apply list_elem_of_singleton in H1, H2. congruence. }
  intros i _. apply NoDup_bind; [| |apply NoDup_seq].
  { intros j1 j2 v _ _ H1 H2.
    apply list_elem_of_bind in H1 as (k1 & H1 & _).
    apply list_elem_of_bind in H2 as (k2 & H2 & _).
    apply list_elem_of_singleton in H1, H2. congruence. }
  intros j _. apply NoDup_bind; [| |apply NoDup_seq].
  { intros k1 k2 v _ _ H1 H2.
    apply list_elem_of_singleton in H1, H2. congruence. }
  intros k _. apply NoDup_singleton.
Qed.

Lemma edgeLines_file (vs : list Loc) (es : list EdgeLine) :
  edgeLines ((V <$> vs) ++ (E <$> es)) = es.
Proof.
  unfold edgeLines. induction vs as [|v vs IH]; simpl; [|exact IH].
  induction es as [|e es IH]; simpl; [reflexivity|]. f_equal. exact IH.
Qed.

Lemma vertexLines_file (vs : list Loc) (es : list EdgeLine) :
  vertexLines ((V <$> vs) ++ (E <$> es)) = vs.
Proof.
  unfold vertexLines. induction vs as [|v vs IH]; simpl; [|f_equal; exact IH].
  induction es as [|e es IH]; simpl; [reflexivity|exact IH].
Qed.

Lemma elem_of_concat {A : Type} (x : A) (ls : list (list A)) :
  x ∈ concat ls → ∃ l, x ∈ l ∧ l ∈ ls.
Proof.
  induction ls as [|l ls IH]; simpl.
  - by intros ?%elem_of_nil.
  - rewrite elem_of_app. intros [H|H].
    + exists l. split; [exact H|left].
    + destruct (IH H) as (l' & ? & ?). exists l'. split; [done|by right].
Qed.

(** What a written file looks like. *)
Lemma buildGraphFile_inv (seq1 seq2 seq3 : list ascii) (lines : list Line) :
  buildGraphFile seq1 seq2 seq3 = Some lines →
  let vs := allVertices (length seq1) (length seq2) (length seq3) in
  ∃ ess, Forall2 (λ v es, edgesAt seq1 seq2 seq3 v = Some es) vs ess
         ∧ lines = (V <$> vs) ++ (E <$> concat ess).
Proof.
  intros Hb vs. unfold buildGraphFile in Hb.
  rewrite buildStreams_edgesAt in Hb. fold vs in Hb.
  destruct (mapM (edgesAt seq1 seq2 seq3) vs) as [ess|] eqn:Hm; [|discriminate].
  simpl in Hb. injection Hb as <-.
  exists ess. split; [|reflexivity]. by apply mapM_Some.
Qed.

(** The file is written as soon as the body succeeds at every vertex. *)
Lemma buildGraphFile_defined (seq1 seq2 seq3 : list ascii) :
  (∀ v, v ∈ allVertices (length seq1) (length seq2) (length seq3) →
        is_Some (edgesAt seq1 seq2 seq3 v)) →
  is_Some (buildGraphFile seq1 seq2 seq3).
Proof.
  intros Hv. unfold buildGraphFile. rewrite buildStreams_edgesAt.
  destruct (mapM_is_Some_2 (edgesAt seq1 seq2 seq3)
    (allVertices (length seq1) (length seq2) (length seq3))) as [ess ->].
  { apply Forall_forall. exact Hv. }
  simpl. eauto.
Qed.

Lemma columnEdge_inv (v : Loc) (col : ascii * ascii * ascii) (e : EdgeLine) :
  columnEdge v col = Some e →
  label e = col ∧ startVertex e = v
  ∧ Blosum62.sumOfPairsWeight (fst (fst col)) (snd (fst col)) (snd col) = Some (weight e)
  ∧ endVertex e =
      ((if bool_decide (fst (fst col) = gapChar) then fst (fst v) else fst (fst v) + 1)%nat,
       (if bool_decide (snd (fst col) = gapChar) then snd (fst v) else snd (fst v) + 1)%nat,
       (if bool_decide (snd col = gapChar) then snd v else snd v + 1)%nat).
Proof.
  unfold columnEdge. intros H.
  destruct (Blosum62.sumOfPairsWeight _ _ _) as [w|]; [|discriminate].
  simpl in H. injection H as <-. simpl. auto.
Qed.

(** Every edge line of the file is the edge of a column of the vertex it
    starts at. *)
Lemma edge_of_file (seq1 seq2 seq3 : list ascii) (lines : list Line) (e : EdgeLine) :
  buildGraphFile seq1 seq2 seq3 = Some lines → E e ∈ lines →
  ∃ i j k, (i ≤ length seq1 ∧ j ≤ length seq2 ∧ k ≤ length seq3)%nat
    ∧ label e ∈ columnsAt (residueAt seq1 i) (residueAt seq2 j) (residueAt seq3 k)
    ∧ columnEdge (i, j, k) (label e) = Some e.
Proof.
  intros Hb He. apply buildGraphFile_inv in Hb as (ess & Hess & ->).
  apply elem_of_app in He as [He|He].
  { apply list_elem_of_fmap in He as (v & Hv & _). discriminate. }
  apply list_elem_of_fmap in He as (e' & [= <-] & He).
  apply elem_of_concat in He as (es & He & Hes).
  apply list_elem_of_lookup in Hes as (n & Hn).
  destruct (Forall2_lookup_r _ _ _ _ _ Hess Hn) as (v & Hv & Hat).
  assert (Hin : v ∈ allVertices (length seq1) (length seq2) (length seq3))
    by (apply list_elem_of_lookup; eauto).
  rewrite edgesAt_columns in Hat by exact Hin.
  destruct v as [[i j] k]. apply elem_of_allVertices in Hin.
  apply mapM_Some in Hat. simpl in Hat.
  apply list_elem_of_lookup in He as (m & Hm).
  destruct (Forall2_lookup_r _ _ _ _ _ Hat Hm) as (col & Hcol & Hedge).
  pose proof (columnEdge_inv _ _ _ Hedge) as (Hl & _).
  exists i, j, k. rewrite Hl. split; [exact Hin|]. split; [|exact Hedge].
  apply list_elem_of_lookup; eauto.
Qed.

Lemma edgesAt_start (seq1 seq2 seq3 : list ascii) (v : Loc) (es : list EdgeLine) :
  v ∈ allVertices (length seq1) (length seq2) (length seq3) →
  edgesAt seq1 seq2 seq3 v = Some es → Forall (λ e, startVertex e = v) es.
Proof.
  intros Hv Hes. rewrite edgesAt_columns in Hes by exact Hv.
  apply mapM_Some in Hes. apply Forall_forall. intros e He.
  apply list_elem_of_lookup in He as (m & Hm).
  destruct (Forall2_lookup_r _ _ _ _ _ Hes Hm) as (col & _ & Hedge).
  by apply columnEdge_inv in Hedge as (_ & ? & _).
Qed.

Lemma filter_all {A : Type} (P : A → Prop) `{∀ x, Decision (P x)} (l : list A) :
  Forall P l → filter P l = l.
Proof.
  induction 1 as [|x l Hx _ IH]; [reflexivity|].
  rewrite filter_cons_True by done. by rewrite IH.
Qed.

Lemma filter_none {A : Type} (P : A → Prop) `{∀ x, Decision (P x)} (l : list A) :
  Forall (λ x, ¬ P x) l → filter P l = [].
Proof.
  induction 1 as [|x l Hx _ IH]; [reflexivity|].
  by rewrite filter_cons_False.
Qed.

(** The edges of the file that leave a vertex are the edges the loop body
    wrote for it. *)
Lemma outgoing_edgesAt (seq1 seq2 seq3 : list ascii) (lines : list Line)
    (v : Loc) (es : list EdgeLine) :
  buildGraphFile seq1 seq2 seq3 = Some lines →
  v ∈ allVertices (length seq1) (length seq2) (length seq3) →
  edgesAt seq1 seq2 seq3 v = Some es →
  outgoing v lines = es.
Proof.
  intros Hb Hv Hes. apply buildGraphFile_inv in Hb as (ess & Hess & ->).
  unfold outgoing. rewrite edgeLines_file.
  pose proof (allVertices_NoDup (length seq1) (length seq2) (length seq3)) as Hnd.
  assert (Hsub : ∀ u, u ∈ allVertices (length seq1) (length seq2) (length seq3) →
                      u ∈ allVertices (length seq1) (length seq2) (length seq3)) by auto.
  revert Hsub Hnd Hv Hess.
  generalize (allVertices (length seq1) (length seq2) (length seq3)) at 1 3 4 5 as vs.
  intros vs Hsub Hnd Hv Hess. revert Hnd Hv Hsub.
  induction Hess as [|u es' vs ess Hu Hess IH]; intros Hnd Hv Hsub.
  { by apply elem_of_nil in Hv. }
  apply NoDup_cons in Hnd as [Hnotin Hnd].
  assert (Hrest : ∀ w, w ∉ vs → filter (λ e, startVertex e = w) (concat ess) = []).
  { intros w Hw. apply filter_none. apply Forall_forall. intros e He Hst.
    apply elem_of_concat in He as (l & He & Hl).
    apply list_elem_of_lookup in Hl as (n & Hn).
    destruct (Forall2_lookup_r _ _ _ _ _ Hess Hn) as (u' & Hu' & Hat).
    assert (Hin : u' ∈ vs) by (apply list_elem_of_lookup; eauto).
    pose proof (edgesAt_start _ _ _ _ _ (Hsub u' (list_elem_of_further _ _ _ Hin)) Hat) as Hst'.
    rewrite Forall_forall in Hst'. specialize (Hst' e He). congruence. }
  simpl. rewrite filter_app.
  pose proof (edgesAt_start _ _ _ _ _ (Hsub u (list_elem_of_here _ _)) Hu) as Hst.
  destruct (decide (v = u)) as [->|Hne].
  - assert (es' = es) as -> by congruence.
    rewrite filter_all by exact Hst. rewrite Hrest by exact Hnotin. apply app_nil_r.
  - rewrite filter_none.
    2:{ eapply Forall_impl; [exact Hst|]. simpl. intros e -> ?. by apply Hne. }
    simpl. apply IH; [exact Hnd| |].
    + apply elem_of_cons in Hv as [?|?]; [done|done].
    + intros w Hw. apply Hsub. by right.
Qed.

(** The characters of a column are gap characters or the next residues of
    the sequences, and one of them at least is a residue. *)
Lemma columnsAt_elem (o1 o2 o3 : option ascii) (col : ascii * ascii * ascii) :
  col ∈ columnsAt o1 o2 o3 →
  (fst (fst col) = gapChar ∨ o1 = Some (fst (fst col)))
  ∧ (snd (fst col) = gapChar ∨ o2 = Some (snd (fst col)))
  ∧ (snd col = gapChar ∨ o3 = Some (snd col))
  ∧ (o1 = Some (fst (fst col)) ∨ o2 = Some (snd (fst col)) ∨ o3 = Some (snd col)).
Proof.
  destruct o1, o2, o3; cbn [columnsAt];
    rewrite ?elem_of_cons, elem_of_nil; intros H;
    repeat (destruct H as [H|H]; [subst col; simpl; tauto|]); destruct H.
Qed.

Lemma residueAt_Some (s : list ascii) (i : nat) (r : ascii) :
  residueAt s i = Some r → (i < length s)%nat ∧ s !! i = Some r.
Proof.
  unfold residueAt. case_bool_decide; [|discriminate]. auto.
Qed.

Lemma edgesAt_defined (seq1 seq2 seq3 : list ascii) (v : Loc) :
  Forall (λ r, r ∈ Blosum62.alphabet) seq1 →
  Forall (λ r, r ∈ Blosum62.alphabet) seq2 →
  Forall (λ r, r ∈ Blosum62.alphabet) seq3 →
  v ∈ allVertices (length seq1) (length seq2) (length seq3) →
  is_Some (edgesAt seq1 seq2 seq3 v).
Proof.
  intros H1 H2 H3 Hv. rewrite edgesAt_columns by exact Hv.
  apply mapM_is_Some_2, Forall_forall. intros col Hcol. simpl.
  apply columnsAt_elem in Hcol as (C1 & C2 & C3 & _).
  assert (Hval : ∀ (s : list ascii) (i : nat) (c : ascii),
            Forall (λ r, r ∈ Blosum62.alphabet) s →
            c = gapChar ∨ residueAt s i = Some c →
            c ∈ Blosum62.alphabet ∨ c = Blosum62.gapChar).
  { intros s i c Hs [->|Hr]; [by right|left].
    apply residueAt_Some in Hr as [_ Hr].
    rewrite Forall_forall in Hs. apply Hs. apply list_elem_of_lookup. eauto. }
  unfold columnEdge.
  destruct (Blosum62Facts.sumOfPairsWeight_defined
              (fst (fst col)) (snd (fst col)) (snd col)) as [w ->]; eauto.
Qed.

(** C5. For sequences over the alphabet, of lengths [n1], [n2] and [n3], the
    builder writes a file; the file is the vertex lines followed by the
    edge lines; the vertex lines are those of [(i, j, k)] for [i] in
    [0 .. n1], [j] in [0 .. n2] and [k] in [0 .. n3], in nested ascending
    order with [i] outermost and [k] innermost; there are
    [(n1+1)(n2+1)(n3+1)] of them, and the line of [(i, j, k)] reads
    [V i,j,k]. *)
Theorem vertex_lines_enumerated (seq1 seq2 seq3 : list ascii) :
  Forall (λ r, r ∈ Blosum62.alphabet) seq1 →
  Forall (λ r, r ∈ Blosum62.alphabet) seq2 →
  Forall (λ r, r ∈ Blosum62.alphabet) seq3 →
  let vs := i ← seq 0 (length seq1 + 1); j ← seq 0 (length seq2 + 1);
            k ← seq 0 (length seq3 + 1); [(i, j, k)] in
  ∃ lines es,
    buildGraphFile seq1 seq2 seq3 = Some lines
    ∧ lines = (V <$> vs) ++ (E <$> es)
    ∧ vertexLines lines = vs
    ∧ length (vertexLines lines)
      = ((length seq1 + 1) * (length seq2 + 1) * (length seq3 + 1))%nat
    ∧ ∀ i j k : nat,
        renderLine (V (i, j, k))
        = "V " +:+ (pretty i +:+ "," +:+ pretty j +:+ "," +:+ pretty k).
Proof.
  intros H1 H2 H3 vs.
  destruct (buildGraphFile_defined seq1 seq2 seq3) as [lines Hb].
  { intros v Hv. by apply edgesAt_defined. }
  pose proof (buildGraphFile_inv _ _ _ _ Hb) as (ess & _ & Hl).
  exists lines, (concat ess). split; [exact Hb|]. split; [exact Hl|].
  rewrite Hl, vertexLines_file. split; [reflexivity|].
  split; [apply allVertices_length|]. reflexivity.
Qed.

Lemma vertex_lines_enumerated_witness :
  ∃ lines es,
    buildGraphFile ["A"; "C"]%char ["C"]%char [] = Some lines
    ∧ lines = (V <$> [(0, 0, 0); (0, 1, 0); (1, 0, 0); (1, 1, 0);
                      (2, 0, 0); (2, 1, 0)]%nat) ++ (E <$> es)
    ∧ vertexLines lines
      = [(0, 0, 0); (0, 1, 0); (1, 0, 0); (1, 1, 0); (2, 0, 0); (2, 1, 0)]%nat
    ∧ length (vertexLines lines) = 6%nat
    ∧ ∀ i j k : nat,
        renderLine (V (i, j, k))
        = "V " +:+ (pretty i +:+ "," +:+ pretty j +:+ "," +:+ pretty k).
Proof.
  apply (vertex_lines_enumerated ["A"; "C"]%char ["C"]%char []);
    unfold Blosum62.alphabet; repeat constructor.
Defined.

Lemma advance_coordinate (r : ascii) (n : nat) :
  let n' := (if bool_decide (r = gapChar) then n else n + 1)%nat in
  (n' = n ∨ n' = n + 1)%nat
  ∧ (n' = (n + 1)%nat ↔ r ≠ gapChar) ∧ (n' = n ↔ r = gapChar)
  ∧ (r ≠ gapChar → n < n')%nat.
Proof.
  simpl. case_bool_decide as Hr; repeat split; intros; try tauto; try lia.
Qed.

(** The two preconditions on the sequences are needed. A residue that is
    not in the alphabet makes [sumOfPairsWeight] throw, and no file is
    written. *)
Example unknown_residue_no_file :
  buildGraphFile ["X"]%char ["A"]%char [] = None.
Proof. vm_compute. reflexivity. Qed.

(** A gap character in a sequence is taken for a sequence that does not
    advance: the edge is a loop at its start vertex. *)
Example gap_in_sequence_loop :
  buildGraphFile ["-"]%char [] []
  = Some [ V (0, 0, 0)%nat; V (1, 0, 0)%nat;
           E {| label := ("-", "-", "-")%char; startVertex := (0, 0, 0)%nat;
                endVertex := (0, 0, 0)%nat; weight := 0 |} ].
Proof. vm_compute. reflexivity. Qed.

(** C6. For sequences that hold no gap character, every edge of the file
    goes from a vertex [(i, j, k)] to a vertex [(i', j', k')] with [i'] in
    [{i, i+1}], [j'] in [{j, j+1}] and [k'] in [{k, k+1}], one coordinate at
    least strictly larger; a coordinate advances exactly when the label
    holds a residue at its position, which is then the residue of the
    sequence at that offset, and stays exactly when the label holds the gap
    character there. *)
Theorem emitted_edge_advances (seq1 seq2 seq3 : list ascii) (lines : list Line)
    (e : EdgeLine) :
  gapChar ∉ seq1 → gapChar ∉ seq2 → gapChar ∉ seq3 →
  buildGraphFile seq1 seq2 seq3 = Some lines →
  E e ∈ lines →
  ∃ i j k i' j' k' r1 r2 r3,
    startVertex e = (i, j, k) ∧ endVertex e = (i', j', k')
    ∧ label e = (r1, r2, r3)
    ∧ (i' = i ∨ i' = i + 1)%nat ∧ (j' = j ∨ j' = j + 1)%nat
    ∧ (k' = k ∨ k' = k + 1)%nat
    ∧ (i < i' ∨ j < j' ∨ k < k')%nat
    ∧ (i' = (i + 1)%nat ↔ r1 ≠ gapChar) ∧ (i' = i ↔ r1 = gapChar)
    ∧ (j' = (j + 1)%nat ↔ r2 ≠ gapChar) ∧ (j' = j ↔ r2 = gapChar)
    ∧ (k' = (k + 1)%nat ↔ r3 ≠ gapChar) ∧ (k' = k ↔ r3 = gapChar)
    ∧ (r1 ≠ gapChar → seq1 !! i = Some r1)
    ∧ (r2 ≠ gapChar → seq2 !! j = Some r2)
    ∧ (r3 ≠ gapChar → seq3 !! k = Some r3).
Proof.
  intros G1 G2 G3 Hb He.
  destruct (edge_of_file _ _ _ _ _ Hb He) as (i & j & k & _ & Hcol & Hedge).
  apply columnsAt_elem in Hcol as (C1 & C2 & C3 & Hone).
  apply columnEdge_inv in Hedge as (_ & Hs & _ & Hend).
  destruct (label e) as [[r1 r2] r3] eqn:Hl. simpl in *.
  assert (Hres : ∀ (s : list ascii) (n : nat) (r : ascii),
            gapChar ∉ s → residueAt s n = Some r → r ≠ gapChar ∧ s !! n = Some r).
  { intros s n r Hg Hr. apply residueAt_Some in Hr as [_ Hr].
    split; [|exact Hr]. intros ->. apply Hg. apply list_elem_of_lookup. eauto. }
  exists i, j, k,
    (if bool_decide (r1 = gapChar) then i else i + 1)%nat,
    (if bool_decide (r2 = gapChar) then j else j + 1)%nat,
    (if bool_decide (r3 = gapChar) then k else k + 1)%nat, r1, r2, r3.
  split; [exact Hs|]. split; [exact Hend|]. split; [reflexivity|].
  assert (N1 : residueAt seq1 i = Some r1 → r1 ≠ gapChar ∧ seq1 !! i = Some r1)
    by apply Hres, G1.
  assert (N2 : residueAt seq2 j = Some r2 → r2 ≠ gapChar ∧ seq2 !! j = Some r2)
    by apply Hres, G2.
  assert (N3 : residueAt seq3 k = Some r3 → r3 ≠ gapChar ∧ seq3 !! k = Some r3)
    by apply Hres, G3.
  clear Hres Hs Hend Hl Hb He.
  destruct (advance_coordinate r1 i) as (A1 & B1 & D1 & L1).
  destruct (advance_coordinate r2 j) as (A2 & B2 & D2 & L2).
  destruct (advance_coordinate r3 k) as (A3 & B3 & D3 & L3).
  do 3 (split; [assumption|]).
  split.
  { destruct Hone as [H|[H|H]].
    - left. apply L1, N1, H.
    - right; left. apply L2, N2, H.
    - right; right. apply L3, N3, H. }
  do 6 (split; [assumption|]).
  split; [|split].
  - intros Hg. destruct C1 as [?|H]; [done|]. by apply N1.
  - intros Hg. destruct C2 as [?|H]; [done|]. by apply N2.
  - intros Hg. destruct C3 as [?|H]; [done|]. by apply N3.
Qed.

Lemma emitted_edge_advances_witness :
  ∃ (i j k i' j' k' : nat) (r1 r2 r3 : ascii),
    (0, 0, 0)%nat = (i, j, k) ∧ (1, 1, 0)%nat = (i', j', k')
    ∧ ("A", "C", gapChar)%char = (r1, r2, r3)
    ∧ (i' = i ∨ i' = i + 1)%nat ∧ (j' = j ∨ j' = j + 1)%nat
    ∧ (k' = k ∨ k' = k + 1)%nat
    ∧ (i < i' ∨ j < j' ∨ k < k')%nat
    ∧ (i' = (i + 1)%nat ↔ r1 ≠ gapChar) ∧ (i' = i ↔ r1 = gapChar)
    ∧ (j' = (j + 1)%nat ↔ r2 ≠ gapChar) ∧ (j' = j ↔ r2 = gapChar)
    ∧ (k' = (k + 1)%nat ↔ r3 ≠ gapChar) ∧ (k' = k ↔ r3 = gapChar)
    ∧ (r1 ≠ gapChar → ["A"; "C"]%char !! i = Some r1)
    ∧ (r2 ≠ gapChar → ["C"]%char !! j = Some r2)
    ∧ (r3 ≠ gapChar → ([] : list ascii) !! k = Some r3).
Proof.
  eapply (emitted_edge_advances ["A"; "C"]%char ["C"]%char [] _
            {| label := ("A", "C", gapChar)%char; startVertex := (0, 0, 0)%nat;
               endVertex := (1, 1, 0)%nat; weight := -12 |}).
  - compute_done.
  - compute_done.
  - compute_done.
  - vm_compute. reflexivity.
  - do 8 apply list_elem_of_further. apply list_elem_of_here.
Defined.

(** C10. Every edge of the file whose label holds one residue and two gap
    characters has the weight [2 * gapCost], which is -12, whatever the
    residue and whichever the sequence that advances. *)
Theorem single_advance_weight (seq1 seq2 seq3 : list ascii) (lines : list Line)
    (e : EdgeLine) (r1 r2 r3 : ascii) :
  buildGraphFile seq1 seq2 seq3 = Some lines →
  E e ∈ lines →
  label e = (r1, r2, r3) →
  (r1 ≠ gapChar ∧ r2 = gapChar ∧ r3 = gapChar)
  ∨ (r1 = gapChar ∧ r2 ≠ gapChar ∧ r3 = gapChar)
  ∨ (r1 = gapChar ∧ r2 = gapChar ∧ r3 ≠ gapChar) →
  weight e = 2 * Blosum62.gapCost ∧ weight e = -12.
Proof.
  intros Hb He Hl Hone.
  destruct (edge_of_file _ _ _ _ _ Hb He) as (i & j & k & _ & _ & Hedge).
  apply columnEdge_inv in Hedge as (_ & _ & Hw & _).
  rewrite Hl in Hw. simpl in Hw.
  assert (Some (weight e) = Some (2 * Blosum62.gapCost)) as [= ->]; [|done].
  rewrite <- Hw.
  destruct Hone as [(N & -> & ->)|[(-> & N & ->)|(-> & -> & N)]].
  - by apply Blosum62Facts.sumOfPairsWeight_single_1.
  - by apply Blosum62Facts.sumOfPairsWeight_single_2.
  - by apply Blosum62Facts.sumOfPairsWeight_single_3.
Qed.

Lemma single_advance_weight_witness :
  weight {| label := (gapChar, "C", gapChar)%char; startVertex := (0, 0, 0)%nat;
            endVertex := (0, 1, 0)%nat; weight := -12 |} = 2 * Blosum62.gapCost
  ∧ weight {| label := (gapChar, "C", gapChar)%char; startVertex := (0, 0, 0)%nat;
              endVertex := (0, 1, 0)%nat; weight := -12 |} = -12.
Proof.
  eapply (single_advance_weight ["A"; "C"]%char ["C"]%char [] _
            {| label := (gapChar, "C", gapChar)%char; startVertex := (0, 0, 0)%nat;
               endVertex := (0, 1, 0)%nat; weight := -12 |}
            gapChar "C"%char gapChar).
  - vm_compute. reflexivity.
  - do 7 apply list_elem_of_further. apply list_elem_of_here.
  - reflexivity.
  - right. left. split; [reflexivity|]. split; [|reflexivity]. discriminate.
Defined.

(** C1 does not hold as stated: with the first two sequences empty and the
    third one ["A"], two sequences are exhausted at the vertex [(0, 0, 0)],
    and the file has an edge that leaves it. *)
Lemma two_exhausted_counterexample :
  ¬ (∀ (seq1 seq2 seq3 : list ascii) (lines : list Line) (i j k : nat),
       buildGraphFile seq1 seq2 seq3 = Some lines →
       (i ≤ length seq1 ∧ j ≤ length seq2 ∧ k ≤ length seq3)%nat →
       (i = length seq1 ∧ j = length seq2) ∨ (i = length seq1 ∧ k = length seq3)
       ∨ (j = length seq2 ∧ k = length seq3) →
       outgoing (i, j, k) lines = []).
Proof.
  intros H.
  specialize (H [] [] ["A"%char] _ 0%nat 0%nat 0%nat eq_refl).
  simpl in H. discriminate H; [lia|tauto].
Qed.

(** C1, amended. In the file the builder writes, no edge leaves the vertex
    at which all three sequences are exhausted, and exactly one edge leaves
    a vertex at which exactly two are: the single advance of the sequence
    that is left, whose label holds the next residue [r] of that sequence
    against two gap characters; when [r] is not the gap character, the
    edge ends one step further in that sequence and weighs [2 * gapCost]. *)
Theorem exhausted_vertex_edges (seq1 seq2 seq3 : list ascii) (lines : list Line) :
  buildGraphFile seq1 seq2 seq3 = Some lines →
  let n1 := length seq1 in
  let n2 := length seq2 in
  let n3 := length seq3 in
  outgoing (n1, n2, n3) lines = []
  ∧ (∀ k, (k < n3)%nat → ∃ r e,
        seq3 !! k = Some r ∧ outgoing (n1, n2, k) lines = [e]
        ∧ label e = (gapChar, gapChar, r)
        ∧ (r ≠ gapChar → endVertex e = (n1, n2, k + 1)%nat
                         ∧ weight e = 2 * Blosum62.gapCost))
  ∧ (∀ j, (j < n2)%nat → ∃ r e,
        seq2 !! j = Some r ∧ outgoing (n1, j, n3) lines = [e]
        ∧ label e = (gapChar, r, gapChar)
        ∧ (r ≠ gapChar → endVertex e = (n1, j + 1, n3)%nat
                         ∧ weight e = 2 * Blosum62.gapCost))
  ∧ (∀ i, (i < n1)%nat → ∃ r e,
        seq1 !! i = Some r ∧ outgoing (i, n2, n3) lines = [e]
        ∧ label e = (r, gapChar, gapChar)
        ∧ (r ≠ gapChar → endVertex e = (i + 1, n2, n3)%nat
                         ∧ weight e = 2 * Blosum62.gapCost)).
Proof.
  intros Hb n1 n2 n3.
  assert (Hat : ∀ i j k, (i ≤ n1 ∧ j ≤ n2 ∧ k ≤ n3)%nat →
            ∃ es, mapM (columnEdge (i, j, k))
                    (columnsAt (residueAt seq1 i) (residueAt seq2 j) (residueAt seq3 k))
                  = Some es ∧ outgoing (i, j, k) lines = es).
  { intros i j k Hr.
    assert (Hin : (i, j, k) ∈ allVertices n1 n2 n3) by by apply elem_of_allVertices.
    pose proof (buildGraphFile_inv _ _ _ _ Hb) as (ess & Hess & _).
    apply list_elem_of_lookup in Hin as (n & Hn).
    destruct (Forall2_lookup_l _ _ _ _ _ Hess Hn) as (es & _ & Hes).
    exists es. split.
    - rewrite <- edgesAt_columns; [exact Hes|]. apply list_elem_of_lookup; eauto.
    - eapply outgoing_edgesAt; [exact Hb| |exact Hes]. apply list_elem_of_lookup; eauto. }
  assert (Hend : ∀ s, residueAt s (length s) = None) by (intros s; by apply residueAt_ge).
  assert (Hone : ∀ (v : Loc) (col : ascii * ascii * ascii) (es : list EdgeLine),
            mapM (columnEdge v) [col] = Some es →
            ∃ e, es = [e] ∧ columnEdge v col = Some e).
  { intros v col es H. cbn in H.
    destruct (columnEdge v col) as [e|]; [|discriminate].
    injection H as <-. eauto. }
  split; [|split; [|split]].
  - destruct (Hat n1 n2 n3) as (es & Hm & ->); [lia|].
    unfold n1, n2, n3 in Hm. rewrite !Hend in Hm. by injection Hm.
  - intros k Hk. destruct (Hat n1 n2 k) as (es & Hm & Hout); [lia|].
    destruct (residueAt_lt seq3 k Hk) as (r & Hr & Hl).
    unfold n1, n2 in Hm. rewrite !Hend, Hr in Hm. cbn [columnsAt] in Hm.
    apply Hone in Hm as (e & -> & He).
    apply columnEdge_inv in He as (Hlab & _ & Hw & Hev). simpl in *.
    exists r, e. do 3 (split; [done|]). intros Hg. split.
    + rewrite Hev. by rewrite bool_decide_eq_false_2.
    + rewrite Blosum62Facts.sumOfPairsWeight_single_3 in Hw by done.
      by injection Hw.
  - intros j Hj. destruct (Hat n1 j n3) as (es & Hm & Hout); [lia|].
    destruct (residueAt_lt seq2 j Hj) as (r & Hr & Hl).
    unfold n1, n3 in Hm. rewrite !Hend, Hr in Hm. cbn [columnsAt] in Hm.
    apply Hone in Hm as (e & -> & He).
    apply columnEdge_inv in He as (Hlab & _ & Hw & Hev). simpl in *.
    exists r, e. do 3 (split; [done|]). intros Hg. split.
    + rewrite Hev. by rewrite bool_decide_eq_false_2.
    + rewrite Blosum62Facts.sumOfPairsWeight_single_2 in Hw by done.
      by injection Hw.
  - intros i Hi. destruct (Hat i n2 n3) as (es & Hm & Hout); [lia|].
    destruct (residueAt_lt seq1 i Hi) as (r & Hr & Hl).
    unfold n2, n3 in Hm. rewrite !Hend, Hr in Hm. cbn [columnsAt] in Hm.
    apply Hone in Hm as (e & -> & He).
    apply columnEdge_inv in He as (Hlab & _ & Hw & Hev). simpl in *.
    exists r, e. do 3 (split; [done|]). intros Hg. split.
    + rewrite Hev. by rewrite bool_decide_eq_false_2.
    + rewrite Blosum62Facts.sumOfPairsWeight_single_1 in Hw by done.
      by injection Hw.
Qed.

Lemma exhausted_vertex_edges_witness :
  ∃ lines, buildGraphFile [] [] ["A"; "C"]%char = Some lines
  ∧ outgoing (0, 0, 2)%nat lines = []
  ∧ (∀ k, (k < 2)%nat → ∃ r e,
        ["A"; "C"]%char !! k = Some r ∧ outgoing (0, 0, k)%nat lines = [e]
        ∧ label e = (gapChar, gapChar, r)
        ∧ (r ≠ gapChar → endVertex e = (0, 0, k + 1)%nat
                         ∧ weight e = 2 * Blosum62.gapCost))
  ∧ (∀ j, (j < 0)%nat → ∃ r e,
        ([] : list ascii) !! j = Some r ∧ outgoing (0, j, 2)%nat lines = [e]
        ∧ label e = (gapChar, r, gapChar)
        ∧ (r ≠ gapChar → endVertex e = (0, j + 1, 2)%nat
                         ∧ weight e = 2 * Blosum62.gapCost))
  ∧ (∀ i, (i < 0)%nat → ∃ r e,
        ([] : list ascii) !! i = Some r ∧ outgoing (i, 0, 2)%nat lines = [e]
        ∧ label e = (r, gapChar, gapChar)
        ∧ (r ≠ gapChar → endVertex e = (i + 1, 0, 2)%nat
                         ∧ weight e = 2 * Blosum62.gapCost)).
Proof.
  eexists. split.
  { vm_compute. reflexivity. }
  apply (exhausted_vertex_edges [] [] ["A"; "C"]%char).
  vm_compute. reflexivity.
Defined.

End BuilderFacts.

(** ** The graph engine *)

Module GraphFacts.
Import WDAGraph GraphState.

(** *** Graph states *)

Lemma with_vertices_id (g : t) : with_vertices g (vertices g) = g.
Proof. by destruct g. Qed.

Lemma putVertex_id (g : t) (p : nat) (x : Vertex.t) :
  vertices g !! p = Some x → putVertex g p x = g.
Proof.
  intros H. unfold putVertex. rewrite list_insert_id by exact H.
  apply with_vertices_id.
Qed.

Lemma putVertex_put (g : t) (p : nat) (x y : Vertex.t) :
  putVertex (putVertex g p x) p y = putVertex g p y.
Proof.
  unfold putVertex, with_vertices; simpl. by rewrite list_insert_insert_eq.
Qed.

Lemma putVertex_lookup (g : t) (p : nat) (x y : Vertex.t) :
  vertices g !! p = Some y → vertices (putVertex g p x) !! p = Some x.
Proof.
  intros H. simpl. apply list_lookup_insert_eq. by eapply lookup_lt_Some.
Qed.

Lemma putVertex_lookup_ne (g : t) (p q : nat) (x : Vertex.t) :
  p ≠ q → vertices (putVertex g p x) !! q = vertices g !! q.
Proof. intros H. simpl. by apply list_lookup_insert_ne. Qed.

Lemma erase_putVertex (g : t) (p : nat) (x y : Vertex.t) :
  vertices g !! p = Some y → Vertex.label x = Vertex.label y →
  erase (putVertex g p x) = erase g.
Proof.
  intros Hy Hl. unfold erase, putVertex, with_vertices; simpl.
  rewrite list_fmap_insert, Hl.
  rewrite list_insert_id; [reflexivity|].
  by rewrite list_lookup_fmap, Hy.
Qed.

Lemma erase_with_highestWeightNode (g : t) (h : option nat) :
  erase (with_highestWeightNode g h) = erase g.
Proof. reflexivity. Qed.

Lemma erase_labels (g g' : t) : erase g = erase g' → labels g = labels g'.
Proof.
  intros H. apply (f_equal vertices) in H. simpl in H.
  apply (f_equal (fmap Vertex.label)) in H.
  rewrite <- !list_fmap_compose in H. exact H.
Qed.

Lemma erase_length (g g' : t) :
  erase g = erase g' → length (vertices g) = length (vertices g').
Proof.
  intros H%erase_labels. unfold labels in H.
  apply (f_equal length) in H. by rewrite !length_fmap in H.
Qed.

Lemma erase_label (g g' : t) (p : nat) (x x' : Vertex.t) :
  erase g = erase g' → vertices g !! p = Some x → vertices g' !! p = Some x' →
  Vertex.label x = Vertex.label x'.
Proof.
  intros H%erase_labels Hx Hx'. unfold labels in H.
  apply (f_equal (λ l, l !! p)) in H. rewrite !list_lookup_fmap, Hx, Hx' in H.
  by injection H.
Qed.

Lemma erase_fields (g g' : t) :
  erase g = erase g' →
  edges g = edges g' ∧ edgeHeap g = edgeHeap g'
  ∧ startNode g = startNode g' ∧ endNode g = endNode g'.
Proof.
  intros H. repeat split.
  - exact (f_equal edges H).
  - exact (f_equal edgeHeap H).
  - exact (f_equal startNode H).
  - exact (f_equal endNode H).
Qed.

Lemma erase_eq (g g' : t) :
  erase g = erase g' → vertices g = vertices g' →
  highestWeightNode g = highestWeightNode g' → g = g'.
Proof.
  destruct g, g'. unfold erase; simpl. intros [= _ -> -> -> -> -> -> ->] -> ->.
  reflexivity.
Qed.

Lemma erase_isStartConstrained (g g' : t) :
  erase g = erase g' → isStartConstrained g = isStartConstrained g'.
Proof. intros (_ & _ & H & _)%erase_fields. unfold isStartConstrained. by rewrite H. Qed.

Lemma erase_isEndConstrained (g g' : t) :
  erase g = erase g' → isEndConstrained g = isEndConstrained g'.
Proof. intros (_ & _ & _ & H)%erase_fields. unfold isEndConstrained. by rewrite H. Qed.

Lemma wellFormed_erase (g g' : t) :
  erase g = erase g' → wellFormed g → wellFormed g'.
Proof.
  intros He [W1 W2 W3 W4 W5 W6].
  pose proof (erase_length _ _ He) as Hlen.
  pose proof (erase_labels _ _ He) as Hlab.
  pose proof (f_equal verticeMap He) as Hm.
  pose proof (f_equal edges He) as Hed.
  pose proof (f_equal edgeHeap He) as Hh.
  pose proof (f_equal startNode He) as Hs.
  pose proof (f_equal endNode He) as Hn.
  simpl in *.
  split; rewrite <- ?Hlen, <- ?Hlab, <- ?Hm, <- ?Hed, <- ?Hh, <- ?Hs, <- ?Hn; assumption.
Qed.

(** *** The loop over the edges of a vertex *)

Lemma offer_label (x : Vertex.t) (e : nat) (c : option Z) :
  Vertex.label (offer x e c) = Vertex.label x.
Proof. destruct c as [w|]; simpl; [|done]. by case_bool_decide. Qed.

Lemma offer_weight (x : Vertex.t) (e : nat) (c : option Z) :
  Vertex.weight x ≤ Vertex.weight (offer x e c).
Proof. destruct c as [w|]; simpl; [|lia]. case_bool_decide; simpl; lia. Qed.

Lemma offers_label (x : Vertex.t) (cs : list (nat * option Z)) :
  Vertex.label (offers x cs) = Vertex.label x.
Proof.
  revert x. induction cs as [|[e c] cs IH]; intros x; simpl; [done|].
  by rewrite IH, offer_label.
Qed.

Lemma offers_weight (x : Vertex.t) (cs : list (nat * option Z)) :
  Vertex.weight x ≤ Vertex.weight (offers x cs).
Proof.
  revert x. induction cs as [|[e c] cs IH]; intros x; simpl; [lia|].
  pose proof (offer_weight x e c). pose proof (IH (offer x e c)). lia.
Qed.

(** One iteration, as an offer to the vertex. *)
Lemma relaxEdge_offer (vertex edge : nat) (g : t) :
  relaxEdge vertex edge g
  = c ← candidate g vertex edge;
    x ← vertices g !! vertex;
    Some (putVertex g vertex (offer x edge c)).
Proof.
  unfold relaxEdge, candidate.
  destruct (edgeHeap g !! edge) as [e|]; simpl; [|done].
  destruct (vertices g !! vertex) as [x|] eqn:Hx; simpl; [|done].
  destruct (vertices g !! Edge.end_ e) as [y|]; simpl; [|done].
  case_bool_decide; simpl.
  - destruct (vertices g !! Edge.start e) as [z|]; simpl; [|done].
    destruct (isStartConstrained g && bool_decide (Vertex.weight z = INT_MIN)); simpl.
    + by rewrite putVertex_id.
    + case_bool_decide; [done|]. by rewrite putVertex_id.
  - by rewrite putVertex_id.
Qed.

(** The loop writes the vertex only: its label stays and its weight does
    not decrease. *)
Lemma relax_frame (vertex : nat) (es : list nat) (g g' : t) (x : Vertex.t) :
  forEach es (relaxEdge vertex) g = Some g' →
  vertices g !! vertex = Some x →
  ∃ x', g' = putVertex g vertex x'
        ∧ Vertex.label x' = Vertex.label x
        ∧ Vertex.weight x ≤ Vertex.weight x'.
Proof.
  revert g x. induction es as [|e es IH]; intros g x Hrun Hx.
  - injection Hrun as <-. exists x. rewrite putVertex_id by done. split; [done|]. split; [done|lia].
  - cbn [forEach] in Hrun. rewrite relaxEdge_offer, Hx in Hrun.
    destruct (candidate g vertex e) as [c|]; [|discriminate]. simpl in Hrun.
    destruct (IH _ (offer x e c) Hrun) as (x' & -> & Hl & Hw).
    { by eapply putVertex_lookup. }
    exists x'. rewrite putVertex_put. split; [done|].
    rewrite Hl, offer_label. split; [done|].
    pose proof (offer_weight x e c). lia.
Qed.

Lemma candidate_defined (g : t) (vertex edge : nat) :
  wellFormed g → (vertex < length (vertices g))%nat →
  (edge < length (edgeHeap g))%nat →
  is_Some (candidate g vertex edge).
Proof.
  intros W Hv He. unfold candidate.
  destruct (lookup_lt_is_Some_2 _ _ He) as [e Hedge]. rewrite Hedge; simpl.
  destruct (lookup_lt_is_Some_2 _ _ Hv) as [x ->]; simpl.
  destruct (wf_heap g W e) as [Hs Hn]; [by eapply list_elem_of_lookup_2|].
  destruct (lookup_lt_is_Some_2 _ _ Hn) as [y ->]; simpl.
  destruct (lookup_lt_is_Some_2 _ _ Hs) as [z ->]; simpl.
  case_bool_decide; [|eauto].
  destruct (isStartConstrained g && _); eauto.
Qed.

Lemma wellFormed_putVertex (g : t) (p : nat) (x y : Vertex.t) :
  vertices g !! p = Some y → Vertex.label x = Vertex.label y →
  wellFormed g → wellFormed (putVertex g p x).
Proof.
  intros Hy Hl. apply wellFormed_erase. symmetry. by eapply erase_putVertex.
Qed.

Lemma relax_defined (vertex : nat) (es : list nat) (g : t) :
  wellFormed g → (vertex < length (vertices g))%nat →
  Forall (λ e, (e < length (edgeHeap g))%nat) es →
  is_Some (forEach es (relaxEdge vertex) g).
Proof.
  intros W Hv Hes. revert g W Hv Hes.
  induction es as [|e es IH]; intros g W Hv Hes; [by eexists|].
  apply Forall_cons in Hes as [He Hes].
  cbn [forEach]. rewrite relaxEdge_offer.
  destruct (candidate_defined g vertex e W Hv He) as [c ->]; simpl.
  destruct (lookup_lt_is_Some_2 _ _ Hv) as [x Hx]. rewrite Hx; simpl.
  apply IH.
  - eapply wellFormed_putVertex; [done| |done]. apply offer_label.
  - simpl. by rewrite length_insert.
  - exact Hes.
Qed.

(** *** The body of the loop over the vertices *)

Lemma setWeight_putVertex (g : t) (p : nat) (w : Z) :
  setWeight g p w = x ← vertices g !! p; Some (putVertex g p (resetWeight x w)).
Proof. reflexivity. Qed.

Lemma visit_inv (i : nat) (g g' : t) (sf sf' brk : bool) :
  visit i (g, sf) = Some ((g', sf'), brk) →
  (skipped g sf i ∧ g' = g ∧ sf' = sf ∧ brk = false)
  ∨ ∃ x g1 es g2,
      vertices g !! i = Some x
      ∧ started g sf i x g1 sf'
      ∧ edges g !! Vertex.label x = Some es
      ∧ forEach es (relaxEdge i) g1 = Some g2
      ∧ selectHighest i g2 = Some (g', brk).
Proof.
  unfold visit, checkStart. rewrite setWeight_putVertex.
  destruct (isStartConstrained g) eqn:Hsc.
  - destruct sf; simpl.
    + destruct (vertices g !! i) as [x|] eqn:Hx; simpl; [|discriminate].
      destruct (edges g !! Vertex.label x) as [es|] eqn:Hes; simpl; [|discriminate].
      destruct (forEach es (relaxEdge i) g) as [g2|] eqn:Hrun; simpl; [|discriminate].
      destruct (selectHighest i g2) as [[g3 stop]|] eqn:Hsel; simpl; [|discriminate].
      intros [= <- <- <-]. right. exists x, g, es, g2.
      split; [done|]. split; [|done]. left. done.
    + destruct (vertices g !! i) as [x|] eqn:Hx; simpl; [|discriminate].
      destruct (startNode g) as [sn|] eqn:Hsn; simpl; [|discriminate].
      destruct (vertices g !! sn) as [s|] eqn:Hs; simpl; [|discriminate].
      case_bool_decide as Hl; simpl.
      * rewrite list_lookup_insert_eq by by eapply lookup_lt_Some. simpl.
        destruct (edges g !! Vertex.label x) as [es|] eqn:Hes; simpl; [|discriminate].
        match goal with |- context [forEach es (relaxEdge i) ?G] =>
          destruct (forEach es (relaxEdge i) G) as [g2|] eqn:Hrun end;
          simpl; [|discriminate].
        destruct (selectHighest i g2) as [[g3 stop]|] eqn:Hsel; simpl; [|discriminate].
        intros [= <- <- <-]. right. eexists x, _, es, g2.
        split; [done|]. split; [|done]. right; left.
        do 3 (split; [done|]). split; [|done]. by exists sn, s.
      * intros [= <- <- <-]. left. split; [|done]. unfold skipped.
        do 2 (split; [done|]). by exists x, sn, s.
  - destruct (vertices g !! i) as [x|] eqn:Hx; simpl; [|discriminate].
    rewrite list_lookup_insert_eq by by eapply lookup_lt_Some. simpl.
    destruct (edges g !! Vertex.label x) as [es|] eqn:Hes; simpl; [|discriminate].
    match goal with |- context [forEach es (relaxEdge i) ?G] =>
      destruct (forEach es (relaxEdge i) G) as [g2|] eqn:Hrun end;
      simpl; [|discriminate].
    destruct (selectHighest i g2) as [[g3 stop]|] eqn:Hsel; simpl; [|discriminate].
    intros [= <- <- <-]. right. eexists x, _, es, g2.
    split; [done|]. split; [|done]. right; right. done.
Qed.

Lemma selectHighest_inv (i : nat) (g g' : t) (brk : bool) :
  selectHighest i g = Some (g', brk) →
  ∃ x, vertices g !! i = Some x
  ∧ ((isEndConstrained g = true
      ∧ ∃ en e, endNode g = Some en ∧ vertices g !! en = Some e
          ∧ ((Vertex.label x = Vertex.label e ∧ brk = true
              ∧ g' = with_highestWeightNode g (Some i))
             ∨ (Vertex.label x ≠ Vertex.label e ∧ brk = false ∧ g' = g)))
     ∨ (isEndConstrained g = false ∧ brk = false
        ∧ ((highestWeightNode g = None ∧ g' = with_highestWeightNode g (Some i))
           ∨ ∃ h hv, highestWeightNode g = Some h ∧ vertices g !! h = Some hv
               ∧ ((Vertex.weight x > Vertex.weight hv
                   ∧ g' = with_highestWeightNode g (Some i))
                  ∨ (¬ Vertex.weight x > Vertex.weight hv ∧ g' = g))))).
Proof.
  unfold selectHighest.
  destruct (vertices g !! i) as [x|] eqn:Hx; simpl; [|discriminate].
  intros H. exists x. split; [done|].
  destruct (isEndConstrained g) eqn:Hec.
  - left. split; [done|].
    destruct (endNode g) as [en|] eqn:Hen; simpl in H; [|discriminate].
    destruct (vertices g !! en) as [e|] eqn:He; simpl in H; [|discriminate].
    exists en, e. do 2 (split; [done|]).
    case_bool_decide; injection H as <- <-; [by left|by right].
  - right. split; [done|].
    destruct (highestWeightNode g) as [h|] eqn:Hh.
    + destruct (vertices g !! h) as [hv|] eqn:Hhv; simpl in H; [|discriminate].
      case_bool_decide; injection H as <- <-; (split; [done|]); right;
        exists h, hv; (do 2 (split; [done|])); [by left|by right].
    + injection H as <- <-. split; [done|]. by left.
Qed.

Lemma started_erase (g g1 : t) (sf sf' : bool) (i : nat) (x : Vertex.t) :
  vertices g !! i = Some x → started g sf i x g1 sf' → erase g1 = erase g.
Proof.
  intros Hx [(_ & _ & _ & ->)|[(_ & _ & _ & _ & ->)|(_ & _ & ->)]].
  - done.
  - rewrite erase_with_highestWeightNode. by eapply erase_putVertex.
  - by eapply erase_putVertex.
Qed.

Lemma started_vertices (g g1 : t) (sf sf' : bool) (i : nat) (x : Vertex.t) :
  vertices g !! i = Some x → started g sf i x g1 sf' →
  ∃ x1, vertices g1 = <[i := x1]> (vertices g)
        ∧ Vertex.label x1 = Vertex.label x
        ∧ (x1 = x ∨ x1 = resetWeight x 0).
Proof.
  intros Hx [(_ & _ & _ & ->)|[(_ & _ & _ & _ & ->)|(_ & _ & ->)]].
  - exists x. rewrite list_insert_id by done. auto.
  - exists (resetWeight x 0). simpl. auto.
  - exists (resetWeight x 0). simpl. auto.
Qed.

Lemma selectHighest_erase (i : nat) (g g' : t) (brk : bool) :
  selectHighest i g = Some (g', brk) → erase g' = erase g ∧ vertices g' = vertices g.
Proof.
  intros (x & _ & [(_ & en & e & _ & _ & [(_ & _ & ->)|(_ & _ & ->)])
                  |(_ & _ & [(_ & ->)|(h & hv & _ & _ & [(_ & ->)|(_ & ->)])])])%selectHighest_inv;
    done.
Qed.

(** The body of the loop writes the vertex it visits and the best vertex,
    nothing else. *)
Lemma visit_frame (i : nat) (g g' : t) (sf sf' brk : bool) :
  visit i (g, sf) = Some ((g', sf'), brk) →
  erase g' = erase g
  ∧ ∃ x x', vertices g !! i = Some x ∧ vertices g' = <[i := x']> (vertices g)
            ∧ Vertex.label x' = Vertex.label x.
Proof.
  intros [((_ & _ & x & _ & _ & Hx & _) & -> & _)
         |(x & g1 & es & g2 & Hx & Hst & _ & Hrun & Hsel)]%visit_inv.
  - split; [done|]. exists x, x. rewrite list_insert_id by done. done.
  - pose proof (started_erase _ _ _ _ _ _ Hx Hst) as He1.
    destruct (started_vertices _ _ _ _ _ _ Hx Hst) as (x1 & Hv1 & Hl1 & _).
    assert (Hx1 : vertices g1 !! i = Some x1).
    { rewrite Hv1. apply list_lookup_insert_eq. by eapply lookup_lt_Some. }
    destruct (relax_frame _ _ _ _ _ Hrun Hx1) as (x2 & -> & Hl2 & _).
    destruct (selectHighest_erase _ _ _ _ Hsel) as [He3 Hv3].
    split.
    + rewrite He3. rewrite (erase_putVertex _ _ _ _ Hx1 Hl2). exact He1.
    + exists x, x2. split; [done|]. rewrite Hv3. simpl. rewrite Hv1.
      rewrite list_insert_insert_eq. split; [done|]. congruence.
Qed.

(** *** The loop over the vertices returns *)

Lemma isStartConstrained_true (g : t) :
  isStartConstrained g = true → ∃ sn, startNode g = Some sn.
Proof.
  unfold isStartConstrained. intros H%bool_decide_eq_true.
  destruct (startNode g) as [sn|]; [by exists sn|done].
Qed.

Lemma isEndConstrained_true (g : t) :
  isEndConstrained g = true → ∃ en, endNode g = Some en.
Proof.
  unfold isEndConstrained. intros H%bool_decide_eq_true.
  destruct (endNode g) as [en|]; [by exists en|done].
Qed.

Lemma isStartConstrained_false (g : t) :
  isStartConstrained g = false ↔ startNode g = None.
Proof.
  unfold isStartConstrained. rewrite bool_decide_eq_false.
  destruct (startNode g); split; intros H; try done.
  - exfalso. by apply H.
  - intros H'. by apply H'.
Qed.

Lemma isEndConstrained_false (g : t) :
  isEndConstrained g = false ↔ endNode g = None.
Proof.
  unfold isEndConstrained. rewrite bool_decide_eq_false.
  destruct (endNode g); split; intros H; try done.
  - exfalso. by apply H.
  - intros H'. by apply H'.
Qed.

Lemma checkStart_defined (i : nat) (g : t) (sf : bool) :
  wellFormed g → (i < length (vertices g))%nat →
  is_Some (checkStart i (g, sf)).
Proof.
  intros W Hi. unfold checkStart. rewrite setWeight_putVertex.
  destruct (lookup_lt_is_Some_2 _ _ Hi) as [x Hx]. rewrite Hx. simpl.
  destruct (isStartConstrained g) eqn:Hsc; [|by eexists].
  destruct sf; simpl; [by eexists|].
  destruct (isStartConstrained_true g Hsc) as [sn Hsn]. rewrite Hsn; simpl.
  destruct (lookup_lt_is_Some_2 _ _ (wf_start g W sn Hsn)) as [s ->]. simpl.
  case_bool_decide; by eexists.
Qed.

Lemma selectHighest_defined (i : nat) (g : t) :
  wellFormed g → highestValid g → (i < length (vertices g))%nat →
  is_Some (selectHighest i g).
Proof.
  intros W HV Hi. unfold selectHighest.
  destruct (lookup_lt_is_Some_2 _ _ Hi) as [x ->]. simpl.
  destruct (isEndConstrained g) eqn:Hec.
  - destruct (isEndConstrained_true g Hec) as [en Hen]. rewrite Hen; simpl.
    destruct (lookup_lt_is_Some_2 _ _ (wf_end g W en Hen)) as [e ->]. simpl.
    case_bool_decide; by eexists.
  - destruct (highestWeightNode g) as [h|] eqn:Hh; [|by eexists].
    destruct (lookup_lt_is_Some_2 _ _ (HV h Hh)) as [hv ->]. simpl.
    case_bool_decide; by eexists.
Qed.

Lemma checkStart_inv (i : nat) (g : t) (sf : bool) (r : option (t * bool)) :
  checkStart i (g, sf) = Some r → (i < length (vertices g))%nat →
  match r with
  | None => skipped g sf i
  | Some (g1, sf') => ∃ x, vertices g !! i = Some x ∧ started g sf i x g1 sf'
  end.
Proof.
  intros H Hi. unfold checkStart in H. rewrite setWeight_putVertex in H.
  destruct (lookup_lt_is_Some_2 _ _ Hi) as [x Hx]. rewrite Hx in H. simpl in H.
  destruct (isStartConstrained g) eqn:Hsc.
  - destruct sf; simpl in H.
    + injection H as <-. exists x. split; [done|]. by left.
    + destruct (startNode g) as [sn|] eqn:Hsn; simpl in H; [|discriminate].
      destruct (vertices g !! sn) as [s|] eqn:Hs; simpl in H; [|discriminate].
      case_bool_decide; injection H as <-.
      * exists x. split; [done|]. right; left.
        do 3 (split; [done|]). split; [|done]. by exists sn, s.
      * do 2 (split; [done|]). by exists x, sn, s.
  - injection H as <-. exists x. split; [done|]. by right; right.
Qed.

Lemma visit_defined (i : nat) (g : t) (sf : bool) :
  wellFormed g → highestValid g → (i < length (vertices g))%nat →
  ∃ g' sf' brk, visit i (g, sf) = Some ((g', sf'), brk)
                ∧ wellFormed g' ∧ highestValid g'
                ∧ length (vertices g') = length (vertices g).
Proof.
  intros W HV Hi.
  assert (Hok : is_Some (visit i (g, sf))).
  { unfold visit.
    destruct (checkStart_defined i g sf W Hi) as [r Hr]. rewrite Hr. simpl.
    pose proof (checkStart_inv _ _ _ _ Hr Hi) as Hinv.
    destruct r as [[g1 sf1]|]; [|by eexists].
    destruct Hinv as (x & Hx & Hst).
    pose proof (started_erase _ _ _ _ _ _ Hx Hst) as He1.
    assert (W1 : wellFormed g1) by (eapply wellFormed_erase; [symmetry|]; done).
    assert (Hlen1 : length (vertices g1) = length (vertices g)) by by apply erase_length.
    destruct (lookup_lt_is_Some_2 (vertices g1) i) as [x1 Hx1]; [lia|].
    rewrite Hx1. simpl.
    destruct (wf_edges g1 W1 (Vertex.label x1)) as [es Hes].
    { apply list_elem_of_fmap. exists x1. split; [done|]. by eapply list_elem_of_lookup_2. }
    rewrite Hes. simpl.
    destruct (relax_defined i es g1 W1) as [g2 Hrun]; [lia| |].
    { apply Forall_forall. intros e He. by eapply wf_adjacent. }
    rewrite Hrun. simpl.
    destruct (relax_frame _ _ _ _ _ Hrun Hx1) as (x2 & -> & Hl2 & _).
    destruct (selectHighest_defined i (putVertex g1 i x2)) as [[g3 brk] ->].
    - by eapply wellFormed_putVertex.
    - intros h Hh. simpl in *. rewrite length_insert, Hlen1.
      destruct Hst as [(_ & _ & _ & ->)|[(_ & _ & _ & _ & ->)|(_ & _ & ->)]];
        simpl in Hh; [by apply HV| |by apply HV]. by injection Hh as <-.
    - simpl. rewrite length_insert. lia.
    - by eexists. }
  destruct Hok as [[[g' sf'] brk] Hv]. exists g', sf', brk. split; [done|].
  destruct (visit_frame _ _ _ _ _ _ Hv) as (He & x & x' & Hx & Hvs & Hl).
  split; [eapply wellFormed_erase; [symmetry|]; done|].
  assert (Hlen : length (vertices g') = length (vertices g)) by by apply erase_length.
  split; [|done].
  intros h Hh. rewrite Hlen.
  destruct (visit_inv _ _ _ _ _ _ Hv) as [((_ & _) & -> & _)
         |(y & g1 & es & g2 & Hy & Hst & _ & Hrun & Hsel)]; [by apply HV|].
  destruct (started_vertices _ _ _ _ _ _ Hy Hst) as (x1 & Hv1 & _).
  assert (Hx1 : vertices g1 !! i = Some x1).
  { rewrite Hv1. apply list_lookup_insert_eq. by eapply lookup_lt_Some. }
  destruct (relax_frame _ _ _ _ _ Hrun Hx1) as (x2 & -> & _).
  assert (Hh1 : ∀ h, highestWeightNode g1 = Some h → (h < length (vertices g))%nat).
  { intros k Hk.
    destruct Hst as [(_ & _ & _ & ->)|[(_ & _ & _ & _ & ->)|(_ & _ & ->)]];
      simpl in Hk; [by apply HV| |by apply HV]. by injection Hk as <-. }
  apply selectHighest_inv in Hsel
    as (z & _ & [(_ & en & e & _ & _ & [(_ & _ & ->)|(_ & _ & ->)])
                |(_ & _ & [(_ & ->)|(k & hv & _ & _ & [(_ & ->)|(_ & ->)])])]);
    simpl in Hh; try (by apply Hh1); by injection Hh as <-.
Qed.

Lemma forEachBreak_defined {S : Type} (W : S → Prop)
    (body : nat → S → option (S * bool)) (l : list nat) (s : S) :
  (∀ i s, i ∈ l → W s → ∃ s' brk, body i s = Some (s', brk) ∧ W s') →
  W s → ∃ s', forEachBreak l body s = Some s' ∧ W s'.
Proof.
  revert s. induction l as [|i l IH]; intros s Hb Hs; [by exists s|].
  destruct (Hb i s) as (s' & brk & Hbody & Hs'); [by left|done|].
  cbn [forEachBreak]. rewrite Hbody. destruct brk; [by exists s'|].
  apply IH; [|done]. intros j t Hj. apply Hb. by right.
Qed.

(** On a well-formed graph, [findHighestWeightPath] returns. *)
Lemma findHighestWeightPath_defined (g : t) :
  wellFormed g → highestValid g →
  ∃ g', findHighestWeightPath g = Some g' ∧ wellFormed g' ∧ highestValid g'.
Proof.
  intros W HV. unfold findHighestWeightPath.
  destruct (forEachBreak_defined
    (λ st : t * bool, wellFormed (fst st) ∧ highestValid (fst st)
                      ∧ length (vertices (fst st)) = length (vertices g))
    visit (seq 0 (length (vertices g))) (g, false))
    as ([g' sf'] & -> & W' & HV' & _).
  - intros i [g1 sf1] Hi%elem_of_seq (W1 & HV1 & Hlen). simpl in *.
    destruct (visit_defined i g1 sf1 W1 HV1) as (g2 & sf2 & brk & Hv & W2 & HV2 & Hlen2);
      [lia|].
    exists (g2, sf2), brk. simpl. split; [done|]. split; [done|]. split; [done|]. lia.
  - done.
  - simpl. by exists g'.
Qed.

(** *** Loaded graphs *)

Lemma wellFormed_empty : wellFormed empty.
Proof.
  split; simpl; try done.
  - intros l Hl. by apply elem_of_nil in Hl.
  - intros e He. by apply elem_of_nil in He.
Qed.

Lemma wellFormed_push (g : t) (label : string) (st en : option nat) (w : Z)
    (b : option nat) (ew ef : gmap string Z) :
  wellFormed g →
  st = startNode g ∨ st = Some (length (vertices g)) →
  en = endNode g ∨ en = Some (length (vertices g)) →
  wellFormed
    {| vertices := vertices g ++ [ Vertex.mk label w b ];
       verticeMap := <[label := length (vertices g)]> (verticeMap g);
       edges := <[label := []]> (edges g);
       edgeHeap := edgeHeap g;
       startNode := st; endNode := en;
       highestWeightNode := highestWeightNode g;
       edgeWeights := ew; edgeFrequencies := ef |}.
Proof.
  intros [W1 W2 W3 W4 W5 W6] Hst Hen.
  split; simpl; rewrite ?length_app; simpl.
  - intros p Hp. destruct Hst as [->| ->].
    + specialize (W1 p Hp). lia.
    + injection Hp as <-. lia.
  - intros p Hp. destruct Hen as [->| ->].
    + specialize (W2 p Hp). lia.
    + injection Hp as <-. lia.
  - intros l p Hl. apply lookup_insert_Some in Hl as [[_ <-]|[_ Hl]]; [lia|].
    specialize (W3 l p Hl). lia.
  - intros l Hl. unfold labels in Hl. simpl in Hl.
    rewrite fmap_app in Hl. apply elem_of_app in Hl as [Hl|Hl].
    + apply lookup_insert_is_Some'. right. by apply W4.
    + apply list_elem_of_singleton in Hl. simpl in Hl. subst l.
      rewrite lookup_insert_eq. by eexists.
  - intros l es e Hl He. apply lookup_insert_Some in Hl as [[_ <-]|[_ Hl]].
    + by apply elem_of_nil in He.
    + by eapply W5.
  - intros e He. destruct (W6 e He). lia.
Qed.

Lemma addVertex_wellFormed (tokens : list string) (g g' : t) :
  addVertex tokens g = Some g' → wellFormed g →
  wellFormed g' ∧ highestWeightNode g' = highestWeightNode g.
Proof.
  unfold addVertex. intros H W.
  destruct (tokens !! 1%nat) as [label|]; simpl in H; [|discriminate].
  injection H as <-.
  destruct (tokens !! 2%nat) as [tag|]; [repeat case_bool_decide|]; simpl;
    (split; [|reflexivity]); apply wellFormed_push; auto.
Qed.

Lemma addEdge_wellFormed (atof : string → Z) (tokens : list string) (g g' : t) :
  addEdge atof tokens g = Some g' → wellFormed g →
  wellFormed g' ∧ highestWeightNode g' = highestWeightNode g.
Proof.
  unfold addEdge. intros H W.
  destruct (tokens !! 1%nat) as [label|]; simpl in H; [|discriminate].
  destruct (tokens !! 2%nat) as [startLabel|]; simpl in H; [|discriminate].
  destruct (verticeMap g !! startLabel) as [start|] eqn:Hs; simpl in H; [|discriminate].
  destruct (tokens !! 3%nat) as [endLabel|]; simpl in H; [|discriminate].
  destruct (verticeMap g !! endLabel) as [end_|] eqn:Hn; simpl in H; [|discriminate].
  destruct (tokens !! 4%nat) as [weightToken|]; simpl in H; [|discriminate].
  destruct (vertices g !! start) as [sv|] eqn:Hsv; simpl in H; [|discriminate].
  destruct (edges g !! Vertex.label sv) as [startEdges|] eqn:Hse; simpl in H; [|discriminate].
  destruct (vertices g !! end_) as [ev|] eqn:Hev; simpl in H; [|discriminate].
  destruct (<[Vertex.label sv:=startEdges ++ [length (edgeHeap g)]]> (edges g)
              !! Vertex.label ev) as [endEdges|] eqn:Hee; simpl in H; [|discriminate].
  injection H as <-. split; [|reflexivity].
  destruct W as [W1 W2 W3 W4 W5 W6].
  split; simpl; rewrite ?length_app; simpl; try assumption.
  - intros l Hl. do 2 (apply lookup_insert_is_Some'; right). by apply W4.
  - assert (Hstep : ∀ l es e,
      <[Vertex.label sv:=startEdges ++ [length (edgeHeap g)]]> (edges g) !! l = Some es →
      e ∈ es → (e < length (edgeHeap g) + 1)%nat).
    { intros l es e Hl He. apply lookup_insert_Some in Hl as [[_ <-]|[_ Hl]].
      - apply elem_of_app in He as [He|He].
        + specialize (W5 _ _ _ Hse He). lia.
        + apply list_elem_of_singleton in He. lia.
      - specialize (W5 _ _ _ Hl He). lia. }
    intros l es e Hl He. apply lookup_insert_Some in Hl as [[_ <-]|[_ Hl]].
    + apply elem_of_app in He as [He|He].
      * by eapply Hstep.
      * apply list_elem_of_singleton in He. lia.
    + by eapply Hstep.
  - intros e He. apply elem_of_app in He as [He|He]; [by apply W6|].
    apply list_elem_of_singleton in He. subst e. simpl.
    split; by eapply lookup_lt_Some.
Qed.

(** A loaded graph is well formed and has no best vertex yet. *)
Lemma buildGraph_wellFormed (atof : string → Z) (lines : list (list string)) (g : t) :
  buildGraph atof lines = Some g →
  wellFormed g ∧ highestWeightNode g = None.
Proof.
  unfold buildGraph.
  assert (Hgen : ∀ g0, buildGraphFrom atof g0 lines = Some g → wellFormed g0 →
                       wellFormed g ∧ highestWeightNode g = highestWeightNode g0).
  { induction lines as [|tokens lines IH]; intros g0 Hb W0.
    - by injection Hb as <-.
    - cbn [buildGraphFrom] in Hb.
      destruct (buildLine atof g0 tokens) as [g1|] eqn:Hl; simpl in Hb; [|discriminate].
      assert (wellFormed g1 ∧ highestWeightNode g1 = highestWeightNode g0) as [W1 H1].
      { unfold buildLine in Hl.
        destruct (tokens !! 0%nat) as [kind|]; simpl in Hl; [|discriminate].
        repeat case_bool_decide.
        - by eapply addVertex_wellFormed.
        - by eapply addEdge_wellFormed.
        - by injection Hl as <-. }
      destruct (IH g1 Hb W1) as [W H]. split; [done|congruence]. }
  intros Hb. apply (Hgen empty Hb wellFormed_empty).
Qed.

Lemma highestValid_None (g : t) : highestWeightNode g = None → highestValid g.
Proof. intros H h Hh. congruence. Qed.

(** *** The best vertex was reached *)

Lemma forEachBreak_invariant {St : Type} (P : nat → St → Prop) (Q : St → Prop)
    (body : nat → St → option (St * bool)) (k i : nat) (s s' : St) :
  (∀ j t t', body j t = Some (t', false) → P j t → P (S j) t') →
  (∀ j t t', body j t = Some (t', true) → P j t → Q t') →
  forEachBreak (seq i k) body s = Some s' → P i s → Q s' ∨ P (i + k)%nat s'.
Proof.
  intros Hstep Hbreak. revert i s. induction k as [|k IH]; intros i s Hrun Hs.
  - injection Hrun as <-. right. by rewrite Nat.add_0_r.
  - cbn [seq forEachBreak] in Hrun.
    destruct (body i s) as [[t brk]|] eqn:Hb; [|discriminate].
    destruct brk.
    + injection Hrun as <-. left. by eapply Hbreak.
    + replace (i + S k)%nat with (S i + k)%nat by lia.
      eapply IH; [done|]. by eapply Hstep.
Qed.

Lemma bestReached_step (i : nat) (g g' : t) (sf sf' brk : bool) :
  visit i (g, sf) = Some ((g', sf'), brk) →
  isStartConstrained g = false ∨ isEndConstrained g = false →
  bestReached i (g, sf) → bestReached (S i) (g', sf').
Proof.
  intros Hv Hmode [Ha Hb]. simpl in Ha, Hb.
  pose proof (visit_frame _ _ _ _ _ _ Hv) as (He & _).
  destruct (visit_inv _ _ _ _ _ _ Hv) as [((Hsc & Hsf & _) & -> & -> & _)
         |(x & g1 & es & g2 & Hx & Hst & _ & Hrun & Hsel)].
  { split; simpl.
    - intros h Hh. destruct (Ha h Hh) as [Hlt Hw]. split; [lia|done].
    - intros _ ?. congruence. }
  pose proof (lookup_lt_Some _ _ _ Hx) as Hi.
  destruct (started_vertices _ _ _ _ _ _ Hx Hst) as (x1 & Hv1 & Hl1 & Hx1c).
  assert (Hx1 : vertices g1 !! i = Some x1).
  { rewrite Hv1. by apply list_lookup_insert_eq. }
  destruct (relax_frame _ _ _ _ _ Hrun Hx1) as (x2 & -> & Hl2 & Hw2).
  assert (Hother : ∀ h, h ≠ i →
            vertices (putVertex g1 i x2) !! h = vertices g !! h).
  { intros h Hne. simpl. rewrite Hv1. by rewrite !list_lookup_insert_ne. }
  assert (Hself : vertices (putVertex g1 i x2) !! i = Some x2).
  { simpl. apply list_lookup_insert_eq. rewrite Hv1, length_insert. done. }
  (* the best vertex before the comparison *)
  assert (Hbefore : ∀ h, highestWeightNode g1 = Some h →
            (h < S i)%nat
            ∧ ∃ v, vertices (putVertex g1 i x2) !! h = Some v ∧ 0 ≤ Vertex.weight v).
  { intros h Hh.
    destruct Hst as [(_ & _ & _ & ->)|[(_ & _ & _ & _ & ->)|(_ & _ & ->)]].
    - destruct (Ha h Hh) as (Hlt & v & Hv' & Hw). split; [lia|].
      exists v. rewrite Hother by lia. done.
    - simpl in Hh. injection Hh as <-. split; [lia|]. exists x2.
      split; [done|]. simpl in Hx1. rewrite list_lookup_insert_eq in Hx1 by done.
      injection Hx1 as <-. simpl in Hw2. lia.
    - simpl in Hh. destruct (Ha h Hh) as (Hlt & v & Hv' & Hw). split; [lia|].
      exists v. rewrite Hother by lia. done. }
  assert (Hnotnone : isStartConstrained g = true → highestWeightNode g1 ≠ None).
  { intros Hsc.
    destruct Hst as [(_ & -> & _ & ->)|[(_ & _ & _ & _ & ->)|(Hn & _)]].
    - by apply Hb.
    - done.
    - congruence. }
  assert (Hreset : isStartConstrained g = false → 0 ≤ Vertex.weight x2).
  { intros Hsc.
    destruct Hst as [(Hn & _)|[(Hn & _)|(_ & _ & ->)]]; [congruence..|].
    simpl in Hx1. rewrite list_lookup_insert_eq in Hx1 by done.
    injection Hx1 as <-. simpl in Hw2. lia. }
  assert (Hec : isEndConstrained (putVertex g1 i x2) = isEndConstrained g).
  { apply erase_isEndConstrained.
    rewrite (erase_putVertex _ _ _ _ Hx1 Hl2). by eapply started_erase. }
  assert (Hsc' : isStartConstrained g' = isStartConstrained g)
    by by apply erase_isStartConstrained.
  apply selectHighest_inv in Hsel as (z & Hz & Hsel).
  rewrite Hself in Hz. injection Hz as <-.
  rewrite Hec in Hsel.
  split; simpl.
  - intros h Hh.
    destruct Hsel as [(Hend & en & e & _ & _ & [(_ & _ & ->)|(_ & _ & ->)])
                     |(_ & _ & [(Hnone & ->)|(k & hv & Hk & Hhv & [(Hgt & ->)|(_ & ->)])])];
      simpl in Hh.
    + injection Hh as <-. split; [lia|]. exists x2. split; [done|].
      apply Hreset. destruct Hmode; congruence.
    + by apply Hbefore.
    + injection Hh as <-. split; [lia|]. exists x2. split; [done|].
      destruct (isStartConstrained g) eqn:Hsc; [|by apply Hreset].
      by destruct (Hnotnone eq_refl Hnone).
    + injection Hh as <-. split; [lia|]. exists x2. split; [done|].
      destruct (Hbefore k Hk) as (_ & v & Hv' & Hw).
      simpl in Hhv, Hv'. rewrite Hhv in Hv'. injection Hv' as <-. lia.
    + by apply Hbefore.
  - rewrite Hsc'. intros Hsc _.
    destruct Hsel as [(Hend & _)
                     |(_ & _ & [(_ & ->)|(k & hv & Hk & Hhv & [(Hgt & ->)|(_ & ->)])])];
      simpl; try done.
    + destruct Hmode; congruence.
    + by apply Hnotnone.
Qed.

Lemma bestReached_final (g g' : t) :
  findHighestWeightPath g = Some g' →
  highestWeightNode g = None →
  isStartConstrained g = false ∨ isEndConstrained g = false →
  ∀ h, highestWeightNode g' = Some h →
       ∃ v, vertices g' !! h = Some v ∧ 0 ≤ Vertex.weight v.
Proof.
  unfold findHighestWeightPath. intros Hrun Hnone Hmode.
  destruct (forEachBreak _ visit (g, false)) as [[g1 sf1]|] eqn:Hloop; [|discriminate].
  simpl in Hrun. injection Hrun as <-.
  pose (P := λ (i : nat) (st : t * bool),
    erase (fst st) = erase g ∧ bestReached i st).
  assert (Hstep : ∀ j st st' brk,
            visit j st = Some (st', brk) → P j st → P (S j) st').
  { intros j [t sf] [t' sf'] brk Hv [He Hb]. simpl in He. split; simpl.
    - destruct (visit_frame _ _ _ _ _ _ Hv) as [-> _]. done.
    - eapply bestReached_step; [done| |done].
      by rewrite (erase_isStartConstrained _ _ He), (erase_isEndConstrained _ _ He). }
  destruct (forEachBreak_invariant P (λ st, ∃ i, P i st) visit _ _ _ _
              (λ j st st', Hstep j st st' false)
              (λ j st st' Hv Hp, ex_intro _ (S j) (Hstep j st st' true Hv Hp))
              Hloop) as [(i & _ & Hb & _)|(_ & Hb & _)].
  - split; [done|]. split; simpl; [|done]. intros h Hh. congruence.
  - intros h Hh. by destruct (Hb h Hh).
  - intros h Hh. by destruct (Hb h Hh).
Qed.

(** C7 does not hold as stated: with a start vertex and an end vertex that
    no edge joins, the end vertex is recorded as the best vertex and its
    weight is still [INT_MIN]. *)
Lemma unreached_best_counterexample :
  ¬ (∀ (lines : list (list string)) (g g' : t) (h : nat) (v : Vertex.t),
       buildGraph Samples.atofInteger lines = Some g →
       findHighestWeightPath g = Some g' →
       highestWeightNode g' = Some h → vertices g' !! h = Some v →
       Vertex.weight v ≠ INT_MIN).
Proof.
  intros H.
  refine (H Samples.unreachedEnd _ _ 1%nat (Vertex.mk "b" INT_MIN None) _ _ _ _ _).
  - vm_compute. reflexivity.
  - vm_compute. reflexivity.
  - reflexivity.
  - reflexivity.
  - reflexivity.
Qed.

(** C7, amended. On a loaded graph with no start constraint or no end
    constraint, [findHighestWeightPath] returns, and the vertex it records
    as the best one, if any, has a weight of 0 or more: it is never a vertex
    whose weight is still [INT_MIN], the first vertex visited included.
    (With both constraints the end vertex is recorded as it is met.) *)
Theorem best_vertex_reached (atof : string → Z) (lines : list (list string))
    (g : t) :
  buildGraph atof lines = Some g →
  startNode g = None ∨ endNode g = None →
  ∃ g', findHighestWeightPath g = Some g'
    ∧ ∀ h, highestWeightNode g' = Some h →
           ∃ v, vertices g' !! h = Some v
                ∧ 0 ≤ Vertex.weight v ∧ Vertex.weight v ≠ INT_MIN.
Proof.
  intros Hb Hmode.
  destruct (buildGraph_wellFormed _ _ _ Hb) as [W Hnone].
  destruct (findHighestWeightPath_defined g W (highestValid_None g Hnone))
    as (g' & Hrun & _).
  exists g'. split; [done|]. intros h Hh.
  destruct (bestReached_final g g' Hrun Hnone) with (h := h) as (v & Hv & Hw); [|done|].
  { destruct Hmode as [H|H]; [left; by apply isStartConstrained_false
                             |right; by apply isEndConstrained_false]. }
  exists v. split; [done|]. split; [done|]. unfold INT_MIN. lia.
Qed.

Lemma best_vertex_reached_witness :
  ∃ g', findHighestWeightPath
          {| vertices := [Vertex.mk "0,0,0" INT_MIN None; Vertex.mk "1,1,1" INT_MIN None];
             verticeMap := {[ "0,0,0" := 0%nat; "1,1,1" := 1%nat ]};
             edges := {[ "0,0,0" := [0%nat]; "1,1,1" := [0%nat] ]};
             edgeHeap := [Edge.mk "ACC" 9 0 1];
             startNode := None; endNode := None; highestWeightNode := None;
             edgeWeights := {[ "ACC" := 9 ]};
             edgeFrequencies := {[ "ACC" := 1 ]} |} = Some g'
    ∧ ∀ h, highestWeightNode g' = Some h →
           ∃ v, vertices g' !! h = Some v
                ∧ 0 ≤ Vertex.weight v ∧ Vertex.weight v ≠ INT_MIN.
Proof.
  apply (best_vertex_reached Samples.atofInteger Samples.oneEdge).
  - vm_compute. reflexivity.
  - left. reflexivity.
Defined.

(** *** The end constraint *)

Lemma labels_lookup (g : t) (i : nat) (x : Vertex.t) :
  vertices g !! i = Some x → labels g !! i = Some (Vertex.label x).
Proof. intros H. unfold labels. by rewrite list_lookup_fmap, H. Qed.

Lemma erase_startLabel (g g' : t) : erase g = erase g' → startLabel g = startLabel g'.
Proof.
  intros He. unfold startLabel.
  by rewrite (erase_labels _ _ He), (f_equal startNode He : startNode g = startNode g').
Qed.

Lemma erase_endLabel (g g' : t) : erase g = erase g' → endLabel g = endLabel g'.
Proof.
  intros He. unfold endLabel.
  by rewrite (erase_labels _ _ He), (f_equal endNode He : endNode g = endNode g').
Qed.

Lemma endConstraint_step (i : nat) (g g' : t) (sf sf' brk : bool) :
  visit i (g, sf) = Some ((g', sf'), brk) →
  isEndConstrained g = true →
  recordedAtConstraint g → awaiting i (g, sf) →
  recordedAtConstraint g'
  ∧ (brk = true → highestWeightNode g' ≠ None)
  ∧ (brk = false → awaiting (S i) (g', sf')).
Proof.
  intros Hv Hend Hrec Haw.
  pose proof (visit_frame _ _ _ _ _ _ Hv) as (He & _).
  pose proof (erase_labels _ _ He) as Hlab.
  pose proof (erase_startLabel _ _ He) as HsL.
  pose proof (erase_endLabel _ _ He) as HeL.
  pose proof (erase_isStartConstrained _ _ He) as Hsc'.
  unfold recordedAtConstraint, awaiting in *. simpl in *.
  rewrite Hlab, HsL, HeL, Hsc'. clear Hlab HsL HeL Hsc' He.
  destruct (visit_inv _ _ _ _ _ _ Hv) as [((Hsc & Hsf & y & sn & s & Hy & Hsn & Hs & Hne) & -> & -> & ->)
         |(x & g1 & es & g2 & Hx & Hst & _ & Hrun & Hsel)].
  { split; [done|]. split; [done|]. intros _ Hnone.
    destruct (Haw Hnone) as [Haw1 _]. split; [|congruence].
    intros _. split; [done|]. intros j l Hj Hl.
    destruct (decide (j = i)) as [->|Hji].
    - rewrite (labels_lookup _ _ _ Hy) in Hl. injection Hl as <-.
      unfold startLabel. rewrite Hsn. simpl. rewrite (labels_lookup _ _ _ Hs).
      congruence.
    - destruct (Haw1 Hsc) as [_ Hprev]. apply (Hprev j l); [lia|done]. }
  pose proof (lookup_lt_Some _ _ _ Hx) as Hi.
  pose proof (started_erase _ _ _ _ _ _ Hx Hst) as He1.
  destruct (started_vertices _ _ _ _ _ _ Hx Hst) as (x1 & Hv1 & Hl1 & _).
  assert (Hx1 : vertices g1 !! i = Some x1).
  { rewrite Hv1. by apply list_lookup_insert_eq. }
  destruct (relax_frame _ _ _ _ _ Hrun Hx1) as (x2 & -> & Hl2 & _).
  assert (He2 : erase (putVertex g1 i x2) = erase g).
  { by rewrite (erase_putVertex _ _ _ _ Hx1 Hl2). }
  assert (Hself : vertices (putVertex g1 i x2) !! i = Some x2).
  { simpl. apply list_lookup_insert_eq. rewrite Hv1, length_insert. done. }
  assert (Hh2 : highestWeightNode (putVertex g1 i x2) = highestWeightNode g1) by done.
  apply selectHighest_inv in Hsel as (z & Hz & Hsel).
  rewrite Hself in Hz. injection Hz as <-.
  rewrite (erase_isEndConstrained _ _ He2), Hend in Hsel.
  destruct Hsel as [(_ & en & e & Hen & He & Hsel)|(? & _)]; [|discriminate].
  assert (HeL : endLabel g = Some (Vertex.label e)).
  { rewrite <- (erase_endLabel _ _ He2). unfold endLabel. rewrite Hen. simpl.
    by apply labels_lookup. }
  assert (Hli : labels g !! i = Some (Vertex.label x)) by by apply labels_lookup.
  assert (Hlx : Vertex.label x2 = Vertex.label x) by congruence.
  (* the best vertex when the edges have been scanned *)
  assert (Hrec1 : ∀ h, highestWeightNode g1 = Some h →
            ∃ l, labels g !! h = Some l
                 ∧ (endLabel g = Some l ∨ startLabel g = Some l)).
  { intros h Hh.
    destruct Hst as [(_ & _ & _ & ->)|[(_ & _ & _ & (sn & s & Hsn & Hs & Hls) & ->)
                                      |(_ & _ & ->)]]; [by apply Hrec| |by apply Hrec].
    simpl in Hh. injection Hh as <-. exists (Vertex.label x). split; [done|].
    right. unfold startLabel. rewrite Hsn. simpl.
    rewrite (labels_lookup _ _ _ Hs). congruence. }
  destruct Hsel as [(Hmatch & -> & ->)|(Hmiss & -> & ->)]; simpl.
  - split; [|split; [done|discriminate]].
    intros h [= <-]. exists (Vertex.label x). split; [done|]. left. congruence.
  - split; [exact Hrec1|]. split; [discriminate|]. intros _ Hnone.
    destruct Hst as [(Hsc & -> & _ & ->)|[(_ & _ & _ & _ & ->)|(Hsc & -> & ->)]].
    + destruct (Haw Hnone) as [Haw1 _]. by destruct (Haw1 Hsc).
    + discriminate.
    + simpl in Hnone. destruct (Haw Hnone) as [_ Haw2].
      split; [congruence|]. intros _ j l Hj Hl.
      destruct (decide (j = i)) as [->|Hji].
      * rewrite Hli in Hl. injection Hl as <-. rewrite HeL. congruence.
      * apply (Haw2 Hsc j l); [lia|done].
Qed.

Lemma endConstraint_final (g g' : t) :
  wellFormed g → findHighestWeightPath g = Some g' →
  highestWeightNode g = None → isEndConstrained g = true →
  erase g' = erase g
  ∧ ∃ h l, highestWeightNode g' = Some h ∧ labels g !! h = Some l
           ∧ (endLabel g = Some l ∨ startLabel g = Some l).
Proof.
  unfold findHighestWeightPath. intros W Hrun Hnone Hend.
  destruct (forEachBreak _ visit (g, false)) as [[g1 sf1]|] eqn:Hloop; [|discriminate].
  simpl in Hrun. injection Hrun as <-.
  pose (P := λ (i : nat) (st : t * bool),
    erase (fst st) = erase g ∧ recordedAtConstraint (fst st) ∧ awaiting i st).
  pose (Q := λ st : t * bool,
    erase (fst st) = erase g ∧ recordedAtConstraint (fst st)
    ∧ highestWeightNode (fst st) ≠ None).
  assert (Hstep : ∀ j st st' brk, visit j st = Some (st', brk) → P j st →
            erase (fst st') = erase g ∧ recordedAtConstraint (fst st')
            ∧ (brk = true → highestWeightNode (fst st') ≠ None)
            ∧ (brk = false → awaiting (S j) st')).
  { intros j [t sf] [t' sf'] brk Hv (He & Hrec & Haw). simpl in *.
    destruct (visit_frame _ _ _ _ _ _ Hv) as [He' _].
    split; [congruence|].
    eapply endConstraint_step; [done| |done..].
    by rewrite (erase_isEndConstrained _ _ He). }
  assert (Hfinal : Q (g1, sf1)).
  { destruct (forEachBreak_invariant P Q visit _ _ _ _
                (λ j st st' Hv Hp,
                   match Hstep j st st' false Hv Hp with
                   | conj a (conj b (conj _ d)) => conj a (conj b (d eq_refl))
                   end)
                (λ j st st' Hv Hp,
                   match Hstep j st st' true Hv Hp with
                   | conj a (conj b (conj c _)) => conj a (conj b (c eq_refl))
                   end)
                Hloop) as [HQ|(He & Hrec & Haw)]; [| done |].
    - split; [done|]. split.
      + intros h Hh. simpl in Hh. congruence.
      + intros _. simpl. split.
        * intros _. split; [done|]. intros j l Hj. lia.
        * intros _ j l Hj. lia.
    - simpl in *. split; [done|]. split; [done|]. intros Hn.
      pose proof (erase_labels _ _ He) as Hlab.
      destruct (Haw Hn) as [Haw1 Haw2]. simpl in Haw1, Haw2.
      rewrite (erase_isStartConstrained _ _ He) in Haw1, Haw2.
      rewrite (erase_startLabel _ _ He), Hlab in Haw1.
      rewrite (erase_endLabel _ _ He), Hlab in Haw2.
      destruct (isStartConstrained g) eqn:Hsc.
      + destruct (isStartConstrained_true g Hsc) as [sn Hsn].
        pose proof (wf_start g W sn Hsn) as Hlt.
        destruct (lookup_lt_is_Some_2 _ _ Hlt) as [s Hs].
        destruct (Haw1 eq_refl) as [_ Hno].
        apply (Hno sn (Vertex.label s)); [lia|by apply labels_lookup|].
        unfold startLabel. rewrite Hsn. simpl. by apply labels_lookup.
      + destruct (isEndConstrained_true g Hend) as [en Hen].
        pose proof (wf_end g W en Hen) as Hlt.
        destruct (lookup_lt_is_Some_2 _ _ Hlt) as [e He'].
        apply (Haw2 eq_refl en (Vertex.label e)); [lia|by apply labels_lookup|].
        unfold endLabel. rewrite Hen. simpl. by apply labels_lookup. }
  destruct Hfinal as (He & Hrec & Hsome). simpl in *.
  split; [done|].
  destruct (highestWeightNode g1) as [h|] eqn:Hh; [|done].
  destruct (Hrec h Hh) as (l & Hl & Hor).
  rewrite (erase_labels _ _ He) in Hl.
  rewrite (erase_startLabel _ _ He), (erase_endLabel _ _ He) in Hor.
  by exists h, l.
Qed.

(** C3 does not hold as stated: with a start vertex and an end vertex that
    no edge joins, the weight of the end vertex is still [INT_MIN] after the
    scan and the report is a found path that ends at the end vertex, with
    [INT_MIN] as its score. *)
Lemma unreached_end_counterexample :
  ¬ (∀ (lines : list (list string)) (g g' : t) (en : nat) (e : Vertex.t)
       (fuel : nat) (r : Results),
       buildGraph Samples.atofInteger lines = Some g →
       findHighestWeightPath g = Some g' →
       endNode g' = Some en → vertices g' !! en = Some e →
       Vertex.weight e = INT_MIN →
       resultString fuel g' = Some r →
       pathInfo r = NoPathFound).
Proof.
  intros H.
  assert (Hr : PathFound INT_MIN "b" "b" "" = NoPathFound); [|discriminate Hr].
  refine (H Samples.unreachedEnd _ _ 1%nat (Vertex.mk "b" INT_MIN None) 1%nat
            (mkResults ∅ ∅ (PathFound INT_MIN "b" "b" "")) _ _ _ _ _ _).
  - vm_compute. reflexivity.
  - vm_compute. reflexivity.
  - reflexivity.
  - reflexivity.
  - reflexivity.
  - vm_compute. reflexivity.
Qed.

End GraphFacts.

(** ** A second run of the search *)

Module RerunFacts.
Import WDAGraph GraphState GraphFacts.

(** *** Offers *)

Lemma offers_bound (x : Vertex.t) (cs : list (nat * option Z)) (e : nat) (w : Z) :
  (e, Some w) ∈ cs → w ≤ Vertex.weight (offers x cs).
Proof.
  revert x. induction cs as [|[e' c] cs IH]; intros x Hin.
  - by apply elem_of_nil in Hin.
  - apply elem_of_cons in Hin as [[= <- <-]|Hin]; simpl.
    + pose proof (offers_weight (offer x e (Some w)) cs) as H.
      simpl in H. case_bool_decide; simpl in H; lia.
    + by apply IH.
Qed.

Lemma offers_none (y : Vertex.t) (cs : list (nat * option Z)) :
  (∀ e w, (e, Some w) ∈ cs → w ≤ Vertex.weight y) → offers y cs = y.
Proof.
  induction cs as [|[e c] cs IH]; intros Hb; [done|]. simpl.
  assert (offer y e c = y) as ->.
  { destruct c as [w|]; simpl; [|done].
    rewrite bool_decide_eq_false_2; [done|].
    specialize (Hb e w (list_elem_of_here _ _)). lia. }
  apply IH. intros e' w' Hin. apply (Hb e' w'). by right.
Qed.

(** Offering the same edges again changes nothing. *)
Lemma offers_again (x : Vertex.t) (cs : list (nat * option Z)) :
  offers (offers x cs) cs = offers x cs.
Proof. apply offers_none. intros e w Hin. by apply (offers_bound _ _ e). Qed.

Lemma offers_same_start (x x' : Vertex.t) (cs : list (nat * option Z)) :
  Vertex.label x = Vertex.label x' → Vertex.weight x = Vertex.weight x' →
  offers x cs = offers x' cs ∨ (offers x cs = x ∧ offers x' cs = x').
Proof.
  revert x x'. induction cs as [|[e c] cs IH]; intros x x' Hl Hw; [by right|].
  simpl. destruct c as [w|]; simpl; [|by apply IH].
  rewrite Hw, Hl. case_bool_decide; [by left|by apply IH].
Qed.

(** After the weight is set again to where it started, the same offers
    lead to the same vertex. *)
Lemma offers_reset_again (x : Vertex.t) (w : Z) (cs : list (nat * option Z)) :
  offers (resetWeight (offers (resetWeight x w) cs) w) cs
  = offers (resetWeight x w) cs.
Proof.
  set (y := offers (resetWeight x w) cs).
  destruct (offers_same_start (resetWeight x w) (resetWeight y w) cs) as [H|[H1 H2]].
  - simpl. unfold y. by rewrite offers_label.
  - done.
  - by rewrite <- H.
  - rewrite H2. fold y in H1. rewrite H1. unfold resetWeight. simpl.
    by destruct x.
Qed.

(** *** The edges of a vertex in a graph in topological order *)

Lemma topological_erase (g g' : t) :
  erase g = erase g' → topological g → topological g'.
Proof.
  intros He [H1 H2]. split.
  - by rewrite <- (erase_labels _ _ He).
  - by rewrite <- (f_equal edgeHeap He : edgeHeap g = edgeHeap g').
Qed.

Lemma lookup_erase (g g' : t) (j : nat) (x : Vertex.t) :
  erase g = erase g' → vertices g !! j = Some x →
  ∃ x', vertices g' !! j = Some x' ∧ Vertex.label x' = Vertex.label x.
Proof.
  intros He Hx.
  destruct (lookup_lt_is_Some_2 (vertices g') j) as [x' Hx'].
  { rewrite <- (erase_length _ _ He). by eapply lookup_lt_Some. }
  exists x'. split; [done|]. symmetry. by eapply erase_label.
Qed.

Lemma lookup_erase_None (g g' : t) (j : nat) :
  erase g = erase g' → vertices g !! j = None → vertices g' !! j = None.
Proof.
  intros He Hx. apply lookup_ge_None. rewrite <- (erase_length _ _ He).
  by apply lookup_ge_None.
Qed.

(** What an edge offers to a vertex depends on the vertices before it
    only. *)
Lemma candidate_local (g1 g2 : t) (v e : nat) :
  erase g1 = erase g2 → topological g1 →
  (∀ j, (j < v)%nat → vertices g1 !! j = vertices g2 !! j) →
  candidate g1 v e = candidate g2 v e.
Proof.
  intros He [Hnd Hord] Hag. unfold candidate.
  rewrite (f_equal edgeHeap He : edgeHeap g1 = edgeHeap g2).
  rewrite (erase_isStartConstrained _ _ He).
  destruct (edgeHeap g2 !! e) as [edge|] eqn:Hedge; simpl; [|done].
  destruct (vertices g1 !! v) as [x1|] eqn:H1.
  2:{ by rewrite (lookup_erase_None _ _ _ He H1). }
  destruct (lookup_erase _ _ _ _ He H1) as (x2 & H2 & Hl2). rewrite H2. simpl.
  destruct (vertices g1 !! Edge.end_ edge) as [y1|] eqn:Hy1.
  2:{ by rewrite (lookup_erase_None _ _ _ He Hy1). }
  destruct (lookup_erase _ _ _ _ He Hy1) as (y2 & Hy2 & Hly). rewrite Hy2. simpl.
  rewrite Hl2, Hly. case_bool_decide as Hsame; [|done].
  assert (Edge.end_ edge = v) as Hend.
  { eapply NoDup_lookup; [exact Hnd| |].
    - by apply labels_lookup.
    - rewrite Hsame. by apply labels_lookup. }
  assert (Edge.start edge < v)%nat as Hlt.
  { rewrite Forall_forall in Hord. rewrite <- Hend. apply Hord.
    rewrite (f_equal edgeHeap He : edgeHeap g1 = edgeHeap g2).
    by eapply list_elem_of_lookup_2. }
  by rewrite (Hag _ Hlt).
Qed.

Lemma candidates_local (g1 g2 : t) (v : nat) (es : list nat) :
  erase g1 = erase g2 → topological g1 →
  (∀ j, (j < v)%nat → vertices g1 !! j = vertices g2 !! j) →
  candidates g1 v es = candidates g2 v es.
Proof.
  intros He Ht Hag. unfold candidates.
  induction es as [|e es IH]; [done|].
  cbn [mapM]. by rewrite IH, (candidate_local g1 g2 v e).
Qed.

(** In a graph in topological order, the loop over the edges of a vertex
    makes the offers that were there when it started. *)
Lemma relax_offers (g : t) (v : nat) (x : Vertex.t) (es : list nat) (x0 : Vertex.t) :
  topological g → vertices g !! v = Some x →
  Vertex.label x0 = Vertex.label x →
  forEach es (relaxEdge v) (putVertex g v x0)
  = cs ← candidates g v es; Some (putVertex g v (offers x0 cs)).
Proof.
  intros Ht Hx. revert x0. induction es as [|e es IH]; intros x0 Hl; [done|].
  cbn [forEach]. rewrite relaxEdge_offer.
  rewrite (candidate_local (putVertex g v x0) g v e).
  - unfold candidates. cbn [mapM]. fold (candidates g v es).
    destruct (candidate g v e) as [c|]; simpl; [|done].
    rewrite list_lookup_insert_eq by by eapply lookup_lt_Some. simpl.
    rewrite putVertex_put. rewrite IH by by rewrite offer_label.
    destruct (candidates g v es) as [cs|]; done.
  - by eapply erase_putVertex.
  - eapply topological_erase; [|done]. symmetry. by eapply erase_putVertex.
  - intros j Hj. apply putVertex_lookup_ne. lia.
Qed.

(** *** What the first run leaves *)

(** The rest of the loop, from the position [i] on, leaves the vertices
    before [i] as they are. *)
Lemma loop_frame (k i : nat) (s g : t) (sf sf1 : bool) :
  forEachBreak (seq i k) visit (s, sf) = Some (g, sf1) →
  erase g = erase s ∧ ∀ j, (j < i)%nat → vertices g !! j = vertices s !! j.
Proof.
  intros Hloop.
  pose (P := λ (j : nat) (st : t * bool),
    (i ≤ j)%nat ∧ erase (fst st) = erase s
    ∧ ∀ j', (j' < i)%nat → vertices (fst st) !! j' = vertices s !! j').
  assert (Hstep : ∀ j st st' brk, visit j st = Some (st', brk) → P j st → P (S j) st').
  { intros j [t tf] [t' tf'] brk Hv (Hij & He & Hag). unfold P. cbn [fst snd] in *.
    destruct (visit_frame _ _ _ _ _ _ Hv) as (He' & x & x' & _ & Hvs & _).
    split; [lia|]. split; [by rewrite He'|].
    intros j' Hj'. rewrite Hvs, list_lookup_insert_ne by lia. by apply Hag. }
  destruct (forEachBreak_invariant P (λ st, ∃ j, P j st) visit _ _ _ _
              (λ j st st', Hstep j st st' false)
              (λ j st st' Hv Hp, ex_intro _ (S j) (Hstep j st st' true Hv Hp))
              Hloop) as [(j & _ & He & Hag)|(_ & He & Hag)]; try done.
Qed.

Lemma visit_position (i : nat) (g g' : t) (sf sf' brk : bool) :
  visit i (g, sf) = Some ((g', sf'), brk) → (i < length (vertices g))%nat.
Proof.
  intros (_ & x & _ & Hx & _)%visit_frame. by eapply lookup_lt_Some.
Qed.

(** With no constraint, the best vertex of the first run weighs as much
    as any vertex. *)
Lemma best_is_max (g g' : t) (sf1 : bool) (n : nat) :
  forEachBreak (seq 0 n) visit (g, false) = Some (g', sf1) →
  highestWeightNode g = None →
  isStartConstrained g = false → isEndConstrained g = false →
  bestAbove g' 0 n.
Proof.
  intros Hloop Hnone Hsc Hec.
  pose (P := λ (i : nat) (st : t * bool),
    erase (fst st) = erase g
    ∧ (∀ h, highestWeightNode (fst st) = Some h → (h < i)%nat)
    ∧ bestAbove (fst st) 0 i).
  assert (Hstep : ∀ j st st' brk, visit j st = Some (st', brk) → P j st →
            brk = false ∧ P (S j) st').
  { intros j [s sf] [s' sf'] brk Hv (He & Hlt & Hmax). unfold P. cbn [fst snd] in *.
    pose proof (erase_isStartConstrained _ _ He) as Hsc'. rewrite Hsc in Hsc'.
    pose proof (erase_isEndConstrained _ _ He) as Hec'. rewrite Hec in Hec'.
    destruct (visit_frame _ _ _ _ _ _ Hv) as (He' & _).
    destruct (visit_inv _ _ _ _ _ _ Hv) as [((Hc & _) & _)
           |(x & g1 & es & g2 & Hx & Hst & _ & Hrun & Hsel)]; [congruence|].
    destruct Hst as [(Hc & _)|[(Hc & _)|(_ & -> & ->)]]; [congruence..|].
    pose proof (lookup_lt_Some _ _ _ Hx) as Hj.
    destruct (relax_frame _ _ _ _ _ Hrun (putVertex_lookup _ _ _ _ Hx))
      as (x2 & -> & Hl2 & _).
    rewrite putVertex_put in Hsel.
    assert (Hself : vertices (putVertex s j x2) !! j = Some x2)
      by by eapply putVertex_lookup.
    assert (Hother : ∀ m, m ≠ j → vertices (putVertex s j x2) !! m = vertices s !! m)
      by (intros m Hm; by apply putVertex_lookup_ne).
    assert (Hec2 : isEndConstrained (putVertex s j x2) = false).
    { rewrite <- Hec'. apply erase_isEndConstrained. eapply erase_putVertex; [done|].
      simpl in Hl2. done. }
    apply selectHighest_inv in Hsel as (z & Hz & Hsel).
    rewrite Hself in Hz. injection Hz as <-. rewrite Hec2 in Hsel.
    destruct Hsel as [(? & _)|(_ & -> & Hsel)]; [discriminate|].
    split; [done|]. split; [by rewrite He'|].
    destruct Hsel as [(Hn & ->)|(h & hv & Hh & Hhv & [(Hgt & ->)|(Hle & ->)])]; simpl.
    - split; [intros h [= <-]; lia|].
      intros m Hm. destruct (decide (m = j)) as [->|Hmj].
      + exists j, x2, x2. simpl. rewrite list_lookup_insert_eq by done. repeat split; lia.
      + destruct (Hmax m) as (h & _ & _ & Hh & _); [lia|]. simpl in Hn. congruence.
    - split; [intros k [= <-]; lia|].
      intros m Hm. destruct (decide (m = j)) as [->|Hmj].
      + exists j, x2, x2. simpl. rewrite list_lookup_insert_eq by done. repeat split; lia.
      + destruct (Hmax m) as (h' & hv' & vm & Hh' & Hhv' & Hvm & Hw); [lia|].
        simpl in Hh. rewrite Hh in Hh'. injection Hh' as <-.
        pose proof (Hlt h Hh) as Hhj.
        rewrite Hother in Hhv by lia. rewrite Hhv in Hhv'. injection Hhv' as <-.
        exists j, x2, vm. simpl. rewrite list_lookup_insert_eq by done.
        rewrite list_lookup_insert_ne by done. repeat split; try done; lia.
    - simpl in Hh. pose proof (Hlt h Hh) as Hhj.
      split; [intros k Hk; rewrite Hh in Hk; injection Hk as <-; lia|].
      rewrite Hother in Hhv by lia.
      intros m Hm. destruct (decide (m = j)) as [->|Hmj].
      + exists h, hv, x2. simpl. rewrite list_lookup_insert_eq by done.
        rewrite list_lookup_insert_ne by lia. repeat split; try done; lia.
      + destruct (Hmax m) as (h' & hv' & vm & Hh' & Hhv' & Hvm & Hw); [lia|].
        rewrite Hh in Hh'. injection Hh' as <-.
        rewrite Hhv in Hhv'. injection Hhv' as <-.
        exists h, hv, vm. simpl. rewrite !list_lookup_insert_ne by lia. done. }
  destruct (forEachBreak_invariant P (λ _, False) visit _ _ _ _
              (λ j st st' Hv Hp, proj2 (Hstep j st st' false Hv Hp))
              (λ j st st' Hv Hp,
                 match proj1 (Hstep j st st' true Hv Hp) with end)
              Hloop) as [[]|(_ & _ & Hmax)]; [|done].
  split; [done|]. split; [intros h Hh; simpl in Hh; congruence|]. intros j Hj. lia.
Qed.

(** *** One vertex, visited again *)

Lemma checkStart_skipped (i : nat) (g : t) (sf : bool) :
  skipped g sf i → checkStart i (g, sf) = Some None.
Proof.
  intros (Hsc & -> & x & sn & s & Hx & Hsn & Hs & Hne).
  unfold checkStart. rewrite Hsc, Hx, Hsn. simpl. rewrite Hs. simpl.
  by rewrite bool_decide_eq_false_2.
Qed.

Lemma checkStart_started (i : nat) (g g1 : t) (sf sf' : bool) (x : Vertex.t) :
  vertices g !! i = Some x → started g sf i x g1 sf' →
  checkStart i (g, sf) = Some (Some (g1, sf')).
Proof.
  intros Hx [(Hsc & -> & -> & ->)
            |[(Hsc & -> & -> & (sn & s & Hsn & Hs & Hl) & ->)|(Hsc & -> & ->)]];
    unfold checkStart; rewrite Hsc; simpl.
  - done.
  - rewrite Hx, Hsn. simpl. rewrite Hs. simpl.
    rewrite bool_decide_eq_true_2 by done. rewrite setWeight_putVertex, Hx. done.
  - rewrite setWeight_putVertex, Hx. done.
Qed.

(** What the check for start constraints leaves, in one form for its
    three cases: the vertex [x1] the scan of the edges starts from and the
    best vertex [h1] it starts with. *)
Lemma started_shape (g g1 : t) (sf sf' : bool) (i : nat) (x : Vertex.t) :
  vertices g !! i = Some x → started g sf i x g1 sf' →
  ∃ x1 h1, g1 = putVertex (with_highestWeightNode g h1) i x1
    ∧ ((x1 = x ∧ h1 = highestWeightNode g
        ∧ isStartConstrained g = true ∧ sf = true ∧ sf' = true)
       ∨ (x1 = resetWeight x 0 ∧ h1 = Some i
          ∧ isStartConstrained g = true ∧ sf = false ∧ sf' = true
          ∧ ∃ sn s, startNode g = Some sn ∧ vertices g !! sn = Some s
                    ∧ Vertex.label x = Vertex.label s)
       ∨ (x1 = resetWeight x 0 ∧ h1 = highestWeightNode g
          ∧ isStartConstrained g = false ∧ sf' = sf)).
Proof.
  intros Hx [(Hsc & -> & -> & ->)
            |[(Hsc & -> & -> & Hs & ->)|(Hsc & -> & ->)]].
  - exists x, (highestWeightNode g). split; [|by left].
    unfold putVertex. simpl. rewrite list_insert_id by done. by destruct g.
  - exists (resetWeight x 0), (Some i). split; [done|]. right; left. done.
  - exists (resetWeight x 0), (highestWeightNode g). split; [|by right; right].
    by destruct g.
Qed.

Lemma started_of_shape (g : t) (sf sf' : bool) (i : nat) (x x1 : Vertex.t)
    (h1 : option nat) :
  vertices g !! i = Some x →
  (x1 = x ∧ h1 = highestWeightNode g
   ∧ isStartConstrained g = true ∧ sf = true ∧ sf' = true)
  ∨ (x1 = resetWeight x 0 ∧ h1 = Some i
     ∧ isStartConstrained g = true ∧ sf = false ∧ sf' = true
     ∧ ∃ sn s, startNode g = Some sn ∧ vertices g !! sn = Some s
               ∧ Vertex.label x = Vertex.label s)
  ∨ (x1 = resetWeight x 0 ∧ h1 = highestWeightNode g
     ∧ isStartConstrained g = false ∧ sf' = sf) →
  started g sf i x (putVertex (with_highestWeightNode g h1) i x1) sf'.
Proof.
  intros Hx [(-> & -> & Hsc & -> & ->)
            |[(-> & -> & Hsc & -> & -> & Hs)|(-> & -> & Hsc & ->)]].
  - left. do 3 (split; [done|]).
    unfold putVertex. simpl. rewrite list_insert_id by done. by destruct g.
  - right; left. done.
  - right; right. do 2 (split; [done|]). by destruct g.
Qed.

Lemma visit_unfold (i : nat) (g : t) (sf : bool) :
  visit i (g, sf)
  = r ← checkStart i (g, sf);
    match r with
    | None => Some ((g, sf), false)
    | Some (g1, sf1) =>
        v ← vertices g1 !! i;
        vertexEdges ← edges g1 !! Vertex.label v;
        g2 ← forEach vertexEdges (relaxEdge i) g1;
        '(g3, stop) ← selectHighest i g2;
        Some ((g3, sf1), stop)
    end.
Proof. reflexivity. Qed.

(** When the vertex at [i] already holds what the first run left there,
    and the vertices before it are those of the first run, the second visit
    writes the same vertex again. *)
Lemma rerun_relax (i : nat) (s s' t2 : t) (sf sf' brk : bool) :
  visit i (s, sf) = Some ((s', sf'), brk) →
  topological s → erase t2 = erase s →
  (∀ j, (j < i)%nat → vertices t2 !! j = vertices s !! j) →
  vertices t2 !! i = vertices s' !! i →
  (skipped s sf i ∧ s' = s ∧ sf' = sf ∧ brk = false
   ∧ visit i (t2, sf) = Some ((t2, sf), false))
  ∨ ∃ g2 h1 h2,
      selectHighest i g2 = Some (s', brk)
      ∧ erase g2 = erase s
      ∧ vertices g2 !! i = vertices s' !! i
      ∧ (∀ j, j ≠ i → vertices g2 !! j = vertices s !! j)
      ∧ highestWeightNode g2 = h1
      ∧ visit i (t2, sf)
        = ('(g, stop) ← selectHighest i (with_highestWeightNode t2 h2);
           Some ((g, sf'), stop))
      ∧ ((h1 = Some i ∧ h2 = Some i
          ∧ isStartConstrained s = true ∧ sf = false ∧ sf' = true)
         ∨ (h1 = highestWeightNode s ∧ h2 = highestWeightNode t2 ∧ sf' = sf
            ∧ (isStartConstrained s = true → sf = true))).
Proof.
  intros Hv Ht He Hag Hi.
  destruct (visit_inv _ _ _ _ _ _ Hv)
    as [((Hsc & Hsf & x & sn & s0 & Hx & Hsn & Hs0 & Hne) & -> & -> & ->)
       |(x & g1 & es & g2 & Hx & Hst & Hes & Hrun & Hsel)].
  { left. split.
    { do 2 (split; [done|]). by exists x, sn, s0. }
    do 3 (split; [done|]).
    rewrite visit_unfold, checkStart_skipped; [done|].
    split; [by rewrite (erase_isStartConstrained _ _ He)|]. split; [done|].
    destruct (lookup_erase _ _ _ _ (eq_sym He) Hx) as (x' & Hx' & Hlx).
    destruct (lookup_erase _ _ _ _ (eq_sym He) Hs0) as (s0' & Hs0' & Hls).
    exists x', sn, s0'. split; [done|]. split.
    - by rewrite (f_equal startNode He : startNode t2 = startNode s).
    - split; [done|]. congruence. }
  right.
  pose proof (lookup_lt_Some _ _ _ Hx) as Hlt.
  destruct (started_shape _ _ _ _ _ _ Hx Hst) as (x1 & h1 & -> & Hcase).
  set (base := with_highestWeightNode s h1) in *.
  assert (Hbase : vertices base !! i = Some x) by done.
  assert (Hl1 : Vertex.label x1 = Vertex.label x).
  { destruct Hcase as [(-> & _)|[(-> & _)|(-> & _)]]; done. }
  assert (Htb : topological base) by done.
  rewrite (relax_offers base i x es x1 Htb Hbase Hl1) in Hrun.
  destruct (candidates base i es) as [cs|] eqn:Hcs; [|discriminate].
  simpl in Hrun. injection Hrun as <-.
  set (x2 := offers x1 cs) in *.
  destruct (selectHighest_erase _ _ _ _ Hsel) as [Hes' Hvs'].
  assert (Hx2 : vertices s' !! i = Some x2).
  { rewrite Hvs'. by eapply putVertex_lookup. }
  rewrite Hx2 in Hi.
  assert (Hl2 : Vertex.label x2 = Vertex.label x).
  { unfold x2. by rewrite offers_label. }
  (* the second visit *)
  exists (putVertex base i x2), h1.
  assert (Hsc2 : isStartConstrained t2 = isStartConstrained s)
    by by apply erase_isStartConstrained.
  assert (Hshape : ∃ h2' y1', 
    started t2 sf i x2 (putVertex (with_highestWeightNode t2 h2') i y1') sf'
    ∧ Vertex.label y1' = Vertex.label x2
    ∧ offers y1' cs = x2
    ∧ ((h1 = Some i ∧ h2' = Some i
        ∧ isStartConstrained s = true ∧ sf = false ∧ sf' = true)
       ∨ (h1 = highestWeightNode s ∧ h2' = highestWeightNode t2 ∧ sf' = sf
          ∧ (isStartConstrained s = true → sf = true)))).
  { destruct Hcase as [(-> & -> & Hsc & -> & ->)
                      |[(-> & -> & Hsc & -> & -> & sn & s0 & Hsn & Hs0 & Hls)
                       |(-> & -> & Hsc & ->)]].
    - exists (highestWeightNode t2), x2. split.
      { apply started_of_shape; [done|]. left. by rewrite Hsc2. }
      split; [done|]. split; [apply offers_again|]. right. done.
    - exists (Some i), (resetWeight x2 0). split.
      { apply started_of_shape; [done|]. right; left.
        do 2 (split; [done|]). rewrite Hsc2. do 3 (split; [done|]).
        destruct (lookup_erase _ _ _ _ (eq_sym He) Hs0) as (s0' & Hs0' & Hls').
        exists sn, s0'. split.
        - by rewrite (f_equal startNode He : startNode t2 = startNode s).
        - split; [done|]. congruence. }
      split; [done|]. split; [apply offers_reset_again|]. left. done.
    - exists (highestWeightNode t2), (resetWeight x2 0). split.
      { apply started_of_shape; [done|]. right; right. by rewrite Hsc2. }
      split; [done|]. split; [apply offers_reset_again|]. right.
      do 3 (split; [done|]). congruence. }
  destruct Hshape as (h2' & y1' & Hst2 & Hly & Hoff & Hrel).
  exists h2'.
  split; [done|].
  split; [by rewrite (erase_putVertex base i x2 x Hbase Hl2)|].
  split; [by rewrite Hx2; eapply putVertex_lookup|].
  split; [intros j Hj; by rewrite (putVertex_lookup_ne base i j x2)|].
  split; [done|]. split; [|done].
  rewrite visit_unfold, (checkStart_started _ _ _ _ _ _ Hi Hst2). simpl.
  rewrite list_lookup_insert_eq by (rewrite (erase_length _ _ He); done). simpl.
  rewrite Hly, Hl2, (f_equal edges He : edges t2 = edges s), Hes. simpl.
  set (base2 := with_highestWeightNode t2 h2').
  assert (Hb2 : vertices base2 !! i = Some x2) by done.
  rewrite (relax_offers base2 i x2 es y1'); [|by eapply topological_erase|done|done].
  rewrite (candidates_local base2 base i es); [|done|by eapply topological_erase|done].
  rewrite Hcs. simpl. rewrite Hoff. rewrite putVertex_id by done. done.
Qed.

(** *** The choice of the best vertex, made again *)

Lemma with_highestWeightNode_id (g : t) :
  with_highestWeightNode g (highestWeightNode g) = g.
Proof. by destruct g. Qed.

Lemma selectHighest_result (i : nat) (a a' : t) (brk : bool) :
  selectHighest i a = Some (a', brk) →
  a' = with_highestWeightNode a (highestWeightNode a')
  ∧ (highestWeightNode a' = highestWeightNode a ∨ highestWeightNode a' = Some i).
Proof.
  intros (x & _ & [(_ & en & e & _ & _ & [(_ & _ & ->)|(_ & _ & ->)])
                  |(_ & _ & [(_ & ->)|(h & hv & _ & _ & [(_ & ->)|(_ & ->)])])])%selectHighest_inv;
    simpl; rewrite ?with_highestWeightNode_id; auto.
Qed.

(** The choice depends on the vertex visited, on the best vertex so far
    and on the labels. *)
Lemma selectHighest_same (i : nat) (a a' b : t) (brk : bool) :
  selectHighest i a = Some (a', brk) →
  erase b = erase a →
  vertices b !! i = vertices a !! i →
  highestWeightNode b = highestWeightNode a →
  (∀ h, highestWeightNode a = Some h → vertices b !! h = vertices a !! h) →
  selectHighest i b = Some (with_highestWeightNode b (highestWeightNode a'), brk).
Proof.
  intros Hsel He Hi Hh Hhv. unfold selectHighest in *.
  rewrite Hi, (erase_isEndConstrained _ _ He), Hh,
    (f_equal endNode He : endNode b = endNode a).
  destruct (vertices a !! i) as [x|]; simpl in *; [|discriminate].
  destruct (isEndConstrained a).
  - destruct (endNode a) as [en|]; simpl in *; [|discriminate].
    destruct (vertices a !! en) as [e|] eqn:Hen; simpl in *; [|discriminate].
    destruct (lookup_erase _ _ _ _ (eq_sym He) Hen) as (e' & -> & Hle). simpl.
    rewrite Hle. case_bool_decide; injection Hsel as <- <-; simpl; [done|].
    by rewrite <- Hh, with_highestWeightNode_id.
  - destruct (highestWeightNode a) as [h|] eqn:Hha.
    + rewrite (Hhv h eq_refl).
      destruct (vertices a !! h) as [hv|]; simpl in *; [|discriminate].
      case_bool_decide; injection Hsel as <- <-; simpl; [done|].
      by rewrite Hha, <- Hh, with_highestWeightNode_id.
    + by injection Hsel as <- <-.
Qed.

(** Under an end constraint the choice depends on the labels only. *)
Lemma selectHighest_end (i : nat) (a a' b : t) (brk : bool) :
  selectHighest i a = Some (a', brk) →
  isEndConstrained a = true → erase b = erase a →
  selectHighest i b = Some (if brk then with_highestWeightNode b (Some i) else b, brk)
  ∧ highestWeightNode a' = (if brk then Some i else highestWeightNode a).
Proof.
  intros Hsel Hec He. unfold selectHighest in *.
  rewrite (erase_isEndConstrained _ _ He), (f_equal endNode He : endNode b = endNode a).
  rewrite Hec in *.
  destruct (vertices a !! i) as [x|] eqn:Hx; simpl in *; [|discriminate].
  destruct (lookup_erase _ _ _ _ (eq_sym He) Hx) as (x' & -> & Hlx). simpl.
  destruct (endNode a) as [en|]; simpl in *; [|discriminate].
  destruct (vertices a !! en) as [e|] eqn:Hen; simpl in *; [|discriminate].
  destruct (lookup_erase _ _ _ _ (eq_sym He) Hen) as (e' & -> & Hle). simpl.
  rewrite Hlx, Hle. case_bool_decide; by injection Hsel as <- <-.
Qed.

(** With no end constraint, a vertex that does not weigh more than the
    best vertex leaves it in place. *)
Lemma selectHighest_max (i h : nat) (b : t) (hv vi : Vertex.t) :
  isEndConstrained b = false →
  highestWeightNode b = Some h → vertices b !! h = Some hv →
  vertices b !! i = Some vi → Vertex.weight vi ≤ Vertex.weight hv →
  selectHighest i b = Some (b, false).
Proof.
  intros Hec Hh Hhv Hvi Hw. unfold selectHighest.
  rewrite Hvi, Hec, Hh. simpl. rewrite Hhv. simpl.
  rewrite bool_decide_eq_false_2 by lia. done.
Qed.

Lemma selectHighest_no_break (i : nat) (a a' : t) (brk : bool) :
  selectHighest i a = Some (a', brk) → isEndConstrained a = false → brk = false.
Proof.
  intros (x & _ & [(Hc & _)|(_ & -> & _)])%selectHighest_inv Hec; [congruence|done].
Qed.

(** *** The second run *)

(** From any point of the loop on, a second run that starts from the
    vertices the first run ends with goes through the same steps and ends
    with the same graph. *)
Lemma rerun_suffix (k : nat) :
  ∀ (i : nat) (s : t) (sf : bool) (g : t) (sf1 : bool) (t2 : t),
    forEachBreak (seq i k) visit (s, sf) = Some (g, sf1) →
    topological s → erase t2 = erase s → vertices t2 = vertices g →
    (∀ h, highestWeightNode s = Some h → (h < i)%nat) →
    bestAgrees s sf t2 g i k →
    forEachBreak (seq i k) visit (t2, sf) = Some (g, sf1).
Proof.
  induction k as [|k IH]; intros i s sf g sf1 t2 Hloop Ht He Hvs Hlt Hbest.
  { injection Hloop as <- <-. cbn [seq forEachBreak]. f_equal. f_equal.
    apply erase_eq; [done..|].
    unfold bestAgrees in Hbest.
    destruct (isStartConstrained s), sf, (isEndConstrained s); tauto. }
  cbn [seq forEachBreak] in Hloop |- *.
  destruct (visit i (s, sf)) as [[[s' sf'] brk]|] eqn:Hv; [|discriminate].
  destruct (visit_frame _ _ _ _ _ _ Hv) as (He' & x & x' & Hx & Hvs' & _).
  pose proof (lookup_lt_Some _ _ _ Hx) as Hi.
  (* the vertices up to [i] are final after the visit *)
  assert (Hfin : erase g = erase s'
                 ∧ ∀ j, (j < S i)%nat → vertices g !! j = vertices s' !! j).
  { destruct brk.
    - injection Hloop as <- <-. done.
    - by eapply loop_frame. }
  destruct Hfin as [Heg Hfin].
  assert (Hbefore : ∀ j, (j < i)%nat → vertices t2 !! j = vertices s !! j).
  { intros j Hj. rewrite Hvs, Hfin by lia. rewrite Hvs'.
    apply list_lookup_insert_ne. lia. }
  assert (Hat : vertices t2 !! i = vertices s' !! i).
  { rewrite Hvs. apply Hfin. lia. }
  assert (Hts' : topological s') by (eapply topological_erase; [symmetry|]; done).
  assert (Hsc' : isStartConstrained s' = isStartConstrained s)
    by by apply erase_isStartConstrained.
  assert (Hec' : isEndConstrained s' = isEndConstrained s)
    by by apply erase_isEndConstrained.
  (* how to conclude once the second visit is known *)
  assert (Hclose : ∀ t3 : t,
    erase t3 = erase t2 → vertices t3 = vertices t2 →
    (brk = true → highestWeightNode t3 = highestWeightNode s') →
    (brk = false → (∀ h, highestWeightNode s' = Some h → (h < S i)%nat)
                   ∧ bestAgrees s' sf' t3 g (S i) k) →
    (if brk then Some (t3, sf') else forEachBreak (seq (S i) k) visit (t3, sf'))
    = Some (g, sf1)).
  { intros t3 He3 Hv3 Hbrk Hcont. destruct brk.
    - injection Hloop as <- <-. f_equal. f_equal. apply erase_eq.
      + by rewrite He3, He, He'.
      + by rewrite Hv3.
      + by apply Hbrk.
    - destruct (Hcont eq_refl) as [Hlt' Hbest'].
      apply (IH (S i) s' sf' g sf1 t3); try done.
      + by rewrite He3, He, He'.
      + by rewrite Hv3. }
  destruct (rerun_relax _ _ _ _ _ _ _ Hv Ht He Hbefore Hat)
    as [((Hsc & Hsf & _) & -> & -> & -> & Hv2)
       |(g2 & h1 & h2 & Hsel & Heg2 & Hg2i & Hg2o & Hh1 & Hv2 & Hrel)].
  { (* the vertex is passed over *)
    rewrite Hv2. apply (Hclose t2); try done. intros _. split.
    - intros h Hh. specialize (Hlt h Hh). lia.
    - unfold bestAgrees in *. rewrite Hsc, Hsf in *. done. }
  rewrite Hv2. clear Hv2.
  destruct (selectHighest_result _ _ _ _ Hsel) as [_ Hhs'].
  rewrite Hh1 in Hhs'.
  assert (Hlt' : (∀ h, h1 = Some h → (h ≤ i)%nat) →
                 ∀ h, highestWeightNode s' = Some h → (h < S i)%nat).
  { intros Hb h Hh. destruct Hhs' as [Hs'|Hs']; rewrite Hs' in Hh.
    - specialize (Hb h Hh). lia.
    - injection Hh as <-. lia. }
  destruct Hrel as [(-> & -> & Hsc & -> & ->)|(-> & -> & -> & Hscsf)].
  - (* the start vertex is found here *)
    assert (Hsel2 : selectHighest i (with_highestWeightNode t2 (Some i))
              = Some (with_highestWeightNode (with_highestWeightNode t2 (Some i))
                        (highestWeightNode s'), brk)).
    { apply (selectHighest_same i g2 s' _ brk Hsel).
      - by rewrite erase_with_highestWeightNode, He.
      - simpl. by rewrite Hat, Hg2i.
      - by rewrite Hh1.
      - intros h Hh. rewrite Hh1 in Hh. injection Hh as <-. simpl.
        by rewrite Hat, Hg2i. }
    rewrite Hsel2. simpl. apply Hclose; try done. intros _. split.
    + apply Hlt'. intros h [= <-]. done.
    + unfold bestAgrees. rewrite Hsc', Hsc. done.
  - rewrite with_highestWeightNode_id.
    unfold bestAgrees in Hbest.
    destruct (isStartConstrained s) eqn:Hsc.
    + (* the start vertex was found before *)
      rewrite (Hscsf eq_refl) in *.
      assert (Hsel2 : selectHighest i t2
                = Some (with_highestWeightNode t2 (highestWeightNode s'), brk)).
      { apply (selectHighest_same i g2 s' _ brk Hsel).
        - by rewrite He.
        - by rewrite Hat, Hg2i.
        - by rewrite Hh1.
        - intros h Hh. rewrite Hh1 in Hh. specialize (Hlt h Hh).
          rewrite Hbefore, Hg2o by lia. done. }
      rewrite Hsel2. simpl. apply Hclose; try done. intros _. split.
      * apply Hlt'. intros h Hh. specialize (Hlt h Hh). lia.
      * unfold bestAgrees. rewrite Hsc'. done.
    + destruct (isEndConstrained s) eqn:Hec.
      * (* only the end vertex can be chosen *)
        destruct (selectHighest_end i g2 s' t2 brk Hsel) as [-> Hhs]; try done.
        { by rewrite (erase_isEndConstrained _ _ Heg2). }
        { by rewrite He. }
        simpl. apply Hclose.
        -- by destruct brk.
        -- by destruct brk.
        -- intros ->. by rewrite Hhs.
        -- intros ->. split.
           ++ apply Hlt'. intros h Hh. specialize (Hlt h Hh). lia.
           ++ unfold bestAgrees. rewrite Hsc', Hec'. done.
      * (* no constraint *)
        destruct Hbest as [Hbest Hmax].
        assert (brk = false) as ->.
        { eapply selectHighest_no_break; [done|].
          by rewrite (erase_isEndConstrained _ _ Heg2). }
        destruct (Hmax i) as (h & hv & vi & Hh & Hhv & Hvi & Hw); [lia|].
        rewrite (selectHighest_max i h t2 hv vi); try done.
        -- simpl. apply Hclose; try done. intros _. split.
           ++ apply Hlt'. intros h' Hh'. specialize (Hlt h' Hh'). lia.
           ++ unfold bestAgrees. rewrite Hsc', Hec'. split; [done|].
              intros j Hj. apply Hmax. lia.
        -- by rewrite (erase_isEndConstrained _ _ He).
        -- congruence.
        -- by rewrite Hvs.
        -- by rewrite Hvs.
Qed.

Lemma findHighestWeightPath_again (g g1 : t) :
  findHighestWeightPath g = Some g1 →
  highestWeightNode g = None → topological g →
  findHighestWeightPath g1 = Some g1.
Proof.
  unfold findHighestWeightPath. intros Hrun Hnone Ht.
  destruct (forEachBreak _ visit (g, false)) as [[g' sf1]|] eqn:Hloop; [|discriminate].
  simpl in Hrun. injection Hrun as ->.
  destruct (loop_frame _ _ _ _ _ _ Hloop) as [He _].
  rewrite (erase_length _ _ He).
  rewrite (rerun_suffix _ 0 g false g1 sf1 g1 Hloop); try done.
  - intros h Hh. congruence.
  - unfold bestAgrees.
    destruct (isStartConstrained g) eqn:Hsc; [done|].
    destruct (isEndConstrained g) eqn:Hec; [done|].
    split; [done|]. by eapply best_is_max.
Qed.

(** C9. On a loaded graph whose vertex labels are unique and whose edges
    all start at a vertex listed before the one they end at, as the file
    format asks, a second run of [findHighestWeightPath] returns the graph
    the first run returned: the same best vertex, the same weight and best
    incoming edge at every vertex, and so the same path. *)
Theorem second_run_same (atof : string → Z) (lines : list (list string)) (g : t) :
  buildGraph atof lines = Some g →
  NoDup (Vertex.label <$> vertices g) →
  Forall (λ e, (Edge.start e < Edge.end_ e)%nat) (edgeHeap g) →
  ∃ g1 g2,
    findHighestWeightPath g = Some g1
    ∧ findHighestWeightPath g1 = Some g2
    ∧ g2 = g1
    ∧ highestWeightNode g2 = highestWeightNode g1
    ∧ vertices g2 = vertices g1
    ∧ ∀ fuel, getPath fuel g2 = getPath fuel g1.
Proof.
  intros Hb Hnd Hord.
  destruct (buildGraph_wellFormed _ _ _ Hb) as [W Hnone].
  destruct (findHighestWeightPath_defined g W (highestValid_None g Hnone))
    as (g1 & Hrun & _).
  exists g1, g1. split; [done|]. split; [|done].
  by apply (findHighestWeightPath_again g g1).
Qed.

(** The order of the vertices matters: with an edge from a vertex to one
    listed before it, the first run reads the weight of a vertex it has not
    visited yet, and the second run finds another path. *)
Example unordered_second_run_differs :
  (g ← buildGraph Samples.atofInteger
         [ ["V"; "a"]; ["V"; "b"]; ["E"; "x"; "b"; "a"; "9"] ];
   g1 ← findHighestWeightPath g;
   g2 ← findHighestWeightPath g1;
   Some (Vertex.weight <$> vertices g1, Vertex.weight <$> vertices g2))
  = Some ([0; 0], [9; 0]).
Proof. vm_compute. reflexivity. Qed.

Lemma second_run_same_witness :
  ∃ g, buildGraph Samples.atofInteger Samples.constrainedPath = Some g
  ∧ ∃ g1 g2,
    findHighestWeightPath g = Some g1
    ∧ findHighestWeightPath g1 = Some g2
    ∧ g2 = g1
    ∧ highestWeightNode g2 = highestWeightNode g1
    ∧ vertices g2 = vertices g1
    ∧ ∀ fuel, getPath fuel g2 = getPath fuel g1.
Proof.
  eexists. split.
  { vm_compute. reflexivity. }
  apply (second_run_same Samples.atofInteger Samples.constrainedPath).
  - vm_compute. reflexivity.
  - simpl. compute_done.
  - simpl. repeat constructor; simpl; lia.
Defined.

End RerunFacts.

(** ** The report *)

Module ReportFacts.
Import WDAGraph GraphState GraphFacts.

(** *** The frequency table *)

Lemma addEdge_frequencies (atof : string → Z) (tokens : list string) (g g' : t) :
  addEdge atof tokens g = Some g' →
  (∀ l n, edgeFrequencies g !! l = Some n → n = 1) →
  ∀ l n, edgeFrequencies g' !! l = Some n → n = 1.
Proof.
  unfold addEdge. intros H Hone.
  destruct (tokens !! 1%nat) as [label|]; simpl in H; [|discriminate].
  destruct (tokens !! 2%nat) as [startLabel|]; simpl in H; [|discriminate].
  destruct (verticeMap g !! startLabel) as [start|]; simpl in H; [|discriminate].
  destruct (tokens !! 3%nat) as [endLabel|]; simpl in H; [|discriminate].
  destruct (verticeMap g !! endLabel) as [end_|]; simpl in H; [|discriminate].
  destruct (tokens !! 4%nat) as [weightToken|]; simpl in H; [|discriminate].
  destruct (vertices g !! start) as [sv|]; simpl in H; [|discriminate].
  destruct (edges g !! Vertex.label sv) as [startEdges|]; simpl in H; [|discriminate].
  destruct (vertices g !! end_) as [ev|]; simpl in H; [|discriminate].
  destruct (_ !! Vertex.label ev) as [endEdges|]; simpl in H; [|discriminate].
  injection H as <-. simpl. intros l n.
  destruct (edgeFrequencies g !! label) as [second|] eqn:Hf.
  - rewrite insert_insert_eq. intros Hl.
    apply lookup_insert_Some in Hl as [[_ <-]|[_ Hl]]; by eapply Hone.
  - intros Hl. apply lookup_insert_Some in Hl as [[_ <-]|[_ Hl]]; [done|by eapply Hone].
Qed.

(** Whatever the file, no counter of a loaded graph ever leaves 1. *)
Lemma edgeFrequencies_one (atof : string → Z) (lines : list (list string)) (g : t) :
  buildGraph atof lines = Some g →
  ∀ l n, edgeFrequencies g !! l = Some n → n = 1.
Proof.
  unfold buildGraph.
  assert (Hgen : ∀ g0, buildGraphFrom atof g0 lines = Some g →
            (∀ l n, edgeFrequencies g0 !! l = Some n → n = 1) →
            ∀ l n, edgeFrequencies g !! l = Some n → n = 1).
  { induction lines as [|tokens lines IH]; intros g0 Hb H0.
    - by injection Hb as <-.
    - cbn [buildGraphFrom] in Hb.
      destruct (buildLine atof g0 tokens) as [g1|] eqn:Hl; simpl in Hb; [|discriminate].
      apply (IH g1 Hb). unfold buildLine in Hl.
      destruct (tokens !! 0%nat) as [kind|]; simpl in Hl; [|discriminate].
      repeat case_bool_decide.
      + unfold addVertex in Hl.
        destruct (tokens !! 1%nat); simpl in Hl; [|discriminate].
        injection Hl as <-. simpl.
        destruct (tokens !! 2%nat); [repeat case_bool_decide|]; exact H0.
      + by eapply addEdge_frequencies.
      + by injection Hl as <-. }
  intros Hb. apply (Hgen empty Hb). intros l n Hl. simpl in Hl.
  by rewrite lookup_empty in Hl.
Qed.

(** C4. The counter does not follow the number of edges. For the
    sequences ["A"], ["A"] and the empty one, the file of the builder has
    two edges labelled [A--]; once the file is loaded, the counter of that
    label is 1, and 1 is what the report gives. *)
Theorem shared_label_counted_once :
  (lines ← WDAGraphFileBuilder.buildGraphFile ["A"]%char ["A"]%char [];
   g ← buildGraph Samples.atofInteger (WDAGraphFileBuilder.lineTokens <$> lines);
   r ← Samples.align ["A"]%char ["A"]%char [] 3;
   Some (length (filter (λ e, Edge.label e = "A--") (edgeHeap g)),
         edgeFrequencies g !! "A--",
         edge_histogram r !! "A--"))
  = Some (2%nat, Some 1, Some 1).
Proof. vm_compute. reflexivity. Qed.

(** *** The path *)

(** C2. The code does not report the labels as they are stored. For the
    sequences ["A"], ["C"] and ["C"], the best path is the single edge from
    [0,0,0] to [1,1,1]; the label stored on it is [ACC], and [getPath]
    returns a newline followed by [CCA]: the text is reversed character by
    character, the label with it. *)
Theorem path_label_reversed :
  (lines ← WDAGraphFileBuilder.buildGraphFile ["A"]%char ["C"]%char ["C"]%char;
   g ← buildGraph Samples.atofInteger (WDAGraphFileBuilder.lineTokens <$> lines);
   g' ← findHighestWeightPath g;
   h ← highestWeightNode g';
   v ← vertices g' !! h;
   e ← Vertex.edgeForHWPath v;
   edge ← edgeHeap g' !! e;
   start ← vertices g' !! Edge.start edge;
   path ← getPath 3 g';
   Some (Vertex.label start, Vertex.edgeForHWPath start, Edge.label edge,
         Vertex.label v, path))
  = Some ("0,0,0", None, "ACC", "1,1,1", String "010"%char "CCA").
Proof. vm_compute. reflexivity. Qed.

(** On a path of two edges the labels come in the order of the path, each
    of them reversed. *)
Lemma path_of_two_labels_reversed :
  (g ← buildGraph Samples.atofInteger
         [ ["V"; "a"]; ["V"; "b"]; ["V"; "c"];
           ["E"; "AB-"; "a"; "b"; "2"]; ["E"; "-CD"; "b"; "c"; "3"] ];
   g' ← findHighestWeightPath g;
   getPath 4 g')
  = Some (String "010"%char "-BA" +:+ String "010"%char "DC-").
Proof. vm_compute. reflexivity. Qed.

End ReportFacts.

(** ** More on the scoring matrix *)

Module ScoreFacts.
Import Blosum62.

(** *** The index of a residue *)

Lemma getIndex_alphabet (a : ascii) (i : nat) :
  getIndex a = Some i → alphabet !! i = Some a.
Proof.
  destruct a as [[] [] [] [] [] [] [] []]; vm_compute;
    intros H; first [discriminate H | injection H as <-; reflexivity].
Qed.

Lemma alphabet_getIndex (a : ascii) (i : nat) :
  alphabet !! i = Some a → getIndex a = Some i.
Proof.
  intros H.
  do 20 (destruct i as [|i]; [injection H as <-; reflexivity|]).
  discriminate H.
Qed.

Lemma getIndex_None (a : ascii) : getIndex a = None ↔ a ∉ alphabet.
Proof.
  split.
  - intros Hn Hin. apply list_elem_of_lookup in Hin as [j Hj].
    apply alphabet_getIndex in Hj. congruence.
  - intros Hn. destruct (getIndex a) as [j|] eqn:Hj; [|done].
    destruct Hn. apply getIndex_alphabet in Hj. by eapply list_elem_of_lookup_2.
Qed.

(** X1. [getIndex] and the order of the alphabet are inverse to each other:
    a character has the index [i] exactly when it is the residue at the
    position [i] of the alphabet, the order of the rows of the matrix; a
    character outside the alphabet has no index. *)
Theorem getIndex_position (a : ascii) (i : nat) :
  (getIndex a = Some i ↔ alphabet !! i = Some a)
  ∧ (getIndex a = None ↔ a ∉ alphabet).
Proof.
  split; [split; [apply getIndex_alphabet|apply alphabet_getIndex]|].
  apply getIndex_None.
Qed.

Lemma getIndex_is_Some (a : ascii) : is_Some (getIndex a) ↔ a ∈ alphabet.
Proof.
  split.
  - intros [i Hi]. apply getIndex_alphabet in Hi. by eapply list_elem_of_lookup_2.
  - intros [i Hi]%list_elem_of_lookup. exists i. by apply alphabet_getIndex.
Qed.

(** The score of two characters that differ from the gap character. *)
Lemma getScore_residues (a b : ascii) :
  a ≠ gapChar → b ≠ gapChar →
  getScore a b = match getIndex a, getIndex b with
                 | Some i, Some j => row ← matrix !! i; row !! j
                 | _, _ => None
                 end.
Proof.
  intros Ha Hb. unfold getScore.
  rewrite (bool_decide_eq_true_2 _ Ha), (bool_decide_eq_true_2 _ Hb).
  cbn [andb]. generalize (getIndex a) (getIndex b).
  intros [i|] [j|]; reflexivity.
Qed.

Lemma getScore_gap_cases (a b : ascii) :
  a = gapChar ∨ b = gapChar →
  getScore a b = Some (if bool_decide (a = gapChar ∧ b = gapChar) then 0 else gapCost).
Proof.
  unfold getScore.
  destruct (decide (a = gapChar)) as [->|Ha], (decide (b = gapChar)) as [->|Hb];
    intros Hor.
  - reflexivity.
  - rewrite (bool_decide_eq_false_2 (gapChar ≠ gapChar)) by (intros H; by apply H).
    rewrite (bool_decide_eq_true_2 _ Hb).
    rewrite (bool_decide_eq_false_2 (gapChar = gapChar ∧ b = gapChar)) by tauto.
    reflexivity.
  - rewrite (bool_decide_eq_false_2 (gapChar ≠ gapChar)) by (intros H; by apply H).
    rewrite (bool_decide_eq_true_2 _ Ha).
    rewrite (bool_decide_eq_false_2 (a = gapChar ∧ gapChar = gapChar)) by tauto.
    reflexivity.
  - tauto.
Qed.

(** *** When a score exists *)

Lemma getScore_None (a b : ascii) :
  getScore a b = None
  ↔ a ≠ gapChar ∧ b ≠ gapChar ∧ (a ∉ alphabet ∨ b ∉ alphabet).
Proof.
  destruct (decide (a = gapChar)) as [Ha|Ha].
  { rewrite getScore_gap_cases by by left. split; [discriminate|tauto]. }
  destruct (decide (b = gapChar)) as [Hb|Hb].
  { rewrite getScore_gap_cases by by right. split; [discriminate|tauto]. }
  destruct (getIndex a) as [i|] eqn:Hi.
  - destruct (getIndex b) as [j|] eqn:Hj.
    + assert (Hina : a ∈ alphabet) by (apply getIndex_is_Some; eauto).
      assert (Hinb : b ∈ alphabet) by (apply getIndex_is_Some; eauto).
      destruct (Blosum62Facts.getScore_alphabet a b Hina Hinb) as (s & -> & _).
      split; [discriminate|]. intros (_ & _ & [H|H]); by destruct H.
    + rewrite getScore_residues, Hi, Hj by done.
      split; [|done]. intros _. do 2 (split; [done|]). right.
      by apply getIndex_None.
  - rewrite getScore_residues, Hi by done.
    split; [|done]. intros _. do 2 (split; [done|]). left.
    by apply getIndex_None.
Qed.

(** X2. [getScore] throws exactly when both characters differ from the gap
    character and one of them is outside the alphabet; a character outside
    the alphabet against the gap character scores [gapCost] like a
    residue. *)
Theorem getScore_throws (a b : ascii) :
  (getScore a b = None
   ↔ a ≠ gapChar ∧ b ≠ gapChar ∧ (a ∉ alphabet ∨ b ∉ alphabet))
  ∧ (a ≠ gapChar → getScore a gapChar = Some gapCost
                   ∧ getScore gapChar a = Some gapCost).
Proof.
  split; [apply getScore_None|].
  intros Ha. split.
  - by apply Blosum62Facts.getScore_gap_r.
  - by apply Blosum62Facts.getScore_gap_l.
Qed.

(** *** Symmetry, for all characters *)

Lemma getScore_comm (a b : ascii) : getScore a b = getScore b a.
Proof.
  destruct (decide (a = gapChar)) as [Ha|Ha].
  { rewrite (getScore_gap_cases a b), (getScore_gap_cases b a) by tauto.
    rewrite (bool_decide_ext (a = gapChar ∧ b = gapChar) (b = gapChar ∧ a = gapChar))
      by tauto.
    reflexivity. }
  destruct (decide (b = gapChar)) as [Hb|Hb].
  { rewrite (getScore_gap_cases a b), (getScore_gap_cases b a) by tauto.
    rewrite (bool_decide_ext (a = gapChar ∧ b = gapChar) (b = gapChar ∧ a = gapChar))
      by tauto.
    reflexivity. }
  destruct (getIndex a) as [i|] eqn:Hi.
  - destruct (getIndex b) as [j|] eqn:Hj.
    + assert (Hina : a ∈ alphabet) by (apply getIndex_is_Some; eauto).
      assert (Hinb : b ∈ alphabet) by (apply getIndex_is_Some; eauto).
      destruct (Blosum62Facts.getScore_alphabet a b Hina Hinb) as (s & -> & ->).
      reflexivity.
    + rewrite !getScore_residues, Hi, Hj by done. reflexivity.
  - rewrite !getScore_residues, Hi by done. by destruct (getIndex b).
Qed.

(** X3. The sum of pairs does not depend on the order of the three
    characters, whatever they are: exchanging two of them, or rotating the
    three, gives the same weight, or throws as well. *)
Theorem sumOfPairsWeight_order (a b c : ascii) :
  sumOfPairsWeight a b c = sumOfPairsWeight b a c
  ∧ sumOfPairsWeight a b c = sumOfPairsWeight a c b
  ∧ sumOfPairsWeight a b c = sumOfPairsWeight c b a
  ∧ sumOfPairsWeight a b c = sumOfPairsWeight b c a
  ∧ sumOfPairsWeight a b c = sumOfPairsWeight c a b.
Proof.
  unfold sumOfPairsWeight.
  rewrite (getScore_comm b a), (getScore_comm c a), (getScore_comm c b).
  destruct (getScore a b) as [x|], (getScore b c) as [y|], (getScore a c) as [z|];
    simpl; repeat split; try reflexivity; f_equal; lia.
Qed.

(** *** Bounds *)

Lemma matrix_bounds :
  Forall (Forall (λ s, -4 ≤ s ≤ 11)) matrix.
Proof. repeat constructor; lia. Qed.

Lemma getScore_bounds (a b : ascii) (s : Z) :
  getScore a b = Some s →
  (a ≠ gapChar ∧ b ≠ gapChar ∧ -4 ≤ s ≤ 11)
  ∨ (s = gapCost ∧ (a = gapChar ∨ b = gapChar) ∧ ¬ (a = gapChar ∧ b = gapChar))
  ∨ (s = 0 ∧ a = gapChar ∧ b = gapChar).
Proof.
  destruct (decide (a = gapChar ∨ b = gapChar)) as [Hor|Hn].
  - rewrite getScore_gap_cases by done. case_bool_decide; intros [= <-]; tauto.
  - assert (Ha : a ≠ gapChar) by tauto. assert (Hb : b ≠ gapChar) by tauto.
    rewrite getScore_residues by done.
    generalize (getIndex a) (getIndex b). intros [i|] [j|]; try discriminate.
    destruct (matrix !! i) as [row|] eqn:Hrow; [|discriminate].
    cbn [mbind option_bind]. intros Hs. left. do 2 (split; [done|]).
    pose proof matrix_bounds as Hm. rewrite Forall_forall in Hm.
    specialize (Hm row (list_elem_of_lookup_2 _ _ _ Hrow)).
    rewrite Forall_forall in Hm. apply Hm. by eapply list_elem_of_lookup_2.
Qed.

Lemma sumOfPairsWeight_range (a b c : ascii) (w : Z) :
  sumOfPairsWeight a b c = Some w →
  -16 ≤ w ≤ 33
  ∧ (a ≠ gapChar → b ≠ gapChar → c ≠ gapChar → -12 ≤ w)
  ∧ ((a = gapChar ∨ b = gapChar ∨ c = gapChar) →
     ¬ (a = gapChar ∧ b = gapChar ∧ c = gapChar) → w ≤ -1).
Proof.
  unfold sumOfPairsWeight.
  destruct (getScore a b) as [x|] eqn:Hx; simpl; [|discriminate].
  destruct (getScore b c) as [y|] eqn:Hy; simpl; [|discriminate].
  destruct (getScore a c) as [z|] eqn:Hz; simpl; [|discriminate].
  intros [= <-].
  apply getScore_bounds in Hx, Hy, Hz. unfold gapCost in *.
  destruct Hx as [(?&?&?)|[(?&?&?)|(?&?&?)]],
           Hy as [(?&?&?)|[(?&?&?)|(?&?&?)]],
           Hz as [(?&?&?)|[(?&?&?)|(?&?&?)]];
    subst; try tauto; (split; [lia|]); (split; [intros; try lia; tauto|]);
    intros; try lia; tauto.
Qed.

(** X4. A sum of pairs, when there is one, lies between -16 and 33; for a
    column with no gap character it is -12 at least, and for a column that
    holds a gap character and a character that is none it is -1 at most. *)
Theorem sumOfPairsWeight_bounds (a b c : ascii) (w : Z) :
  sumOfPairsWeight a b c = Some w →
  -16 ≤ w ≤ 33
  ∧ (a ≠ gapChar → b ≠ gapChar → c ≠ gapChar → -12 ≤ w)
  ∧ ((a = gapChar ∨ b = gapChar ∨ c = gapChar) →
     ¬ (a = gapChar ∧ b = gapChar ∧ c = gapChar) → w ≤ -1).
Proof. apply sumOfPairsWeight_range. Qed.

Lemma sumOfPairsWeight_bounds_witness :
  -16 ≤ -16 ≤ 33
  ∧ ("W"%char ≠ gapChar → "N"%char ≠ gapChar → gapChar ≠ gapChar → -12 ≤ -16)
  ∧ (("W"%char = gapChar ∨ "N"%char = gapChar ∨ gapChar = gapChar) →
     ¬ ("W"%char = gapChar ∧ "N"%char = gapChar ∧ gapChar = gapChar) → -16 ≤ -1).
Proof.
  apply (sumOfPairsWeight_bounds "W" "N" gapChar (-16)). vm_compute. reflexivity.
Defined.

End ScoreFacts.

(** ** The size and the order of the edit graph *)

Module EditGraphFacts.
Import WDAGraphFileBuilder BuilderStreams.

(** *** The edges of one vertex *)

Lemma columnsAt_length (o1 o2 o3 : option ascii) :
  (length (columnsAt o1 o2 o3) + 1
   = (if o1 is Some _ then 2 else 1) * (if o2 is Some _ then 2 else 1)
     * (if o3 is Some _ then 2 else 1))%nat.
Proof. by destruct o1, o2, o3. Qed.

Lemma residueAt_ways (s : list ascii) (i : nat) :
  (if residueAt s i is Some _ then 2 else 1)%nat
  = (if bool_decide (i < length s)%nat then 2 else 1)%nat.
Proof.
  case_bool_decide as Hi.
  - by destruct (BuilderFacts.residueAt_lt s i Hi) as (r & -> & _).
  - by rewrite BuilderFacts.residueAt_ge by lia.
Qed.

Lemma edgesAt_length (seq1 seq2 seq3 : list ascii) (i j k : nat) (es : list EdgeLine) :
  (i, j, k) ∈ allVertices (length seq1) (length seq2) (length seq3) →
  edgesAt seq1 seq2 seq3 (i, j, k) = Some es →
  (length es + 1
   = (if bool_decide (i < length seq1)%nat then 2 else 1)
     * (if bool_decide (j < length seq2)%nat then 2 else 1)
     * (if bool_decide (k < length seq3)%nat then 2 else 1))%nat.
Proof.
  intros Hv Hes. rewrite BuilderFacts.edgesAt_columns in Hes by exact Hv.
  apply length_mapM in Hes. rewrite <- Hes. cbn [fst snd].
  by rewrite columnsAt_length, !residueAt_ways.
Qed.

Lemma edges_of_vertex (seq1 seq2 seq3 : list ascii) (lines : list Line) (v : Loc) :
  buildGraphFile seq1 seq2 seq3 = Some lines →
  v ∈ allVertices (length seq1) (length seq2) (length seq3) →
  ∃ es, edgesAt seq1 seq2 seq3 v = Some es ∧ outgoing v lines = es.
Proof.
  intros Hb Hv.
  destruct (BuilderFacts.buildGraphFile_inv _ _ _ _ Hb) as (ess & Hess & _).
  apply list_elem_of_lookup in Hv as Hn. destruct Hn as [n Hn].
  destruct (Forall2_lookup_l _ _ _ _ _ Hess Hn) as (es & _ & Hes).
  exists es. split; [exact Hes|].
  by apply (BuilderFacts.outgoing_edgesAt seq1 seq2 seq3).
Qed.

(** X5. In a written file, the number of edges that leave the vertex
    [(i, j, k)] is [2^r - 1], where [r] is the number of sequences that are
    not exhausted there: 7, 3, 1 or 0. *)
Theorem outgoing_count (seq1 seq2 seq3 : list ascii) (lines : list Line)
    (i j k : nat) :
  buildGraphFile seq1 seq2 seq3 = Some lines →
  (i ≤ length seq1)%nat → (j ≤ length seq2)%nat → (k ≤ length seq3)%nat →
  (length (outgoing (i, j, k) lines) + 1
   = (if bool_decide (i < length seq1)%nat then 2 else 1)
     * (if bool_decide (j < length seq2)%nat then 2 else 1)
     * (if bool_decide (k < length seq3)%nat then 2 else 1))%nat.
Proof.
  intros Hb Hi Hj Hk.
  assert (Hv : (i, j, k) ∈ allVertices (length seq1) (length seq2) (length seq3))
    by by apply BuilderFacts.elem_of_allVertices.
  destruct (edges_of_vertex _ _ _ _ _ Hb Hv) as (es & Hes & ->).
  by apply (edgesAt_length seq1 seq2 seq3).
Qed.

Lemma outgoing_count_witness :
  (length (outgoing (0, 1, 0)%nat
             [V (0, 0, 0)%nat; V (0, 1, 0)%nat; V (1, 0, 0)%nat; V (1, 1, 0)%nat;
              E (mkEdgeLine ("A", "-", "-")%char (0, 0, 0)%nat (1, 0, 0)%nat (-12));
              E (mkEdgeLine ("-", "C", "-")%char (0, 0, 0)%nat (0, 1, 0)%nat (-12));
              E (mkEdgeLine ("A", "C", "-")%char (0, 0, 0)%nat (1, 1, 0)%nat (-12));
              E (mkEdgeLine ("A", "-", "-")%char (0, 1, 0)%nat (1, 1, 0)%nat (-12));
              E (mkEdgeLine ("-", "C", "-")%char (1, 0, 0)%nat (1, 1, 0)%nat (-12))]) + 1
   = 2 * 1 * 1)%nat.
Proof.
  apply (outgoing_count ["A"%char] ["C"%char] [] _ 0 1 0);
    [vm_compute; reflexivity|simpl; lia..].
Defined.

(** *** The number of lines *)

Lemma sum_list_with_bind {A B : Type} (f : B → nat) (g : A → list B) (l : list A) :
  sum_list_with f (l ≫= g) = sum_list_with (λ x, sum_list_with f (g x)) l.
Proof.
  induction l as [|x l IH]; [reflexivity|].
  rewrite bind_cons, sum_list_with_app, IH. reflexivity.
Qed.

Lemma sum_list_with_ext_in {A : Type} (f g : A → nat) (l : list A) :
  (∀ x, x ∈ l → f x = g x) → sum_list_with f l = sum_list_with g l.
Proof.
  induction l as [|x l IH]; intros H; [reflexivity|]. simpl.
  rewrite (H x) by left. rewrite IH; [reflexivity|].
  intros y Hy. apply H. by right.
Qed.

Lemma sum_ways (n C : nat) (F : nat → nat) :
  (∀ x, F x = ((if bool_decide (x < n)%nat then 2 else 1) * C)%nat) →
  sum_list_with F (seq 0 (n + 1)) = ((2 * n + 1) * C)%nat.
Proof.
  intros HF. rewrite seq_app, sum_list_with_app. simpl.
  rewrite HF, bool_decide_eq_false_2 by lia.
  rewrite (sum_list_with_ext_in _ (λ _, 2 * C)%nat).
  2:{ intros x Hx. apply elem_of_seq in Hx.
      by rewrite HF, bool_decide_eq_true_2 by lia. }
  assert (H : ∀ l : list nat, sum_list_with (λ _, 2 * C)%nat l = (length l * (2 * C))%nat).
  { induction l as [|y l IH]; [reflexivity|].
    cbn [sum_list_with length]. rewrite IH. lia. }
  rewrite H, length_seq. lia.
Qed.

(** The number of lines a vertex brings: its own and those of its edges. *)
Lemma sum_allVertices (n1 n2 n3 : nat) :
  sum_list_with (λ v : Loc,
      (if bool_decide (fst (fst v) < n1)%nat then 2 else 1)
      * (if bool_decide (snd (fst v) < n2)%nat then 2 else 1)
      * (if bool_decide (snd v < n3)%nat then 2 else 1))%nat
    (allVertices n1 n2 n3)
  = ((2 * n1 + 1) * (2 * n2 + 1) * (2 * n3 + 1))%nat.
Proof.
  unfold allVertices. rewrite sum_list_with_bind.
  rewrite (sum_ways n1 ((2 * n2 + 1) * (2 * n3 + 1))); [lia|]. intros i.
  rewrite sum_list_with_bind.
  rewrite (sum_ways n2 ((if bool_decide (i < n1)%nat then 2 else 1) * (2 * n3 + 1)));
    [lia|]. intros j.
  rewrite sum_list_with_bind.
  rewrite (sum_ways n3 ((if bool_decide (i < n1)%nat then 2 else 1)
                        * (if bool_decide (j < n2)%nat then 2 else 1)));
    [lia|]. intros k. simpl. lia.
Qed.

Lemma length_concat_edges (seq1 seq2 seq3 : list ascii) (vs : list Loc)
    (ess : list (list EdgeLine)) :
  (∀ v, v ∈ vs → v ∈ allVertices (length seq1) (length seq2) (length seq3)) →
  Forall2 (λ v es, edgesAt seq1 seq2 seq3 v = Some es) vs ess →
  (length (concat ess) + length vs
   = sum_list_with (λ v : Loc,
       (if bool_decide (fst (fst v) < length seq1)%nat then 2 else 1)
       * (if bool_decide (snd (fst v) < length seq2)%nat then 2 else 1)
       * (if bool_decide (snd v < length seq3)%nat then 2 else 1)) vs)%nat.
Proof.
  intros Hsub Hess. induction Hess as [|v es vs ess Hv Hess IH]; [reflexivity|].
  simpl. rewrite length_app.
  destruct v as [[i j] k].
  pose proof (edgesAt_length seq1 seq2 seq3 i j k es (Hsub _ (list_elem_of_here _ _)) Hv)
    as Hlen.
  cbn [fst snd]. rewrite <- Hlen.
  specialize (IH (λ w Hw, Hsub w (list_elem_of_further _ _ _ Hw))). lia.
Qed.

(** X6. A written file holds [(2 n1 + 1)(2 n2 + 1)(2 n3 + 1)] lines for
    sequences of lengths [n1], [n2] and [n3]: the [(n1+1)(n2+1)(n3+1)]
    vertex lines, and the edge lines for the rest. *)
Theorem file_line_count (seq1 seq2 seq3 : list ascii) (lines : list Line) :
  buildGraphFile seq1 seq2 seq3 = Some lines →
  let n1 := length seq1 in
  let n2 := length seq2 in
  let n3 := length seq3 in
  (length lines = (2 * n1 + 1) * (2 * n2 + 1) * (2 * n3 + 1)
   ∧ length (vertexLines lines) = (n1 + 1) * (n2 + 1) * (n3 + 1)
   ∧ length (edgeLines lines)
     = (2 * n1 + 1) * (2 * n2 + 1) * (2 * n3 + 1) - (n1 + 1) * (n2 + 1) * (n3 + 1))%nat.
Proof.
  intros Hb n1 n2 n3.
  destruct (BuilderFacts.buildGraphFile_inv _ _ _ _ Hb) as (ess & Hess & ->).
  rewrite BuilderFacts.vertexLines_file, BuilderFacts.edgeLines_file.
  rewrite length_app, !length_fmap.
  pose proof (length_concat_edges seq1 seq2 seq3 _ ess (λ v Hv, Hv) Hess) as Hlen.
  rewrite sum_allVertices in Hlen. fold n1 n2 n3 in Hlen.
  pose proof (BuilderFacts.allVertices_length n1 n2 n3) as Hvs.
  fold n1 n2 n3. lia.
Qed.

Lemma file_line_count_witness :
  let lines :=
    [V (0, 0, 0)%nat; V (0, 1, 0)%nat; V (1, 0, 0)%nat; V (1, 1, 0)%nat;
     E (mkEdgeLine ("A", "-", "-")%char (0, 0, 0)%nat (1, 0, 0)%nat (-12));
     E (mkEdgeLine ("-", "C", "-")%char (0, 0, 0)%nat (0, 1, 0)%nat (-12));
     E (mkEdgeLine ("A", "C", "-")%char (0, 0, 0)%nat (1, 1, 0)%nat (-12));
     E (mkEdgeLine ("A", "-", "-")%char (0, 1, 0)%nat (1, 1, 0)%nat (-12));
     E (mkEdgeLine ("-", "C", "-")%char (1, 0, 0)%nat (1, 1, 0)%nat (-12))] in
  (length lines = (2 * 1 + 1) * (2 * 1 + 1) * (2 * 0 + 1)
   ∧ length (vertexLines lines) = (1 + 1) * (1 + 1) * (0 + 1)
   ∧ length (edgeLines lines)
     = (2 * 1 + 1) * (2 * 1 + 1) * (2 * 0 + 1) - (1 + 1) * (1 + 1) * (0 + 1))%nat.
Proof.
  apply (file_line_count ["A"%char] ["C"%char] []). vm_compute. reflexivity.
Defined.

(** *** The order of the vertex lines *)

Lemma lookup_bind_const {A B : Type} (f : A → list B) (l : list A) (m p q : nat) :
  (∀ x, length (f x) = m) → (q < m)%nat →
  (l ≫= f) !! (p * m + q)%nat = x ← l !! p; f x !! q.
Proof.
  intros Hf Hq. revert p. induction l as [|x l IH]; intros p.
  - done.
  - rewrite bind_cons. destruct p as [|p].
    + simpl. apply lookup_app_l. by rewrite Hf.
    + rewrite lookup_app_r by (rewrite Hf; lia).
      rewrite Hf. replace (S p * m + q - m)%nat with (p * m + q)%nat by lia.
      apply IH.
Qed.

(** The position of the line of [(i, j, k)] among the vertex lines. *)
Lemma allVertices_lookup (n1 n2 n3 i j k : nat) :
  (i ≤ n1)%nat → (j ≤ n2)%nat → (k ≤ n3)%nat →
  allVertices n1 n2 n3 !! (i * ((n2 + 1) * (n3 + 1)) + (j * (n3 + 1) + k))%nat
  = Some (i, j, k).
Proof.
  intros Hi Hj Hk. unfold allVertices.
  rewrite (lookup_bind_const _ _ ((n2 + 1) * (n3 + 1))).
  - rewrite lookup_seq_lt by lia. simpl.
    rewrite (lookup_bind_const _ _ (n3 + 1)).
    + rewrite lookup_seq_lt by lia. simpl.
      replace k with (k * 1 + 0)%nat at 1 by lia.
      rewrite (lookup_bind_const _ _ 1); [|done|lia].
      rewrite lookup_seq_lt by lia. reflexivity.
    + intros y. rewrite (BuilderFacts.length_bind_const _ _ 1) by done.
      rewrite length_seq. lia.
    + lia.
  - intros x. rewrite (BuilderFacts.length_bind_const _ _ (n3 + 1)).
    + by rewrite length_seq.
    + intros y. rewrite (BuilderFacts.length_bind_const _ _ 1) by done.
      rewrite length_seq. lia.
  - assert (j * (n3 + 1) + k < (n2 + 1) * (n3 + 1))%nat; [nia|done].
Qed.

(** The end of an edge: no coordinate decreases nor leaves its sequence. *)
Lemma edge_end (seq1 seq2 seq3 : list ascii) (lines : list Line) (e : EdgeLine) :
  buildGraphFile seq1 seq2 seq3 = Some lines → E e ∈ lines →
  ∃ (i j k i' j' k' : nat),
    startVertex e = (i, j, k) ∧ endVertex e = (i', j', k')
    ∧ (i ≤ i' ≤ length seq1 ∧ j ≤ j' ≤ length seq2 ∧ k ≤ k' ≤ length seq3)%nat
    ∧ ((gapChar ∉ seq1 → gapChar ∉ seq2 → gapChar ∉ seq3 →
        i < i' ∨ j < j' ∨ k < k')%nat).
Proof.
  intros Hb He.
  destruct (BuilderFacts.edge_of_file _ _ _ _ _ Hb He)
    as (i & j & k & (Hi & Hj & Hk) & Hcol & Hedge).
  apply BuilderFacts.columnsAt_elem in Hcol as (C1 & C2 & C3 & Hone).
  apply BuilderFacts.columnEdge_inv in Hedge as (_ & Hs & _ & Hend).
  cbn [fst snd] in Hend.
  assert (Hres : ∀ (s : list ascii) (n : nat) (r : ascii),
            residueAt s n = Some r → (n < length s)%nat ∧ (gapChar ∉ s → r ≠ gapChar)).
  { intros s n r Hr. apply BuilderFacts.residueAt_Some in Hr as [Hn Hr].
    split; [exact Hn|]. intros Hg ->. apply Hg. apply list_elem_of_lookup. eauto. }
  exists i, j, k,
    (if bool_decide (fst (fst (label e)) = gapChar) then i else i + 1)%nat,
    (if bool_decide (snd (fst (label e)) = gapChar) then j else j + 1)%nat,
    (if bool_decide (snd (label e) = gapChar) then k else k + 1)%nat.
  split; [exact Hs|]. split; [exact Hend|]. clear Hend. split.
  - split; [|split].
    + case_bool_decide; [lia|]. destruct C1 as [?|[Hlt _]%Hres]; [done|lia].
    + case_bool_decide; [lia|]. destruct C2 as [?|[Hlt _]%Hres]; [done|lia].
    + case_bool_decide; [lia|]. destruct C3 as [?|[Hlt _]%Hres]; [done|lia].
  - intros G1 G2 G3. destruct Hone as [H|[H|H]]; apply Hres in H as [_ H].
    + left. rewrite bool_decide_eq_false_2 by auto. lia.
    + right; left. rewrite bool_decide_eq_false_2 by auto. lia.
    + right; right. rewrite bool_decide_eq_false_2 by auto. lia.
Qed.

(** The positions of the two ends of an edge among the vertex lines. *)
Lemma edge_positions (seq1 seq2 seq3 : list ascii) (lines : list Line)
    (e : EdgeLine) :
  gapChar ∉ seq1 → gapChar ∉ seq2 → gapChar ∉ seq3 →
  buildGraphFile seq1 seq2 seq3 = Some lines →
  E e ∈ lines →
  ∃ p q : nat,
    vertexLines lines !! p = Some (startVertex e)
    ∧ vertexLines lines !! q = Some (endVertex e)
    ∧ (p < q)%nat.
Proof.
  intros G1 G2 G3 Hb He.
  destruct (edge_end _ _ _ _ _ Hb He)
    as (i & j & k & i' & j' & k' & -> & -> & (Hi & Hj & Hk) & Hadv).
  specialize (Hadv G1 G2 G3).
  destruct (BuilderFacts.buildGraphFile_inv _ _ _ _ Hb) as (ess & _ & ->).
  rewrite BuilderFacts.vertexLines_file.
  exists (i * ((length seq2 + 1) * (length seq3 + 1)) + (j * (length seq3 + 1) + k))%nat,
         (i' * ((length seq2 + 1) * (length seq3 + 1)) + (j' * (length seq3 + 1) + k'))%nat.
  split; [apply allVertices_lookup; lia|].
  split; [apply allVertices_lookup; lia|].
  assert (HM : (0 < (length seq2 + 1) * (length seq3 + 1))%nat)
    by (apply Nat.mul_pos_pos; lia).
  assert (HN : (0 < length seq3 + 1)%nat) by lia.
  revert HM HN.
  generalize ((length seq2 + 1) * (length seq3 + 1))%nat. intros M.
  generalize (length seq3 + 1)%nat. intros N HM HN.
  assert (i * M ≤ i' * M)%nat by (apply Nat.mul_le_mono_r; lia).
  assert (j * N ≤ j' * N)%nat by (apply Nat.mul_le_mono_r; lia).
  destruct Hadv as [Hlt|[Hlt|Hlt]].
  - assert ((i + 1) * M ≤ i' * M)%nat by (apply Nat.mul_le_mono_r; lia). lia.
  - assert ((j + 1) * N ≤ j' * N)%nat by (apply Nat.mul_le_mono_r; lia). lia.
  - lia.
Qed.

(** X7. For sequences that hold no gap character, the file lists its
    vertices in a topological order: the start and the end of every edge
    line are vertices of the file, and the line of the start comes before
    the line of the end. *)
Theorem edges_follow_file_order (seq1 seq2 seq3 : list ascii) (lines : list Line)
    (e : EdgeLine) :
  gapChar ∉ seq1 → gapChar ∉ seq2 → gapChar ∉ seq3 →
  buildGraphFile seq1 seq2 seq3 = Some lines →
  E e ∈ lines →
  ∃ p q : nat,
    vertexLines lines !! p = Some (startVertex e)
    ∧ vertexLines lines !! q = Some (endVertex e)
    ∧ (p < q)%nat.
Proof. apply edge_positions. Qed.

Lemma edges_follow_file_order_witness :
  ∃ p q : nat,
    [(0, 0, 0); (0, 1, 0); (1, 0, 0); (1, 1, 0)]%nat !! p = Some (0, 1, 0)%nat
    ∧ [(0, 0, 0); (0, 1, 0); (1, 0, 0); (1, 1, 0)]%nat !! q = Some (1, 1, 0)%nat
    ∧ (p < q)%nat.
Proof.
  apply (edges_follow_file_order ["A"%char] ["C"%char] []
           [V (0, 0, 0)%nat; V (0, 1, 0)%nat; V (1, 0, 0)%nat; V (1, 1, 0)%nat;
            E (mkEdgeLine ("A", "-", "-")%char (0, 0, 0)%nat (1, 0, 0)%nat (-12));
            E (mkEdgeLine ("-", "C", "-")%char (0, 0, 0)%nat (0, 1, 0)%nat (-12));
            E (mkEdgeLine ("A", "C", "-")%char (0, 0, 0)%nat (1, 1, 0)%nat (-12));
            E (mkEdgeLine ("A", "-", "-")%char (0, 1, 0)%nat (1, 1, 0)%nat (-12));
            E (mkEdgeLine ("-", "C", "-")%char (1, 0, 0)%nat (1, 1, 0)%nat (-12))]
           (mkEdgeLine ("A", "-", "-")%char (0, 1, 0)%nat (1, 1, 0)%nat (-12)));
    [unfold gapChar; rewrite ?elem_of_cons, ?elem_of_nil; intros H;
     repeat (destruct H as [H|H]; [discriminate H|]); exact H ..
    |vm_compute; reflexivity
    |repeat constructor].
Defined.

(** *** The weights of the edge lines *)

(** X8. The weight of every edge line is the sum of pairs of its label; it
    lies between -16 and 33, and an edge line whose weight is 0 or more
    holds no gap character in its label: it advances in the three
    sequences. *)
Theorem edge_weight_of_label (seq1 seq2 seq3 : list ascii) (lines : list Line)
    (e : EdgeLine) :
  buildGraphFile seq1 seq2 seq3 = Some lines →
  E e ∈ lines →
  Blosum62.sumOfPairsWeight (fst (fst (label e))) (snd (fst (label e))) (snd (label e))
  = Some (weight e)
  ∧ -16 ≤ weight e ≤ 33
  ∧ (gapChar ∉ seq1 → gapChar ∉ seq2 → gapChar ∉ seq3 → 0 ≤ weight e →
     fst (fst (label e)) ≠ gapChar ∧ snd (fst (label e)) ≠ gapChar
     ∧ snd (label e) ≠ gapChar
     ∧ endVertex e = (fst (fst (startVertex e)) + 1, snd (fst (startVertex e)) + 1,
                      snd (startVertex e) + 1)%nat).
Proof.
  intros Hb He.
  destruct (BuilderFacts.edge_of_file _ _ _ _ _ Hb He)
    as (i & j & k & _ & Hcol & Hedge).
  apply BuilderFacts.columnsAt_elem in Hcol as (C1 & C2 & C3 & Hone).
  apply BuilderFacts.columnEdge_inv in Hedge as (_ & Hs & Hw & Hend).
  split; [exact Hw|].
  destruct (ScoreFacts.sumOfPairsWeight_range _ _ _ _ Hw) as (Hr & _ & Hgap).
  split; [exact Hr|].
  intros G1 G2 G3 Hpos.
  assert (Hres : ∀ (s : list ascii) (n : nat) (r : ascii),
            gapChar ∉ s → residueAt s n = Some r → r ≠ gapChar).
  { intros s n r Hg Hr' ->. apply BuilderFacts.residueAt_Some in Hr' as [_ Hr'].
    apply Hg. apply list_elem_of_lookup. eauto. }
  assert (Hsome : ¬ (fst (fst (label e)) = gapChar ∧ snd (fst (label e)) = gapChar
                     ∧ snd (label e) = gapChar)).
  { intros (E1 & E2 & E3).
    destruct Hone as [H|[H|H]]; eapply Hres in H; eauto. }
  assert (Hnone : ¬ (fst (fst (label e)) = Blosum62.gapChar
                     ∨ snd (fst (label e)) = Blosum62.gapChar
                     ∨ snd (label e) = Blosum62.gapChar)).
  { intros Hor. specialize (Hgap Hor Hsome). lia. }
  assert (N1 : fst (fst (label e)) ≠ gapChar) by (intros H; apply Hnone; by left).
  assert (N2 : snd (fst (label e)) ≠ gapChar) by (intros H; apply Hnone; right; by left).
  assert (N3 : snd (label e) ≠ gapChar) by (intros H; apply Hnone; right; by right).
  do 3 (split; [assumption|]).
  rewrite Hend, Hs. cbn [fst snd].
  by rewrite !bool_decide_eq_false_2 by assumption.
Qed.

Lemma edge_weight_of_label_witness :
  let e := mkEdgeLine ("A", "A", "A")%char (0, 0, 0)%nat (1, 1, 1)%nat 12 in
  Blosum62.sumOfPairsWeight "A" "A" "A" = Some 12
  ∧ -16 ≤ 12 ≤ 33
  ∧ (gapChar ∉ ["A"%char] → gapChar ∉ ["A"%char] → gapChar ∉ ["A"%char] → 0 ≤ 12 →
     "A"%char ≠ gapChar ∧ "A"%char ≠ gapChar ∧ "A"%char ≠ gapChar
     ∧ endVertex e = (0 + 1, 0 + 1, 0 + 1)%nat).
Proof.
  intros e.
  destruct (buildGraphFile ["A"%char] ["A"%char] ["A"%char]) as [lines|] eqn:Hb;
    [|vm_compute in Hb; discriminate Hb].
  apply (edge_weight_of_label ["A"%char] ["A"%char] ["A"%char] lines e Hb).
  vm_compute in Hb. injection Hb as <-. repeat constructor.
Defined.

End EditGraphFacts.

(** ** The loading of a graph file *)

Module LoaderFacts.
Import WDAGraph GraphState GraphFile.

Section Loader.

Variable atof : string → Z.

(** *** One line *)

Lemma addVertex_inv (tokens : list string) (g g' : t) :
  addVertex tokens g = Some g' →
  ∃ label,
    tokens !! 1%nat = Some label
    ∧ vertices g' = vertices g ++ [Vertex.mk label INT_MIN None]
    ∧ verticeMap g' = <[label := length (vertices g)]> (verticeMap g)
    ∧ edges g' = <[label := []]> (edges g)
    ∧ edgeHeap g' = edgeHeap g
    ∧ edgeWeights g' = edgeWeights g
    ∧ edgeFrequencies g' = edgeFrequencies g
    ∧ startNode g' = (if bool_decide (tokens !! 2%nat = Some "START")
                      then Some (length (vertices g)) else startNode g)
    ∧ endNode g' = (if bool_decide (tokens !! 2%nat ≠ Some "START"
                                    ∧ tokens !! 2%nat = Some "END")
                    then Some (length (vertices g)) else endNode g).
Proof.
  unfold addVertex. intros H.
  destruct (tokens !! 1%nat) as [label|]; simpl in H; [|discriminate].
  exists label. split; [reflexivity|].
  destruct (tokens !! 2%nat) as [tag|].
  - destruct (decide (tag = "START")) as [->|Hs].
    + rewrite bool_decide_eq_true_2 in H by done. injection H as <-.
      cbn [vertices verticeMap edges edgeHeap edgeWeights edgeFrequencies
           startNode endNode].
      repeat split; try done;
        first [ rewrite bool_decide_eq_true_2 by (try split; congruence); done
              | rewrite bool_decide_eq_false_2 by (try intros [? ?]; congruence);
                done ].
    + rewrite (bool_decide_eq_false_2 (tag = "START")) in H by done.
      destruct (decide (tag = "END")) as [->|He].
      * rewrite bool_decide_eq_true_2 in H by done. injection H as <-.
        cbn [vertices verticeMap edges edgeHeap edgeWeights edgeFrequencies
             startNode endNode].
        repeat split; try done;
        first [ rewrite bool_decide_eq_true_2 by (try split; congruence); done
              | rewrite bool_decide_eq_false_2 by (try intros [? ?]; congruence);
                done ].
      * rewrite bool_decide_eq_false_2 in H by done. injection H as <-.
        cbn [vertices verticeMap edges edgeHeap edgeWeights edgeFrequencies
             startNode endNode].
        repeat split; try done;
        first [ rewrite bool_decide_eq_true_2 by (try split; congruence); done
              | rewrite bool_decide_eq_false_2 by (try intros [? ?]; congruence);
                done ].
  - injection H as <-.
    cbn [vertices verticeMap edges edgeHeap edgeWeights edgeFrequencies
         startNode endNode].
    repeat split; try done;
        first [ rewrite bool_decide_eq_true_2 by (try split; congruence); done
              | rewrite bool_decide_eq_false_2 by (try intros [? ?]; congruence);
                done ].
Qed.

Lemma addEdge_inv (tokens : list string) (g g' : t) :
  addEdge atof tokens g = Some g' →
  ∃ label startLabel endLabel weightToken start end_ sv ev,
    tokens !! 1%nat = Some label ∧ tokens !! 2%nat = Some startLabel
    ∧ tokens !! 3%nat = Some endLabel ∧ tokens !! 4%nat = Some weightToken
    ∧ verticeMap g !! startLabel = Some start
    ∧ verticeMap g !! endLabel = Some end_
    ∧ vertices g !! start = Some sv ∧ vertices g !! end_ = Some ev
    ∧ vertices g' = vertices g ∧ verticeMap g' = verticeMap g
    ∧ startNode g' = startNode g ∧ endNode g' = endNode g
    ∧ edgeHeap g' = edgeHeap g ++ [Edge.mk label (atof weightToken) start end_]
    ∧ (∃ startEdges endEdges,
         edges g !! Vertex.label sv = Some startEdges
         ∧ <[Vertex.label sv := startEdges ++ [length (edgeHeap g)]]> (edges g)
             !! Vertex.label ev = Some endEdges
         ∧ edges g' = <[Vertex.label ev := endEdges ++ [length (edgeHeap g)]]>
                        (<[Vertex.label sv := startEdges ++ [length (edgeHeap g)]]>
                           (edges g)))
    ∧ edgeWeights g' = match edgeWeights g !! label with
                       | None => <[label := atof weightToken]> (edgeWeights g)
                       | Some _ => edgeWeights g
                       end.
Proof.
  unfold addEdge. intros H.
  destruct (tokens !! 1%nat) as [label|]; simpl in H; [|discriminate].
  destruct (tokens !! 2%nat) as [startLabel|]; simpl in H; [|discriminate].
  destruct (verticeMap g !! startLabel) as [start|] eqn:Hs; simpl in H; [|discriminate].
  destruct (tokens !! 3%nat) as [endLabel|]; simpl in H; [|discriminate].
  destruct (verticeMap g !! endLabel) as [end_|] eqn:Hn; simpl in H; [|discriminate].
  destruct (tokens !! 4%nat) as [weightToken|]; simpl in H; [|discriminate].
  destruct (vertices g !! start) as [sv|] eqn:Hsv; simpl in H; [|discriminate].
  destruct (edges g !! Vertex.label sv) as [startEdges|] eqn:Hse; simpl in H; [|discriminate].
  destruct (vertices g !! end_) as [ev|] eqn:Hev; simpl in H; [|discriminate].
  destruct (<[Vertex.label sv:=startEdges ++ [length (edgeHeap g)]]> (edges g)
              !! Vertex.label ev) as [endEdges|] eqn:Hee; simpl in H; [|discriminate].
  injection H as <-. simpl.
  exists label, startLabel, endLabel, weightToken, start, end_, sv, ev.
  do 13 (split; [done|]). split; [|done].
  exists startEdges, endEdges. done.
Qed.

Lemma buildLine_inv (tokens : list string) (g g' : t) :
  buildLine atof g tokens = Some g' →
  (tokens !! 0%nat = Some "V" ∧ addVertex tokens g = Some g')
  ∨ (tokens !! 0%nat = Some "E" ∧ addEdge atof tokens g = Some g')
  ∨ (∃ kind, tokens !! 0%nat = Some kind ∧ kind ≠ "V" ∧ kind ≠ "E" ∧ g' = g).
Proof.
  unfold buildLine. intros H.
  destruct (tokens !! 0%nat) as [kind|]; simpl in H; [|discriminate].
  repeat case_bool_decide; subst.
  - by left.
  - right; by left.
  - right; right. injection H as <-. eauto.
Qed.

(** *** The lines in turn *)

Lemma buildGraphFrom_app (g : t) (l1 l2 : list (list string)) :
  buildGraphFrom atof g (l1 ++ l2)
  = g' ← buildGraphFrom atof g l1; buildGraphFrom atof g' l2.
Proof.
  revert g. induction l1 as [|tokens l1 IH]; intros g; [reflexivity|].
  cbn [app buildGraphFrom].
  destruct (buildLine atof g tokens) as [g1|]; simpl; [apply IH|reflexivity].
Qed.

Lemma buildGraph_snoc (lines : list (list string)) (tokens : list string) :
  buildGraph atof (lines ++ [tokens])
  = g ← buildGraph atof lines; buildLine atof g tokens.
Proof.
  unfold buildGraph. rewrite buildGraphFrom_app.
  destruct (buildGraphFrom atof empty lines) as [g|]; simpl; [|reflexivity].
  by destruct (buildLine atof g tokens).
Qed.

(** Induction on the lines read so far. *)
Lemma buildGraph_ind (P : list (list string) → t → Prop) :
  P [] empty →
  (∀ lines g tokens g',
     buildGraph atof lines = Some g → P lines g →
     buildLine atof g tokens = Some g' → P (lines ++ [tokens]) g') →
  ∀ lines g, buildGraph atof lines = Some g → P lines g.
Proof.
  intros H0 Hstep lines.
  induction lines as [|tokens lines IH] using rev_ind; intros g Hb.
  - injection Hb as <-. exact H0.
  - rewrite buildGraph_snoc in Hb.
    destruct (buildGraph atof lines) as [g0|] eqn:Hl; simpl in Hb; [|discriminate].
    eapply Hstep; [exact Hl|by apply IH|exact Hb].
Qed.

Lemma declared_snoc (lines : list (list string)) (tokens : list string) :
  declared (lines ++ [tokens])
  = declared lines
    ++ (if bool_decide (tokens !! 0%nat = Some "V")
        then option_list (tokens !! 1%nat) else []).
Proof.
  unfold declared. rewrite omap_app. f_equal. simpl.
  case_bool_decide; [|reflexivity]. by destruct (tokens !! 1%nat).
Qed.

(** *** The vertices *)

Lemma loaded_vertices (lines : list (list string)) (g : t) :
  buildGraph atof lines = Some g →
  vertices g = (λ l, Vertex.mk l INT_MIN None) <$> declared lines.
Proof.
  revert lines g. apply buildGraph_ind; [reflexivity|].
  intros lines g tokens g' _ IH Hl. rewrite declared_snoc, fmap_app, <- IH.
  apply buildLine_inv in Hl as [[Hk Hv]|[[Hk He]|(kind & Hk & Hv & He & ->)]].
  - apply addVertex_inv in Hv as (label & Hlab & -> & _).
    rewrite bool_decide_eq_true_2 by done. by rewrite Hlab.
  - apply addEdge_inv in He
      as (? & ? & ? & ? & ? & ? & ? & ? & _ & _ & _ & _ & _ & _ & _ & _ & -> & _).
    rewrite bool_decide_eq_false_2 by (rewrite Hk; discriminate).
    by rewrite app_nil_r.
  - rewrite bool_decide_eq_false_2 by (rewrite Hk; congruence).
    by rewrite app_nil_r.
Qed.

Lemma loaded_labels (lines : list (list string)) (g : t) :
  buildGraph atof lines = Some g → labels g = declared lines.
Proof.
  intros Hb. unfold labels. rewrite (loaded_vertices lines g Hb).
  rewrite <- list_fmap_compose. apply list_fmap_id.
Qed.

(** X9. The loader makes one vertex for every [V] line, in the order of
    the file, labelled with the second token of the line, with the weight
    [INT_MIN] and no best incoming edge. *)
Theorem vertices_in_file_order (lines : list (list string)) (g : t) :
  buildGraph atof lines = Some g →
  vertices g = (λ l, Vertex.mk l INT_MIN None) <$> declared lines.
Proof. apply loaded_vertices. Qed.


(** *** The map of the vertices *)

Lemma labels_snoc (g g' : t) (x : Vertex.t) :
  vertices g' = vertices g ++ [x] → labels g' = labels g ++ [Vertex.label x].
Proof. unfold labels. intros ->. by rewrite fmap_app. Qed.

Lemma length_labels (g : t) : length (labels g) = length (vertices g).
Proof. unfold labels. by rewrite length_fmap. Qed.

(** One line of the file, as the loader sees it. *)
Lemma buildLine_cases (tokens : list string) (g g' : t) :
  buildLine atof g tokens = Some g' →
  (tokens !! 0%nat = Some "V"
   ∧ ∃ label, tokens !! 1%nat = Some label
       ∧ labels g' = labels g ++ [label]
       ∧ vertices g' = vertices g ++ [Vertex.mk label INT_MIN None]
       ∧ verticeMap g' = <[label := length (vertices g)]> (verticeMap g)
       ∧ edges g' = <[label := []]> (edges g)
       ∧ edgeHeap g' = edgeHeap g ∧ edgeWeights g' = edgeWeights g)
  ∨ (tokens !! 0%nat = Some "E"
     ∧ labels g' = labels g ∧ vertices g' = vertices g
     ∧ verticeMap g' = verticeMap g
     ∧ startNode g' = startNode g ∧ endNode g' = endNode g
     ∧ addEdge atof tokens g = Some g')
  ∨ (tokens !! 0%nat ≠ Some "V" ∧ tokens !! 0%nat ≠ Some "E" ∧ g' = g).
Proof.
  intros Hl.
  apply buildLine_inv in Hl as [[Hk Hv]|[[Hk He]|(kind & Hk & Hv & He & ->)]].
  - left. split; [exact Hk|].
    apply addVertex_inv in Hv as (label & Hlab & Hvs & Hm & Hes & Hh & Hw & _).
    exists label. split; [exact Hlab|]. split; [|done].
    by apply (labels_snoc _ _ _ Hvs).
  - right; left. split; [exact Hk|]. pose proof He as He'.
    apply addEdge_inv in He
      as (? & ? & ? & ? & ? & ? & ? & ? & _ & _ & _ & _ & _ & _ & _ & _
          & Hvs & Hm & Hsn & Hen & _).
    unfold labels. rewrite Hvs. done.
  - right; right. rewrite Hk. split; [congruence|]. split; [congruence|done].
Qed.

Lemma loaded_verticeMap (lines : list (list string)) (g : t) :
  buildGraph atof lines = Some g →
  ∀ l p, verticeMap g !! l = Some p
         ↔ labels g !! p = Some l ∧ ∀ q, (p < q)%nat → labels g !! q ≠ Some l.
Proof.
  revert lines g.
  apply (buildGraph_ind (λ _ g, ∀ l p, verticeMap g !! l = Some p
           ↔ labels g !! p = Some l ∧ ∀ q, (p < q)%nat → labels g !! q ≠ Some l)).
  { intros l p. simpl. rewrite lookup_empty. split; [done|]. by intros [? _]. }
  intros lines g tokens g' _ IH Hl.
  apply buildLine_cases in Hl
    as [(_ & label & _ & Hlab & _ & Hm & _)|[(_ & Hlab & _ & Hm & _)|(_ & _ & ->)]];
    [|by rewrite Hlab, Hm|exact IH].
  intros l p. rewrite Hlab, Hm. rewrite lookup_insert_Some.
  rewrite <- (length_labels g). split.
  - intros [[<- <-]|[Hne Hp]].
    + split; [by apply list_lookup_middle|].
      intros q Hq. rewrite lookup_ge_None_2; [done|].
      rewrite length_app. simpl. lia.
    + apply IH in Hp as [Hp Hlast]. split.
      * apply lookup_app_l_Some. exact Hp.
      * intros q Hq. destruct (decide (q < length (labels g))%nat) as [Hlt|Hge].
        -- rewrite lookup_app_l by exact Hlt. by apply Hlast.
        -- destruct (decide (q = length (labels g))) as [->|Hneq].
           ++ rewrite list_lookup_middle by done. congruence.
           ++ rewrite lookup_ge_None_2; [done|]. rewrite length_app. simpl. lia.
  - intros [Hp Hlast].
    destruct (decide (p < length (labels g))%nat) as [Hlt|Hge].
    + right. rewrite lookup_app_l in Hp by exact Hlt.
      assert (Hne : label ≠ l).
      { intros ->. apply (Hlast (length (labels g)) Hlt).
        by apply list_lookup_middle. }
      split; [exact Hne|]. apply IH. split; [exact Hp|].
      intros q Hq Hq'. apply (Hlast q Hq). by apply lookup_app_l_Some.
    + left. apply lookup_lt_Some in Hp as Hlen. rewrite length_app in Hlen.
      simpl in Hlen. assert (p = length (labels g)) as -> by lia.
      rewrite list_lookup_middle in Hp by done. by injection Hp as ->.
Qed.

(** X10. After loading, [verticeMap] sends a label to the last vertex of
    the file that carries it, and to nothing when no vertex does; when the
    labels of the file are distinct it sends every label to its vertex. *)
Theorem verticeMap_last (lines : list (list string)) (g : t) (l : string) (p : nat) :
  buildGraph atof lines = Some g →
  (verticeMap g !! l = Some p
   ↔ labels g !! p = Some l ∧ ∀ q, (p < q)%nat → labels g !! q ≠ Some l)
  ∧ (NoDup (labels g) → (verticeMap g !! l = Some p ↔ labels g !! p = Some l)).
Proof.
  intros Hb. pose proof (loaded_verticeMap lines g Hb l p) as H.
  split; [exact H|]. intros Hnd. rewrite H. split; [by intros [? _]|].
  intros Hp. split; [exact Hp|]. intros q Hq Hq'.
  pose proof (NoDup_lookup _ _ _ _ Hnd Hp Hq'). lia.
Qed.

(** *** The table of the edge weights *)

Lemma head_app {A : Type} (l1 l2 : list A) :
  head (l1 ++ l2) = match head l1 with Some x => Some x | None => head l2 end.
Proof. by destruct l1. Qed.

Lemma loaded_edgeWeights (lines : list (list string)) (g : t) :
  buildGraph atof lines = Some g →
  ∀ l, edgeWeights g !! l
       = Edge.weight <$> head (filter (λ e, Edge.label e = l) (edgeHeap g)).
Proof.
  revert lines g.
  apply (buildGraph_ind (λ _ g, ∀ l, edgeWeights g !! l
           = Edge.weight <$> head (filter (λ e, Edge.label e = l) (edgeHeap g))));
    [done|].
  intros lines g tokens g' _ IH Hl.
  apply buildLine_cases in Hl
    as [(_ & label & _ & _ & _ & _ & _ & Hh & Hw)|[(_ & _ & _ & _ & _ & _ & He)
        |(_ & _ & ->)]];
    [by rewrite Hh, Hw| |exact IH].
  apply addEdge_inv in He
    as (label & sl & el & wt & start & end_ & sv & ev & _ & _ & _ & _ & _ & _ & _ & _
        & _ & _ & _ & _ & Hh & _ & Hw).
  intros l. rewrite Hh, Hw, filter_app, head_app.
  pose proof (IH l) as IHl. pose proof (IH label) as IHlabel.
  destruct (decide (label = l)) as [->|Hne].
  - destruct (head (filter (λ e, Edge.label e = l) (edgeHeap g))) as [e|];
      rewrite IHl; simpl.
    + exact IHl.
    + rewrite lookup_insert_eq. rewrite filter_cons_True by done. reflexivity.
  - rewrite filter_cons_False by done. rewrite filter_nil.
    assert (Hrest : edgeWeights g !! l
                    = Edge.weight <$> match head (filter (λ e, Edge.label e = l) (edgeHeap g))
                                      with Some x => Some x | None => head [] end).
    { rewrite IHl. by destruct (head _). }
    destruct (edgeWeights g !! label); [exact Hrest|].
    by rewrite lookup_insert_ne.
Qed.

(** X11. After loading, [edgeWeights] holds, for every label an edge
    carries, the weight of the first edge of the file with that label, and
    nothing for any other label. *)
Theorem edgeWeights_first (lines : list (list string)) (g : t) (l : string) :
  buildGraph atof lines = Some g →
  edgeWeights g !! l
  = Edge.weight <$> head (filter (λ e, Edge.label e = l) (edgeHeap g)).
Proof. intros Hb. by apply (loaded_edgeWeights lines). Qed.

(** *** The adjacency lists *)

Lemma incident_snoc (p : nat) (heap : list Edge.t) (e : Edge.t) :
  incident p (heap ++ [e])
  = incident p heap
    ++ (if bool_decide (Edge.start e = p) then [length heap] else [])
    ++ (if bool_decide (Edge.end_ e = p) then [length heap] else []).
Proof.
  unfold incident. rewrite imap_app, join_app. f_equal. simpl.
  rewrite Nat.add_0_r. by rewrite app_nil_r.
Qed.

Lemma incident_nil (p : nat) (heap : list Edge.t) :
  Forall (λ e, Edge.start e ≠ p ∧ Edge.end_ e ≠ p) heap → incident p heap = [].
Proof.
  induction heap as [|e heap IH] using rev_ind; [reflexivity|].
  intros [Hh [Hs He]%Forall_singleton]%Forall_app. rewrite incident_snoc, IH by exact Hh.
  by rewrite !bool_decide_eq_false_2 by done.
Qed.

Lemma loaded_edges (lines : list (list string)) (g : t) :
  buildGraph atof lines = Some g →
  NoDup (labels g) →
  ∀ p v, vertices g !! p = Some v →
         edges g !! Vertex.label v = Some (incident p (edgeHeap g)).
Proof.
  revert lines g.
  apply (buildGraph_ind (λ _ g, NoDup (labels g) →
           ∀ p v, vertices g !! p = Some v →
                  edges g !! Vertex.label v = Some (incident p (edgeHeap g)))).
  { intros _ p v Hp. done. }
  intros lines g tokens g' Hb IH Hl Hnd.
  destruct (GraphFacts.buildGraph_wellFormed atof lines g Hb) as [W _].
  apply buildLine_cases in Hl
    as [(_ & label & _ & Hlab & Hvs & _ & Hes & Hh & _)|[(_ & Hlab & Hvs & _ & _ & _ & He)
        |(_ & _ & ->)]]; [| |by apply IH].
  - rewrite Hlab in Hnd. apply NoDup_app in Hnd as (Hnd & Hfresh & _).
    intros p v Hp. rewrite Hvs in Hp. rewrite Hes, Hh.
    apply lookup_app_Some in Hp as [Hp|[Hge Hp]].
    + rewrite lookup_insert_ne; [by apply IH|].
      intros ->. apply (Hfresh (Vertex.label v)); [|left].
      apply list_elem_of_lookup. exists p. by apply GraphFacts.labels_lookup.
    + apply list_lookup_singleton_Some in Hp as [Hp <-]. simpl.
      rewrite lookup_insert_eq. f_equal. symmetry. apply incident_nil.
      apply Forall_forall. intros e He.
      destruct (wf_heap g W e He). lia.
  - rewrite Hlab in Hnd. specialize (IH Hnd).
    apply addEdge_inv in He
      as (label & sl & el & wt & start & end_ & sv & ev & _ & _ & _ & _ & _ & _
          & Hsv & Hev & _ & _ & _ & _ & Hh & (ses & ees & Hses & Hees & Hes) & _).
    assert (Hinj : ∀ i j x y, vertices g !! i = Some x → vertices g !! j = Some y →
                              Vertex.label x = Vertex.label y → i = j).
    { intros i j x y Hi Hj Hxy.
      apply (NoDup_lookup _ _ _ (Vertex.label x) Hnd).
      - by apply GraphFacts.labels_lookup.
      - rewrite Hxy. by apply GraphFacts.labels_lookup. }
    intros p v Hp. rewrite Hvs in Hp. rewrite Hes, Hh, incident_snoc. simpl.
    pose proof (IH _ _ Hsv) as Is. pose proof (IH _ _ Hev) as Ie.
    pose proof (IH _ _ Hp) as Ip.
    rewrite Is in Hses. injection Hses as <-.
    destruct (decide (end_ = p)) as [->|Hne].
    + assert (ev = v) as -> by congruence.
      rewrite lookup_insert_eq. f_equal.
      rewrite (bool_decide_eq_true_2 (p = p)) by done.
      destruct (decide (start = p)) as [->|Hns].
      * assert (sv = v) as -> by congruence.
        rewrite lookup_insert_eq in Hees. injection Hees as <-.
        rewrite bool_decide_eq_true_2 by done. by rewrite <- app_assoc.
      * rewrite lookup_insert_ne in Hees.
        2:{ intros Hlab'. apply Hns. by eapply Hinj. }
        rewrite Ie in Hees. injection Hees as <-.
        by rewrite bool_decide_eq_false_2 by done.
    + rewrite lookup_insert_ne.
      2:{ intros Hlab'. apply Hne. by eapply Hinj. }
      rewrite (bool_decide_eq_false_2 (end_ = p)) by done.
      destruct (decide (start = p)) as [->|Hns].
      * assert (sv = v) as -> by congruence.
        rewrite lookup_insert_eq. rewrite bool_decide_eq_true_2 by done.
        by rewrite app_nil_r.
      * rewrite lookup_insert_ne.
        2:{ intros Hlab'. apply Hns. by eapply Hinj. }
        rewrite bool_decide_eq_false_2 by done. by rewrite !app_nil_r.
Qed.

(** X12. After the loading of a file whose vertex labels are distinct, the
    adjacency list of a vertex holds the edges that start or end at it, in
    the order of the file; an edge from the vertex to itself is there
    twice. *)
Theorem adjacency_lists (lines : list (list string)) (g : t) (p : nat) (v : Vertex.t) :
  buildGraph atof lines = Some g →
  NoDup (labels g) →
  vertices g !! p = Some v →
  edges g !! Vertex.label v = Some (incident p (edgeHeap g)).
Proof. intros Hb Hnd. by apply (loaded_edges lines). Qed.

(** *** The edges *)

Lemma edgeLinesOf_snoc (lines : list (list string)) (tokens : list string) :
  edgeLinesOf (lines ++ [tokens])
  = edgeLinesOf lines
    ++ (if bool_decide (tokens !! 0%nat = Some "E") then [tokens] else []).
Proof.
  unfold edgeLinesOf. rewrite filter_app. f_equal.
  case_bool_decide; [by rewrite filter_cons_True|by rewrite filter_cons_False].
Qed.

Lemma vertexLinesOf_snoc (lines : list (list string)) (tokens : list string) :
  vertexLinesOf (lines ++ [tokens])
  = vertexLinesOf lines
    ++ (if bool_decide (tokens !! 0%nat = Some "V") then [tokens] else []).
Proof.
  unfold vertexLinesOf. rewrite filter_app. f_equal.
  case_bool_decide; [by rewrite filter_cons_True|by rewrite filter_cons_False].
Qed.

Lemma loaded_edgeHeap (lines : list (list string)) (g : t) :
  buildGraph atof lines = Some g →
  Forall2 (λ tokens e,
      tokens !! 1%nat = Some (Edge.label e)
      ∧ (∃ w, tokens !! 4%nat = Some w ∧ Edge.weight e = atof w)
      ∧ (∃ l, tokens !! 2%nat = Some l ∧ labels g !! Edge.start e = Some l)
      ∧ (∃ l, tokens !! 3%nat = Some l ∧ labels g !! Edge.end_ e = Some l))
    (edgeLinesOf lines) (edgeHeap g).
Proof.
  revert lines g.
  apply (buildGraph_ind (λ lines g, Forall2 (λ tokens e,
      tokens !! 1%nat = Some (Edge.label e)
      ∧ (∃ w, tokens !! 4%nat = Some w ∧ Edge.weight e = atof w)
      ∧ (∃ l, tokens !! 2%nat = Some l ∧ labels g !! Edge.start e = Some l)
      ∧ (∃ l, tokens !! 3%nat = Some l ∧ labels g !! Edge.end_ e = Some l))
    (edgeLinesOf lines) (edgeHeap g))).
  { constructor. }
  intros lines g tokens g' Hb IH Hl. rewrite edgeLinesOf_snoc.
  apply buildLine_cases in Hl
    as [(Hk & label & _ & Hlab & _ & _ & _ & Hh & _)|[(Hk & Hlab & _ & _ & _ & _ & He)
        |(_ & Hk & ->)]].
  - rewrite bool_decide_eq_false_2 by (rewrite Hk; discriminate).
    rewrite app_nil_r, Hh, Hlab.
    eapply Forall2_impl; [exact IH|]. simpl.
    intros t e (H1 & H4 & (l2 & H2 & L2) & (l3 & H3 & L3)).
    split; [done|]. split; [done|].
    split; eexists; (split; [done|]); by apply lookup_app_l_Some.
  - rewrite bool_decide_eq_true_2 by done. rewrite Hlab.
    apply addEdge_inv in He
      as (label & sl & el & wt & start & end_ & sv & ev & T1 & T2 & T3 & T4 & Ms & Me
          & _ & _ & _ & _ & _ & _ & Hh & _).
    rewrite Hh. apply Forall2_app; [exact IH|].
    constructor; [|constructor]. simpl.
    split; [done|]. split; [eauto|].
    split; eexists; (split; [done|]); by apply (loaded_verticeMap lines g Hb).
  - rewrite bool_decide_eq_false_2 by done. by rewrite app_nil_r.
Qed.

(** X13. The loader makes one edge for every [E] line, in the order of the
    file: the edge carries the second token as its label and [atof] of the
    fifth token as its weight, it starts at a vertex labelled with the
    third token and ends at a vertex labelled with the fourth. *)
Theorem edges_in_file_order (lines : list (list string)) (g : t) :
  buildGraph atof lines = Some g →
  Forall2 (λ tokens e,
      tokens !! 1%nat = Some (Edge.label e)
      ∧ (∃ w, tokens !! 4%nat = Some w ∧ Edge.weight e = atof w)
      ∧ (∃ l, tokens !! 2%nat = Some l ∧ labels g !! Edge.start e = Some l)
      ∧ (∃ l, tokens !! 3%nat = Some l ∧ labels g !! Edge.end_ e = Some l))
    (edgeLinesOf lines) (edgeHeap g).
Proof. apply loaded_edgeHeap. Qed.

(** *** The lines that stop the loader *)

Lemma loaded_verticeMap_dom (lines : list (list string)) (g : t) :
  buildGraph atof lines = Some g →
  ∀ l, is_Some (verticeMap g !! l) ↔ l ∈ declared lines.
Proof.
  intros Hb l. rewrite <- (loaded_labels lines g Hb). revert lines g Hb l.
  apply (buildGraph_ind (λ _ g, ∀ l, is_Some (verticeMap g !! l) ↔ l ∈ labels g)).
  { intros l. simpl. rewrite lookup_empty. split; [by intros [? ?]|].
    by intros ?%elem_of_nil. }
  intros lines g tokens g' _ IH Hl.
  apply buildLine_cases in Hl
    as [(_ & label & _ & Hlab & _ & Hm & _)|[(_ & Hlab & _ & Hm & _)|(_ & _ & ->)]];
    [|by rewrite Hlab, Hm|exact IH].
  intros l. rewrite Hlab, Hm, lookup_insert_is_Some, elem_of_app, IH.
  rewrite list_elem_of_singleton. split.
  - intros [->|[_ H]]; [by right|by left].
  - intros [H| ->]; [|by left].
    destruct (decide (label = l)); [by left|by right].
Qed.

Lemma buildLine_rejected (before : list (list string)) (g : t) (tokens : list string) :
  buildGraph atof before = Some g →
  buildLine atof g tokens = None ↔ rejected before tokens.
Proof.
  intros Hb.
  destruct (GraphFacts.buildGraph_wellFormed atof before g Hb) as [W _].
  pose proof (loaded_verticeMap_dom before g Hb) as Hdom.
  unfold buildLine, rejected.
  destruct (tokens !! 0%nat) as [kind|] eqn:Hk; simpl.
  2:{ split; [|done]. intros _. left. by destruct tokens. }
  assert (Hne : tokens ≠ []) by (by intros ->).
  destruct (decide (kind = "V")) as [->|HV].
  { rewrite bool_decide_eq_true_2 by done. unfold addVertex.
    destruct (tokens !! 1%nat) as [label|]; simpl.
    - split; [done|]. intros [?|[[_ ?]|[? _]]]; done.
    - split; [|done]. intros _. right; left. done. }
  rewrite (bool_decide_eq_false_2 (kind = "V")) by done.
  destruct (decide (kind = "E")) as [->|HE].
  2:{ rewrite bool_decide_eq_false_2 by done. split; [done|].
      intros [?|[[? _]|[? _]]]; congruence. }
  rewrite bool_decide_eq_true_2 by done. unfold addEdge.
  assert (Hlen : ∀ n, (n < 5)%nat → tokens !! n = None → (length tokens < 5)%nat).
  { intros n Hn Hnone. apply lookup_ge_None in Hnone. lia. }
  assert (Hshort : (length tokens < 5)%nat → tokens !! 4%nat = None).
  { intros Hn. apply lookup_ge_None. lia. }
  destruct (tokens !! 1%nat) as [label|] eqn:T1; simpl.
  2:{ split; [|done]. intros _. right; right. split; [done|]. left.
      by apply (Hlen 1%nat); [lia|]. }
  destruct (tokens !! 2%nat) as [sl|] eqn:T2; simpl.
  2:{ split; [|done]. intros _. right; right. split; [done|]. left.
      by apply (Hlen 2%nat); [lia|]. }
  destruct (verticeMap g !! sl) as [start|] eqn:Ms; simpl.
  2:{ split; [|done]. intros _. right; right. split; [done|]. right.
      exists sl. split; [by left|]. rewrite <- Hdom, Ms. by intros [? ?]. }
  destruct (tokens !! 3%nat) as [el|] eqn:T3; simpl.
  2:{ split; [|done]. intros _. right; right. split; [done|]. left.
      by apply (Hlen 3%nat); [lia|]. }
  destruct (verticeMap g !! el) as [end_|] eqn:Me; simpl.
  2:{ split; [|done]. intros _. right; right. split; [done|]. right.
      exists el. split; [by right|]. rewrite <- Hdom, Me. by intros [? ?]. }
  destruct (tokens !! 4%nat) as [wt|] eqn:T4; simpl.
  2:{ split; [|done]. intros _. right; right. split; [done|]. left.
      by apply (Hlen 4%nat); [lia|]. }
  destruct (lookup_lt_is_Some_2 _ _ (wf_map g W _ _ Ms)) as [sv Hsv].
  destruct (lookup_lt_is_Some_2 _ _ (wf_map g W _ _ Me)) as [ev Hev].
  rewrite Hsv. simpl.
  destruct (wf_edges g W (Vertex.label sv)) as [ses Hses].
  { apply list_elem_of_lookup. exists start. by apply GraphFacts.labels_lookup. }
  rewrite Hses. simpl. rewrite Hev. simpl.
  destruct (wf_edges g W (Vertex.label ev)) as [ees0 Hees0].
  { apply list_elem_of_lookup. exists end_. by apply GraphFacts.labels_lookup. }
  destruct (lookup_insert_is_Some' (edges g) (Vertex.label sv) (Vertex.label ev)
              (ses ++ [length (edgeHeap g)])) as [_ Hi].
  destruct Hi as [ees Hees]; [right; eauto|].
  rewrite Hees. simpl. split; [done|].
  intros [?|[[? _]|[_ [Hn|(l & [Hl|Hl] & Hnot)]]]]; try done.
  - apply Hshort in Hn. congruence.
  - assert (l = sl) as -> by congruence. destruct Hnot. apply Hdom. eauto.
  - assert (l = el) as -> by congruence. destruct Hnot. apply Hdom. eauto.
Qed.

Lemma loaded_stops (lines : list (list string)) :
  buildGraph atof lines = None
  ↔ ∃ n tokens, lines !! n = Some tokens ∧ rejected (take n lines) tokens.
Proof.
  induction lines as [|tokens lines IH] using rev_ind.
  { split; [done|]. by intros (n & t & ? & _). }
  rewrite buildGraph_snoc. split.
  - destruct (buildGraph atof lines) as [g|] eqn:Hb; simpl.
    + intros Hl. exists (length lines), tokens.
      split; [by apply list_lookup_middle|].
      rewrite take_app_length. by apply (buildLine_rejected lines g).
    + intros _. destruct IH as [IH _]. destruct (IH eq_refl) as (n & t & Hn & Hr).
      exists n, t. pose proof (lookup_lt_Some _ _ _ Hn) as Hlt.
      split; [by apply lookup_app_l_Some|].
      rewrite take_app_le by lia. exact Hr.
  - intros (n & t & Hn & Hr).
    destruct (buildGraph atof lines) as [g|] eqn:Hb; simpl; [|done].
    apply lookup_app_Some in Hn as [Hn|[Hge Hn]].
    + pose proof (lookup_lt_Some _ _ _ Hn) as Hlt.
      rewrite take_app_le in Hr by lia.
      destruct IH as [_ IH]. discriminate IH. eauto.
    + apply list_lookup_singleton_Some in Hn as [Hn <-].
      assert (n = length lines) as -> by lia.
      rewrite take_app_length in Hr. by apply (buildLine_rejected lines g).
Qed.

(** X14. The loader stops, with an exception or at a pointer that
    designates nothing, exactly when the file holds a line with no token
    (an empty line), a [V] line with no label, or an [E] line that has
    fewer than five tokens or names, as its start or its end, a label that
    no [V] line above it declares. *)
Theorem buildGraph_stops (lines : list (list string)) :
  buildGraph atof lines = None
  ↔ ∃ n tokens, lines !! n = Some tokens ∧ rejected (take n lines) tokens.
Proof. apply loaded_stops. Qed.

(** *** The start and the end vertex *)

Lemma last_tagged_step (T : list string → Prop) (vl : list (list string))
    (new : list (list string)) (old new' : option nat) :
  (∀ p, old = Some p
        ↔ (∃ t, vl !! p = Some t ∧ T t)
          ∧ ∀ q t, (p < q)%nat → vl !! q = Some t → ¬ T t) →
  (new = [] ∧ new' = old
   ∨ ∃ t, new = [t] ∧ ((T t ∧ new' = Some (length vl)) ∨ (¬ T t ∧ new' = old))) →
  ∀ p, new' = Some p
       ↔ (∃ t, (vl ++ new) !! p = Some t ∧ T t)
         ∧ ∀ q t, (p < q)%nat → (vl ++ new) !! q = Some t → ¬ T t.
Proof.
  intros Hold [[-> ->]|(t & -> & Hnew)] p.
  { by rewrite app_nil_r. }
  destruct Hnew as [[Ht ->]|[Ht ->]].
  - split.
    + intros [= <-]. split.
      * exists t. split; [by apply list_lookup_middle|exact Ht].
      * intros q t' Hq Hq'. apply lookup_lt_Some in Hq'.
        rewrite length_app in Hq'. simpl in Hq'. lia.
    + intros [(t' & Hp & Ht') Hlast].
      destruct (decide (p < length vl)%nat) as [Hlt|Hge].
      * destruct (Hlast (length vl) t Hlt); [by apply list_lookup_middle|exact Ht].
      * apply lookup_lt_Some in Hp. rewrite length_app in Hp. simpl in Hp.
        f_equal. lia.
  - rewrite Hold. split.
    + intros [(t' & Hp & Ht') Hlast]. split.
      * exists t'. split; [by apply lookup_app_l_Some|exact Ht'].
      * intros q t'' Hq Hq'. apply lookup_app_Some in Hq' as [Hq'|[_ Hq']].
        -- by eapply Hlast.
        -- apply list_lookup_singleton_Some in Hq' as [_ <-]. exact Ht.
    + intros [(t' & Hp & Ht') Hlast].
      apply lookup_app_Some in Hp as [Hp|[_ Hp]].
      * split; [eauto|]. intros q t'' Hq Hq'. eapply Hlast; [exact Hq|].
        by apply lookup_app_l_Some.
      * apply list_lookup_singleton_Some in Hp as [_ <-]. done.
Qed.

Lemma loaded_constraints (lines : list (list string)) (g : t) :
  buildGraph atof lines = Some g →
  length (vertexLinesOf lines) = length (vertices g)
  ∧ (∀ p, startNode g = Some p
          ↔ (∃ t, vertexLinesOf lines !! p = Some t ∧ t !! 2%nat = Some "START")
            ∧ ∀ q t, (p < q)%nat → vertexLinesOf lines !! q = Some t →
                     ¬ t !! 2%nat = Some "START")
  ∧ (∀ p, endNode g = Some p
          ↔ (∃ t, vertexLinesOf lines !! p = Some t ∧ t !! 2%nat = Some "END")
            ∧ ∀ q t, (p < q)%nat → vertexLinesOf lines !! q = Some t →
                     ¬ t !! 2%nat = Some "END").
Proof.
  revert lines g.
  apply (buildGraph_ind (λ lines g,
    length (vertexLinesOf lines) = length (vertices g)
    ∧ (∀ p, startNode g = Some p
            ↔ (∃ t, vertexLinesOf lines !! p = Some t ∧ t !! 2%nat = Some "START")
              ∧ ∀ q t, (p < q)%nat → vertexLinesOf lines !! q = Some t →
                       ¬ t !! 2%nat = Some "START")
    ∧ (∀ p, endNode g = Some p
            ↔ (∃ t, vertexLinesOf lines !! p = Some t ∧ t !! 2%nat = Some "END")
              ∧ ∀ q t, (p < q)%nat → vertexLinesOf lines !! q = Some t →
                       ¬ t !! 2%nat = Some "END"))).
  { split; [done|]. split; intros p; (split; [done|]); by intros [(? & ? & _) _]. }
  intros lines g tokens g' _ (Hlen & Hs & He) Hl. rewrite vertexLinesOf_snoc.
  apply buildLine_inv in Hl as [[Hk Hv]|[[Hk Hedge]|(kind & Hk & Hv & Hedge & ->)]].
  - rewrite bool_decide_eq_true_2 by done.
    apply addVertex_inv in Hv as (label & _ & Hvs & _ & _ & _ & _ & _ & Hsn & Hen).
    split; [rewrite Hvs, !length_app, Hlen; done|]. rewrite <- Hlen in Hsn, Hen.
    split.
    + apply (last_tagged_step (λ t, t !! 2%nat = Some "START") _ _ (startNode g));
        [exact Hs|].
      right. exists tokens. split; [done|]. rewrite Hsn. clear Hsn Hen.
      case_bool_decide; [left|right]; split; done.
    + apply (last_tagged_step (λ t, t !! 2%nat = Some "END") _ _ (endNode g));
        [exact He|].
      right. exists tokens. split; [done|]. rewrite Hen. clear Hsn Hen.
      case_bool_decide as Hc.
      * left. destruct Hc. split; done.
      * right. split; [|done]. intros Hend. apply Hc. split; [|done].
        rewrite Hend. discriminate.
  - rewrite bool_decide_eq_false_2 by (rewrite Hk; discriminate).
    apply addEdge_inv in Hedge
      as (? & ? & ? & ? & ? & ? & ? & ? & _ & _ & _ & _ & _ & _ & _ & _
          & Hvs & _ & Hsn & Hen & _).
    rewrite app_nil_r, Hvs, Hsn, Hen. done.
  - rewrite bool_decide_eq_false_2 by (rewrite Hk; congruence).
    rewrite app_nil_r. done.
Qed.

(** X15. After loading, the start vertex is the vertex of the last [V] line
    whose third token is [START], the end vertex that of the last [V] line
    whose third token is [END]; there is none when no line is so tagged. *)
Theorem constraints_last_tagged (lines : list (list string)) (g : t) (p : nat) :
  buildGraph atof lines = Some g →
  (startNode g = Some p
   ↔ (∃ t, vertexLinesOf lines !! p = Some t ∧ t !! 2%nat = Some "START")
     ∧ ∀ q t, (p < q)%nat → vertexLinesOf lines !! q = Some t →
              ¬ t !! 2%nat = Some "START")
  ∧ (endNode g = Some p
     ↔ (∃ t, vertexLinesOf lines !! p = Some t ∧ t !! 2%nat = Some "END")
       ∧ ∀ q t, (p < q)%nat → vertexLinesOf lines !! q = Some t →
                ¬ t !! 2%nat = Some "END").
Proof.
  intros Hb. destruct (loaded_constraints lines g Hb) as (_ & Hs & He).
  split; [apply Hs|apply He].
Qed.

End Loader.

Lemma vertices_in_file_order_witness :
  ∃ g, buildGraph Samples.atofInteger Samples.constrainedPath = Some g
       ∧ vertices g = (λ l, Vertex.mk l INT_MIN None)
                      <$> declared Samples.constrainedPath.
Proof.
  destruct (buildGraph Samples.atofInteger Samples.constrainedPath) as [g|] eqn:Hb;
    [|vm_compute in Hb; discriminate Hb].
  exists g. split; [reflexivity|].
  exact (vertices_in_file_order Samples.atofInteger Samples.constrainedPath g Hb).
Defined.

Lemma verticeMap_last_witness :
  ∃ g, buildGraph Samples.atofInteger [ ["V"; "a"]; ["V"; "b"]; ["V"; "a"] ] = Some g
  ∧ (verticeMap g !! "a" = Some 2%nat
     ↔ labels g !! 2%nat = Some "a"
       ∧ ∀ q, (2 < q)%nat → labels g !! q ≠ Some "a")
  ∧ (NoDup (labels g) → (verticeMap g !! "a" = Some 2%nat ↔ labels g !! 2%nat = Some "a")).
Proof.
  destruct (buildGraph Samples.atofInteger [ ["V"; "a"]; ["V"; "b"]; ["V"; "a"] ])
    as [g|] eqn:Hb; [|vm_compute in Hb; discriminate Hb].
  exists g. split; [reflexivity|].
  exact (verticeMap_last Samples.atofInteger _ g "a" 2 Hb).
Defined.

Lemma edgeWeights_first_witness :
  ∃ g, buildGraph Samples.atofInteger Samples.sharedLabel = Some g
  ∧ edgeWeights g !! "x"
    = Edge.weight <$> head (filter (λ e, Edge.label e = "x") (edgeHeap g)).
Proof.
  destruct (buildGraph Samples.atofInteger Samples.sharedLabel)
    as [g|] eqn:Hb; [|vm_compute in Hb; discriminate Hb].
  exists g. split; [reflexivity|].
  exact (edgeWeights_first Samples.atofInteger _ g "x" Hb).
Defined.

Lemma adjacency_lists_witness :
  ∃ g, buildGraph Samples.atofInteger
         [ ["V"; "a"]; ["V"; "b"]; ["E"; "x"; "a"; "b"; "1"]; ["E"; "y"; "b"; "b"; "2"] ]
       = Some g
  ∧ edges g !! "b" = Some [0; 1; 1]%nat.
Proof.
  destruct (buildGraph Samples.atofInteger
         [ ["V"; "a"]; ["V"; "b"]; ["E"; "x"; "a"; "b"; "1"]; ["E"; "y"; "b"; "b"; "2"] ])
    as [g|] eqn:Hb; [|vm_compute in Hb; discriminate Hb].
  exists g. split; [reflexivity|].
  pose proof (adjacency_lists Samples.atofInteger _ g 1 (Vertex.mk "b" INT_MIN None) Hb)
    as H.
  vm_compute in Hb. injection Hb as <-.
  apply H; [compute_done|reflexivity].
Defined.

Lemma edges_in_file_order_witness :
  ∃ g, buildGraph Samples.atofInteger Samples.sharedLabel = Some g
  ∧ Forall2 (λ tokens e,
      tokens !! 1%nat = Some (Edge.label e)
      ∧ (∃ w, tokens !! 4%nat = Some w ∧ Edge.weight e = Samples.atofInteger w)
      ∧ (∃ l, tokens !! 2%nat = Some l ∧ labels g !! Edge.start e = Some l)
      ∧ (∃ l, tokens !! 3%nat = Some l ∧ labels g !! Edge.end_ e = Some l))
    (edgeLinesOf Samples.sharedLabel) (edgeHeap g).
Proof.
  destruct (buildGraph Samples.atofInteger Samples.sharedLabel)
    as [g|] eqn:Hb; [|vm_compute in Hb; discriminate Hb].
  exists g. split; [reflexivity|].
  exact (edges_in_file_order Samples.atofInteger _ g Hb).
Defined.

Lemma constraints_last_tagged_witness :
  ∃ g, buildGraph Samples.atofInteger Samples.unreachedEnd = Some g
  ∧ (startNode g = Some 0%nat
     ↔ (∃ t, vertexLinesOf Samples.unreachedEnd !! 0%nat = Some t
             ∧ t !! 2%nat = Some "START")
       ∧ ∀ q t, (0 < q)%nat → vertexLinesOf Samples.unreachedEnd !! q = Some t →
                ¬ t !! 2%nat = Some "START")
  ∧ (endNode g = Some 0%nat
     ↔ (∃ t, vertexLinesOf Samples.unreachedEnd !! 0%nat = Some t
             ∧ t !! 2%nat = Some "END")
       ∧ ∀ q t, (0 < q)%nat → vertexLinesOf Samples.unreachedEnd !! q = Some t →
                ¬ t !! 2%nat = Some "END").
Proof.
  destruct (buildGraph Samples.atofInteger Samples.unreachedEnd)
    as [g|] eqn:Hb; [|vm_compute in Hb; discriminate Hb].
  exists g. split; [reflexivity|].
  exact (constraints_last_tagged Samples.atofInteger _ g 0 Hb).
Defined.

End LoaderFacts.

(** ** The path the engine finds *)

Module PathFacts.
Import WDAGraph GraphState GraphFile Paths.

(** *** The offers made to a vertex *)

Lemma offers_choice (x : Vertex.t) (cs : list (nat * option Z)) :
  offers x cs = x
  ∨ ∃ e w, (e, Some w) ∈ cs ∧ Vertex.weight (offers x cs) = w
           ∧ Vertex.edgeForHWPath (offers x cs) = Some e.
Proof.
  revert x. induction cs as [|[e c] cs IH]; intros x; [by left|].
  cbn [offers]. destruct (IH (offer x e c)) as [Heq|(e' & w' & Hin & Hw & He)].
  - rewrite Heq. unfold offer. destruct c as [w|]; [|by left].
    case_bool_decide; [|by left].
    right. exists e, w. split; [left|done].
  - right. exists e', w'. split; [by right|done].
Qed.


Lemma candidates_inv (g : t) (i : nat) (es : list nat) (cs : list (nat * option Z)) :
  candidates g i es = Some cs →
  Forall2 (λ e ec, fst ec = e ∧ candidate g i e = Some (snd ec)) es cs.
Proof.
  unfold candidates. intros H. apply mapM_Some in H.
  eapply Forall2_impl; [exact H|]. simpl. intros e [e' c] Hc.
  destruct (candidate g i e) as [c'|]; simpl in Hc; [|discriminate].
  by injection Hc as <- <-.
Qed.

(** What the visit of the vertex at [i] does to the vertices: nothing when
    the vertex is passed over; else the vertex, its weight reset or not, is
    made the offers of the edges of its adjacency list. *)
Lemma visit_result (i : nat) (g g' : t) (sf sf' brk : bool) :
  visit i (g, sf) = Some ((g', sf'), brk) →
  topological g →
  erase g' = erase g
  ∧ ((skipped g sf i ∧ g' = g ∧ sf' = sf)
     ∨ ∃ x x1 es cs,
         vertices g !! i = Some x
         ∧ (x1 = x ∨ x1 = resetWeight x 0)
         ∧ (isStartConstrained g = false → x1 = resetWeight x 0)
         ∧ edges g !! Vertex.label x = Some es
         ∧ candidates g i es = Some cs
         ∧ vertices g' = <[i := offers x1 cs]> (vertices g)
         ∧ (isStartConstrained g = true →
            sf' = true
            ∧ ((sf = true ∧ x1 = x)
               ∨ (sf = false ∧ x1 = resetWeight x 0
                  ∧ ∃ sn s, startNode g = Some sn ∧ vertices g !! sn = Some s
                            ∧ Vertex.label x = Vertex.label s)))).
Proof.
  intros Hv Ht.
  destruct (GraphFacts.visit_frame _ _ _ _ _ _ Hv) as (He & _).
  split; [exact He|].
  destruct (GraphFacts.visit_inv _ _ _ _ _ _ Hv) as [(Hsk & -> & -> & _)
         |(x & g1 & es & g2 & Hx & Hst & Hes & Hrun & Hsel)]; [by left|].
  right.
  destruct (RerunFacts.started_shape _ _ _ _ _ _ Hx Hst) as (x1 & h1 & -> & Hshape).
  assert (Hl1 : Vertex.label x1 = Vertex.label x).
  { destruct Hshape as [(-> & _)|[(-> & _)|(-> & _)]]; done. }
  rewrite (RerunFacts.relax_offers (with_highestWeightNode g h1) i x es x1) in Hrun;
    [|by eapply RerunFacts.topological_erase;
        [symmetry; apply GraphFacts.erase_with_highestWeightNode|]
     |exact Hx|exact Hl1].
  change (candidates (with_highestWeightNode g h1) i es) with (candidates g i es) in Hrun.
  destruct (candidates g i es) as [cs|] eqn:Hcs; simpl in Hrun; [|discriminate].
  injection Hrun as <-.
  apply GraphFacts.selectHighest_erase in Hsel as [_ Hvs].
  exists x, x1, es, cs. split; [exact Hx|]. split.
  { destruct Hshape as [(-> & _)|[(-> & _)|(-> & _)]]; auto. }
  split.
  { intros Hsc. destruct Hshape as [(_ & _ & Hc & _)|[(_ & _ & Hc & _)|(-> & _)]];
      [congruence..|done]. }
  split; [exact Hes|]. split; [exact Hcs|]. split; [exact Hvs|].
  intros Hsc.
  destruct Hshape as [(-> & _ & _ & -> & ->)|[(-> & _ & _ & -> & -> & Hstart)
                     |(_ & _ & Hc & _)]]; [| |congruence].
  - split; [done|]. by left.
  - split; [done|]. right. done.
Qed.

Lemma candidate_Some (g : t) (i e : nat) (w : Z) :
  candidate g i e = Some (Some w) →
  ∃ ed x ev s,
    edgeHeap g !! e = Some ed ∧ vertices g !! i = Some x
    ∧ vertices g !! Edge.end_ ed = Some ev ∧ Vertex.label ev = Vertex.label x
    ∧ vertices g !! Edge.start ed = Some s
    ∧ w = Vertex.weight s + Edge.weight ed
    ∧ (isStartConstrained g = true → Vertex.weight s ≠ INT_MIN).
Proof.
  unfold candidate. intros H.
  destruct (edgeHeap g !! e) as [ed|] eqn:Hed; simpl in H; [|discriminate].
  destruct (vertices g !! i) as [x|] eqn:Hx; simpl in H; [|discriminate].
  destruct (vertices g !! Edge.end_ ed) as [ev|] eqn:Hev; simpl in H; [|discriminate].
  case_bool_decide as Hl; [|discriminate].
  destruct (vertices g !! Edge.start ed) as [s|] eqn:Hs; simpl in H; [|discriminate].
  destruct (isStartConstrained g) eqn:Hsc; simpl in H.
  - case_bool_decide as Hw; [discriminate|]. injection H as <-.
    exists ed, x, ev, s. do 6 (split; [done|]). intros _. exact Hw.
  - injection H as <-. exists ed, x, ev, s. do 6 (split; [done|]). discriminate.
Qed.

Lemma candidate_of_edge (g : t) (i e : nat) (ed : Edge.t) (x s : Vertex.t) :
  edgeHeap g !! e = Some ed → Edge.end_ ed = i →
  vertices g !! i = Some x → vertices g !! Edge.start ed = Some s →
  isStartConstrained g = false →
  candidate g i e = Some (Some (Vertex.weight s + Edge.weight ed)).
Proof.
  intros He Hend Hx Hs Hsc. unfold candidate.
  rewrite He. simpl. rewrite Hx. simpl. rewrite Hend, Hx. simpl.
  rewrite bool_decide_eq_true_2 by done. rewrite Hs. simpl. by rewrite Hsc.
Qed.

(** In a graph whose labels are distinct, two vertices with the same label
    are the same vertex. *)
Lemma same_label (g : t) (p q : nat) (x y : Vertex.t) :
  NoDup (labels g) → vertices g !! p = Some x → vertices g !! q = Some y →
  Vertex.label x = Vertex.label y → p = q.
Proof.
  intros Hnd Hp Hq Hl. apply (NoDup_lookup _ _ _ (Vertex.label x) Hnd).
  - by apply GraphFacts.labels_lookup.
  - rewrite Hl. by apply GraphFacts.labels_lookup.
Qed.

(** *** The best incoming edges *)

Lemma tracked_mono (i j : nat) (g : t) : (i ≤ j)%nat → tracked i g → tracked j g.
Proof.
  intros Hij Ht q v n Hq Hn. destruct (Ht q v n Hq Hn) as [Hlt H].
  split; [lia|exact H].
Qed.

Lemma tracked_step (i : nat) (g g' : t) (sf sf' brk : bool) :
  visit i (g, sf) = Some ((g', sf'), brk) →
  topological g → tracked i g → tracked (S i) g'.
Proof.
  intros Hv Ht Htr.
  destruct (visit_result _ _ _ _ _ _ Hv Ht) as (He & [(_ & -> & _)
         |(x & x1 & es & cs & Hx & Hx1 & _ & Hes & Hcs & Hvs & _)]).
  { apply (tracked_mono i); [lia|exact Htr]. }
  destruct (GraphFacts.erase_fields _ _ He) as (_ & Hheap & _).
  pose proof (lookup_lt_Some _ _ _ Hx) as Hi.
  intros q v n Hq Hn. rewrite Hvs in Hq. rewrite Hheap, Hvs.
  destruct (decide (q = i)) as [->|Hne].
  - rewrite list_lookup_insert_eq in Hq by done. injection Hq as <-.
    split; [lia|].
    destruct (offers_choice x1 cs) as [Heq|(e & w & Hin & Hw & Hedge)].
    + rewrite Heq in Hn.
      assert (Hxn : Vertex.edgeForHWPath x = Some n)
        by (destruct Hx1 as [->| ->]; exact Hn).
      destruct (Htr i x n Hx Hxn) as [Hlt _]. lia.
    + rewrite Hedge in Hn. injection Hn as <-.
      apply candidates_inv in Hcs.
      apply list_elem_of_lookup in Hin as [k Hk].
      destruct (Forall2_lookup_r _ _ _ _ _ Hcs Hk) as (e' & _ & He' & Hc).
      simpl in He', Hc. subst e'.
      apply candidate_Some in Hc as (ed & x' & ev & s & Hed & Hx' & Hev & Hl & Hs & -> & _).
      rewrite Hx in Hx'. injection Hx' as <-.
      destruct Ht as [Hnd Hord].
      assert (Hend : Edge.end_ ed = i) by (by eapply same_label).
      assert (Hlt : (Edge.start ed < Edge.end_ ed)%nat).
      { rewrite Forall_forall in Hord. apply Hord. by eapply list_elem_of_lookup_2. }
      exists ed, s. split; [exact Hed|]. split; [exact Hend|].
      split; [lia|]. split; [|exact Hw].
      rewrite list_lookup_insert_ne by lia. exact Hs.
  - rewrite list_lookup_insert_ne in Hq by done.
    destruct (Htr q v n Hq Hn) as (Hlt & e & s & Hed & Hend & Hst & Hs & Hw).
    split; [lia|]. exists e, s. split; [exact Hed|]. split; [exact Hend|].
    split; [exact Hst|]. split; [|exact Hw].
    rewrite list_lookup_insert_ne by lia. exact Hs.
Qed.

(** The visit of the vertex at [i] keeps the best vertex or makes it the
    vertex at [i]. *)
Lemma visit_highest (i : nat) (g g' : t) (sf sf' brk : bool) :
  visit i (g, sf) = Some ((g', sf'), brk) →
  highestWeightNode g' = highestWeightNode g ∨ highestWeightNode g' = Some i.
Proof.
  intros Hv.
  destruct (GraphFacts.visit_inv _ _ _ _ _ _ Hv) as [(_ & -> & _)
         |(x & g1 & es & g2 & Hx & Hst & _ & Hrun & Hsel)]; [by left|].
  destruct (RerunFacts.started_shape _ _ _ _ _ _ Hx Hst) as (x1 & h1 & -> & Hshape).
  destruct (GraphFacts.relax_frame _ _ _ _ x1 Hrun) as (x2 & -> & _).
  { simpl. apply list_lookup_insert_eq. by eapply lookup_lt_Some. }
  apply RerunFacts.selectHighest_result in Hsel as [_ [Hsame|Hnew]]; [|by right].
  rewrite Hsame. simpl.
  destruct Hshape as [(_ & -> & _)|[(_ & -> & _)|(_ & -> & _)]]; auto.
Qed.

(** What a run from a graph with no best edge leaves: the best incoming
    edges are tracked, the best vertex is a vertex that was visited and,
    with no start constraint, a visited vertex with no best incoming edge
    weighs 0. *)
Lemma run_tracked (g g' : t) :
  findHighestWeightPath g = Some g' →
  topological g → tracked 0 g → highestWeightNode g = None →
  erase g' = erase g
  ∧ ∃ n, (n ≤ length (vertices g'))%nat ∧ tracked n g'
    ∧ (∀ h, highestWeightNode g' = Some h → (h < n)%nat)
    ∧ (isStartConstrained g = false →
       ∀ q v, (q < n)%nat → vertices g' !! q = Some v →
              Vertex.edgeForHWPath v = None → Vertex.weight v = 0).
Proof.
  unfold findHighestWeightPath. intros Hrun Ht Htr Hnone.
  destruct (forEachBreak _ _ _) as [[g1 sf1]|] eqn:Hloop; simpl in Hrun; [|discriminate].
  injection Hrun as <-.
  pose (P := λ (j : nat) (st : t * bool),
    erase (fst st) = erase g ∧ (j ≤ length (vertices g))%nat
    ∧ tracked j (fst st)
    ∧ (∀ h, highestWeightNode (fst st) = Some h → (h < j)%nat)
    ∧ (isStartConstrained g = false →
       ∀ q v, (q < j)%nat → vertices (fst st) !! q = Some v →
              Vertex.edgeForHWPath v = None → Vertex.weight v = 0)).
  assert (Hstep : ∀ j st st' brk, visit j st = Some (st', brk) → P j st → P (S j) st').
  { intros j [s sf] [s' sf'] brk Hv (He & Hj & Htr' & Hh & Hz). unfold P.
    cbn [fst snd] in *.
    assert (Hts : topological s)
      by (eapply RerunFacts.topological_erase; [symmetry; exact He|exact Ht]).
    destruct (visit_result _ _ _ _ _ _ Hv Hts) as (He' & Hres).
    pose proof (RerunFacts.visit_position _ _ _ _ _ _ Hv) as Hpos.
    rewrite (GraphFacts.erase_length _ _ He) in Hpos.
    split; [by rewrite He'|]. split; [lia|].
    split; [by eapply tracked_step|].
    split.
    { intros h Hh'. destruct (visit_highest _ _ _ _ _ _ Hv) as [Hsame|Hnew].
      - rewrite Hsame in Hh'. specialize (Hh h Hh'). lia.
      - rewrite Hnew in Hh'. injection Hh' as <-. lia. }
    intros Hsc q v Hq Hqv Hedge.
    pose proof (GraphFacts.erase_isStartConstrained _ _ He) as Hsc'.
    rewrite Hsc in Hsc'.
    destruct Hres as [((Hc & _) & _)|(x & x1 & es & cs & Hx & _ & Hx1 & _ & _ & Hvs & _)];
      [congruence|].
    rewrite Hvs in Hqv. destruct (decide (q = j)) as [->|Hne].
    - rewrite list_lookup_insert_eq in Hqv by by eapply lookup_lt_Some.
      injection Hqv as <-. rewrite (Hx1 Hsc') in *.
      destruct (offers_choice (resetWeight x 0) cs) as [Heq|(e & w & _ & _ & Hsome)].
      + by rewrite Heq.
      + congruence.
    - rewrite list_lookup_insert_ne in Hqv by done.
      apply (Hz Hsc q v); [lia|done..]. }
  destruct (GraphFacts.forEachBreak_invariant P (λ st, ∃ j, P j st) visit _ _ _ _
              (λ j st st', Hstep j st st' false)
              (λ j st st' Hv Hp, ex_intro _ (S j) (Hstep j st st' true Hv Hp))
              Hloop) as [(j & He & Hj & Htr' & Hh & Hz)|(He & Hj & Htr' & Hh & Hz)].
  - unfold P. cbn [fst]. split; [done|]. split; [lia|]. split; [exact Htr|].
    split; [|intros _ q v Hq; lia]. intros h. rewrite Hnone. done.
  - cbn [fst] in *. split; [exact He|]. exists j.
    rewrite (GraphFacts.erase_length _ _ He). done.
  - cbn [fst] in *. split; [exact He|]. exists (0 + length (vertices g))%nat.
    rewrite (GraphFacts.erase_length _ _ He). done.
Qed.

(** *** The walk back from the best vertex *)

Lemma append_assoc (a b c : string) : (a +:+ b) +:+ c = a +:+ (b +:+ c).
Proof.
  induction a as [|x a IH]; [reflexivity|].
  change (String x ((a +:+ b) +:+ c) = String x (a +:+ (b +:+ c))).
  f_equal. exact IH.
Qed.

Lemma append_nil_r (a : string) : a +:+ EmptyString = a.
Proof.
  induction a as [|x a IH]; [reflexivity|].
  change (String x (a +:+ EmptyString) = String x a). by rewrite IH.
Qed.

Lemma walkPath_walkEdges (fuel : nat) (g : t) (aNode : nat) (ss : string) :
  walkPath fuel g aNode ss
  = r ← walkEdges fuel g aNode; Some (ss +:+ written (fst r)).
Proof.
  revert aNode ss. induction fuel as [|fuel IH]; intros aNode ss; [reflexivity|].
  cbn [walkPath walkEdges].
  destruct (vertices g !! aNode) as [v|]; simpl; [|reflexivity].
  destruct (Vertex.edgeForHWPath v) as [edge|]; simpl.
  - destruct (edgeHeap g !! edge) as [anEdge|]; simpl; [|reflexivity].
    rewrite IH. destruct (walkEdges fuel g (Edge.start anEdge)) as [[es root]|]; simpl;
      [|reflexivity].
    by rewrite !append_assoc.
  - by rewrite append_nil_r.
Qed.

Lemma walkStart_walkEdges (fuel : nat) (g : t) (aNode : nat) :
  walkStart fuel g aNode
  = r ← walkEdges fuel g aNode; v ← vertices g !! snd r; Some (Vertex.label v).
Proof.
  revert aNode. induction fuel as [|fuel IH]; intros aNode; [reflexivity|].
  cbn [walkStart walkEdges].
  destruct (vertices g !! aNode) as [v|] eqn:Hv; simpl; [|reflexivity].
  destruct (Vertex.edgeForHWPath v) as [edge|]; simpl.
  - destruct (edgeHeap g !! edge) as [anEdge|]; simpl; [|reflexivity].
    rewrite IH. by destruct (walkEdges fuel g (Edge.start anEdge)) as [[es root]|].
  - by rewrite Hv.
Qed.

Lemma chain_app (p q : nat) (es1 es2 : list Edge.t) :
  chain p (es1 ++ es2) q ↔ ∃ m, chain p es1 m ∧ chain m es2 q.
Proof.
  revert p. induction es1 as [|e es1 IH]; intros p; simpl.
  - split; [intros H; by exists p|]. by intros (m & -> & H).
  - rewrite IH. split.
    + intros (Hs & m & H1 & H2). exists m. done.
    + intros (m & (Hs & H1) & H2). split; [done|]. by exists m.
Qed.

Lemma weightOf_app (es1 es2 : list Edge.t) :
  weightOf (es1 ++ es2) = weightOf es1 + weightOf es2.
Proof.
  unfold weightOf. induction es1 as [|e es1 IH]; simpl; [reflexivity|].
  rewrite IH. lia.
Qed.

(** Where the best incoming edges are tracked, the walk from a vertex
    ends, within as many steps as there are vertices before it; the edges
    it follows lead from the vertex it stops at, which has no best incoming
    edge, to the vertex it left from, and the weights add up. *)
Lemma walk_tracked (n : nat) (g : t) :
  tracked n g →
  ∀ h fuel hv, (h < fuel)%nat → vertices g !! h = Some hv →
    ∃ es root rv,
      walkEdges fuel g h = Some (es, root)
      ∧ vertices g !! root = Some rv ∧ Vertex.edgeForHWPath rv = None
      ∧ (root ≤ h)%nat
      ∧ chain root (rev es) h
      ∧ Forall (λ e, e ∈ edgeHeap g) es
      ∧ Vertex.weight hv = Vertex.weight rv + weightOf es.
Proof.
  intros Htr h. induction h as [h IH] using lt_wf_ind.
  intros [|fuel] hv Hf Hh; [lia|]. cbn [walkEdges]. rewrite Hh. simpl.
  destruct (Vertex.edgeForHWPath hv) as [edge|] eqn:Hedge.
  - destruct (Htr h hv edge Hh Hedge) as (_ & e & s & He & Hend & Hlt & Hs & Hw).
    rewrite He. simpl.
    destruct (IH (Edge.start e) Hlt fuel s ltac:(lia) Hs)
      as (es & root & rv & -> & Hroot & Hnone & Hle & Hchain & Hin & Hsum).
    simpl. exists (e :: es), root, rv. split; [reflexivity|].
    split; [exact Hroot|]. split; [exact Hnone|]. split; [lia|].
    split.
    { simpl. apply chain_app. exists (Edge.start e). split; [exact Hchain|].
      simpl. done. }
    split.
    { constructor; [by eapply list_elem_of_lookup_2|exact Hin]. }
    unfold weightOf in *. simpl. lia.
  - exists [], h, hv. split; [reflexivity|]. split; [exact Hh|].
    split; [exact Hedge|]. split; [lia|]. split; [reflexivity|].
    split; [constructor|]. unfold weightOf. simpl. lia.
Qed.

(** A loaded graph has no best incoming edge. *)
Lemma loaded_tracked (atof : string → Z) (lines : list (list string)) (g : t) :
  buildGraph atof lines = Some g → tracked 0 g.
Proof.
  intros Hb q v n Hq Hn.
  rewrite (LoaderFacts.loaded_vertices atof lines g Hb) in Hq.
  apply list_lookup_fmap_Some in Hq as (l & -> & _). discriminate Hn.
Qed.

(** The report of a run on a loaded graph in topological order. *)
Lemma run_report (atof : string → Z) (lines : list (list string)) (g g' : t)
    (h : nat) (hv : Vertex.t) (fuel : nat) :
  buildGraph atof lines = Some g →
  NoDup (labels g) →
  Forall (λ e, (Edge.start e < Edge.end_ e)%nat) (edgeHeap g) →
  findHighestWeightPath g = Some g' →
  highestWeightNode g' = Some h → vertices g' !! h = Some hv →
  (length (vertices g') ≤ fuel)%nat →
  ∃ es root rv,
    walkEdges fuel g' h = Some (es, root)
    ∧ vertices g' !! root = Some rv ∧ Vertex.edgeForHWPath rv = None
    ∧ chain root (rev es) h
    ∧ Forall (λ e, e ∈ edgeHeap g) es
    ∧ Vertex.weight hv = Vertex.weight rv + weightOf es
    ∧ (startNode g = None → Vertex.weight rv = 0)
    ∧ resultString fuel g'
      = Some {| edge_weights := edgeWeights g;
                edge_histogram := edgeFrequencies g;
                pathInfo := PathFound (Vertex.weight hv) (Vertex.label rv)
                              (Vertex.label hv) (reverseString (written es)) |}.
Proof.
  intros Hb Hnd Hord Hrun Hh Hhv Hfuel.
  destruct (GraphFacts.buildGraph_wellFormed atof lines g Hb) as [_ Hnone].
  destruct (run_tracked g g' Hrun (conj Hnd Hord) (loaded_tracked atof lines g Hb) Hnone)
    as (He & n & Hn & Htr & Hbest & Hzero).
  pose proof (lookup_lt_Some _ _ _ Hhv) as Hlt.
  destruct (walk_tracked n g' Htr h fuel hv ltac:(lia) Hhv)
    as (es & root & rv & Hwalk & Hroot & Hnone' & Hle & Hchain & Hin & Hsum).
  destruct (GraphFacts.erase_fields _ _ He) as (_ & Hheap & _).
  exists es, root, rv. split; [exact Hwalk|]. split; [exact Hroot|].
  split; [exact Hnone'|]. split; [exact Hchain|].
  split; [by rewrite <- Hheap|]. split; [exact Hsum|].
  split.
  { intros Hs. apply (Hzero ltac:(by apply GraphFacts.isStartConstrained_false) root rv);
      [|done..]. specialize (Hbest h Hh). lia. }
  unfold resultString, getPathStartNodeLabel, getPath. rewrite Hh, Hhv. simpl.
  rewrite walkStart_walkEdges, walkPath_walkEdges, Hwalk. simpl.
  rewrite Hroot. simpl.
  assert (Hw : edgeWeights g' = edgeWeights g ∧ edgeFrequencies g' = edgeFrequencies g).
  { pose proof (f_equal edgeWeights He) as H1.
    pose proof (f_equal edgeFrequencies He) as H2. done. }
  destruct Hw as [-> ->]. reflexivity.
Qed.

(** *** The best path, with no constraint *)

Lemma elem_of_incident (p n : nat) (heap : list Edge.t) (e : Edge.t) :
  heap !! n = Some e → Edge.end_ e = p → n ∈ incident p heap.
Proof.
  induction heap as [|e' heap IH] using rev_ind; [done|].
  intros Hn Hend. rewrite LoaderFacts.incident_snoc.
  apply lookup_app_Some in Hn as [Hn|[Hge Hn]].
  - apply elem_of_app. left. by apply IH.
  - apply list_lookup_singleton_Some in Hn as [Hn <-].
    rewrite (bool_decide_eq_true_2 (Edge.end_ e' = p)) by done.
    assert (n = length heap) as -> by lia.
    apply elem_of_app. right. apply elem_of_app. right. left.
Qed.

Lemma settled_step (i : nat) (g g' : t) (sf sf' brk : bool) :
  visit i (g, sf) = Some ((g', sf'), brk) →
  topological g → isStartConstrained g = false →
  (∀ n ed x, edgeHeap g !! n = Some ed → Edge.end_ ed = i →
             vertices g !! i = Some x →
             ∃ es, edges g !! Vertex.label x = Some es ∧ n ∈ es) →
  settled i g → settled (S i) g'.
Proof.
  intros Hv Ht Hsc Hadj Hset.
  destruct (visit_result _ _ _ _ _ _ Hv Ht) as (He & [((Hc & _) & _)
         |(x & x1 & es & cs & Hx & _ & Hx1 & Hes & Hcs & Hvs & _)]); [congruence|].
  specialize (Hx1 Hsc). subst x1.
  destruct (GraphFacts.erase_fields _ _ He) as (_ & Hheap & _).
  pose proof (lookup_lt_Some _ _ _ Hx) as Hi.
  destruct Ht as [Hnd Hord]. rewrite Forall_forall in Hord.
  intros q v Hq Hqv. rewrite Hvs in Hqv. rewrite Hheap, Hvs.
  destruct (decide (q = i)) as [->|Hne].
  - rewrite list_lookup_insert_eq in Hqv by done. injection Hqv as <-.
    split; [apply (GraphFacts.offers_weight (resetWeight x 0) cs)|].
    split.
    { intros Hnone.
      destruct (offers_choice (resetWeight x 0) cs) as [Heq|(e & w & _ & _ & Hsome)];
        [by rewrite Heq|congruence]. }
    intros e s Hin Hend Hs.
    pose proof (Hord e Hin) as Hlt.
    rewrite list_lookup_insert_ne in Hs by lia.
    apply list_elem_of_lookup in Hin as [n Hn].
    destruct (Hadj n e x Hn Hend Hx) as (es' & Hes' & Hnes).
    rewrite Hes in Hes'. injection Hes' as <-.
    apply candidates_inv in Hcs.
    apply list_elem_of_lookup in Hnes as [k Hk].
    destruct (Forall2_lookup_l _ _ _ _ _ Hcs Hk) as ([n' c] & Hck & Hn' & Hc).
    simpl in Hn', Hc. subst n'.
    rewrite (candidate_of_edge g i n e x s Hn Hend Hx Hs Hsc) in Hc.
    injection Hc as <-.
    apply (RerunFacts.offers_bound _ cs n). by eapply list_elem_of_lookup_2.
  - rewrite list_lookup_insert_ne in Hqv by done.
    destruct (Hset q v ltac:(lia) Hqv) as (H0 & Hnone & Hup).
    split; [exact H0|]. split; [exact Hnone|].
    intros e s Hin Hend Hs. pose proof (Hord e Hin) as Hlt.
    rewrite list_lookup_insert_ne in Hs by lia. by apply Hup.
Qed.

Lemma run_settled (g g' : t) (sf1 : bool) :
  forEachBreak (seq 0 (length (vertices g))) visit (g, false) = Some (g', sf1) →
  topological g → isStartConstrained g = false → isEndConstrained g = false →
  (∀ p v, vertices g !! p = Some v →
          edges g !! Vertex.label v = Some (incident p (edgeHeap g))) →
  settled (length (vertices g')) g'.
Proof.
  intros Hloop Ht Hsc Hec Hadj.
  pose (P := λ (j : nat) (st : t * bool),
    erase (fst st) = erase g ∧ settled j (fst st)).
  assert (Hstep : ∀ j st st' brk, visit j st = Some (st', brk) → P j st →
            brk = false ∧ P (S j) st').
  { intros j [s sf] [s' sf'] brk Hv (He & Hset). unfold P. cbn [fst snd] in *.
    assert (Hts : topological s)
      by (eapply RerunFacts.topological_erase; [symmetry; exact He|exact Ht]).
    pose proof (GraphFacts.erase_isStartConstrained _ _ He) as Hsc'.
    rewrite Hsc in Hsc'.
    pose proof (GraphFacts.erase_isEndConstrained _ _ He) as Hec'.
    rewrite Hec in Hec'.
    destruct (GraphFacts.visit_frame _ _ _ _ _ _ Hv) as (He' & _).
    split.
    { destruct (GraphFacts.visit_inv _ _ _ _ _ _ Hv) as [(_ & _ & _ & ->)
             |(x & g1 & es & g2 & Hx & Hst & _ & Hrun & Hsel)]; [done|].
      eapply RerunFacts.selectHighest_no_break; [exact Hsel|].
      apply GraphFacts.selectHighest_erase in Hsel as [Hes _].
      rewrite <- Hec'. rewrite <- (GraphFacts.erase_isEndConstrained _ _ He').
      symmetry. by apply GraphFacts.erase_isEndConstrained. }
    split; [by rewrite He'|].
    eapply settled_step; [exact Hv|exact Hts|exact Hsc'| |exact Hset].
    intros n ed x Hn Hend Hx.
    destruct (GraphFacts.erase_fields _ _ He) as (Hedges & Hheap & _).
    destruct (RerunFacts.lookup_erase _ _ _ _ He Hx) as (x0 & Hx0 & Hl).
    exists (incident j (edgeHeap g)). rewrite Hedges, <- Hl.
    split; [by apply Hadj|].
    rewrite Hheap in Hn. by eapply elem_of_incident. }
  destruct (GraphFacts.forEachBreak_invariant P (λ _, False) visit _ _ _ _
              (λ j st st' Hv Hp, proj2 (Hstep j st st' false Hv Hp))
              (λ j st st' Hv Hp, ltac:(by destruct (Hstep j st st' true Hv Hp)))
              Hloop) as [[]|(He & Hset)].
  - unfold P. cbn [fst]. split; [done|]. intros q v Hq. lia.
  - cbn [fst] in *. by rewrite (GraphFacts.erase_length _ _ He).
Qed.

(** Along a path, the weights of the settled vertices grow at least by the
    weights of the edges. *)
Lemma chain_bound (g : t) :
  wellFormed g → settled (length (vertices g)) g →
  ∀ es p q pv, chain p es q → Forall (λ e, e ∈ edgeHeap g) es →
    vertices g !! p = Some pv →
    ∃ qv, vertices g !! q = Some qv
          ∧ Vertex.weight pv + weightOf es ≤ Vertex.weight qv.
Proof.
  intros W Hset es. induction es as [|e es IH]; intros p q pv Hch Hin Hp.
  - simpl in Hch. subst q. exists pv. split; [done|]. unfold weightOf. simpl. lia.
  - destruct Hch as [Hs Hch]. apply Forall_cons in Hin as [He Hin].
    destruct (wf_heap g W e He) as [_ Hend].
    destruct (lookup_lt_is_Some_2 _ _ Hend) as [ev Hev].
    destruct (Hset (Edge.end_ e) ev Hend Hev) as (_ & _ & Hup).
    rewrite <- Hs in Hp. specialize (Hup e pv He eq_refl Hp).
    destruct (IH (Edge.end_ e) q ev Hch Hin Hev) as (qv & Hq & Hle).
    exists qv. split; [exact Hq|]. unfold weightOf in *. simpl. lia.
Qed.

(** *** The range of the weights *)

Lemma weightBound_nonneg (g : t) : 0 ≤ weightBound g.
Proof. unfold weightBound. induction (edgeHeap g) as [|e l IH]; simpl; lia. Qed.

Lemma weightBound_elem (g : t) (e : Edge.t) :
  e ∈ edgeHeap g → Z.abs (Edge.weight e) ≤ weightBound g.
Proof.
  unfold weightBound. induction (edgeHeap g) as [|e' l IH]; intros Hin.
  - by apply elem_of_nil in Hin.
  - apply elem_of_cons in Hin as [->|Hin]; simpl; [lia|]. specialize (IH Hin). lia.
Qed.

Lemma offers_range (x : Vertex.t) (cs : list (nat * option Z)) (m : Z) :
  Z.abs (Vertex.weight x) ≤ m →
  (∀ e w, (e, Some w) ∈ cs → Z.abs w ≤ m) →
  Z.abs (Vertex.weight (offers x cs)) ≤ m.
Proof.
  intros Hx Hcs. destruct (offers_choice x cs) as [->|(e & w & Hin & -> & _)];
    [exact Hx|by eapply Hcs].
Qed.

(** The visit of a vertex keeps the weights in range: the weight it gives
    to the vertex is 0 or the weight of an earlier vertex plus the weight of
    an edge. *)
Lemma ranged_step (b : Z) (i : nat) (g g' : t) (sf sf' brk : bool) :
  visit i (g, sf) = Some ((g', sf'), brk) →
  topological g →
  0 ≤ b → (∀ e, e ∈ edgeHeap g → Z.abs (Edge.weight e) ≤ b) →
  ranged b g → ranged b g'.
Proof.
  intros Hv Ht H0 Hb Hr.
  destruct (visit_result _ _ _ _ _ _ Hv Ht) as (_ & [(_ & -> & _)
         |(x & x1 & es & cs & Hx & Hx1 & _ & _ & Hcs & Hvs & _)]); [exact Hr|].
  pose proof (lookup_lt_Some _ _ _ Hx) as Hi.
  intros q v Hq. rewrite Hvs in Hq.
  destruct (decide (q = i)) as [->|Hne].
  2:{ rewrite list_lookup_insert_ne in Hq by done. by apply Hr. }
  rewrite list_lookup_insert_eq in Hq by done. injection Hq as <-.
  apply offers_range.
  - destruct Hx1 as [->| ->]; [by apply Hr|]. simpl. nia.
  - intros e w Hin. apply candidates_inv in Hcs.
    apply list_elem_of_lookup in Hin as [k Hk].
    destruct (Forall2_lookup_r _ _ _ _ _ Hcs Hk) as (e' & _ & He' & Hc).
    simpl in He', Hc. subst e'.
    apply candidate_Some in Hc as (ed & x' & ev & s & Hed & Hx' & Hev & Hl & Hs & -> & _).
    rewrite Hx in Hx'. injection Hx' as <-.
    destruct Ht as [Hnd Hord].
    assert (Hend : Edge.end_ ed = i) by (by eapply same_label).
    assert (Hin : ed ∈ edgeHeap g) by (by eapply list_elem_of_lookup_2).
    assert (Hlt : (Edge.start ed < Edge.end_ ed)%nat).
    { rewrite Forall_forall in Hord. by apply Hord. }
    specialize (Hr _ _ Hs). specialize (Hb _ Hin). nia.
Qed.

(** A search keeps the weights in range. *)
Lemma run_ranged (b : Z) (g g' : t) :
  findHighestWeightPath g = Some g' →
  topological g →
  0 ≤ b → (∀ e, e ∈ edgeHeap g → Z.abs (Edge.weight e) ≤ b) →
  ranged b g → ranged b g'.
Proof.
  unfold findHighestWeightPath. intros Hrun Ht H0 Hb Hr.
  destruct (forEachBreak _ _ _) as [[g1 sf1]|] eqn:Hloop; simpl in Hrun; [|discriminate].
  injection Hrun as <-.
  pose (P := λ (j : nat) (st : t * bool),
    erase (fst st) = erase g ∧ ranged b (fst st)).
  assert (Hstep : ∀ j st st' brk, visit j st = Some (st', brk) → P j st → P (S j) st').
  { intros j [s sf] [s' sf'] brk Hv (He & Hs). unfold P. cbn [fst snd] in *.
    destruct (GraphFacts.visit_frame _ _ _ _ _ _ Hv) as (He' & _).
    split; [by rewrite He'|].
    destruct (GraphFacts.erase_fields _ _ He) as (_ & Hheap & _).
    eapply ranged_step; [exact Hv| |exact H0| |exact Hs].
    - eapply RerunFacts.topological_erase; [symmetry; exact He|exact Ht].
    - rewrite Hheap. exact Hb. }
  destruct (GraphFacts.forEachBreak_invariant P (λ st, ∃ j, P j st) visit _ _ _ _
              (λ j st st', Hstep j st st' false)
              (λ j st st' Hv Hp, ex_intro _ (S j) (Hstep j st st' true Hv Hp))
              Hloop) as [(j & _ & H)|(_ & H)]; [by split|exact H..].
Qed.

(** In a loaded graph every vertex weighs [INT_MIN]. *)
Lemma loaded_ranged (atof : string → Z) (lines : list (list string)) (g : t) (b : Z) :
  buildGraph atof lines = Some g → 0 ≤ b → ranged b g.
Proof.
  intros Hb H0 q v Hq.
  rewrite (LoaderFacts.loaded_vertices atof lines g Hb) in Hq.
  apply list_lookup_fmap_Some in Hq as (l & -> & _). simpl. unfold INT_MIN. nia.
Qed.

(** Where the sums are exact, every weight a search leaves and every sum
    it formed lies between [-2^53] and [2^53]. *)
Lemma run_exact (atof : string → Z) (lines : list (list string)) (g g' : t) :
  buildGraph atof lines = Some g →
  topological g → exactSums g →
  findHighestWeightPath g = Some g' →
  (∀ q v, vertices g' !! q = Some v → Z.abs (Vertex.weight v) ≤ 2 ^ 53)
  ∧ (∀ e s, e ∈ edgeHeap g → vertices g' !! Edge.start e = Some s →
            Z.abs (Vertex.weight s + Edge.weight e) ≤ 2 ^ 53).
Proof.
  intros Hb Ht Hex Hrun.
  pose proof (weightBound_nonneg g) as H0.
  pose proof (run_ranged (weightBound g) g g' Hrun Ht H0 (weightBound_elem g)
                (loaded_ranged atof lines g _ Hb H0)) as Hr.
  destruct (GraphFacts.buildGraph_wellFormed atof lines g Hb) as [W Hnone].
  destruct (GraphFacts.findHighestWeightPath_defined g W
              (GraphFacts.highestValid_None g Hnone)) as (g'' & Hrun' & _).
  rewrite Hrun in Hrun'. injection Hrun' as <-.
  assert (Hlen : length (vertices g') = length (vertices g)).
  { unfold findHighestWeightPath in Hrun.
    destruct (forEachBreak _ _ _) as [[g1 sf1]|] eqn:Hloop; simpl in Hrun; [|discriminate].
    injection Hrun as ->.
    destruct (RerunFacts.loop_frame _ _ _ _ _ _ Hloop) as [He _].
    exact (GraphFacts.erase_length _ _ He). }
  unfold exactSums in Hex. split.
  - intros q v Hq. pose proof (lookup_lt_Some _ _ _ Hq) as Hlt.
    specialize (Hr q v Hq). nia.
  - intros e s Hin Hs. pose proof (lookup_lt_Some _ _ _ Hs) as Hlt.
    specialize (Hr _ _ Hs). pose proof (weightBound_elem g e Hin). nia.
Qed.

Lemma weightOf_range (b : Z) (es : list Edge.t) :
  Forall (λ e, Z.abs (Edge.weight e) ≤ b) es →
  Z.abs (weightOf es) ≤ b * Z.of_nat (length es).
Proof.
  unfold weightOf. induction es as [|e es IH]; intros Hf; simpl; [lia|].
  apply Forall_cons in Hf as [He Hf]. specialize (IH Hf). simpl in IH. lia.
Qed.

Lemma chain_steps (n p q : nat) (es : list Edge.t) :
  chain p es q →
  Forall (λ e, (Edge.start e < Edge.end_ e)%nat ∧ (Edge.end_ e < n)%nat) es →
  (p ≤ n)%nat → (p + length es ≤ n)%nat.
Proof.
  revert p. induction es as [|e es IH]; intros p Hch Hf Hp; simpl in *; [lia|].
  destruct Hch as [Hs Hch]. apply Forall_cons in Hf as [[He Hn] Hf].
  specialize (IH _ Hch Hf). lia.
Qed.

(** Where the sums are exact, the weight of every path of the graph lies
    between [-2^53] and [2^53]. *)
Lemma chain_exact (g : t) (p q : nat) (es : list Edge.t) :
  wellFormed g → Forall (λ e, (Edge.start e < Edge.end_ e)%nat) (edgeHeap g) →
  exactSums g →
  chain p es q → Forall (λ e, e ∈ edgeHeap g) es →
  Z.abs (weightOf es) ≤ 2 ^ 53.
Proof.
  intros W Hord Hex Hch Hin.
  pose proof (weightBound_nonneg g) as H0.
  assert (Hb : Forall (λ e, Z.abs (Edge.weight e) ≤ weightBound g) es).
  { eapply Forall_impl; [exact Hin|]. intros e. apply weightBound_elem. }
  pose proof (weightOf_range _ _ Hb) as Hw.
  assert (Hlen : (length es ≤ length (vertices g))%nat).
  { destruct es as [|e es']; [simpl; lia|].
    assert (Hf : Forall (λ e, (Edge.start e < Edge.end_ e)%nat
                              ∧ (Edge.end_ e < length (vertices g))%nat) (e :: es')).
    { eapply Forall_impl; [exact Hin|]. intros e' He'. split.
      - rewrite Forall_forall in Hord. by apply Hord.
      - by destruct (wf_heap g W e' He'). }
    pose proof Hch as [Hs _]. pose proof Hf as [[He1 He2] _]%Forall_cons.
    pose proof (chain_steps _ _ _ _ Hch Hf ltac:(lia)). lia. }
  unfold exactSums in Hex. nia.
Qed.

(** *** The report *)

Lemma walkEdges_mono (fuel fuel' : nat) (g : t) (aNode : nat) (r : list Edge.t * nat) :
  walkEdges fuel g aNode = Some r → (fuel ≤ fuel')%nat →
  walkEdges fuel' g aNode = Some r.
Proof.
  revert fuel' aNode r. induction fuel as [|fuel IH]; intros fuel' aNode r H Hle;
    [discriminate|].
  destruct fuel' as [|fuel']; [lia|]. cbn [walkEdges] in *.
  destruct (vertices g !! aNode) as [v|]; simpl in *; [|discriminate].
  destruct (Vertex.edgeForHWPath v) as [edge|]; [|exact H].
  destruct (edgeHeap g !! edge) as [anEdge|]; simpl in *; [|discriminate].
  destruct (walkEdges fuel g (Edge.start anEdge)) as [r'|] eqn:Hw; simpl in H;
    [|discriminate].
  rewrite (IH fuel' _ r' Hw) by lia. exact H.
Qed.

(** X16. After a search on a loaded graph whose labels are distinct and
    whose edges all go from a vertex to a vertex listed after it, the
    report returns: the walks of [getPath] and of [getPathStartNodeLabel]
    end within as many steps as there are vertices, and follow no pointer
    that designates nothing. *)
Theorem report_returns (atof : string → Z) (lines : list (list string)) (g : t) :
  buildGraph atof lines = Some g →
  NoDup (labels g) →
  Forall (λ e, (Edge.start e < Edge.end_ e)%nat) (edgeHeap g) →
  ∃ g' r path beginning,
    findHighestWeightPath g = Some g'
    ∧ ∀ fuel, (length (vertices g) ≤ fuel)%nat →
        resultString fuel g' = Some r
        ∧ getPath fuel g' = Some path
        ∧ getPathStartNodeLabel fuel g' = Some beginning.
Proof.
  intros Hb Hnd Hord.
  destruct (GraphFacts.buildGraph_wellFormed atof lines g Hb) as [W Hnone].
  destruct (GraphFacts.findHighestWeightPath_defined g W
              (GraphFacts.highestValid_None g Hnone)) as (g' & Hrun & W' & HV').
  destruct (run_tracked g g' Hrun (conj Hnd Hord) (loaded_tracked atof lines g Hb) Hnone)
    as (He & _).
  pose proof (GraphFacts.erase_length _ _ He) as Hlen.
  exists g'. destruct (highestWeightNode g') as [h|] eqn:Hh.
  - destruct (lookup_lt_is_Some_2 _ _ (HV' h Hh)) as [hv Hhv].
    destruct (run_report atof lines g g' h hv (length (vertices g')) Hb Hnd Hord Hrun Hh Hhv
                ltac:(lia))
      as (es & root & rv & Hwalk & Hroot & _ & _ & _ & _ & _ & Hres).
    exists {| edge_weights := edgeWeights g; edge_histogram := edgeFrequencies g;
              pathInfo := PathFound (Vertex.weight hv) (Vertex.label rv)
                            (Vertex.label hv) (reverseString (written es)) |},
      (reverseString (written es)), (Vertex.label rv).
    split; [exact Hrun|]. intros fuel Hfuel.
    assert (Hwalk' : walkEdges fuel g' h = Some (es, root))
      by (eapply walkEdges_mono; [exact Hwalk|lia]).
    destruct (run_report atof lines g g' h hv fuel Hb Hnd Hord Hrun Hh Hhv ltac:(lia))
      as (es' & root' & rv' & Hwalk'' & Hroot' & _ & _ & _ & _ & _ & Hres').
    rewrite Hwalk' in Hwalk''. injection Hwalk'' as <- <-.
    rewrite Hroot in Hroot'. injection Hroot' as <-.
    split; [exact Hres'|].
    unfold getPathStartNodeLabel, getPath. rewrite Hh.
    rewrite walkStart_walkEdges, walkPath_walkEdges, Hwalk'. simpl.
    rewrite Hroot. done.
  - exists {| edge_weights := edgeWeights g'; edge_histogram := edgeFrequencies g';
              pathInfo := NoPathFound |}, EmptyString, EmptyString.
    split; [exact Hrun|]. intros fuel _.
    unfold resultString, getPathStartNodeLabel, getPath. rewrite Hh. done.
Qed.

Lemma weightOf_rev (es : list Edge.t) : weightOf (rev es) = weightOf es.
Proof.
  induction es as [|e es IH]; [reflexivity|].
  simpl. rewrite weightOf_app, IH. unfold weightOf. simpl. lia.
Qed.

(** X17. Take a file whose weights are whole numbers, small enough for the
    sums of the search to be exact ([exactSums]: [2^31] and as many times
    the largest magnitude of a weight as there are vertices do not exceed
    [2^53]). After a search on such a graph, the walk of the report follows
    edges of the graph that, read from the last to the first, form a path
    from the vertex reported as the beginning to the best vertex; the score
    is the weight of the beginning plus the weights of these edges, and it
    is the sum of the weights of these edges when there is no start
    constraint. Every weight the search leaves and every sum it formed lies
    between [-2^53] and [2^53], where the sum of two [double]s that are
    whole numbers is the exact one. *)
Theorem score_is_path_weight (atof : string → Z) (lines : list (list string))
    (g g' : t) (h : nat) (hv : Vertex.t) :
  buildGraph atof lines = Some g →
  NoDup (labels g) →
  Forall (λ e, (Edge.start e < Edge.end_ e)%nat) (edgeHeap g) →
  exactSums g →
  findHighestWeightPath g = Some g' →
  highestWeightNode g' = Some h → vertices g' !! h = Some hv →
  ∃ es root rv,
    walkEdges (length (vertices g')) g' h = Some (es, root)
    ∧ vertices g' !! root = Some rv
    ∧ chain root (rev es) h
    ∧ Forall (λ e, e ∈ edgeHeap g) es
    ∧ Vertex.weight hv = Vertex.weight rv + weightOf (rev es)
    ∧ (startNode g = None → Vertex.weight hv = weightOf (rev es))
    ∧ (∀ q v, vertices g' !! q = Some v → Z.abs (Vertex.weight v) ≤ 2 ^ 53)
    ∧ (∀ e s, e ∈ edgeHeap g → vertices g' !! Edge.start e = Some s →
              Z.abs (Vertex.weight s + Edge.weight e) ≤ 2 ^ 53)
    ∧ resultString (length (vertices g')) g'
      = Some {| edge_weights := edgeWeights g;
                edge_histogram := edgeFrequencies g;
                pathInfo := PathFound (Vertex.weight hv) (Vertex.label rv)
                              (Vertex.label hv) (reverseString (written es)) |}.
Proof.
  intros Hb Hnd Hord Hex Hrun Hh Hhv.
  destruct (run_report atof lines g g' h hv (length (vertices g')) Hb Hnd Hord Hrun Hh Hhv
              ltac:(lia))
    as (es & root & rv & Hwalk & Hroot & _ & Hchain & Hin & Hsum & Hzero & Hres).
  destruct (run_exact atof lines g g' Hb (conj Hnd Hord) Hex Hrun) as [Hr1 Hr2].
  exists es, root, rv. rewrite weightOf_rev.
  do 5 (split; [done|]). split; [|done].
  intros Hs. rewrite Hsum, (Hzero Hs). lia.
Qed.

(** With no constraint, no path of the graph weighs more than the best
    vertex. *)
Lemma optimal_score (atof : string → Z) (lines : list (list string))
    (g g' : t) (h : nat) (hv : Vertex.t) (p q : nat) (es : list Edge.t) :
  buildGraph atof lines = Some g →
  NoDup (labels g) →
  Forall (λ e, (Edge.start e < Edge.end_ e)%nat) (edgeHeap g) →
  startNode g = None → endNode g = None →
  findHighestWeightPath g = Some g' →
  highestWeightNode g' = Some h → vertices g' !! h = Some hv →
  chain p es q → Forall (λ e, e ∈ edgeHeap g) es →
  weightOf es ≤ Vertex.weight hv.
Proof.
  intros Hb Hnd Hord Hs He Hrun Hh Hhv Hch Hin.
  destruct (GraphFacts.buildGraph_wellFormed atof lines g Hb) as [W Hnone].
  destruct (GraphFacts.findHighestWeightPath_defined g W
              (GraphFacts.highestValid_None g Hnone)) as (g'' & Hrun' & W' & _).
  rewrite Hrun in Hrun'. injection Hrun' as <-.
  apply GraphFacts.isStartConstrained_false in Hs.
  apply GraphFacts.isEndConstrained_false in He.
  unfold findHighestWeightPath in Hrun.
  destruct (forEachBreak _ _ _) as [[g1 sf1]|] eqn:Hloop; simpl in Hrun; [|discriminate].
  injection Hrun as ->.
  pose proof (run_settled g g' sf1 Hloop (conj Hnd Hord) Hs He
                (LoaderFacts.loaded_edges atof lines g Hb Hnd)) as Hset.
  pose proof (RerunFacts.best_is_max g g' sf1 _ Hloop Hnone Hs He) as Hmax.
  destruct (RerunFacts.loop_frame _ _ _ _ _ _ Hloop) as [Her _].
  destruct (GraphFacts.erase_fields _ _ Her) as (_ & Hheap & _).
  rewrite <- (GraphFacts.erase_length _ _ Her) in Hmax.
  rewrite <- Hheap in Hin.
  destruct es as [|e es].
  - unfold weightOf. simpl.
    destruct (Hset h hv (lookup_lt_Some _ _ _ Hhv) Hhv) as (H0 & _). exact H0.
  - pose proof Hch as [Hstart _]. pose proof Hin as [He1 _]%Forall_cons.
    destruct (wf_heap g' W' e He1) as [Hlt _]. rewrite Hstart in Hlt.
    destruct (lookup_lt_is_Some_2 _ _ Hlt) as [pv Hp].
    destruct (chain_bound g' W' Hset _ p q pv Hch Hin Hp) as (qv & Hq & Hle).
    destruct (Hset p pv Hlt Hp) as (H0 & _).
    destruct (Hmax q) as (h' & hv' & qv' & Hh' & Hhv' & Hq' & Hw).
    { pose proof (lookup_lt_Some _ _ _ Hq). lia. }
    rewrite Hh in Hh'. injection Hh' as <-.
    rewrite Hhv in Hhv'. injection Hhv' as <-.
    rewrite Hq in Hq'. injection Hq' as <-. lia.
Qed.

(** X18. Take a file whose weights are whole numbers, small enough for the
    sums of the search to be exact ([exactSums]). With no start and no end
    constraint, the score the search ends with is the highest weight of all
    the paths of the graph: no sequence of edges of the graph, each
    starting where the one before it ends, weighs more than the best
    vertex; and the weight of each such sequence lies between [-2^53] and
    [2^53]. *)
Theorem best_path_optimal (atof : string → Z) (lines : list (list string))
    (g g' : t) (h : nat) (hv : Vertex.t) (p q : nat) (es : list Edge.t) :
  buildGraph atof lines = Some g →
  NoDup (labels g) →
  Forall (λ e, (Edge.start e < Edge.end_ e)%nat) (edgeHeap g) →
  exactSums g →
  startNode g = None → endNode g = None →
  findHighestWeightPath g = Some g' →
  highestWeightNode g' = Some h → vertices g' !! h = Some hv →
  chain p es q → Forall (λ e, e ∈ edgeHeap g) es →
  weightOf es ≤ Vertex.weight hv ∧ Z.abs (weightOf es) ≤ 2 ^ 53.
Proof.
  intros Hb Hnd Hord Hex Hs He Hrun Hh Hhv Hch Hin. split.
  - by eapply optimal_score.
  - destruct (GraphFacts.buildGraph_wellFormed atof lines g Hb) as [W _].
    by eapply chain_exact.
Qed.

(** *** The text of the path *)

Lemma list_ascii_of_string_app (a b : string) :
  String.list_ascii_of_string (a +:+ b)
  = String.list_ascii_of_string a ++ String.list_ascii_of_string b.
Proof.
  induction a as [|x a IH]; [reflexivity|].
  change (x :: String.list_ascii_of_string (a +:+ b)
          = x :: (String.list_ascii_of_string a ++ String.list_ascii_of_string b)).
  by rewrite IH.
Qed.

Lemma string_of_list_ascii_app (l k : list ascii) :
  String.string_of_list_ascii (l ++ k)
  = String.string_of_list_ascii l +:+ String.string_of_list_ascii k.
Proof.
  induction l as [|x l IH]; [reflexivity|].
  change (String x (String.string_of_list_ascii (l ++ k))
          = String x (String.string_of_list_ascii l +:+ String.string_of_list_ascii k)).
  by rewrite IH.
Qed.

Lemma reverseString_app (a b : string) :
  reverseString (a +:+ b) = reverseString b +:+ reverseString a.
Proof.
  unfold reverseString.
  by rewrite list_ascii_of_string_app, rev_app_distr, string_of_list_ascii_app.
Qed.

Lemma reversedLabels_app (es1 es2 : list Edge.t) :
  reversedLabels (es1 ++ es2) = reversedLabels es1 +:+ reversedLabels es2.
Proof.
  induction es1 as [|e es1 IH]; [reflexivity|].
  cbn [app reversedLabels]. rewrite IH.
  change (String "010" (reverseString (Edge.label e)))
    with (String "010" EmptyString +:+ reverseString (Edge.label e)).
  by rewrite !append_assoc.
Qed.

Lemma reverseString_written (es : list Edge.t) :
  reverseString (written es) = reversedLabels (rev es).
Proof.
  induction es as [|e es IH]; [reflexivity|].
  cbn [written rev]. rewrite !reverseString_app, IH, reversedLabels_app.
  cbn [reversedLabels]. rewrite append_nil_r, append_assoc. reflexivity.
Qed.

(** X19. [getPath] returns, for the edges the walk follows taken from the
    last to the first, that is in the order of the path, a newline
    followed by the label of the edge read from its last character to its
    first; it returns the empty string when there is no best vertex. *)
Theorem getPath_text (fuel : nat) (g : t) :
  getPath fuel g
  = match highestWeightNode g with
    | None => Some EmptyString
    | Some h => r ← walkEdges fuel g h; Some (reversedLabels (rev (fst r)))
    end.
Proof.
  unfold getPath. destruct (highestWeightNode g) as [h|]; [|reflexivity].
  rewrite walkPath_walkEdges.
  destruct (walkEdges fuel g h) as [[es root]|]; simpl; [|reflexivity].
  f_equal. apply reverseString_written.
Qed.

(** *** Instances *)

Lemma report_returns_witness :
  ∃ g, buildGraph Samples.atofInteger Samples.constrainedPath = Some g
  ∧ ∃ g' r path beginning,
      findHighestWeightPath g = Some g'
      ∧ ∀ fuel, (length (vertices g) ≤ fuel)%nat →
          resultString fuel g' = Some r
          ∧ getPath fuel g' = Some path
          ∧ getPathStartNodeLabel fuel g' = Some beginning.
Proof.
  pose (g := default empty (buildGraph Samples.atofInteger Samples.constrainedPath)).
  assert (Hb : buildGraph Samples.atofInteger Samples.constrainedPath = Some g)
    by (vm_compute; reflexivity).
  exists g. split; [exact Hb|].
  apply (report_returns Samples.atofInteger Samples.constrainedPath g Hb).
  - vm_compute. compute_done.
  - vm_compute. repeat constructor; simpl; lia.
Defined.

Lemma score_is_path_weight_witness :
  ∃ g g' h hv,
    buildGraph Samples.atofInteger Samples.constrainedPath = Some g
    ∧ findHighestWeightPath g = Some g'
    ∧ highestWeightNode g' = Some h ∧ vertices g' !! h = Some hv
    ∧ ∃ es root rv,
        walkEdges (length (vertices g')) g' h = Some (es, root)
        ∧ vertices g' !! root = Some rv
        ∧ chain root (rev es) h
        ∧ Forall (λ e, e ∈ edgeHeap g) es
        ∧ Vertex.weight hv = Vertex.weight rv + weightOf (rev es)
        ∧ (startNode g = None → Vertex.weight hv = weightOf (rev es))
        ∧ (∀ q v, vertices g' !! q = Some v → Z.abs (Vertex.weight v) ≤ 2 ^ 53)
        ∧ (∀ e s, e ∈ edgeHeap g → vertices g' !! Edge.start e = Some s →
                  Z.abs (Vertex.weight s + Edge.weight e) ≤ 2 ^ 53)
        ∧ resultString (length (vertices g')) g'
          = Some {| edge_weights := edgeWeights g;
                    edge_histogram := edgeFrequencies g;
                    pathInfo := PathFound (Vertex.weight hv) (Vertex.label rv)
                                  (Vertex.label hv) (reverseString (written es)) |}.
Proof.
  pose (g := default empty (buildGraph Samples.atofInteger Samples.constrainedPath)).
  pose (g' := default empty (findHighestWeightPath g)).
  exists g, g', 2%nat, (Vertex.mk "c" 2 (Some 1%nat)).
  assert (Hb : buildGraph Samples.atofInteger Samples.constrainedPath = Some g)
    by (vm_compute; reflexivity).
  assert (Hrun : findHighestWeightPath g = Some g') by (vm_compute; reflexivity).
  assert (Hh : highestWeightNode g' = Some 2%nat) by (vm_compute; reflexivity).
  assert (Hhv : vertices g' !! 2%nat = Some (Vertex.mk "c" 2 (Some 1%nat)))
    by (vm_compute; reflexivity).
  do 4 (split; [assumption|]).
  apply (score_is_path_weight Samples.atofInteger Samples.constrainedPath g g' 2 _ Hb);
    [| | |exact Hrun|exact Hh|exact Hhv].
  - vm_compute. compute_done.
  - vm_compute. repeat constructor; simpl; lia.
  - vm_compute. discriminate.
Defined.

Lemma best_path_optimal_witness :
  ∃ g g' h hv,
    buildGraph Samples.atofInteger Samples.oneEdge = Some g
    ∧ findHighestWeightPath g = Some g'
    ∧ highestWeightNode g' = Some h ∧ vertices g' !! h = Some hv
    ∧ weightOf [Edge.mk "ACC" 9 0 1] ≤ Vertex.weight hv
    ∧ Z.abs (weightOf [Edge.mk "ACC" 9 0 1]) ≤ 2 ^ 53.
Proof.
  pose (g := default empty (buildGraph Samples.atofInteger Samples.oneEdge)).
  pose (g' := default empty (findHighestWeightPath g)).
  exists g, g', 1%nat, (Vertex.mk "1,1,1" 9 (Some 0%nat)).
  assert (Hb : buildGraph Samples.atofInteger Samples.oneEdge = Some g)
    by (vm_compute; reflexivity).
  assert (Hrun : findHighestWeightPath g = Some g') by (vm_compute; reflexivity).
  assert (Hh : highestWeightNode g' = Some 1%nat) by (vm_compute; reflexivity).
  assert (Hhv : vertices g' !! 1%nat = Some (Vertex.mk "1,1,1" 9 (Some 0%nat)))
    by (vm_compute; reflexivity).
  do 4 (split; [assumption|]).
  apply (best_path_optimal Samples.atofInteger Samples.oneEdge g g' 1
           (Vertex.mk "1,1,1" 9 (Some 0%nat)) 0 1 _ Hb);
    [| | |reflexivity|reflexivity|exact Hrun|exact Hh|exact Hhv| |].
  - vm_compute. compute_done.
  - vm_compute. repeat constructor; simpl; lia.
  - vm_compute. discriminate.
  - simpl. split; reflexivity.
  - vm_compute. repeat constructor.
Defined.

End PathFacts.

(** ** The path under a start constraint *)

Module StartFacts.
Import WDAGraph GraphState GraphFile Paths.






End StartFacts.

(** ** The splitting of a line *)

Module SplitFacts.
Import StringUtilities Text.

Lemma length_append (a b : string) :
  String.length (a +:+ b) = (String.length a + String.length b)%nat.
Proof.
  induction a as [|x a IH]; [reflexivity|].
  change (S (String.length (a +:+ b)) = S (String.length a + String.length b)).
  by rewrite IH.
Qed.

Lemma chars_append (a b : string) : chars (a +:+ b) = chars a ++ chars b.
Proof. apply PathFacts.list_ascii_of_string_app. Qed.

Lemma chars_String (c : ascii) (s : string) : chars (String c s) = c :: chars s.
Proof. reflexivity. Qed.

(** *** One item *)

Lemma readItem_delimited (delim : ascii) (t rest : string) :
  delim ∉ chars t → readItem delim (t +:+ String delim rest) = (t, rest).
Proof.
  induction t as [|c t IH]; intros Hfree.
  - change (readItem delim (String delim rest) = (EmptyString, rest)).
    cbn [readItem]. by rewrite bool_decide_eq_true_2.
  - change (readItem delim (String c (t +:+ String delim rest)) = (String c t, rest)).
    rewrite chars_String in Hfree. apply not_elem_of_cons in Hfree as [Hne Hfree].
    cbn [readItem]. rewrite bool_decide_eq_false_2 by congruence.
    by rewrite (IH Hfree).
Qed.

Lemma readItem_last (delim : ascii) (t : string) :
  delim ∉ chars t → readItem delim t = (t, EmptyString).
Proof.
  induction t as [|c t IH]; intros Hfree; [reflexivity|].
  rewrite chars_String in Hfree. apply not_elem_of_cons in Hfree as [Hne Hfree].
  cbn [readItem]. rewrite bool_decide_eq_false_2 by congruence.
  by rewrite (IH Hfree).
Qed.

(** What [readItem] returns: an item that holds no delimiter, and a rest
    that is shorter than the stream when the stream is not empty. *)
Lemma readItem_inv (delim : ascii) (ss item rest : string) :
  readItem delim ss = (item, rest) →
  (delim ∉ chars item)
  ∧ (ss = (item +:+ String delim rest) ∨ (ss = item ∧ rest = EmptyString))
  ∧ (ss ≠ EmptyString → (String.length rest < String.length ss)%nat).
Proof.
  revert item rest. induction ss as [|c ss IH]; intros item rest H.
  - injection H as <- <-. split; [by intros ?%elem_of_nil|]. split; [by right|done].
  - cbn [readItem] in H. case_bool_decide as Hc.
    + injection H as <- <-. subst c. split; [by intros ?%elem_of_nil|].
      split; [by left|]. intros _. simpl. lia.
    + destruct (readItem delim ss) as [item' rest'] eqn:Hr. injection H as <- <-.
      destruct (IH item' rest' eq_refl) as (Hfree & Hshape & Hlen).
      split.
      { rewrite chars_String. apply not_elem_of_cons. split; [congruence|exact Hfree]. }
      split.
      { destruct Hshape as [->|[-> ->]]; [by left|by right]. }
      intros _. simpl. destruct ss as [|c' ss'].
      * injection Hr as <- <-. simpl. lia.
      * specialize (Hlen ltac:(done)). simpl in *. lia.
Qed.

(** *** The loop *)

(** X21. [split] returns, whatever the string: its loop ends within as
    many iterations as the string has characters, and a larger bound gives
    the same tokens. The tokens are appended to those [elems] holds; none
    of them holds the delimiter; the empty string gives no token. *)
Theorem split_returns (s : string) (delim : ascii) :
  ∃ tokens,
    (∀ fuel elems, (String.length s ≤ fuel)%nat →
                   split fuel s delim elems = Some (elems ++ tokens))
    ∧ Forall (λ t, delim ∉ chars t) tokens
    ∧ (s = EmptyString → tokens = []).
Proof.
  unfold split.
  induction s as [s IH] using (induction_ltof1 _ String.length). unfold ltof in IH.
  destruct s as [|c s].
  { exists []. split; [|done]. intros [|fuel] elems _; simpl; by rewrite app_nil_r. }
  destruct (readItem delim (String c s)) as [item rest] eqn:Hr.
  destruct (readItem_inv _ _ _ _ Hr) as (Hfree & _ & Hlen).
  specialize (Hlen ltac:(done)).
  destruct (IH rest Hlen) as (tokens & Hrun & Hall & _).
  exists (item :: tokens). split; [|split; [by constructor|done]].
  intros [|fuel] elems Hfuel; [simpl in Hfuel; lia|].
  cbn [splitLoop getline]. rewrite Hr.
  rewrite Hrun by lia. by rewrite <- app_assoc.
Qed.

Lemma splitLoop_step (fuel : nat) (ss item rest : string) (delim : ascii)
    (elems : list string) :
  getline ss delim = Some (item, rest) →
  splitLoop (S fuel) ss delim elems = splitLoop fuel rest delim (elems ++ [item]).
Proof. intros H. cbn [splitLoop]. by rewrite H. Qed.

Lemma getline_delimited (delim : ascii) (t rest : string) :
  delim ∉ chars t → getline (t +:+ String delim rest) delim = Some (t, rest).
Proof.
  intros Ht. rewrite <- (readItem_delimited delim t rest Ht).
  by destruct t.
Qed.

Lemma getline_last (delim : ascii) (t : string) :
  delim ∉ chars t → t ≠ EmptyString → getline t delim = Some (t, EmptyString).
Proof.
  intros Ht Hne. rewrite <- (readItem_last delim t Ht). by destruct t.
Qed.

Lemma splitLoop_endWith (delim : ascii) (ts : list string) (fuel : nat)
    (elems : list string) :
  Forall (λ t, delim ∉ chars t) ts →
  (length ts ≤ fuel)%nat →
  splitLoop fuel (endWith delim ts) delim elems = Some (elems ++ ts).
Proof.
  revert fuel elems. induction ts as [|t ts IH]; intros fuel elems Hfree Hfuel.
  - destruct fuel; simpl; by rewrite app_nil_r.
  - apply Forall_cons in Hfree as [Ht Hfree].
    destruct fuel as [|fuel]; [simpl in Hfuel; lia|].
    cbn [endWith]. rewrite (splitLoop_step _ _ _ _ _ _ (getline_delimited _ _ _ Ht)).
    rewrite IH by (try done; simpl in Hfuel; lia). by rewrite <- app_assoc.
Qed.

Lemma splitLoop_joinWith (delim : ascii) (ts : list string) (fuel : nat)
    (elems : list string) :
  Forall (λ t, delim ∉ chars t) ts →
  last ts ≠ Some EmptyString →
  (length ts ≤ fuel)%nat →
  splitLoop fuel (joinWith delim ts) delim elems = Some (elems ++ ts).
Proof.
  revert fuel elems. induction ts as [|t ts IH]; intros fuel elems Hfree Hlast Hfuel.
  - destruct fuel; simpl; by rewrite app_nil_r.
  - apply Forall_cons in Hfree as [Ht Hfree].
    destruct fuel as [|fuel]; [simpl in Hfuel; lia|].
    destruct ts as [|t' ts].
    + cbn [joinWith].
      rewrite (splitLoop_step _ _ _ _ _ _ (getline_last _ _ Ht ltac:(by intros ->))).
      by destruct fuel.
    + cbn [joinWith].
      rewrite (splitLoop_step _ _ _ _ _ _ (getline_delimited _ _ _ Ht)).
      rewrite IH; [by rewrite <- app_assoc|done|done|simpl in *; lia].
Qed.

(** X22. [split] undoes the joining of tokens: for tokens that hold no
    delimiter, the string made of the tokens each followed by the delimiter
    splits into these tokens, and so does the string with the delimiter
    only between the tokens when the last token is not empty; a last token
    that is empty is lost. *)
Theorem split_join (delim : ascii) (ts : list string) (fuel : nat)
    (elems : list string) :
  Forall (λ t, delim ∉ chars t) ts →
  (length ts ≤ fuel)%nat →
  split fuel (endWith delim ts) delim elems = Some (elems ++ ts)
  ∧ (last ts ≠ Some EmptyString →
     split fuel (joinWith delim ts) delim elems = Some (elems ++ ts))
  ∧ split fuel (joinWith delim (ts ++ [EmptyString])) delim elems
    = Some (elems ++ ts).
Proof.
  intros Hfree Hfuel. unfold split.
  split; [by apply splitLoop_endWith|]. split; [intros Hl; by apply splitLoop_joinWith|].
  assert (Heq : joinWith delim (ts ++ [EmptyString]) = endWith delim ts).
  { clear. induction ts as [|t ts IH]; [reflexivity|].
    cbn [app joinWith endWith]. rewrite <- IH.
    destruct (ts ++ [EmptyString]) eqn:Hd; [by destruct ts|reflexivity]. }
  rewrite Heq. by apply splitLoop_endWith.
Qed.

Lemma split_join_witness :
  split 3 (endWith " " ["V"; "0,0,0"]) " " [] = Some ([] ++ ["V"; "0,0,0"])
  ∧ (last ["V"; "0,0,0"] ≠ Some EmptyString →
     split 3 (joinWith " " ["V"; "0,0,0"]) " " [] = Some ([] ++ ["V"; "0,0,0"]))
  ∧ split 3 (joinWith " " (["V"; "0,0,0"] ++ [EmptyString])) " " []
    = Some ([] ++ ["V"; "0,0,0"]).
Proof.
  apply (split_join " " ["V"; "0,0,0"] 3 []).
  - repeat constructor; unfold chars; simpl; rewrite ?elem_of_cons, elem_of_nil;
      intros H; repeat (destruct H as [H|H]; [discriminate H|]); exact H.
  - simpl. lia.
Defined.

End SplitFacts.

(** ** The lines of the builder, as the loader reads them *)

Module LineFacts.
Import WDAGraphFileBuilder StringUtilities Text.

(** *** The digits of a number *)

Lemma pretty_N_char_digit (d : N) : isDigit (pretty_N_char d).
Proof.
  unfold isDigit. destruct d as [|p]; [by left|].
  do 4 (try destruct p as [p|p|]); cbn; rewrite !elem_of_cons; tauto.
Qed.

Lemma pretty_N_go_digits (x : N) (s : string) :
  Forall isDigit (chars s) → Forall isDigit (chars (pretty_N_go x s)).
Proof.
  revert s. induction (N.lt_wf_0 x) as [x _ IH]; intros s Hs.
  destruct (decide (0 < x)%N) as [Hx|Hx].
  - rewrite pretty_N_go_step by done. apply IH.
    + by apply N.div_lt.
    + constructor; [apply pretty_N_char_digit|exact Hs].
  - assert (x = 0%N) as -> by lia. by rewrite pretty_N_go_0.
Qed.

Lemma pretty_N_digits (x : N) : Forall isDigit (chars (pretty x)).
Proof.
  unfold pretty, pretty_N. destruct (decide (x = 0%N)).
  - repeat constructor.
  - apply pretty_N_go_digits. constructor.
Qed.

Lemma pretty_nat_digits (n : nat) : Forall isDigit (chars (pretty n)).
Proof. apply pretty_N_digits. Qed.

Lemma pretty_N_go_length (x : N) (s : string) :
  (String.length s ≤ String.length (pretty_N_go x s))%nat.
Proof.
  revert s. induction (N.lt_wf_0 x) as [x _ IH]; intros s.
  destruct (decide (0 < x)%N) as [Hx|Hx].
  - rewrite pretty_N_go_step by done.
    etrans; [|apply IH; by apply N.div_lt]. simpl. lia.
  - assert (x = 0%N) as -> by lia. by rewrite pretty_N_go_0.
Qed.

Lemma pretty_N_nonempty (x : N) : pretty x ≠ EmptyString.
Proof.
  unfold pretty, pretty_N. destruct (decide (x = 0%N)); [discriminate|].
  rewrite pretty_N_go_step by lia. intros H.
  pose proof (pretty_N_go_length (x `div` 10)
                (String (pretty_N_char (x `mod` 10)) EmptyString)) as Hlen.
  rewrite H in Hlen. simpl in Hlen. lia.
Qed.

Lemma digit_not_comma (c : ascii) : isDigit c → c ≠ ","%char.
Proof.
  unfold isDigit. rewrite !elem_of_cons, elem_of_nil. intros H ->.
  repeat (destruct H as [H|H]; [discriminate H|]). exact H.
Qed.

Lemma digit_not_space (c : ascii) : isDigit c → c ≠ " "%char.
Proof.
  unfold isDigit. rewrite !elem_of_cons, elem_of_nil. intros H ->.
  repeat (destruct H as [H|H]; [discriminate H|]). exact H.
Qed.

(** *** The text of a vertex *)

Lemma digits_before_comma (a a' r r' : string) :
  Forall isDigit (chars a) → Forall isDigit (chars a') →
  a +:+ String "," r = a' +:+ String "," r' → a = a' ∧ r = r'.
Proof.
  revert a'. induction a as [|c a IH]; intros a' Ha Ha' H.
  - destruct a' as [|c' a'].
    + by injection H as ->.
    + injection H as <- _. apply Forall_cons in Ha' as [Hc _].
      by destruct (digit_not_comma _ Hc).
  - apply Forall_cons in Ha as [Hc Ha]. destruct a' as [|c' a'].
    + injection H as -> _. by destruct (digit_not_comma _ Hc).
    + injection H as <- H. apply Forall_cons in Ha' as [_ Ha'].
      destruct (IH a' Ha Ha' H) as [-> ->]. done.
Qed.

Lemma vertexId_inj (v v' : Loc) : vertexId v = vertexId v' → v = v'.
Proof.
  destruct v as [[i j] k], v' as [[i' j'] k']. unfold vertexId. cbn [fst snd].
  intros H.
  apply digits_before_comma in H as [Hi H]; [|apply pretty_nat_digits..].
  apply digits_before_comma in H as [Hj Hk]; [|apply pretty_nat_digits..].
  apply pretty_nat_inj in Hi, Hj, Hk. by subst.
Qed.

Lemma vertexId_chars (v : Loc) :
  Forall (λ c, isDigit c ∨ c = ","%char) (chars (vertexId v)).
Proof.
  unfold vertexId.
  rewrite !SplitFacts.chars_append. repeat apply Forall_app_2;
    try (eapply Forall_impl; [apply pretty_nat_digits|by left]);
    by repeat constructor; right.
Qed.

Lemma vertexId_no_space (v : Loc) : " "%char ∉ chars (vertexId v).
Proof.
  intros Hin. pose proof (vertexId_chars v) as H. rewrite Forall_forall in H.
  destruct (H _ Hin) as [Hd|Hc]; [by destruct (digit_not_space _ Hd)|discriminate].
Qed.

Lemma vertexId_nonempty (v : Loc) : vertexId v ≠ EmptyString.
Proof.
  unfold vertexId. intros H. apply (f_equal String.length) in H.
  rewrite !SplitFacts.length_append in H. simpl in H. lia.
Qed.

(** *** The text of a weight *)

Lemma pretty_Z_chars (z : Z) :
  Forall (λ c, isDigit c ∨ c = "-"%char) (chars (pretty z)).
Proof.
  unfold pretty, pretty_Z. destruct z as [|p|p].
  - repeat constructor.
  - eapply Forall_impl; [apply (pretty_N_digits (Npos p))|by left].
  - change (chars ("-" +:+ pretty p)) with ("-"%char :: chars (pretty (Npos p))).
    constructor; [by right|].
    eapply Forall_impl; [apply (pretty_N_digits (Npos p))|by left].
Qed.

Lemma pretty_Z_no_space (z : Z) : " "%char ∉ chars (pretty z).
Proof.
  intros Hin. pose proof (pretty_Z_chars z) as H. rewrite Forall_forall in H.
  destruct (H _ Hin) as [Hd|Hc]; [by destruct (digit_not_space _ Hd)|discriminate].
Qed.

Lemma pretty_Z_nonempty (z : Z) : pretty z ≠ EmptyString.
Proof.
  unfold pretty, pretty_Z. destruct z as [|p|p]; [discriminate| |discriminate].
  apply (pretty_N_nonempty (Npos p)).
Qed.

(** *** A line and its tokens *)

Lemma renderLine_joinWith (l : Line) : renderLine l = joinWith " " (lineTokens l).
Proof. destruct l; reflexivity. Qed.

Lemma split_renderLine (l : Line) (fuel : nat) (elems : list string) :
  (5 ≤ fuel)%nat →
  match l with
  | V _ => True
  | E e => " "%char ∉ chars (labelText (label e))
  end →
  split fuel (renderLine l) " " elems = Some (elems ++ lineTokens l).
Proof.
  intros Hfuel Hlab. rewrite renderLine_joinWith.
  apply SplitFacts.splitLoop_joinWith.
  - destruct l as [v|e]; cbn [lineTokens].
    + repeat constructor; [|apply vertexId_no_space].
      unfold chars; simpl. rewrite elem_of_cons, elem_of_nil. intros [H|H]; done.
    + repeat constructor;
        [|exact Hlab|apply vertexId_no_space|apply vertexId_no_space
         |apply pretty_Z_no_space].
      unfold chars; simpl. rewrite elem_of_cons, elem_of_nil. intros [H|H]; done.
  - destruct l as [v|e]; cbn [lineTokens last].
    + intros [= H]. by apply vertexId_nonempty in H.
    + intros [= H]. by apply pretty_Z_nonempty in H.
  - destruct l; simpl; lia.
Qed.

(** X23. The loader reads from the text of the builder the tokens the
    builder wrote: for sequences that hold no blank, every line of the
    file, split at the blanks, gives back its fields: [V] and the vertex, or
    [E], the label, the two vertices and the weight. *)
Theorem file_tokens (seq1 seq2 seq3 : list ascii) (lines : list Line) (fuel : nat) :
  " "%char ∉ seq1 → " "%char ∉ seq2 → " "%char ∉ seq3 →
  buildGraphFile seq1 seq2 seq3 = Some lines →
  (5 ≤ fuel)%nat →
  tokensOf fuel (renderLine <$> lines) = Some (lineTokens <$> lines).
Proof.
  intros B1 B2 B3 Hb Hfuel. unfold tokensOf. apply mapM_Some.
  apply Forall2_fmap. apply Forall_Forall2_diag. apply Forall_forall.
  intros l Hl. rewrite (split_renderLine l fuel []); [done|done|].
  destruct l as [v|e]; [done|].
  destruct (BuilderFacts.edge_of_file _ _ _ _ _ Hb Hl) as (i & j & k & _ & Hcol & _).
  apply BuilderFacts.columnsAt_elem in Hcol as (C1 & C2 & C3 & _).
  assert (Hres : ∀ (s : list ascii) (n : nat) (c : ascii),
            " "%char ∉ s → c = gapChar ∨ residueAt s n = Some c → c ≠ " "%char).
  { intros s n c Hs [->|Hr]; [discriminate|]. intros ->.
    apply BuilderFacts.residueAt_Some in Hr as [_ Hr].
    apply Hs. by eapply list_elem_of_lookup_2. }
  unfold labelText, chars. simpl. rewrite !elem_of_cons, elem_of_nil.
  intros [H|[H|[H|H]]]; [| | |done]; symmetry in H.
  - by apply (Hres seq1 i _ B1 C1).
  - by apply (Hres seq2 j _ B2 C2).
  - by apply (Hres seq3 k _ B3 C3).
Qed.

Lemma file_tokens_witness :
  tokensOf 5 (renderLine <$>
      [V (0, 0, 0)%nat; V (0, 0, 1)%nat;
       E (mkEdgeLine ("-", "-", "A")%char (0, 0, 0)%nat (0, 0, 1)%nat (-12))])
  = Some (lineTokens <$>
      [V (0, 0, 0)%nat; V (0, 0, 1)%nat;
       E (mkEdgeLine ("-", "-", "A")%char (0, 0, 0)%nat (0, 0, 1)%nat (-12))]).
Proof.
  apply (file_tokens [] [] ["A"%char]);
    [intros H; by apply elem_of_nil in H
    |intros H; by apply elem_of_nil in H
    |rewrite elem_of_cons, elem_of_nil; intros [H|H]; [discriminate H|exact H]
    |vm_compute; reflexivity
    |lia].
Defined.

(** *** Reading a weight back *)

Lemma digitValue_char (d : N) :
  (d < 10)%N → Samples.digitValue (pretty_N_char d) = Some (Z.of_N d).
Proof.
  intros Hd.
  assert (H : (d = 0 ∨ d = 1 ∨ d = 2 ∨ d = 3 ∨ d = 4 ∨ d = 5 ∨ d = 6 ∨ d = 7
               ∨ d = 8 ∨ d = 9)%N) by lia.
  repeat (destruct H as [->|H]; [reflexivity|]). by subst.
Qed.

Lemma readDigits_go (x : N) (s : string) :
  Samples.readDigits (pretty_N_go x s) 0 = Samples.readDigits s (Z.of_N x).
Proof.
  revert s. induction (N.lt_wf_0 x) as [x _ IH]; intros s.
  destruct (decide (0 < x)%N) as [Hx|Hx].
  - rewrite pretty_N_go_step by done. rewrite IH by by apply N.div_lt.
    cbn [Samples.readDigits]. rewrite digitValue_char by by apply N.mod_lt.
    f_equal. rewrite (N.div_mod x 10) at 3 by done. lia.
  - assert (x = 0%N) as -> by lia. by rewrite pretty_N_go_0.
Qed.

Lemma atofInteger_unsigned (s : string) :
  (∀ s', s ≠ String "-" s') → Samples.atofInteger s = Samples.readDigits s 0.
Proof.
  intros Hs. destruct s as [|c s]; [reflexivity|].
  destruct (decide (c = "-"%char)) as [->|Hc]; [by destruct (Hs s)|].
  unfold Samples.atofInteger.
  destruct c as [[] [] [] [] [] [] [] []]; try reflexivity. by destruct Hc.
Qed.

Lemma atofInteger_positive (p : positive) :
  Samples.atofInteger (pretty (Npos p)) = Z.pos p.
Proof.
  unfold pretty, pretty_N. destruct (decide (Npos p = 0%N)); [discriminate|].
  rewrite atofInteger_unsigned.
  - rewrite readDigits_go. reflexivity.
  - intros s'. by apply (pretty_N_go_ne_dash (Npos p) EmptyString s').
Qed.

(** The sample conversion reads back the integers the builder prints. *)
Lemma atofInteger_pretty (z : Z) : Samples.atofInteger (pretty z) = z.
Proof.
  destruct z as [|p|p].
  - reflexivity.
  - apply atofInteger_positive.
  - change (pretty (Z.neg p)) with (String "-" (pretty (Npos p))).
    change (Samples.atofInteger (String "-" (pretty (Npos p))))
      with (- Samples.readDigits (pretty (Npos p)) 0).
    pose proof (atofInteger_positive p) as H.
    rewrite atofInteger_unsigned in H.
    + rewrite H. reflexivity.
    + intros s'. unfold pretty, pretty_N.
      destruct (decide (Npos p = 0%N)); [discriminate|].
      by apply (pretty_N_go_ne_dash (Npos p) EmptyString s').
Qed.

End LineFacts.

(** ** From the sequences to the report *)

Module PipelineFacts.
Import WDAGraphFileBuilder WDAGraph GraphState GraphFile Paths Alignment.

Section Pipeline.

Variable atof : string → Z.

(** *** The file of the builder, loaded *)

Lemma declared_vertices (vs : list Loc) :
  declared (lineTokens <$> (V <$> vs)) = vertexId <$> vs.
Proof.
  induction vs as [|v vs IH]; [reflexivity|].
  change (vertexId v :: declared (lineTokens <$> (V <$> vs)) = vertexId v :: (vertexId <$> vs)).
  by rewrite IH.
Qed.

Lemma declared_edges (es : list EdgeLine) :
  declared (lineTokens <$> (E <$> es)) = [].
Proof. induction es as [|e es IH]; [reflexivity|]. exact IH. Qed.

Lemma declared_app (l1 l2 : list (list string)) :
  declared (l1 ++ l2) = declared l1 ++ declared l2.
Proof. unfold declared. apply omap_app. Qed.

Lemma declared_file (vs : list Loc) (es : list EdgeLine) :
  declared (lineTokens <$> ((V <$> vs) ++ (E <$> es))) = vertexId <$> vs.
Proof.
  by rewrite fmap_app, declared_app, declared_vertices, declared_edges, app_nil_r.
Qed.

Lemma edgeLinesOf_file (vs : list Loc) (es : list EdgeLine) :
  edgeLinesOf (lineTokens <$> ((V <$> vs) ++ (E <$> es)))
  = (λ e, lineTokens (E e)) <$> es.
Proof.
  unfold edgeLinesOf. rewrite fmap_app, filter_app.
  assert (H1 : filter (λ tokens : list string, tokens !! 0%nat = Some "E")
                 (lineTokens <$> (V <$> vs)) = []).
  { induction vs as [|v vs IH]; [reflexivity|]. simpl.
    rewrite filter_cons_False by discriminate. exact IH. }
  rewrite H1. simpl. induction es as [|e es IH]; [reflexivity|]. simpl.
  rewrite filter_cons_True by done. f_equal. exact IH.
Qed.

Lemma vertexLinesOf_file (vs : list Loc) (es : list EdgeLine) :
  vertexLinesOf (lineTokens <$> ((V <$> vs) ++ (E <$> es)))
  = (λ v, lineTokens (V v)) <$> vs.
Proof.
  unfold vertexLinesOf. rewrite fmap_app, filter_app.
  assert (H1 : filter (λ tokens : list string, tokens !! 0%nat = Some "V")
                 (lineTokens <$> (E <$> es)) = []).
  { induction es as [|e es IH]; [reflexivity|]. simpl.
    rewrite filter_cons_False by discriminate. exact IH. }
  rewrite H1, app_nil_r. induction vs as [|v vs IH]; [reflexivity|]. simpl.
  rewrite filter_cons_True by done. f_equal. exact IH.
Qed.

(** The loader does not stop on a file of the builder. *)
Lemma builder_file_loads (seq1 seq2 seq3 : list ascii) (lines : list Line) :
  buildGraphFile seq1 seq2 seq3 = Some lines →
  is_Some (buildGraph atof (lineTokens <$> lines)).
Proof.
  intros Hb.
  destruct (buildGraph atof (lineTokens <$> lines)) as [g|] eqn:Hl; [eauto|].
  apply LoaderFacts.loaded_stops in Hl as (n & tokens & Hn & Hrej).
  apply list_lookup_fmap_Some in Hn as (l & -> & Hn).
  destruct (BuilderFacts.buildGraphFile_inv _ _ _ _ Hb) as (ess & _ & Hlines).
  destruct l as [v|e].
  - destruct Hrej as [H|[[_ H]|[H _]]]; discriminate H.
  - destruct Hrej as [H|[[H _]|[_ [H|(l & Hl & Hnot)]]]];
      [discriminate H|discriminate H|simpl in H; lia|].
    assert (He : E e ∈ lines) by by eapply list_elem_of_lookup_2.
    destruct (EditGraphFacts.edge_end _ _ _ _ _ Hb He)
      as (i & j & k & i' & j' & k' & Hs & Hend & (Hi & Hj & Hk) & _).
    assert (Hge : (length (allVertices (length seq1) (length seq2) (length seq3)) ≤ n)%nat).
    { rewrite Hlines in Hn. destruct (decide (n < length (allVertices (length seq1)
                                  (length seq2) (length seq3)))%nat) as [Hlt|]; [|lia].
      rewrite lookup_app_l in Hn by by rewrite length_fmap.
      apply list_lookup_fmap_Some in Hn as (? & ? & _). discriminate. }
    destruct Hnot. rewrite Hlines, <- fmap_take, take_app_ge by by rewrite length_fmap.
    rewrite <- fmap_take, declared_file.
    simpl in Hl. destruct Hl as [[= <-]|[= <-]].
    + apply list_elem_of_fmap. exists (startVertex e). split; [done|].
      rewrite Hs. apply BuilderFacts.elem_of_allVertices. lia.
    + apply list_elem_of_fmap. exists (endVertex e). split; [done|].
      rewrite Hend. apply BuilderFacts.elem_of_allVertices. lia.
Qed.

Lemma position_lookup (n1 n2 n3 : nat) (v : Loc) :
  v ∈ allVertices n1 n2 n3 →
  allVertices n1 n2 n3 !! position n2 n3 v = Some v.
Proof.
  destruct v as [[i j] k]. intros Hv%BuilderFacts.elem_of_allVertices.
  unfold position. cbn [fst snd]. apply EditGraphFacts.allVertices_lookup; lia.
Qed.

Lemma Forall2_fmap_eq {A B : Type} (f : A → B) (l : list A) (k : list B) :
  Forall2 (λ x y, y = f x) l k → k = f <$> l.
Proof. induction 1 as [|x y l k -> _ IH]; [reflexivity|]. simpl. by rewrite IH. Qed.

(** The graph the loader makes of a file of the builder: the vertices are
    labelled with the texts of the vertices of the edit graph, which are
    distinct; the edges are those of the edge lines, between the positions
    of their vertices; no vertex is tagged. *)
Lemma builder_graph (seq1 seq2 seq3 : list ascii) (lines : list Line) (g : t) :
  buildGraphFile seq1 seq2 seq3 = Some lines →
  buildGraph atof (lineTokens <$> lines) = Some g →
  labels g = vertexId <$> allVertices (length seq1) (length seq2) (length seq3)
  ∧ NoDup (labels g)
  ∧ edgeHeap g = loadedEdge atof (length seq2) (length seq3) <$> edgeLines lines
  ∧ startNode g = None ∧ endNode g = None.
Proof.
  intros Hb Hg.
  destruct (BuilderFacts.buildGraphFile_inv _ _ _ _ Hb) as (ess & _ & Hlines).
  assert (Hlab : labels g
                 = vertexId <$> allVertices (length seq1) (length seq2) (length seq3)).
  { rewrite (LoaderFacts.loaded_labels atof _ g Hg), Hlines. apply declared_file. }
  assert (Hnd : NoDup (labels g)).
  { rewrite Hlab. apply NoDup_fmap_2; [|apply BuilderFacts.allVertices_NoDup].
    intros v v'. apply LineFacts.vertexId_inj. }
  split; [exact Hlab|]. split; [exact Hnd|]. split; [|split].
  - pose proof (LoaderFacts.loaded_edgeHeap atof _ g Hg) as Hheap.
    rewrite Hlines, edgeLinesOf_file in Hheap.
    apply Forall2_fmap_l in Hheap.
    assert (Hes : edgeLines lines = concat ess)
      by (rewrite Hlines; apply BuilderFacts.edgeLines_file).
    rewrite Hes. apply Forall2_fmap_eq.
    assert (Hin : ∀ el, el ∈ concat ess → E el ∈ lines).
    { intros el Hel. rewrite Hlines. apply elem_of_app. right.
      by apply list_elem_of_fmap_2. }
    assert (Hpos : ∀ v p, v ∈ allVertices (length seq1) (length seq2) (length seq3) →
                          labels g !! p = Some (vertexId v) →
                          p = position (length seq2) (length seq3) v).
    { intros v p Hv Hp. apply (NoDup_lookup _ _ _ _ Hnd Hp).
      rewrite Hlab, list_lookup_fmap, (position_lookup _ _ _ _ Hv). done. }
    revert Hin Hheap. generalize (concat ess) (edgeHeap g). clear Hes Hlines.
    intros es heap Hin Hheap.
    induction Hheap as [|el e es heap Hone Hrest IH];
      constructor; [|apply IH; intros el' Hel'; apply Hin; by right].
    destruct Hone as (Hl & (w & Hw & Hwe) & (ls & Hls & Hs) & (le & Hle & He)).
    simpl in Hl, Hw, Hls, Hle. injection Hl as Hl. injection Hw as <-.
    injection Hls as <-. injection Hle as <-.
    destruct (EditGraphFacts.edge_end _ _ _ _ _ Hb (Hin el (list_elem_of_here _ _)))
      as (i & j & k & i' & j' & k' & Hsv & Hev & (Hi & Hj & Hk) & _).
    apply Hpos in Hs; [|rewrite Hsv; apply BuilderFacts.elem_of_allVertices; lia].
    apply Hpos in He; [|rewrite Hev; apply BuilderFacts.elem_of_allVertices; lia].
    destruct e as [elabel eweight estart eend]. simpl in *.
    unfold loadedEdge. by subst.
  - destruct (startNode g) as [p|] eqn:Hsn; [|done].
    destruct (LoaderFacts.loaded_constraints atof _ g Hg) as (_ & Hst & _).
    apply Hst in Hsn as [(tk & Htk & Htag) _].
    rewrite Hlines, vertexLinesOf_file in Htk.
    apply list_lookup_fmap_Some in Htk as (v & -> & _). discriminate Htag.
  - destruct (endNode g) as [p|] eqn:Hen; [|done].
    destruct (LoaderFacts.loaded_constraints atof _ g Hg) as (_ & _ & Hend).
    apply Hend in Hen as [(tk & Htk & Htag) _].
    rewrite Hlines, vertexLinesOf_file in Htk.
    apply list_lookup_fmap_Some in Htk as (v & -> & _). discriminate Htag.
Qed.

Lemma edgeLines_elem (lines : list Line) (e : EdgeLine) :
  e ∈ edgeLines lines ↔ E e ∈ lines.
Proof.
  unfold edgeLines. rewrite list_elem_of_omap. split.
  - intros ([v|e'] & Hin & Heq); [discriminate|]. by injection Heq as ->.
  - intros Hin. by exists (E e).
Qed.

Lemma builder_topological (seq1 seq2 seq3 : list ascii) (lines : list Line) (g : t) :
  gapChar ∉ seq1 → gapChar ∉ seq2 → gapChar ∉ seq3 →
  buildGraphFile seq1 seq2 seq3 = Some lines →
  buildGraph atof (lineTokens <$> lines) = Some g →
  Forall (λ e, (Edge.start e < Edge.end_ e)%nat) (edgeHeap g).
Proof.
  intros G1 G2 G3 Hb Hg.
  destruct (builder_graph _ _ _ _ _ Hb Hg) as (_ & _ & -> & _).
  apply Forall_fmap, Forall_forall. intros el Hel%edgeLines_elem. simpl.
  destruct (EditGraphFacts.edge_positions _ _ _ _ _ G1 G2 G3 Hb Hel)
    as (p & q & Hp & Hq & Hlt).
  destruct (BuilderFacts.buildGraphFile_inv _ _ _ _ Hb) as (ess & _ & Hlines).
  rewrite Hlines, BuilderFacts.vertexLines_file in Hp, Hq.
  pose proof (BuilderFacts.allVertices_NoDup (length seq1) (length seq2) (length seq3))
    as Hnd.
  rewrite <- (NoDup_lookup _ _ _ _ Hnd Hp
                (position_lookup _ _ _ _ (list_elem_of_lookup_2 _ _ _ Hp))).
  rewrite <- (NoDup_lookup _ _ _ _ Hnd Hq
                (position_lookup _ _ _ _ (list_elem_of_lookup_2 _ _ _ Hq))).
  exact Hlt.
Qed.


(** *** Paths of the edit graph and paths of the loaded graph *)

Hypothesis atof_pretty : ∀ z : Z, atof (pretty z) = z.

Lemma weightOf_loaded (n2 n3 : nat) (p : list EdgeLine) :
  weightOf (loadedEdge atof n2 n3 <$> p) = columnsWeight p.
Proof.
  unfold weightOf, columnsWeight. induction p as [|e p IH]; [reflexivity|].
  cbn [fmap list_fmap foldr]. rewrite <- IH. simpl. by rewrite atof_pretty.
Qed.

Lemma chain_loaded (n2 n3 : nat) (v w : Loc) (p : list EdgeLine) :
  linked v p w →
  chain (position n2 n3 v) (loadedEdge atof n2 n3 <$> p) (position n2 n3 w).
Proof.
  revert v. induction p as [|e p IH]; intros v; simpl.
  - by intros ->.
  - intros [<- Hl]. split; [done|]. by apply IH.
Qed.

(** A path of the loaded graph comes from a path of the edit graph. *)
Lemma linked_of_chain (seq1 seq2 seq3 : list ascii) (lines : list Line)
    (es : list Edge.t) (a b : nat) (va vb : Loc) :
  buildGraphFile seq1 seq2 seq3 = Some lines →
  Forall (λ e, e ∈ loadedEdge atof (length seq2) (length seq3) <$> edgeLines lines) es →
  chain a es b →
  allVertices (length seq1) (length seq2) (length seq3) !! a = Some va →
  allVertices (length seq1) (length seq2) (length seq3) !! b = Some vb →
  ∃ p, es = loadedEdge atof (length seq2) (length seq3) <$> p
       ∧ Forall (λ e, E e ∈ lines) p
       ∧ linked va p vb.
Proof.
  intros Hb. revert a va. induction es as [|e es IH]; intros a va Hin Hch Ha Hvb.
  - simpl in Hch. subst b. exists []. split; [done|]. split; [done|].
    simpl. congruence.
  - apply Forall_cons in Hin as [He Hin]. destruct Hch as [Hs Hch].
    apply list_elem_of_fmap in He as (el & -> & Hel). apply edgeLines_elem in Hel.
    destruct (EditGraphFacts.edge_end _ _ _ _ _ Hb Hel)
      as (i & j & k & i' & j' & k' & Hsv & Hev & (Hi & Hj & Hk) & _).
    assert (Hstart : startVertex el
                     ∈ allVertices (length seq1) (length seq2) (length seq3))
      by (rewrite Hsv; apply BuilderFacts.elem_of_allVertices; lia).
    assert (Hend : endVertex el
                   ∈ allVertices (length seq1) (length seq2) (length seq3))
      by (rewrite Hev; apply BuilderFacts.elem_of_allVertices; lia).
    simpl in Hs, Hch.
    destruct (IH _ (endVertex el) Hin Hch (position_lookup _ _ _ _ Hend) Hvb)
      as (p & -> & Hp & Hl).
    exists (el :: p). split; [done|]. split; [by constructor|].
    simpl. split; [|exact Hl].
    pose proof (position_lookup _ _ _ _ Hstart) as Hlook.
    rewrite Hs, Ha in Hlook. by injection Hlook as ->.
Qed.

(** *** The report *)

Lemma alphabet_no_gap (s : list ascii) :
  Forall (λ r, r ∈ Blosum62.alphabet) s → gapChar ∉ s.
Proof.
  intros Hs Hin. rewrite Forall_forall in Hs.
  by apply (Blosum62Facts.alphabet_not_gap _ (Hs _ Hin)).
Qed.

(** From three sequences over the alphabet to the report: the file is
    written and loaded, the search ends, and the report gives the weight,
    the two ends and the labels of a path of the edit graph that no path of
    the edit graph outweighs. *)
Lemma pipeline_report (seq1 seq2 seq3 : list ascii) :
  Forall (λ r, r ∈ Blosum62.alphabet) seq1 →
  Forall (λ r, r ∈ Blosum62.alphabet) seq2 →
  Forall (λ r, r ∈ Blosum62.alphabet) seq3 →
  ∃ lines g g' v w p,
    buildGraphFile seq1 seq2 seq3 = Some lines
    ∧ buildGraph atof (lineTokens <$> lines) = Some g
    ∧ findHighestWeightPath g = Some g'
    ∧ linked v p w ∧ Forall (λ e, E e ∈ lines) p
    ∧ (∀ v' p' w', linked v' p' w' → Forall (λ e, E e ∈ lines) p' →
                   columnsWeight p' ≤ columnsWeight p)
    ∧ ∀ fuel, ((length seq1 + 1) * (length seq2 + 1) * (length seq3 + 1) ≤ fuel)%nat →
        resultString fuel g'
        = Some {| edge_weights := edgeWeights g;
                  edge_histogram := edgeFrequencies g;
                  pathInfo :=
                    PathFound (columnsWeight p) (vertexId v) (vertexId w)
                      (reversedLabels
                         (loadedEdge atof (length seq2) (length seq3) <$> p)) |}.
Proof.
  intros A1 A2 A3.
  pose proof (alphabet_no_gap _ A1) as G1. pose proof (alphabet_no_gap _ A2) as G2.
  pose proof (alphabet_no_gap _ A3) as G3.
  destruct (BuilderFacts.buildGraphFile_defined seq1 seq2 seq3) as [lines Hb].
  { intros v Hv. by apply BuilderFacts.edgesAt_defined. }
  destruct (builder_file_loads _ _ _ _ Hb) as [g Hg].
  destruct (builder_graph _ _ _ _ _ Hb Hg) as (Hlab & Hnd & Hheap & Hsn & Hen).
  pose proof (builder_topological _ _ _ _ _ G1 G2 G3 Hb Hg) as Hord.
  destruct (GraphFacts.buildGraph_wellFormed atof _ g Hg) as [W Hnone].
  destruct (GraphFacts.findHighestWeightPath_defined g W
              (GraphFacts.highestValid_None g Hnone)) as (g' & Hrun & W' & HV').
  assert (Hlen : length (vertices g)
                 = ((length seq1 + 1) * (length seq2 + 1) * (length seq3 + 1))%nat).
  { rewrite <- LoaderFacts.length_labels, Hlab, length_fmap.
    apply BuilderFacts.allVertices_length. }
  (* The best vertex. *)
  assert (Hbest : ∃ h hv, highestWeightNode g' = Some h ∧ vertices g' !! h = Some hv
                          ∧ erase g' = erase g).
  { pose proof Hrun as Hrun'. unfold findHighestWeightPath in Hrun'.
    destruct (forEachBreak _ _ _) as [[g1 sf1]|] eqn:Hloop; simpl in Hrun';
      [|discriminate].
    injection Hrun' as ->.
    pose proof (RerunFacts.best_is_max g g' sf1 _ Hloop Hnone
                  ltac:(by apply GraphFacts.isStartConstrained_false)
                  ltac:(by apply GraphFacts.isEndConstrained_false)) as Hmax.
    destruct (RerunFacts.loop_frame _ _ _ _ _ _ Hloop) as [Her _].
    destruct (Hmax 0%nat) as (h & hv & _ & Hh & Hhv & _); [lia|].
    exists h, hv. done. }
  destruct Hbest as (h & hv & Hh & Hhv & Her).
  pose proof (GraphFacts.erase_length _ _ Her) as Hlen'.
  destruct (PathFacts.run_report atof _ g g' h hv (length (vertices g'))
              Hg Hnd Hord Hrun Hh Hhv ltac:(lia))
    as (es & root & rv & Hwalk & Hroot & _ & Hchain & Hin & Hsum & Hzero & _).
  (* The path of the edit graph. *)
  pose proof (GraphFacts.erase_labels _ _ Her) as Hlabels. rewrite Hlab in Hlabels.
  assert (Hvertex : ∀ q x, vertices g' !! q = Some x →
            ∃ u, allVertices (length seq1) (length seq2) (length seq3) !! q = Some u
                 ∧ Vertex.label x = vertexId u).
  { intros q x Hq. apply GraphFacts.labels_lookup in Hq. rewrite Hlabels in Hq.
    apply list_lookup_fmap_Some in Hq as (u & -> & Hu). eauto. }
  destruct (Hvertex root rv Hroot) as (v & Hv & Hvl).
  destruct (Hvertex h hv Hhv) as (w & Hw & Hwl).
  destruct (linked_of_chain seq1 seq2 seq3 lines (rev es) root h v w Hb) as
    (p & Hp & Hpin & Hlinked); [|exact Hchain|exact Hv|exact Hw|].
  { rewrite <- Hheap. apply Forall_rev. exact Hin. }
  assert (Hscore : Vertex.weight hv = columnsWeight p).
  { rewrite Hsum, (Hzero Hsn), <- PathFacts.weightOf_rev, Hp, weightOf_loaded. lia. }
  exists lines, g, g', v, w, p.
  do 5 (split; [done|]). split.
  - intros v' p' w' Hl' Hin'. rewrite <- Hscore, <- (weightOf_loaded (length seq2) (length seq3)).
    apply (PathFacts.optimal_score atof _ g g' h hv
             (position (length seq2) (length seq3) v')
             (position (length seq2) (length seq3) w') _ Hg Hnd Hord Hsn Hen Hrun Hh Hhv).
    + by apply chain_loaded.
    + rewrite Hheap. apply Forall_fmap. eapply Forall_impl; [exact Hin'|].
      simpl. intros el Hel. apply list_elem_of_fmap_2. by apply edgeLines_elem.
  - intros fuel Hfuel.
    destruct (PathFacts.run_report atof _ g g' h hv fuel Hg Hnd Hord Hrun Hh Hhv
                ltac:(lia))
      as (es' & root' & rv' & Hwalk' & Hroot' & _ & _ & _ & _ & _ & Hres).
    rewrite (PathFacts.walkEdges_mono _ fuel _ _ _ Hwalk ltac:(lia)) in Hwalk'.
    injection Hwalk' as <- <-. rewrite Hroot in Hroot'. injection Hroot' as <-.
    rewrite Hres, Hscore, Hvl, Hwl, PathFacts.reverseString_written, Hp. done.
Qed.

End Pipeline.

(** X25. The driver, for three sequences over the alphabet: the graph
    file is written and loaded, the search ends and the report returns; it
    gives the weight, the first and the last vertex and the labels of a
    path of the edit graph (an alignment of the residues between the two
    vertices) whose columns weigh, by the sum of pairs, at least as much as
    those of any path of the edit graph. *)
Theorem align_reports_optimal (seq1 seq2 seq3 : list ascii) :
  Forall (λ r, r ∈ Blosum62.alphabet) seq1 →
  Forall (λ r, r ∈ Blosum62.alphabet) seq2 →
  Forall (λ r, r ∈ Blosum62.alphabet) seq3 →
  ∃ lines v w p tables,
    buildGraphFile seq1 seq2 seq3 = Some lines
    ∧ linked v p w ∧ Forall (λ e, E e ∈ lines) p
    ∧ (∀ v' p' w', linked v' p' w' → Forall (λ e, E e ∈ lines) p' →
                   columnsWeight p' ≤ columnsWeight p)
    ∧ ∀ fuel, ((length seq1 + 1) * (length seq2 + 1) * (length seq3 + 1) ≤ fuel)%nat →
        Samples.align seq1 seq2 seq3 fuel
        = Some {| edge_weights := fst tables;
                  edge_histogram := snd tables;
                  pathInfo :=
                    PathFound (columnsWeight p) (vertexId v) (vertexId w)
                      (reversedLabels
                         (loadedEdge Samples.atofInteger (length seq2) (length seq3)
                            <$> p)) |}.
Proof.
  intros A1 A2 A3.
  destruct (pipeline_report Samples.atofInteger LineFacts.atofInteger_pretty
              seq1 seq2 seq3 A1 A2 A3)
    as (lines & g & g' & v & w & p & Hb & Hg & Hrun & Hl & Hin & Hopt & Hres).
  exists lines, v, w, p, (edgeWeights g, edgeFrequencies g).
  do 4 (split; [done|]). intros fuel Hfuel.
  unfold Samples.align. rewrite Hb. simpl. rewrite Hg. simpl. rewrite Hrun. simpl.
  by apply Hres.
Qed.

Lemma align_reports_optimal_witness :
  ∃ lines v w p tables,
    buildGraphFile ["A"%char] ["C"%char] [] = Some lines
    ∧ linked v p w ∧ Forall (λ e, E e ∈ lines) p
    ∧ (∀ v' p' w', linked v' p' w' → Forall (λ e, E e ∈ lines) p' →
                   columnsWeight p' ≤ columnsWeight p)
    ∧ ∀ fuel, ((length ["A"%char] + 1) * (length ["C"%char] + 1)
               * (length (@nil ascii) + 1) ≤ fuel)%nat →
        Samples.align ["A"%char] ["C"%char] [] fuel
        = Some {| edge_weights := fst tables;
                  edge_histogram := snd tables;
                  pathInfo :=
                    PathFound (columnsWeight p) (vertexId v) (vertexId w)
                      (reversedLabels
                         (loadedEdge Samples.atofInteger (length ["C"%char])
                            (length (@nil ascii)) <$> p)) |}.
Proof.
  apply (align_reports_optimal ["A"%char] ["C"%char] []);
    repeat constructor.
Defined.


End PipelineFacts.

(** ** When the builder writes no file *)

Module BuilderErrors.
Import WDAGraphFileBuilder Alignment.

Lemma sumOfPairsWeight_None (a b c : ascii) :
  Blosum62.sumOfPairsWeight a b c = None
  ↔ Blosum62.getScore a b = None ∨ Blosum62.getScore b c = None
    ∨ Blosum62.getScore a c = None.
Proof.
  unfold Blosum62.sumOfPairsWeight.
  destruct (Blosum62.getScore a b), (Blosum62.getScore b c), (Blosum62.getScore a c);
    simpl; split; try tauto; try discriminate; intros [H|[H|H]]; discriminate H.
Qed.

Lemma columnEdge_None (v : Loc) (col : ascii * ascii * ascii) :
  columnEdge v col = None
  ↔ Blosum62.sumOfPairsWeight (fst (fst col)) (snd (fst col)) (snd col) = None.
Proof.
  unfold columnEdge. destruct (Blosum62.sumOfPairsWeight _ _ _); simpl; split; done.
Qed.

(** The builder writes no file exactly when a column of a vertex has no
    weight. *)
Lemma buildGraphFile_None (seq1 seq2 seq3 : list ascii) :
  buildGraphFile seq1 seq2 seq3 = None
  ↔ ∃ i j k col,
      (i ≤ length seq1 ∧ j ≤ length seq2 ∧ k ≤ length seq3)%nat
      ∧ col ∈ columnsAt (residueAt seq1 i) (residueAt seq2 j) (residueAt seq3 k)
      ∧ Blosum62.sumOfPairsWeight (fst (fst col)) (snd (fst col)) (snd col) = None.
Proof.
  unfold buildGraphFile. rewrite BuilderFacts.buildStreams_edgesAt.
  destruct (mapM (edgesAt seq1 seq2 seq3)
              (allVertices (length seq1) (length seq2) (length seq3))) as [ess|] eqn:Hm;
    simpl.
  - split; [discriminate|]. intros (i & j & k & col & Hin & Hcol & Hw).
    apply mapM_Some in Hm.
    assert (Hv : (i, j, k) ∈ allVertices (length seq1) (length seq2) (length seq3))
      by by apply BuilderFacts.elem_of_allVertices.
    apply list_elem_of_lookup in Hv as [n Hn].
    destruct (Forall2_lookup_l _ _ _ _ _ Hm Hn) as (es & _ & Hes).
    rewrite BuilderFacts.edgesAt_columns in Hes
      by by apply BuilderFacts.elem_of_allVertices.
    assert (Hnone : mapM (columnEdge (i, j, k))
                      (columnsAt (residueAt seq1 i) (residueAt seq2 j) (residueAt seq3 k))
                    = None).
    { apply mapM_None_2, Exists_exists. exists col. split; [exact Hcol|].
      by apply columnEdge_None. }
    simpl in Hes. congruence.
  - split; [|done]. intros _.
    apply mapM_None_1, Exists_exists in Hm as ([[i j] k] & Hv & Hnone).
    rewrite BuilderFacts.edgesAt_columns in Hnone by exact Hv.
    apply mapM_None_1, Exists_exists in Hnone as (col & Hcol & Hc).
    exists i, j, k, col. split; [by apply BuilderFacts.elem_of_allVertices|].
    split; [exact Hcol|]. by apply (columnEdge_None (i, j, k)).
Qed.

Lemma residue_elem (s : list ascii) (i : nat) (c : ascii) :
  c = gapChar ∨ residueAt s i = Some c → c ≠ gapChar → c ∈ s.
Proof.
  intros [->|Hr] Hne; [done|].
  apply BuilderFacts.residueAt_Some in Hr as [_ Hr]. by eapply list_elem_of_lookup_2.
Qed.

Lemma residueAt_elem (s : list ascii) (a : ascii) :
  a ∈ s → ∃ i, (i < length s)%nat ∧ residueAt s i = Some a.
Proof.
  intros [i Hi]%list_elem_of_lookup. exists i.
  pose proof (lookup_lt_Some _ _ _ Hi) as Hlt. split; [exact Hlt|].
  unfold residueAt. by rewrite bool_decide_eq_true_2.
Qed.

(** X26. The builder writes no file (an exception of [residueMap.at]
    leaves it) exactly when two of the three sequences hold residues that
    cannot be scored against each other: neither is the gap character and
    one of them is outside the alphabet of the matrix. A residue outside
    the alphabet does no harm as long as the other two sequences hold
    nothing but gap characters. *)
Theorem builder_throws (seq1 seq2 seq3 : list ascii) :
  buildGraphFile seq1 seq2 seq3 = None
  ↔ clash seq1 seq2 ∨ clash seq2 seq3 ∨ clash seq1 seq3.
Proof.
  rewrite buildGraphFile_None. split.
  - intros (i & j & k & col & _ & Hcol & Hw).
    apply BuilderFacts.columnsAt_elem in Hcol as (C1 & C2 & C3 & _).
    apply sumOfPairsWeight_None in Hw as [H|[H|H]];
      apply ScoreFacts.getScore_None in H as (Ha & Hb & Hor).
    + left. exists (fst (fst col)), (snd (fst col)).
      split; [by eapply residue_elem|]. split; [by eapply residue_elem|]. done.
    + right; left. exists (snd (fst col)), (snd col).
      split; [by eapply residue_elem|]. split; [by eapply residue_elem|]. done.
    + right; right. exists (fst (fst col)), (snd col).
      split; [by eapply residue_elem|]. split; [by eapply residue_elem|]. done.
  - intros [H|[H|H]]; destruct H as (a & b & Ha & Hb & Hga & Hgb & Hor);
      apply residueAt_elem in Ha as (i & Hi & Hra);
      apply residueAt_elem in Hb as (j & Hj & Hrb).
    + exists i, j, (length seq3), (a, b, gapChar).
      split; [lia|]. rewrite Hra, Hrb, (BuilderFacts.residueAt_ge seq3) by lia.
      split; [cbn; rewrite !elem_of_cons; tauto|].
      apply sumOfPairsWeight_None. left. by apply ScoreFacts.getScore_None.
    + exists (length seq1), i, j, (gapChar, a, b).
      split; [lia|]. rewrite Hra, Hrb, (BuilderFacts.residueAt_ge seq1) by lia.
      split; [cbn; rewrite !elem_of_cons; tauto|].
      apply sumOfPairsWeight_None. right; left. by apply ScoreFacts.getScore_None.
    + exists i, (length seq2), j, (a, gapChar, b).
      split; [lia|]. rewrite Hra, Hrb, (BuilderFacts.residueAt_ge seq2) by lia.
      split; [cbn; rewrite !elem_of_cons; tauto|].
      apply sumOfPairsWeight_None. right; right. by apply ScoreFacts.getScore_None.
Qed.

End BuilderErrors.

(** ** The sequences *)

Module FastaFacts.
Import FastaFile.

(** *** The reverse complement *)


Lemma fold_complement (s acc : list ascii) :
  foldl (λ ss c, ss ++ [complement c]) acc s = acc ++ (complement <$> s).
Proof.
  revert acc. induction s as [|c s IH]; intros acc; simpl.
  - by rewrite app_nil_r.
  - by rewrite IH, <- app_assoc.
Qed.


Lemma createReverseComplement_rev (s : list ascii) :
  createReverseComplement s = rev (complement <$> s).
Proof. unfold createReverseComplement. by rewrite fold_complement. Qed.


(** *** The counts of the bases *)

Lemma countBases_snoc (s : list ascii) (c : ascii) (counts : list Z) :
  countBases (s ++ [c]) counts = countBases [c] (countBases s counts).
Proof. unfold countBases. by rewrite foldl_app. Qed.

Lemma increment_small (n : Z) :
  - INT_MAX - 1 ≤ n → n + 1 ≤ INT_MAX → increment n = n + 1.
Proof.
  unfold increment, INT_MAX. intros Hlo Hhi.
  rewrite Z.mod_small by lia. lia.
Qed.

Lemma countBases_one (x : ascii) (a c g t n : Z) :
  let d := λ P : ascii → bool, if P x then 1 else 0 in
  let dA := d (λ x, bool_decide (x = "A"%char)) in
  let dC := d (λ x, bool_decide (x = "C"%char)) in
  let dG := d (λ x, bool_decide (x = "G"%char)) in
  let dT := d (λ x, bool_decide (x = "T"%char)) in
  let dN := d (λ x, bool_decide (x ∉ ["A"; "C"; "G"; "T"]%char)) in
  Forall (λ k, - INT_MAX - 1 ≤ k) [a; c; g; t; n] →
  Forall (λ k, k ≤ INT_MAX) [a + dA; c + dC; g + dG; t + dT; n + dN] →
  countBases [x] [a; c; g; t; n] = [a + dA; c + dC; g + dG; t + dT; n + dN].
Proof.
  cbv zeta. intros Hlo Hhi.
  apply Forall_cons in Hlo as [La Hlo]. apply Forall_cons in Hlo as [Lc Hlo].
  apply Forall_cons in Hlo as [Lg Hlo]. apply Forall_cons in Hlo as [Lt Hlo].
  apply Forall_cons in Hlo as [Ln _].
  apply Forall_cons in Hhi as [Ua Hhi]. apply Forall_cons in Hhi as [Uc Hhi].
  apply Forall_cons in Hhi as [Ug Hhi]. apply Forall_cons in Hhi as [Ut Hhi].
  apply Forall_cons in Hhi as [Un _].
  revert Ua Uc Ug Ut Un. unfold countBases. cbn [foldl].
  destruct (decide (x = "A"%char)) as [->|HA].
  { simpl. intros. rewrite increment_small by lia. by rewrite !Z.add_0_r. }
  rewrite (bool_decide_eq_false_2 (x = "A"%char)) by done.
  destruct (decide (x = "C"%char)) as [->|HC].
  { simpl. intros. rewrite increment_small by lia. by rewrite !Z.add_0_r. }
  rewrite (bool_decide_eq_false_2 (x = "C"%char)) by done.
  destruct (decide (x = "G"%char)) as [->|HG].
  { simpl. intros. rewrite increment_small by lia. by rewrite !Z.add_0_r. }
  rewrite (bool_decide_eq_false_2 (x = "G"%char)) by done.
  destruct (decide (x = "T"%char)) as [->|HT].
  { simpl. intros. rewrite increment_small by lia. by rewrite !Z.add_0_r. }
  rewrite (bool_decide_eq_false_2 (x = "T"%char)) by done.
  rewrite bool_decide_eq_true_2.
  - simpl. intros. rewrite increment_small by lia. by rewrite !Z.add_0_r.
  - rewrite !elem_of_cons, elem_of_nil. tauto.
Qed.

Lemma count_snoc (P : ascii → bool) (s : list ascii) (x : ascii) :
  Z.of_nat (length (List.filter P (s ++ [x])))
  = Z.of_nat (length (List.filter P s)) + (if P x then 1 else 0).
Proof.
  rewrite List.filter_app, length_app. simpl. destruct (P x); simpl; lia.
Qed.

(** X28. Given five counters that are [int]s, and a sequence that does not
    take any of them past [INT_MAX], [countBases] adds to them the numbers
    of [A], of [C], of [G], of [T] and of the other characters of the
    sequence; the five numbers add up to the length of the sequence. *)
Theorem countBases_counts (s : list ascii) (a c g t n : Z) :
  let count := λ P : ascii → bool, Z.of_nat (length (List.filter P s)) in
  let nA := count (λ x, bool_decide (x = "A"%char)) in
  let nC := count (λ x, bool_decide (x = "C"%char)) in
  let nG := count (λ x, bool_decide (x = "G"%char)) in
  let nT := count (λ x, bool_decide (x = "T"%char)) in
  let nN := count (λ x, bool_decide (x ∉ ["A"; "C"; "G"; "T"]%char)) in
  Forall (λ k, - INT_MAX - 1 ≤ k) [a; c; g; t; n] →
  Forall (λ k, k ≤ INT_MAX) [a + nA; c + nC; g + nG; t + nT; n + nN] →
  countBases s [a; c; g; t; n] = [a + nA; c + nC; g + nG; t + nT; n + nN]
  ∧ nA + nC + nG + nT + nN = Z.of_nat (length s).
Proof.
  cbv zeta. intros Hlo. induction s as [|x s IH] using rev_ind; intros Hhi.
  - simpl. split; [|done]. by rewrite !Z.add_0_r.
  - rewrite !count_snoc in Hhi. rewrite !count_snoc, length_app.
    pose proof Hlo as Hlo'. pose proof Hhi as Hhi'.
    apply Forall_cons in Hlo' as [La Hlo']. apply Forall_cons in Hlo' as [Lc Hlo'].
    apply Forall_cons in Hlo' as [Lg Hlo']. apply Forall_cons in Hlo' as [Lt Hlo'].
    apply Forall_cons in Hlo' as [Ln _].
    apply Forall_cons in Hhi' as [Ua Hhi']. apply Forall_cons in Hhi' as [Uc Hhi'].
    apply Forall_cons in Hhi' as [Ug Hhi']. apply Forall_cons in Hhi' as [Ut Hhi'].
    apply Forall_cons in Hhi' as [Un _].
    assert (Hd : ∀ b : bool, 0 ≤ (if b then 1 else 0)) by (intros []; lia).
    destruct IH as [IH Hsum].
    { repeat constructor.
      - pose proof (Hd (bool_decide (x = "A"%char))). lia.
      - pose proof (Hd (bool_decide (x = "C"%char))). lia.
      - pose proof (Hd (bool_decide (x = "G"%char))). lia.
      - pose proof (Hd (bool_decide (x = "T"%char))). lia.
      - pose proof (Hd (bool_decide (x ∉ ["A"; "C"; "G"; "T"]%char))). lia. }
    rewrite countBases_snoc, IH. split.
    + rewrite countBases_one.
      * by rewrite !Z.add_assoc.
      * repeat constructor; lia.
      * rewrite <- !Z.add_assoc. exact Hhi.
    + simpl.
      destruct (decide (x = "A"%char)) as [->|HA]; [simpl; lia|].
      rewrite (bool_decide_eq_false_2 (x = "A"%char)) by done.
      destruct (decide (x = "C"%char)) as [->|HC]; [simpl; lia|].
      rewrite (bool_decide_eq_false_2 (x = "C"%char)) by done.
      destruct (decide (x = "G"%char)) as [->|HG]; [simpl; lia|].
      rewrite (bool_decide_eq_false_2 (x = "G"%char)) by done.
      destruct (decide (x = "T"%char)) as [->|HT]; [simpl; lia|].
      rewrite (bool_decide_eq_false_2 (x = "T"%char)) by done.
      rewrite bool_decide_eq_true_2; [lia|].
      rewrite !elem_of_cons, elem_of_nil. tauto.
Qed.

Lemma countBases_counts_witness :
  countBases ["G"; "A"; "T"; "T"; "A"; "C"; "A"; "N"]%char [0; 0; 0; 0; 0]
  = [0 + 3; 0 + 1; 0 + 1; 0 + 2; 0 + 1]
  ∧ 3 + 1 + 1 + 2 + 1 = 8.
Proof.
  apply (countBases_counts ["G"; "A"; "T"; "T"; "A"; "C"; "A"; "N"]%char 0 0 0 0 0).
  - repeat constructor; vm_compute; discriminate.
  - repeat constructor; vm_compute; discriminate.
Defined.

(** *** The sequence of a file *)

Lemma fold_lines (ls : list string) (acc : list ascii) :
  foldl (λ ss line, ss ++ String.list_ascii_of_string line) acc ls
  = acc ++ mjoin (String.list_ascii_of_string <$> ls).
Proof.
  revert acc. induction ls as [|l ls IH]; intros acc; simpl.
  - by rewrite app_nil_r.
  - by rewrite IH, <- app_assoc.
Qed.

(** X29. The sequence of a file is the text of its lines after the first,
    put end to end: the first line is no part of it, and where the lines
    break makes no difference. A file with no line, or with one line, has
    the empty sequence. The reverse complement is made only for a DNA
    file. *)
Theorem populate_sequence (isDna : bool) (fileLines : list string) :
  sequence (populate isDna fileLines)
  = mjoin (String.list_ascii_of_string <$> tail fileLines)
  ∧ firstLine (populate isDna fileLines) = default EmptyString (head fileLines)
  ∧ reverseComplement (populate isDna fileLines)
    = (if isDna then rev (complement <$> sequence (populate isDna fileLines)) else [])
  ∧ (∀ header header' ls ls',
       mjoin (String.list_ascii_of_string <$> ls)
       = mjoin (String.list_ascii_of_string <$> ls') →
       sequence (populate isDna (header :: ls))
       = sequence (populate isDna (header' :: ls')))
  ∧ getSequenceLength (populate isDna fileLines)
    = sum_list (String.length <$> tail fileLines).
Proof.
  unfold populate, getSequenceLength. cbn [sequence firstLine reverseComplement].
  rewrite !fold_lines. cbn [app]. split; [done|]. split; [by destruct fileLines|].
  split; [destruct isDna; [apply createReverseComplement_rev|done]|].
  split.
  - intros header header' ls ls' Heq. cbn [tail]. by rewrite !fold_lines.
  - generalize (tail fileLines). intros ls. induction ls as [|l ls IH]; [done|].
    cbn [fmap list_fmap mjoin list_join sum_list sum_list_with].
    rewrite length_app. f_equal; [|exact IH].
    clear. induction l as [|c l IH]; [done|]. simpl. by rewrite IH.
Qed.

End FastaFacts.
(** ** The report under an end constraint *)

Module EndFacts.
Import WDAGraph GraphState GraphFile Paths.

(** C3, amended. On a loaded graph with an end constraint,
    [findHighestWeightPath] returns and always records a best vertex, one
    that carries the label of the end vertex or, under a start constraint,
    of the start vertex. Where the labels of the graph are distinct and
    every edge goes from a vertex to a vertex listed after it, the report
    returns, within as many steps of its walks as there are vertices, and
    it is a found path with the weight of that vertex as its score,
    whatever that weight, [INT_MIN] included. On any graph, a report that
    returns after such a search is a found path with that score; the
    no-path-found state is what is reported when no vertex is recorded, and
    only then. *)
Theorem end_constraint_reports_path (atof : string → Z)
    (lines : list (list string)) (g : t) :
  buildGraph atof lines = Some g →
  endNode g ≠ None →
  ∃ g' h hv,
    findHighestWeightPath g = Some g'
    ∧ highestWeightNode g' = Some h ∧ vertices g' !! h = Some hv
    ∧ (endLabel g = Some (Vertex.label hv) ∨ startLabel g = Some (Vertex.label hv))
    ∧ (NoDup (labels g) →
       Forall (λ e, (Edge.start e < Edge.end_ e)%nat) (edgeHeap g) →
       ∃ beginning path r,
         pathInfo r = PathFound (Vertex.weight hv) beginning (Vertex.label hv) path
         ∧ ∀ fuel, (length (vertices g) ≤ fuel)%nat → resultString fuel g' = Some r)
    ∧ (∀ fuel r, resultString fuel g' = Some r →
         ∃ beginning path,
           pathInfo r = PathFound (Vertex.weight hv) beginning (Vertex.label hv) path)
    ∧ (∀ fuel (g'' : t), highestWeightNode g'' = None →
         ∃ r, resultString fuel g'' = Some r ∧ pathInfo r = NoPathFound)
    ∧ (∀ fuel r (g'' : t), resultString fuel g'' = Some r →
         (pathInfo r = NoPathFound ↔ highestWeightNode g'' = None)).
Proof.
  intros Hb Hend.
  destruct (GraphFacts.buildGraph_wellFormed _ _ _ Hb) as [W Hnone].
  destruct (GraphFacts.findHighestWeightPath_defined g W
              (GraphFacts.highestValid_None g Hnone)) as (g' & Hrun & W' & HV').
  destruct (GraphFacts.endConstraint_final g g' W Hrun Hnone)
    as (He & h & l & Hh & Hl & Hor).
  { unfold isEndConstrained. by apply bool_decide_eq_true. }
  destruct (lookup_lt_is_Some_2 _ _ (HV' h Hh)) as [hv Hhv].
  assert (l = Vertex.label hv) as ->.
  { rewrite <- (GraphFacts.erase_labels _ _ He) in Hl.
    rewrite (GraphFacts.labels_lookup _ _ _ Hhv) in Hl. by injection Hl. }
  pose proof (GraphFacts.erase_length _ _ He) as Hlen.
  exists g', h, hv. do 4 (split; [done|]). split; [|split; [|split]].
  - intros Hnd Hord.
    destruct (PathFacts.run_report atof lines g g' h hv (length (vertices g'))
                Hb Hnd Hord Hrun Hh Hhv ltac:(lia))
      as (es & root & rv & Hwalk & Hroot & _ & _ & _ & _ & _ & _).
    exists (Vertex.label rv), (reverseString (written es)),
      {| edge_weights := edgeWeights g; edge_histogram := edgeFrequencies g;
         pathInfo := PathFound (Vertex.weight hv) (Vertex.label rv)
                       (Vertex.label hv) (reverseString (written es)) |}.
    split; [reflexivity|]. intros fuel Hfuel.
    assert (Hwalk' : walkEdges fuel g' h = Some (es, root))
      by (eapply PathFacts.walkEdges_mono; [exact Hwalk|lia]).
    destruct (PathFacts.run_report atof lines g g' h hv fuel Hb Hnd Hord Hrun Hh Hhv
                ltac:(lia))
      as (es' & root' & rv' & Hwalk'' & Hroot' & _ & _ & _ & _ & _ & Hres).
    rewrite Hwalk' in Hwalk''. injection Hwalk'' as <- <-.
    rewrite Hroot in Hroot'. injection Hroot' as <-. exact Hres.
  - intros fuel r Hr. unfold resultString in Hr. rewrite Hh, Hhv in Hr. simpl in Hr.
    destruct (getPathStartNodeLabel fuel g') as [b|]; simpl in Hr; [|discriminate].
    destruct (getPath fuel g') as [p|]; simpl in Hr; [|discriminate].
    injection Hr as <-. by exists b, p.
  - intros fuel g'' Hn. unfold resultString. rewrite Hn. eexists. split; reflexivity.
  - intros fuel r g'' Hr. unfold resultString in Hr.
    destruct (highestWeightNode g'') as [k|]; simpl in Hr.
    + destruct (vertices g'' !! k) as [kv|]; simpl in Hr; [|discriminate].
      destruct (getPathStartNodeLabel fuel g'') as [b|]; simpl in Hr; [|discriminate].
      destruct (getPath fuel g'') as [p|]; simpl in Hr; [|discriminate].
      injection Hr as <-. simpl. split; discriminate.
    + injection Hr as <-. done.
Qed.

Lemma end_constraint_reports_path_witness :
  ∃ g, buildGraph Samples.atofInteger Samples.constrainedPath = Some g
  ∧ endNode g ≠ None
  ∧ NoDup (labels g)
  ∧ Forall (λ e, (Edge.start e < Edge.end_ e)%nat) (edgeHeap g)
  ∧ ∃ g' h hv,
    findHighestWeightPath g = Some g'
    ∧ highestWeightNode g' = Some h ∧ vertices g' !! h = Some hv
    ∧ (endLabel g = Some (Vertex.label hv) ∨ startLabel g = Some (Vertex.label hv))
    ∧ (NoDup (labels g) →
       Forall (λ e, (Edge.start e < Edge.end_ e)%nat) (edgeHeap g) →
       ∃ beginning path r,
         pathInfo r = PathFound (Vertex.weight hv) beginning (Vertex.label hv) path
         ∧ ∀ fuel, (length (vertices g) ≤ fuel)%nat → resultString fuel g' = Some r)
    ∧ (∀ fuel r, resultString fuel g' = Some r →
         ∃ beginning path,
           pathInfo r = PathFound (Vertex.weight hv) beginning (Vertex.label hv) path)
    ∧ (∀ fuel (g'' : t), highestWeightNode g'' = None →
         ∃ r, resultString fuel g'' = Some r ∧ pathInfo r = NoPathFound)
    ∧ (∀ fuel r (g'' : t), resultString fuel g'' = Some r →
         (pathInfo r = NoPathFound ↔ highestWeightNode g'' = None)).
Proof.
  pose (g := default empty (buildGraph Samples.atofInteger Samples.constrainedPath)).
  assert (Hb : buildGraph Samples.atofInteger Samples.constrainedPath = Some g)
    by (vm_compute; reflexivity).
  exists g. split; [exact Hb|].
  split; [vm_compute; discriminate|].
  split; [vm_compute; compute_done|].
  split; [vm_compute; repeat constructor; simpl; lia|].
  apply (end_constraint_reports_path Samples.atofInteger Samples.constrainedPath g Hb).
  vm_compute. discriminate.
Defined.

End EndFacts.
